(** * Toil batch-system adapters: AWS Batch and LSF

    A shallow embedding of [toil/batchSystems/awsBatch.py] and of
    [LSFBatchSystem.Worker.getJobExitCode] from [toil/batchSystems/lsf.py],
    with the properties of the adapter layer proved over it.

    Conventions of the embedding:
    - Python [str] is [string]; a character is a code point below 256.
    - Python [int] is [Z]; Python [float] is idealised as an exact rational [Q].
    - [Dict] keeps insertion order, as Python dictionaries do; it is an
      association list.  [Set[str]] is a [gset string].
    - Methods that touch the backend, the clock or the instance state are
      computations of the monad [M]: they thread the instance and the outside
      world explicitly and may raise. *)

From Stdlib Require Import ZArith QArith Qround Qminmax Lqa Lia.
From Stdlib Require Import String Ascii List Bool.
From stdpp Require Import base decidable option list strings gmap pretty.
Import ListNotations.

Local Open Scope string_scope.
Local Open Scope list_scope.

Set Default Proof Using "Type*".

(** ** Python built-ins used by the adapters *)

Module Py.

Definition ord (c : ascii) : N := N_of_ascii c.

Definition between (lo hi n : N) : bool := ((lo <=? n) && (n <=? hi))%N.

(** [str.isalnum] on one character: the code points below 256 for which
    CPython answers [True]. *)
Definition isalnum (c : ascii) : bool :=
  let n := ord c in
  between 48 57 n || between 65 90 n || between 97 122 n
  || between 170 170 n || between 178 179 n || between 181 181 n
  || between 185 186 n || between 188 190 n || between 192 214 n
  || between 216 246 n || between 248 255 n.

(** [s.replace(old, new)] for one-character [old] and [new]. *)
Fixpoint replace (old new : ascii) (s : string) : string :=
  match s with
  | EmptyString => EmptyString
  | String c s' =>
      String (if Ascii.eqb c old then new else c) (replace old new s')
  end.

(** [''.join(chars)] and [list(s)]. *)
Definition join (chars : list ascii) : string := string_of_list_ascii chars.
Definition chars (s : string) : list ascii := list_ascii_of_string s.

(** [s.startswith(p)]. *)
Fixpoint startswith (p s : string) : bool :=
  match p, s with
  | EmptyString, _ => true
  | String a p', String b s' => Ascii.eqb a b && startswith p' s'
  | String _ _, EmptyString => false
  end.

(** [s.find(sub) > -1]: [sub] occurs in [s]. *)
Fixpoint contains (sub s : string) : bool :=
  startswith sub s ||
  match s with
  | EmptyString => false
  | String _ s' => contains sub s'
  end.

(** [str(n)] for an [int]. *)
Definition str (n : Z) : string := pretty n.

(** [l[-n:]] for [n > 0] and [l[:-n]]. *)
Definition last_n {A} (n : nat) (l : list A) : list A :=
  skipn (length l - n) l.
Definition drop_last_n {A} (n : nat) (l : list A) : list A :=
  firstn (length l - n) l.

End Py.

(** ** Job names: [AWSBatchBatchSystem._ensafen_name] *)

Definition _ensafen_name (input_name : string) : string :=
  (* Do replacements to enhance readability *)
  let input_name := Py.replace " " "-" input_name in
  (* Keep only acceptable characters *)
  let kept_chars :=
    List.filter (fun c => Py.isalnum c || Ascii.eqb c "-" || Ascii.eqb c "_")
                (Py.chars input_name) in
  let kept_chars :=
    if (length kept_chars =? 0)%nat
       || negb (match kept_chars with c :: _ => Py.isalnum c | [] => false end)
    then "j"%char :: kept_chars
    else kept_chars in
  (* Keep no more than the limit of them *)
  let kept_chars := firstn 128 kept_chars in
  Py.join kept_chars.

(** The four steps of the sanitization algorithm, one function per sentence
    of the specification, to be compared with [_ensafen_name]. *)
Module NameSpec.

Definition allowed (c : ascii) : bool :=
  Py.isalnum c || Ascii.eqb c "-" || Ascii.eqb c "_".

Definition replace_spaces (s : string) : string := Py.replace " " "-" s.

Fixpoint drop_disallowed (s : string) : string :=
  match s with
  | EmptyString => EmptyString
  | String c s' =>
      if allowed c then String c (drop_disallowed s') else drop_disallowed s'
  end.

Definition filler : ascii := "j".

Definition prepend_filler (s : string) : string :=
  match s with
  | EmptyString => String filler EmptyString
  | String c _ => if Py.isalnum c then s else String filler s
  end.

Fixpoint truncate (n : nat) (s : string) : string :=
  match n, s with
  | O, _ => EmptyString
  | S _, EmptyString => EmptyString
  | S n', String c s' => String c (truncate n' s')
  end.

Definition max_length : nat := 128.

Definition sanitize (s : string) : string :=
  truncate max_length (prepend_filler (drop_disallowed (replace_spaces s))).

End NameSpec.

(** ** Insertion-ordered dictionaries

    [d[k]], [d[k] = v], [del d[k]], [k in d], [d.keys()], [d.items()] and
    [d.update(other)] of a Python [dict].  A lookup or a deletion of a missing
    key is [None] here and [KeyError] in the callers. *)

Module Dict.
Section Ops.
Context {K V : Type} `{EqDecision K}.

Fixpoint get (k : K) (d : list (K * V)) : option V :=
  match d with
  | [] => None
  | (k', v) :: d' => if decide (k = k') then Some v else get k d'
  end.

Definition mem (k : K) (d : list (K * V)) : bool :=
  match get k d with Some _ => true | None => false end.

Fixpoint set (k : K) (v : V) (d : list (K * V)) : list (K * V) :=
  match d with
  | [] => [(k, v)]
  | (k', v') :: d' =>
      if decide (k = k') then (k, v) :: d' else (k', v') :: set k v d'
  end.

Fixpoint remove (k : K) (d : list (K * V)) : list (K * V) :=
  match d with
  | [] => []
  | (k', v) :: d' =>
      if decide (k = k') then remove k d' else (k', v) :: remove k d'
  end.

Definition del (k : K) (d : list (K * V)) : option (list (K * V)) :=
  if mem k d then Some (remove k d) else None.

Definition keys (d : list (K * V)) : list K := map fst d.

Definition update (other d : list (K * V)) : list (K * V) :=
  fold_left (fun acc kv => set (fst kv) (snd kv) acc) other d.
End Ops.
End Dict.

(** ** Data exchanged with the scheduler and with AWS Batch *)

(** Modelled from the spec: the exit reasons of a CompletionEvent
    ([BatchJobExitReason] lives in [abstractBatchSystem], which is not part of
    these sources). *)
Inductive BatchJobExitReason := FINISHED | FAILED | KILLED | LOST.

Record UpdatedBatchJobInfo := {
  jobID : Z;
  exitStatus : Z;
  wallTime : option Q;
  exitReason : BatchJobExitReason
}.

(** The part of a [JobDescription] the adapter reads; [job_str] is
    [str(job_desc)]. *)
Record JobDescription := {
  job_str : string;
  command : string;
  memory : Z;
  cores : Q;
  disk : Z
}.

(** An AWS Batch JobDetail, a dictionary in which every key but [jobId] may
    be missing. *)
Record Container := { exitCode : option Z }.

Record JobDetail := {
  jobId : string;
  status : option string;
  startedAt : option Z;
  stoppedAt : option Z;
  container : option Container;
  statusReason : option string
}.

Record ResourceRequirement := { rr_type : string; rr_value : string }.

Record JobSpec := {
  jobName : string;
  jobQueue : string;
  jobDefinition : string;
  co_command : list string;
  co_environment : list (string * string);
  co_resourceRequirements : list ResourceRequirement;
  tags : option (list (string * string))
}.

Record JobDefSpec := {
  jobDefinitionName : string;
  cp_image : string;
  cp_mountPoint : string;
  cp_resourceRequirements : list ResourceRequirement;
  cp_jobRoleArn : option string;
  jd_tags : option (list (string * string))
}.

(** Map from AWS Batch terminal states to Toil batch job exit reasons. *)
Definition STATE_TO_EXIT_REASON : list (string * BatchJobExitReason) :=
  [("SUCCEEDED", FINISHED); ("FAILED", FAILED)].

(** What's the max polling list size? *)
Definition MAX_POLL_COUNT : nat := 100.
(** AWS batch won't accept API requests asking for less than this much memory. *)
Definition MIN_REQUESTABLE_MIB : Z := 4.
(** AWS batch won't accept API requests asking for less than this many CPUs. *)
Definition MIN_REQUESTABLE_CORES : Z := 1.

(** Modelled from the spec: [toil.lib.conversions.b_to_mib] is not part of
    these sources; it converts a number of bytes to mebibytes (MiB), as a
    float. *)
Definition b_to_mib (n : Z) : Q := inject_Z n / inject_Z (1024 * 1024).

(** [math.ceil]. *)
Definition ceil (x : Q) : Z := Qceiling x.

(** The two [resourceRequirements] entries of a submission (lines 199-202),
    also used for the placeholders of the job definition (lines 425-428). *)
Definition resourceRequirements (memory : Z) (cores : Q)
  : list ResourceRequirement :=
  [ {| rr_type := "MEMORY";
       rr_value := Py.str (Z.max MIN_REQUESTABLE_MIB (ceil (b_to_mib memory))) |};
    {| rr_type := "VCPU";
       rr_value := Py.str (Z.max MIN_REQUESTABLE_CORES (ceil cores)) |} ].

(** A Python truth test on an optional string ([if self.owner_tag:]). *)
Definition truthy_str (s : option string) : bool :=
  match s with
  | Some EmptyString | None => false
  | Some _ => true
  end.

Definition status_in (jd : JobDetail) (l : list string) : bool :=
  match status jd with
  | Some st => bool_decide (st ∈ l)
  | None => false
  end.

(** ** The instance, the outside world and the monad of methods *)

Inductive exn :=
| KeyError
| TypeError
| BotoServerError
| ClientError
| InsufficientSystemResources.

Global Instance exn_eq_dec : EqDecision exn.
Proof. solve_decision. Defined.

(** How a call ends: it returns, it raises, or the model ran out of the fuel
    that bounds its [while] loops. *)
Inductive outcome (A : Type) :=
| Ret (a : A)
| Raise (e : exn)
| OutOfFuel.
Arguments Ret {A} a.
Arguments Raise {A} e.
Arguments OutOfFuel {A}.

(** Attributes of [AWSBatchBatchSystem] set once by [__init__]. *)
Record Settings := {
  queue : string;
  job_role_arn : option string;
  owner_tag : option string;
  worker_work_dir : string;
  docker_image : string;
  defaultMemory : Z;
  defaultCores : Q;
  environment : list (string * string);
  user_script : option string
}.

(** The mutable attributes.  [jobIndex] is the counter behind
    [getNextJobID]. *)
Record AWSBatchBatchSystem := {
  settings : Settings;
  job_definition : option string;
  bs_id_to_aws_id : list (Z * string);
  aws_id_to_bs_id : list (string * Z);
  killed_job_aws_ids : gset string;
  jobIndex : Z
}.

(** What the adapter did, in order: its backend calls with their results,
    its sleeps (with the clock reading when the sleep starts), the warnings of
    [getRunningBatchJobIDs], the registry pairs recorded and dropped, and the
    completions [getUpdatedBatchJob] returned for remote jobs. *)
Inductive event :=
| EvSubmit (spec : JobSpec) (r : exn + string)
| EvDescribe (jobs : list string) (r : exn + list JobDetail)
| EvTerminate (aws_id : string) (r : exn + unit)
| EvRegister (spec : JobDefSpec) (r : exn + string)
| EvDeregister (arn : string) (r : exn + unit)
| EvSleep (now seconds : Q)
| EvWarning (bs_id : Z) (detail : JobDetail)
| EvRecorded (aws_id : string) (bs_id : Z)
| EvDropped (aws_id : string) (bs_id : Z)
| EvUpdated (aws_id : string) (info : UpdatedBatchJobInfo).

(** Everything outside the class: the boto3 Batch client, the clock, the
    local-job delegate of [BatchSystemLocalSupport], the resource check of
    [BatchSystemSupport], and the constants and helpers imported from modules
    that are not part of these sources.  [W] is the state of that world. *)
Class Backend (W : Type) := {
  client_submit_job : JobSpec -> W -> (exn + string) * W;
  client_describe_jobs : list string -> W -> (exn + list JobDetail) * W;
  client_terminate_job : string -> string -> W -> (exn + unit) * W;
  client_register_job_definition : JobDefSpec -> W -> (exn + string) * W;
  client_deregister_job_definition : string -> W -> (exn + unit) * W;
  (** [datetime.datetime.now()], in seconds, and [unix_now_ms()] *)
  datetime_now : W -> Q;
  unix_now_ms : W -> Z;
  time_sleep : Q -> W -> W;
  uuid4 : W -> string * W;
  handleLocalJob : JobDescription -> W -> (exn + option Z) * W;
  getUpdatedLocalJob : Z -> W -> (exn + option UpdatedBatchJobInfo) * W;
  (** the ids of the jobs the local delegate holds; reading them changes
      nothing *)
  getIssuedLocalJobIDs : W -> list Z;
  killLocalJobs : list Z -> W -> (exn + unit) * W;
  shutdownLocal : W -> (exn + unit) * W;
  checkResourceRequest : Z -> Q -> Z -> W -> (exn + unit) * W;
  (** [base64.b64encode(pickle.dumps(job, ...)).decode('utf-8')] of the job
      dictionary made of the command and the optional user script *)
  encode_job : string -> option string -> string;
  EXIT_STATUS_UNAVAILABLE_VALUE : Z;
  (** the floor applied by [slow_down] *)
  epsilon : Q;
  (** the waits between the attempts of a call decorated with [retry] *)
  retry_intervals : list Q
}.

Record state (W : Type) := {
  world : W;
  self : AWSBatchBatchSystem;
  trace : list event
}.
Arguments world {W} s.
Arguments self {W} s.
Arguments trace {W} s.

Definition M (W A : Type) : Type := state W -> outcome A * state W.

Definition ret {W A} (a : A) : M W A := fun s => (Ret a, s).

Definition raise {W A} (e : exn) : M W A := fun s => (Raise e, s).

Definition out_of_fuel {W A} : M W A := fun s => (OutOfFuel, s).

Definition bind {W A B} (m : M W A) (k : A -> M W B) : M W B :=
  fun s =>
    match m s with
    | (Ret a, s') => k a s'
    | (Raise e, s') => (Raise e, s')
    | (OutOfFuel, s') => (OutOfFuel, s')
    end.

Notation "x <~ m ;; k" := (bind m (fun x => k))
  (at level 100, m at next level, right associativity).
Notation "m ;;; k" := (bind m (fun _ => k))
  (at level 100, right associativity).

(** [for x in l: body(x)] *)
Fixpoint for_ {W A} (l : list A) (body : A -> M W unit) : M W unit :=
  match l with
  | [] => ret tt
  | x :: l' => body x ;;; for_ l' body
  end.

Definition get_self {W} : M W AWSBatchBatchSystem := fun s => (Ret (self s), s).

Definition get_world {W A} (f : W -> A) : M W A := fun s => (Ret (f (world s)), s).

Definition put_self {W} (b : AWSBatchBatchSystem) : M W unit :=
  fun s => (Ret tt, {| world := world s; self := b; trace := trace s |}).

Definition log {W} (e : event) : M W unit :=
  fun s => (Ret tt, {| world := world s; self := self s; trace := trace s ++ [e] |}).

(** A call into the world that may raise. *)
Definition call {W A} (f : W -> (exn + A) * W) : M W A :=
  fun s =>
    let (r, w) := f (world s) in
    let s' := {| world := w; self := self s; trace := trace s |} in
    match r with
    | inr a => (Ret a, s')
    | inl e => (Raise e, s')
    end.

(** A backend call, written to the trace with its result. *)
Definition client_call {W A} (f : W -> (exn + A) * W) (ev : exn + A -> event)
  : M W A :=
  fun s =>
    let (r, w) := f (world s) in
    let s' := {| world := w; self := self s; trace := trace s ++ [ev r] |} in
    match r with
    | inr a => (Ret a, s')
    | inl e => (Raise e, s')
    end.

(** Updates of single attributes. *)
Definition with_job_definition (v : option string) (b : AWSBatchBatchSystem) :=
  {| settings := settings b; job_definition := v;
     bs_id_to_aws_id := bs_id_to_aws_id b; aws_id_to_bs_id := aws_id_to_bs_id b;
     killed_job_aws_ids := killed_job_aws_ids b; jobIndex := jobIndex b |}.

Definition with_bs_id_to_aws_id (v : list (Z * string)) (b : AWSBatchBatchSystem) :=
  {| settings := settings b; job_definition := job_definition b;
     bs_id_to_aws_id := v; aws_id_to_bs_id := aws_id_to_bs_id b;
     killed_job_aws_ids := killed_job_aws_ids b; jobIndex := jobIndex b |}.

Definition with_aws_id_to_bs_id (v : list (string * Z)) (b : AWSBatchBatchSystem) :=
  {| settings := settings b; job_definition := job_definition b;
     bs_id_to_aws_id := bs_id_to_aws_id b; aws_id_to_bs_id := v;
     killed_job_aws_ids := killed_job_aws_ids b; jobIndex := jobIndex b |}.

Definition with_killed_job_aws_ids (v : gset string) (b : AWSBatchBatchSystem) :=
  {| settings := settings b; job_definition := job_definition b;
     bs_id_to_aws_id := bs_id_to_aws_id b; aws_id_to_bs_id := aws_id_to_bs_id b;
     killed_job_aws_ids := v; jobIndex := jobIndex b |}.

Definition with_jobIndex (v : Z) (b : AWSBatchBatchSystem) :=
  {| settings := settings b; job_definition := job_definition b;
     bs_id_to_aws_id := bs_id_to_aws_id b; aws_id_to_bs_id := aws_id_to_bs_id b;
     killed_job_aws_ids := killed_job_aws_ids b; jobIndex := v |}.

Definition modify_self {W} (f : AWSBatchBatchSystem -> AWSBatchBatchSystem)
  : M W unit :=
  fun s => (Ret tt, {| world := world s; self := f (self s); trace := trace s |}).

(** ** The methods of [AWSBatchBatchSystem] *)

Section Methods.
Context {W : Type} `{Backend W}.

(** [time.sleep(seconds)] *)
Definition sleep (seconds : Q) : M W unit :=
  fun s =>
    (Ret tt,
     {| world := time_sleep seconds (world s);
        self := self s;
        trace := trace s ++ [EvSleep (datetime_now (world s)) seconds] |}).

(** Modelled from the spec: the decorator [retry(errors=[BotoServerError])]
    of [toil.lib.retry], which is not part of these sources.  The call is
    attempted again, after a wait, when it raised the designated transient
    error, for a bounded number of attempts; any other error propagates at
    once, and so does the designated one when the attempts are used up. *)
Fixpoint retry_with {A} (intervals : list Q) (f : M W A) : M W A :=
  fun s =>
    match f s with
    | (Raise BotoServerError, s') =>
        match intervals with
        | [] => (Raise BotoServerError, s')
        | delay :: rest => (sleep delay ;;; retry_with rest f) s'
        end
    | r => r
    end.

Definition retry {A} (f : M W A) : M W A := retry_with retry_intervals f.

(** Modelled from the spec: [toil.lib.misc.slow_down] is not part of these
    sources; a runtime is floored at a small positive epsilon so that it is
    never reported as exactly zero. *)
Definition slow_down (seconds : Q) : Q := Qmax seconds epsilon.

(** Modelled from the spec: [getNextJobID] of [BatchSystemLocalSupport] is
    not part of these sources; internal job ids are assigned from a counter
    that only grows, so none is ever handed out twice. *)
Definition getNextJobID : M W Z :=
  b <~ get_self ;;
  put_self (with_jobIndex (jobIndex b + 1) b) ;;;
  ret (jobIndex b).

(** [_get_or_create_job_definition] (lines 405-445) *)
Definition _get_or_create_job_definition : M W string :=
  retry (
    b <~ get_self ;;
    match job_definition b with
    | None =>
        name <~ call (fun w => let (u, w') := uuid4 w in (inr u, w')) ;;
        let cfg := settings b in
        let job_def_spec :=
          {| jobDefinitionName := "toil-" ++ name;
             cp_image := docker_image cfg;
             cp_mountPoint := worker_work_dir cfg;
             (* Requirements will always be overridden but must be present anyway *)
             cp_resourceRequirements :=
               resourceRequirements (defaultMemory cfg) (defaultCores cfg);
             cp_jobRoleArn :=
               if truthy_str (job_role_arn cfg) then job_role_arn cfg else None;
             jd_tags :=
               match owner_tag cfg with
               | Some tag => if truthy_str (Some tag) then Some [("Owner", tag)] else None
               | None => None
               end |} in
        arn <~ client_call (client_register_job_definition job_def_spec)
                           (EvRegister job_def_spec) ;;
        modify_self (with_job_definition (Some arn)) ;;;
        ret arn
    | Some arn => ret arn
    end).

(** [_destroy_job_definition] (lines 447-457) *)
Definition _destroy_job_definition : M W unit :=
  retry (
    b <~ get_self ;;
    match job_definition b with
    | Some arn =>
        client_call (client_deregister_job_definition arn) (EvDeregister arn) ;;;
        modify_self (with_job_definition None)
    | None => ret tt
    end).

(** [issueBatchJob] (lines 150-220) *)
Definition issueBatchJob (job_desc : JobDescription)
    (job_environment : option (list (string * string))) : M W Z :=
  (* Try the job as local *)
  local_id <~ call (handleLocalJob job_desc) ;;
  match local_id with
  | Some local_id => ret local_id
  | None =>
      (* Check resource requirements (managed by BatchSystemSupport) *)
      call (checkResourceRequest (memory job_desc) (cores job_desc) (disk job_desc)) ;;;
      (* Make a batch system scope job ID *)
      bs_id <~ getNextJobID ;;
      let job_name := _ensafen_name (job_str job_desc) in
      b <~ get_self ;;
      let cfg := settings b in
      (* Determine job environment *)
      let env :=
        match job_environment with
        | Some (kv :: more) => Dict.update (kv :: more) (environment cfg)
        | _ => environment cfg
        end in
      let encoded_job := encode_job (command job_desc) (user_script cfg) in
      let command_list := ["_toil_contained_executor"; encoded_job] in
      definition <~ _get_or_create_job_definition ;;
      let job_spec :=
        {| jobName := job_name;
           jobQueue := queue cfg;
           jobDefinition := definition;
           co_command := command_list;
           co_environment := env;
           co_resourceRequirements :=
             resourceRequirements (memory job_desc) (cores job_desc);
           tags :=
             match owner_tag cfg with
             | Some tag => if truthy_str (Some tag) then Some [("Owner", tag)] else None
             | None => None
             end |} in
      (* Launch it and get back the AWS ID that we can use to poll the task. *)
      aws_id <~ client_call (client_submit_job job_spec) (EvSubmit job_spec) ;;
      (* Tie it to the numeric ID *)
      modify_self (fun b => with_bs_id_to_aws_id (Dict.set bs_id aws_id (bs_id_to_aws_id b)) b) ;;;
      modify_self (fun b => with_aws_id_to_bs_id (Dict.set aws_id bs_id (aws_id_to_bs_id b)) b) ;;;
      log (EvRecorded aws_id bs_id) ;;;
      ret bs_id
  end.

(** [_get_runtime] (lines 246-276); [now_ms] is what [unix_now_ms()] answers
    when the job has not stopped. *)
Definition _get_runtime (now_ms : Z) (job_detail : JobDetail) : option Q :=
  if negb (status_in job_detail ["STARTING"; "RUNNING"; "SUCCEEDED"; "FAILED"])
  then None (* Job is not running yet. *)
  else
    match startedAt job_detail with
    | None => None (* Job has no known start time *)
    | Some start_ms =>
        let end_ms :=
          match stoppedAt job_detail with
          | Some stopped => stopped
          | None => now_ms
          end in
        Some (slow_down (inject_Z (end_ms - start_ms) / 1000))
    end.

(** [_get_exit_code] (lines 278-286) *)
Definition _get_exit_code (job_detail : JobDetail) : Z :=
  match container job_detail with
  | Some c =>
      match exitCode c with
      | Some code => code
      | None => EXIT_STATUS_UNAVAILABLE_VALUE
      end
  | None => EXIT_STATUS_UNAVAILABLE_VALUE
  end.

(** The batches [_describe_jobs_in_batches] (lines 462-483) asks for, in
    order: the last [MAX_POLL_COUNT] ids first. *)
Fixpoint batches_of (fuel : nat) (to_check : list string) : list (list string) :=
  match fuel, to_check with
  | O, _ | _, [] => []
  | S fuel', _ :: _ =>
      let check_batch := Py.last_n MAX_POLL_COUNT to_check in
      let to_check := Py.drop_last_n (length check_batch) to_check in
      check_batch :: batches_of fuel' to_check
  end.

Definition describe_batches (b : AWSBatchBatchSystem) : list (list string) :=
  let to_check := Dict.keys (aws_id_to_bs_id b) in
  batches_of (length to_check) to_check.
End Methods.

Section Polling.
Context {W : Type} `{Backend W}.

(** The body of the [for job_detail in ...] loop of [getUpdatedBatchJob]
    (lines 301-331) over the details of one response.  [acknowledged] is the
    local list of that name.  The result is [Ret (Some _)] at the [return],
    [Ret None] when the details are used up, and the handle of the job is
    kept next to the composed result for the trace. *)
Fixpoint reconcile (b : AWSBatchBatchSystem) (now_ms : Z)
    (details : list JobDetail) (acknowledged : list (string * Z))
  : outcome (option (string * UpdatedBatchJobInfo)) * list (string * Z) :=
  match details with
  | [] => (Ret None, acknowledged)
  | job_detail :: rest =>
      if status_in job_detail ["SUCCEEDED"; "FAILED"] then
        (* This job is done! *)
        let aws_id := jobId job_detail in
        match Dict.get aws_id (aws_id_to_bs_id b) with
        | None => (Raise KeyError, acknowledged)
        | Some bs_id =>
            (* Acknowledge it *)
            let acknowledged := acknowledged ++ [(aws_id, bs_id)] in
            if bool_decide (aws_id ∈ killed_job_aws_ids b) then
              (* Killed jobs aren't allowed to appear as updated. *)
              reconcile b now_ms rest acknowledged
            else
              (* Record runtime *)
              let runtime := _get_runtime now_ms job_detail in
              (* Determine if it succeeded *)
              match status job_detail ≫= (fun st => Dict.get st STATE_TO_EXIT_REASON) with
              | None => (Raise KeyError, acknowledged)
              | Some exit_reason =>
                  (* Get its exit code *)
                  let exit_code := _get_exit_code job_detail in
                  (* Compose a result *)
                  (Ret (Some (aws_id,
                              {| jobID := bs_id; exitStatus := exit_code;
                                 wallTime := runtime; exitReason := exit_reason |})),
                   acknowledged)
              end
        end
      else reconcile b now_ms rest acknowledged
  end.

(** The same loop over the generator: a batch is described only when the
    details of the batches before it are used up. *)
Fixpoint poll_batches (batches : list (list string))
    (acknowledged : list (string * Z)) (s : state W)
  : (outcome (option (string * UpdatedBatchJobInfo)) * list (string * Z)) * state W :=
  match batches with
  | [] => ((Ret None, acknowledged), s)
  | check_batch :: rest =>
      match client_call (client_describe_jobs check_batch)
                        (EvDescribe check_batch) s with
      | (Ret details, s') =>
          match reconcile (self s') (unix_now_ms (world s')) details acknowledged with
          | (Ret None, acknowledged') => poll_batches rest acknowledged' s'
          | r => (r, s')
          end
      | (Raise e, s') => ((Raise e, acknowledged), s')
      | (OutOfFuel, s') => ((OutOfFuel, acknowledged), s')
      end
  end.

(** The [finally] block (lines 333-340): drop all the records for tasks we
    acknowledged. *)
Fixpoint drop_acknowledged (acknowledged : list (string * Z)) : M W unit :=
  match acknowledged with
  | [] => ret tt
  | (aws_id, bs_id) :: rest =>
      b <~ get_self ;;
      match Dict.del aws_id (aws_id_to_bs_id b) with
      | None => raise KeyError
      | Some d => put_self (with_aws_id_to_bs_id d b)
      end ;;;
      b <~ get_self ;;
      match Dict.del bs_id (bs_id_to_aws_id b) with
      | None => raise KeyError
      | Some d => put_self (with_bs_id_to_aws_id d b)
      end ;;;
      b <~ get_self ;;
      (if bool_decide (aws_id ∈ killed_job_aws_ids b)
       then (* We don't need to remember that we killed this job anymore. *)
            put_self (with_killed_job_aws_ids (killed_job_aws_ids b ∖ {[aws_id]}) b)
       else ret tt) ;;;
      log (EvDropped aws_id bs_id) ;;;
      drop_acknowledged rest
  end.

(** One pass of remote polling: the [try] ... [finally] statement of
    [getUpdatedBatchJob] (lines 296-340).  An exception of the [finally]
    block replaces the result of the [try] block. *)
Definition poll_remote : M W (option UpdatedBatchJobInfo) :=
  fun s =>
    let '((result, acknowledged), s1) :=
      poll_batches (describe_batches (self s)) [] s in
    match drop_acknowledged acknowledged s1 with
    | (Ret _, s2) =>
        match result with
        | Ret (Some (aws_id, info)) =>
            (log (EvUpdated aws_id info) ;;; ret (Some info)) s2
        | Ret None => (Ret None, s2)
        | Raise e => (Raise e, s2)
        | OutOfFuel => (OutOfFuel, s2)
        end
    | (Raise e, s2) => (Raise e, s2)
    | (OutOfFuel, s2) => (OutOfFuel, s2)
    end.

Definition Qlt_bool (x y : Q) : bool := negb (Qle_bool y x).

(** The [while] loop of [getUpdatedBatchJob] (lines 291-349); [entry] is
    the clock reading taken before it. *)
Fixpoint getUpdatedBatchJob_loop (fuel : nat) (maxWait : Z) (entry : Q)
  : M W (option UpdatedBatchJobInfo) :=
  match fuel with
  | O => out_of_fuel
  | S fuel' =>
      now <~ get_world datetime_now ;;
      if Qlt_bool (now - entry) (inject_Z maxWait) || (maxWait =? 0)%Z then
        result <~ call (getUpdatedLocalJob 0) ;;
        match result with
        | Some result => ret (Some result)
        | None =>
            updated <~ poll_remote ;;
            match updated with
            | Some info => ret (Some info)
            | None =>
                if negb (maxWait =? 0)%Z then
                  (* Wait a bit and poll again *)
                  sleep (Qmin (inject_Z maxWait / 2) 1) ;;;
                  getUpdatedBatchJob_loop fuel' maxWait entry
                else
                  (* Only poll once *)
                  ret None
            end
        end
      else
        (* If we get here we got nothing *)
        ret None
  end.

Definition getUpdatedBatchJob (fuel : nat) (maxWait : Z)
  : M W (option UpdatedBatchJobInfo) :=
  (* Remember when we started, for respecting the timeout *)
  entry <~ get_world datetime_now ;;
  getUpdatedBatchJob_loop fuel maxWait entry.

(** [_try_terminate] (lines 363-377) *)
Definition _try_terminate (aws_id : string) : M W unit :=
  retry (
    (* Remember that we killed this job so we don't show it as updated later. *)
    modify_self (fun b =>
      with_killed_job_aws_ids (killed_job_aws_ids b ∪ {[aws_id]}) b) ;;;
    (* Kill the AWS Batch job *)
    client_call (client_terminate_job aws_id "Killed by Toil") (EvTerminate aws_id)).

(** The [while True] loop of [_wait_until_stopped] (lines 390-403) *)
Fixpoint wait_loop (fuel : nat) (aws_id : string) : M W unit :=
  match fuel with
  | O => out_of_fuel
  | S fuel' =>
      (* Poll the job *)
      jobs <~ client_call (client_describe_jobs [aws_id]) (EvDescribe [aws_id]) ;;
      match jobs with
      | [] => ret tt (* Job no longer exists at all *)
      | job :: _ =>
          if truthy_str (status job) && status_in job ["SUCCEEDED"; "FAILED"]
          then ret tt (* The job has stopped *)
          else
            (* Otherwise the job is still going. Wait for it to stop. *)
            sleep 2 ;;;
            wait_loop fuel' aws_id
      end
  end.

Definition _wait_until_stopped (fuel : nat) (aws_id : string) : M W unit :=
  retry (wait_loop fuel aws_id).

(** [shutdown] (lines 351-361) *)
Definition shutdown : M W unit :=
  (* Shutdown local processes first *)
  call shutdownLocal ;;;
  b <~ get_self ;;
  (* Shut down all the AWS jobs we issued. *)
  for_ (Dict.keys (aws_id_to_bs_id b)) _try_terminate ;;;
  (* Get rid of the job definition we are using if we can. *)
  _destroy_job_definition.

(** [getIssuedBatchJobIDs] (lines 459-460): the ids of the local delegate,
    then the ids of the remote jobs; a read of the state [s]. *)
Definition getIssuedBatchJobIDs (s : state W) : list Z :=
  getIssuedLocalJobIDs (world s) ++ Dict.keys (bs_id_to_aws_id (self s)).

(** A Python truth test on an optional float ([if runtime:]). *)
Definition truthy_float (x : option Q) : bool :=
  match x with
  | Some r => negb (Qeq_bool r 0)
  | None => false
  end.

(** The loop of [getRunningBatchJobIDs] (lines 489-500) over the details of
    one response. *)
Fixpoint running_details (details : list JobDetail)
    (bs_id_to_runtime : list (Z * Q)) : M W (list (Z * Q)) :=
  match details with
  | [] => ret bs_id_to_runtime
  | job_detail :: rest =>
      if bool_decide (status job_detail = Some "RUNNING") then
        now_ms <~ get_world unix_now_ms ;;
        let runtime := _get_runtime now_ms job_detail in
        let aws_id := jobId job_detail in
        b <~ get_self ;;
        match Dict.get aws_id (aws_id_to_bs_id b) with
        | None => raise KeyError
        | Some bs_id =>
            match runtime with
            | Some r =>
                if truthy_float runtime
                then (* We can measure a runtime *)
                     running_details rest (Dict.set bs_id r bs_id_to_runtime)
                else log (EvWarning bs_id job_detail) ;;;
                     running_details rest bs_id_to_runtime
            | None =>
                (* If we can't find a runtime, we can't say it's running *)
                log (EvWarning bs_id job_detail) ;;;
                running_details rest bs_id_to_runtime
            end
        end
      else running_details rest bs_id_to_runtime
  end.

Fixpoint running_batches (batches : list (list string))
    (bs_id_to_runtime : list (Z * Q)) : M W (list (Z * Q)) :=
  match batches with
  | [] => ret bs_id_to_runtime
  | check_batch :: rest =>
      details <~ client_call (client_describe_jobs check_batch)
                             (EvDescribe check_batch) ;;
      bs_id_to_runtime <~ running_details details bs_id_to_runtime ;;
      running_batches rest bs_id_to_runtime
  end.

(** [getRunningBatchJobIDs] (lines 485-503) *)
Definition getRunningBatchJobIDs : M W (list (Z * Q)) :=
  b <~ get_self ;;
  running_batches (describe_batches b) [].

(** [killBatchJobs] (lines 505-520) *)
Definition killBatchJobs (fuel : nat) (job_ids : list Z) : M W unit :=
  (* Kill all the ones that are local *)
  call (killLocalJobs job_ids) ;;;
  for_ job_ids (fun bs_id =>
    b <~ get_self ;;
    match Dict.get bs_id (bs_id_to_aws_id b) with
    | Some aws_id =>
        (* We sent this to AWS Batch. So try to cancel it. *)
        _try_terminate aws_id
    | None => ret tt
    end) ;;;
  for_ job_ids (fun bs_id =>
    b <~ get_self ;;
    match Dict.get bs_id (bs_id_to_aws_id b) with
    | Some aws_id =>
        (* Poll each job to make sure it is dead and won't look running,
           before we return. *)
        _wait_until_stopped fuel aws_id
    | None => ret tt
    end).
End Polling.

(** ** Driving the adapter: the calls of the surrounding scheduler *)

Inductive api_call :=
| IssueBatchJob (job_desc : JobDescription)
                (job_environment : option (list (string * string)))
| GetUpdatedBatchJob (fuel : nat) (maxWait : Z)
| GetRunningBatchJobIDs
| KillBatchJobs (fuel : nat) (job_ids : list Z)
| Shutdown.

Section Driver.
Context {W : Type} `{Backend W}.

(** The state left by one call, whatever its outcome. *)
Definition run_call (c : api_call) (s : state W) : state W :=
  match c with
  | IssueBatchJob job_desc job_environment =>
      snd (issueBatchJob job_desc job_environment s)
  | GetUpdatedBatchJob fuel maxWait => snd (getUpdatedBatchJob fuel maxWait s)
  | GetRunningBatchJobIDs => snd (getRunningBatchJobIDs s)
  | KillBatchJobs fuel job_ids => snd (killBatchJobs fuel job_ids s)
  | Shutdown => snd (shutdown s)
  end.

Definition run (calls : list api_call) (s : state W) : state W :=
  fold_left (fun s c => run_call c s) calls s.

(** The instance as [__init__] leaves it (lines 136-142). *)
Definition init (cfg : Settings) (w : W) : state W :=
  {| world := w;
     self := {| settings := cfg;
                job_definition := None;
                bs_id_to_aws_id := [];
                aws_id_to_bs_id := [];
                killed_job_aws_ids := ∅;
                jobIndex := 0 |};
     trace := [] |}.
End Driver.

(** ** Readings of a trace *)

(** The internal ids of the completions returned for remote jobs. *)
Definition updated_ids (t : list event) : list Z :=
  flat_map (fun e => match e with EvUpdated _ info => [jobID info] | _ => [] end) t.

(** The handles the backend returned to successful submissions. *)
Definition submitted_handles (t : list event) : list string :=
  flat_map (fun e => match e with EvSubmit _ (inr aws_id) => [aws_id] | _ => [] end) t.

(** The job details the backend reported. *)
Definition described (t : list event) : list JobDetail :=
  flat_map (fun e => match e with EvDescribe _ (inr details) => details | _ => [] end) t.

(** The outstanding remote jobs: the pairs recorded at a successful
    submission whose records were not dropped since. *)
Fixpoint outstanding_from (acc : list (string * Z)) (t : list event) : list (string * Z) :=
  match t with
  | [] => acc
  | EvRecorded aws_id bs_id :: t' => outstanding_from (acc ++ [(aws_id, bs_id)]) t'
  | EvDropped aws_id bs_id :: t' =>
      outstanding_from (List.filter (fun p => negb (bool_decide (p = (aws_id, bs_id)))) acc) t'
  | _ :: t' => outstanding_from acc t'
  end.

Definition outstanding (t : list event) : list (string * Z) := outstanding_from [] t.

(** The pairs recorded in the registry. *)
Definition recorded (t : list event) : list (string * Z) :=
  flat_map (fun e => match e with EvRecorded a b => [(a, b)] | _ => [] end) t.

(** Events that leave the registry and the readings above alone. *)
Definition quiet (e : event) : Prop :=
  match e with
  | EvSubmit _ _ | EvRecorded _ _ | EvDropped _ _ | EvUpdated _ _ => False
  | _ => True
  end.

Definition is_sleep (e : event) : Prop :=
  match e with EvSleep _ _ => True | _ => False end.

Definition is_terminate (e : event) : Prop :=
  match e with EvTerminate _ _ => True | _ => False end.

Definition is_describe (e : event) : Prop :=
  match e with EvDescribe _ _ => True | _ => False end.

Definition is_deregister (e : event) : Prop :=
  match e with EvDeregister _ _ => True | _ => False end.

Definition terminal (jd : JobDetail) : Prop :=
  status jd = Some "SUCCEEDED" \/ status jd = Some "FAILED".

(** What [_wait_until_stopped] takes as the confirmation that a job stopped:
    an empty answer, or a first detail with a terminal status. *)
Definition stopped_report (jobs : list JobDetail) : Prop :=
  match jobs with
  | [] => True
  | job :: _ => terminal job
  end.

Definition is_dropped (e : event) : Prop :=
  match e with EvDropped _ _ => True | _ => False end.


(** ** Invariants of the registry *)

Section Invariants.
Context {W : Type}.

(** The two maps are mutual inverses. *)
Definition mutual_inverses (b : AWSBatchBatchSystem) : Prop :=
  forall (bs_id : Z) (aws_id : string),
    Dict.get bs_id (bs_id_to_aws_id b) = Some aws_id <->
    Dict.get aws_id (aws_id_to_bs_id b) = Some bs_id.

(** At most one entry per internal id and per backend handle. *)
Definition single_entries (b : AWSBatchBatchSystem) : Prop :=
  List.NoDup (Dict.keys (bs_id_to_aws_id b)) /\ List.NoDup (Dict.keys (aws_id_to_bs_id b)).

(** The registry holds exactly the outstanding jobs of the trace. *)
Definition registry_is_outstanding (s : state W) : Prop :=
  (forall aws_id bs_id,
      Dict.get aws_id (aws_id_to_bs_id (self s)) = Some bs_id <->
      In (aws_id, bs_id) (outstanding (trace s)))
  /\ List.NoDup (outstanding (trace s))
  /\ length (bs_id_to_aws_id (self s)) = length (outstanding (trace s))
  /\ length (aws_id_to_bs_id (self s)) = length (outstanding (trace s)).

(** What holds of the registry whatever the backend answers: handles map to
    distinct internal ids, each of them recorded under that handle in the
    other map, all below the counter, and an id whose completion was
    returned is no longer registered. *)
Record registry_ok (s : state W) : Prop := {
  ok_injective : forall a a' b,
    Dict.get a (aws_id_to_bs_id (self s)) = Some b ->
    Dict.get a' (aws_id_to_bs_id (self s)) = Some b -> a = a';
  ok_backed : forall a b,
    Dict.get a (aws_id_to_bs_id (self s)) = Some b ->
    Dict.get b (bs_id_to_aws_id (self s)) = Some a;
  ok_bound : forall b a,
    Dict.get b (bs_id_to_aws_id (self s)) = Some a -> (b < jobIndex (self s))%Z;
  ok_updated_bound : forall b,
    In b (updated_ids (trace s)) -> (b < jobIndex (self s))%Z;
  ok_updated_gone : forall b a,
    In b (updated_ids (trace s)) ->
    Dict.get a (aws_id_to_bs_id (self s)) <> Some b;
  ok_updated_once : List.NoDup (updated_ids (trace s))
}.

(** Every handle registered for [bs_id] carries the killed flag. *)
Definition suppressed (bs_id : Z) (s : state W) : Prop :=
  (bs_id < jobIndex (self s))%Z /\
  forall a, Dict.get a (aws_id_to_bs_id (self s)) = Some bs_id ->
            a ∈ killed_job_aws_ids (self s).

(** A step that leaves the two maps and the counter alone, may add killed
    flags, and adds only quiet events. *)
Definition frame (s s' : state W) : Prop :=
  bs_id_to_aws_id (self s') = bs_id_to_aws_id (self s) /\
  aws_id_to_bs_id (self s') = aws_id_to_bs_id (self s) /\
  jobIndex (self s') = jobIndex (self s) /\
  killed_job_aws_ids (self s) ⊆ killed_job_aws_ids (self s') /\
  exists t, trace s' = trace s ++ t /\ Forall quiet t.
End Invariants.


(** ** Summaries of the two methods that change the registry *)

Section Summaries.
Context {W : Type} `{Backend W}.

(** A method [respects] a relation when the state it leaves is related to the
    state it started from, whatever its outcome. *)
Definition respects {A} (R : relation (state W)) (m : M W A) : Prop :=
  forall s, R s (snd (m s)).

(** The effect of one round of the [finally] block of [getUpdatedBatchJob]
    for the acknowledged pair [p]: both records and the killed flag go. *)
Definition drop_pair (p : string * Z) (s : state W) : state W :=
  let b := self s in
  {| world := world s;
     self :=
       {| settings := settings b;
          job_definition := job_definition b;
          bs_id_to_aws_id := Dict.remove (snd p) (bs_id_to_aws_id b);
          aws_id_to_bs_id := Dict.remove (fst p) (aws_id_to_bs_id b);
          killed_job_aws_ids := killed_job_aws_ids b ∖ {[fst p]};
          jobIndex := jobIndex b |};
     trace := trace s ++ [EvDropped (fst p) (snd p)] |}.

(** The pairs of [done] were dropped one after the other, each registered
    when its turn came. *)
Inductive dropped : state W -> list (string * Z) -> state W -> Prop :=
| dropped_nil s : dropped s [] s
| dropped_cons s aws_id bs_id done s' :
    Dict.get aws_id (aws_id_to_bs_id (self s)) = Some bs_id ->
    dropped (drop_pair (aws_id, bs_id) s) done s' ->
    dropped s ((aws_id, bs_id) :: done) s'.

(** The result [getUpdatedBatchJob] composes from a terminal job detail
    (lines 317-331). *)
Definition composed (now_ms : Z) (bs_id : Z) (job_detail : JobDetail)
    (info : UpdatedBatchJobInfo) : Prop :=
  jobID info = bs_id /\
  exitStatus info = _get_exit_code job_detail /\
  wallTime info = _get_runtime now_ms job_detail /\
  (status job_detail ≫= (fun st => Dict.get st STATE_TO_EXIT_REASON))
    = Some (exitReason info).

(** What one pass of remote polling does to the state [s]: it describes jobs,
    drops the records of [done], and returns either nothing or the completion
    of the last pair of [done]; the pairs before it belong to killed jobs. *)
Definition polled (s s' : state W) (result : outcome (option UpdatedBatchJobInfo)) : Prop :=
  exists s1 s2 done,
    frame s s1 /\ self s1 = self s /\
    (forall e, In e (skipn (length (trace s)) (trace s1)) -> is_describe e) /\
    dropped s1 done s2 /\
    (forall a b, In (a, b) done ->
       exists jd, In jd (described (skipn (length (trace s)) (trace s1)))
                  /\ jobId jd = a /\ terminal jd) /\
    ((s' = s2 /\ (forall info, result <> Ret (Some info)) /\
      forall a b, In (a, b) done -> a ∈ killed_job_aws_ids (self s))
     \/
     (exists a info killed_before jd w,
        result = Ret (Some info) /\
        s' = {| world := world s2; self := self s2;
                trace := trace s2 ++ [EvUpdated a info] |} /\
        done = killed_before ++ [(a, jobID info)] /\
        (forall a' b', In (a', b') killed_before -> a' ∈ killed_job_aws_ids (self s)) /\
        (a ∉ killed_job_aws_ids (self s)) /\
        In jd (described (skipn (length (trace s)) (trace s1))) /\
        jobId jd = a /\ terminal jd /\
        composed (unix_now_ms w) (jobID info) jd info)).

(** What [issueBatchJob] does to the state [s]: nothing to the registry (a
    local job, or a refused request), or it takes the next id and fails before
    the submission returns a handle, or it records the pair. *)
Definition quiet_or_submit (e : event) : Prop :=
  match e with
  | EvRecorded _ _ | EvDropped _ _ | EvUpdated _ _ | EvSubmit _ (inr _) => False
  | _ => True
  end.

Definition allocated (s s' : state W) : Prop :=
  bs_id_to_aws_id (self s') = bs_id_to_aws_id (self s) /\
  aws_id_to_bs_id (self s') = aws_id_to_bs_id (self s) /\
  jobIndex (self s') = (jobIndex (self s) + 1)%Z /\
  killed_job_aws_ids (self s) ⊆ killed_job_aws_ids (self s') /\
  exists t, trace s' = trace s ++ t /\ Forall quiet_or_submit t.

Definition issued (job_desc : JobDescription) (s s' : state W) : Prop :=
  exists aws_id spec t,
    let bs_id := jobIndex (self s) in
    bs_id_to_aws_id (self s') = Dict.set bs_id aws_id (bs_id_to_aws_id (self s)) /\
    aws_id_to_bs_id (self s') = Dict.set aws_id bs_id (aws_id_to_bs_id (self s)) /\
    jobIndex (self s') = (bs_id + 1)%Z /\
    killed_job_aws_ids (self s) ⊆ killed_job_aws_ids (self s') /\
    trace s' = trace s ++ t ++ [EvSubmit spec (inr aws_id); EvRecorded aws_id bs_id] /\
    Forall quiet t /\
    co_resourceRequirements spec =
      resourceRequirements (memory job_desc) (cores job_desc) /\
    jobName spec = _ensafen_name (job_str job_desc).

End Summaries.


(** ** Relations kept by every call of the scheduler *)

Section Kept.
Context {W : Type}.

(** From [s] to [s'] the registry stays well formed, and a job whose handles
    all carry the killed flag in [s] stays so and gets no completion. *)
Definition keeps_once (s s' : state W) : Prop :=
  (registry_ok s -> registry_ok s') /\
  (forall bs_id, registry_ok s -> suppressed bs_id s ->
     suppressed bs_id s' /\
     exists t, trace s' = trace s ++ t /\ ~ In bs_id (updated_ids t)).

(** The invariant of the registry when the backend hands out each handle
    once. *)
Record registry_inv (s : state W) : Prop := {
  inv_ok : registry_ok s;
  inv_inverses : mutual_inverses (self s);
  inv_single : single_entries (self s);
  inv_outstanding : registry_is_outstanding s;
  inv_submitted : forall a b,
    Dict.get a (aws_id_to_bs_id (self s)) = Some b ->
    In a (submitted_handles (trace s));
  inv_dropped_terminal : forall a b,
    In (EvDropped a b) (trace s) ->
    exists jd, In jd (described (trace s)) /\ jobId jd = a /\ terminal jd;
  inv_recorded : submitted_handles (trace s) = map fst (recorded (trace s))
}.

(** A step that logs submissions only with the requirements [reqs]. *)
Definition submits_only (reqs : list ResourceRequirement) (s s' : state W) : Prop :=
  forall spec r, In (EvSubmit spec r) (trace s') ->
                 In (EvSubmit spec r) (trace s) \/ co_resourceRequirements spec = reqs.

Definition keeps_registry (s s' : state W) : Prop :=
  (exists t, trace s' = trace s ++ t) /\
  (List.NoDup (submitted_handles (trace s')) -> registry_inv s -> registry_inv s').

End Kept.


(** ** The world as it moves *)

Section Later.
Context {W : Type} `{Backend W}.

(** One operation of the world. *)
Inductive world_step : W -> W -> Prop :=
| ws_submit spec w : world_step w (snd (client_submit_job spec w))
| ws_describe jobs w : world_step w (snd (client_describe_jobs jobs w))
| ws_terminate aws_id reason w :
    world_step w (snd (client_terminate_job aws_id reason w))
| ws_register spec w : world_step w (snd (client_register_job_definition spec w))
| ws_deregister arn w : world_step w (snd (client_deregister_job_definition arn w))
| ws_sleep seconds w : world_step w (time_sleep seconds w)
| ws_uuid4 w : world_step w (snd (uuid4 w))
| ws_handleLocalJob job_desc w : world_step w (snd (handleLocalJob job_desc w))
| ws_getUpdatedLocalJob maxWait w : world_step w (snd (getUpdatedLocalJob maxWait w))
| ws_killLocalJobs job_ids w : world_step w (snd (killLocalJobs job_ids w))
| ws_shutdownLocal w : world_step w (snd (shutdownLocal w))
| ws_checkResourceRequest m c d w :
    world_step w (snd (checkResourceRequest m c d w)).

(** [w'] is [w] some operations later. *)
Inductive later : W -> W -> Prop :=
| later_now w : later w w
| later_step w1 w2 w3 : world_step w1 w2 -> later w2 w3 -> later w1 w3.

(** The world of [s'] is the world of [s] some operations later. *)
Definition moves_on (s s' : state W) : Prop := later (world s) (world s').

(** The handle [aws_id] was returned by a submission, no later than the
    world [w]. *)
Definition handed_out (aws_id : string) (w : W) : Prop :=
  exists spec w0 w1,
    client_submit_job spec w0 = (inr aws_id, w1) /\ later w1 w.

(** The assumption on the backend behind kill confirmation: for a job that
    was submitted, once the answer to a description of the single job
    [aws_id] is a [stopped_report], no later answer shows that job as
    RUNNING.  Nothing is assumed of the answers about a handle before the
    submission that returns it. *)
Definition terminal_is_final : Prop :=
  forall (aws_id : string) (w w0 : W) (jobs : list JobDetail) (w1 : W),
    handed_out aws_id w ->
    later w w0 ->
    client_describe_jobs [aws_id] w0 = (inr jobs, w1) ->
    stopped_report jobs ->
    forall w2, later w1 w2 ->
    forall ids, match fst (client_describe_jobs ids w2) with
                | inr details =>
                    forall jd, In jd details -> jobId jd = aws_id ->
                               status jd <> Some "RUNNING"
                | inl _ => True
                end.

(** The assumptions on the clock behind the end of a wait: no operation
    turns it back, and a sleep of [seconds] advances it by that much at
    least. *)
Definition clock_moves_on : Prop :=
  (forall w w', world_step w w' -> (datetime_now w <= datetime_now w')%Q) /\
  (forall seconds w, (datetime_now w + seconds <= datetime_now (time_sleep seconds w))%Q).

End Later.

(** ** A simulated backend

    A backend that can be run: it knows a fixed table of jobs, hands out the
    handles of [handles] in order, answers a description after
    [describe_cost_ms] milliseconds, and lets a cancelled job survive
    [kill_delay] descriptions before it reports it FAILED.  A sleep of a
    negative duration does not turn its clock back. *)

Module Sim.

Record job := {
  sj_id : string;
  sj_status : string;
  sj_started : option Z;
  sj_stopped : option Z;
  sj_exit : option Z;
  sj_stops_in : option nat
}.

Record t := {
  clock : Q;
  jobs : list job;
  handles : list string;
  describe_cost_ms : nat;
  kill_delay : nat;
  terminate_errors : list (string * exn);
  deregister_error : option exn
}.

Definition is_terminal (st : string) : bool :=
  bool_decide (st = "SUCCEEDED") || bool_decide (st = "FAILED").

Definition now_ms (w : t) : Z := Qfloor (clock w * 1000).

Definition with_jobs (js : list job) (w : t) : t :=
  {| clock := clock w; jobs := js; handles := handles w;
     describe_cost_ms := describe_cost_ms w; kill_delay := kill_delay w;
     terminate_errors := terminate_errors w;
     deregister_error := deregister_error w |}.

Definition with_clock (c : Q) (w : t) : t :=
  {| clock := c; jobs := jobs w; handles := handles w;
     describe_cost_ms := describe_cost_ms w; kill_delay := kill_delay w;
     terminate_errors := terminate_errors w;
     deregister_error := deregister_error w |}.

Definition with_handles (hs : list string) (w : t) : t :=
  {| clock := clock w; jobs := jobs w; handles := hs;
     describe_cost_ms := describe_cost_ms w; kill_delay := kill_delay w;
     terminate_errors := terminate_errors w;
     deregister_error := deregister_error w |}.

(** A cancelled job comes one description closer to its end. *)
Definition tick (now : Z) (j : job) : job :=
  if is_terminal (sj_status j) then j
  else
    match sj_stops_in j with
    | Some O =>
        {| sj_id := sj_id j; sj_status := "FAILED"; sj_started := sj_started j;
           sj_stopped := Some now; sj_exit := sj_exit j; sj_stops_in := None |}
    | Some (S n) =>
        {| sj_id := sj_id j; sj_status := sj_status j; sj_started := sj_started j;
           sj_stopped := sj_stopped j; sj_exit := sj_exit j; sj_stops_in := Some n |}
    | None => j
    end.

Fixpoint find (aws_id : string) (js : list job) : option job :=
  match js with
  | [] => None
  | j :: js' => if decide (sj_id j = aws_id) then Some j else find aws_id js'
  end.

Definition detail (j : job) : JobDetail :=
  {| jobId := sj_id j;
     status := Some (sj_status j);
     startedAt := sj_started j;
     stoppedAt := sj_stopped j;
     container := Some {| exitCode := sj_exit j |};
     statusReason := None |}.

Definition describe (ids : list string) (w : t) : (exn + list JobDetail) * t :=
  let js := map (tick (now_ms w)) (jobs w) in
  (inr (flat_map (fun id => match find id js with
                            | Some j => [detail j]
                            | None => []
                            end) ids),
   with_clock (clock w + inject_Z (Z.of_nat (describe_cost_ms w)) / 1000) (with_jobs js w)).

Definition cancel (delay : nat) (aws_id : string) (j : job) : job :=
  if decide (sj_id j = aws_id) then
    if is_terminal (sj_status j) then j
    else
      match sj_stops_in j with
      | Some _ => j
      | None =>
          {| sj_id := sj_id j; sj_status := sj_status j; sj_started := sj_started j;
             sj_stopped := sj_stopped j; sj_exit := sj_exit j;
             sj_stops_in := Some delay |}
      end
  else j.

Definition terminate (aws_id reason : string) (w : t) : (exn + unit) * t :=
  match Dict.get aws_id (terminate_errors w) with
  | Some e => (inl e, w)
  | None => (inr tt, with_jobs (map (cancel (kill_delay w) aws_id) (jobs w)) w)
  end.

Definition submit (spec : JobSpec) (w : t) : (exn + string) * t :=
  match handles w with
  | h :: rest => (inr h, with_handles rest w)
  | [] => (inl ClientError, w)
  end.

Definition deregister (arn : string) (w : t) : (exn + unit) * t :=
  match deregister_error w with
  | Some e => (inl e, w)
  | None => (inr tt, w)
  end.

Global Instance backend : Backend t := {
  client_submit_job := submit;
  client_describe_jobs := describe;
  client_terminate_job := terminate;
  client_register_job_definition := fun _ w => (inr "arn:aws:batch:job-definition/toil", w);
  client_deregister_job_definition := deregister;
  datetime_now := clock;
  unix_now_ms := now_ms;
  time_sleep := fun seconds w => with_clock (clock w + Qmax 0 seconds) w;
  uuid4 := fun w => ("00000000-0000-4000-8000-000000000000", w);
  handleLocalJob := fun _ w => (inr None, w);
  getUpdatedLocalJob := fun _ w => (inr None, w);
  getIssuedLocalJobIDs := fun _ => [];
  killLocalJobs := fun _ w => (inr tt, w);
  shutdownLocal := fun w => (inr tt, w);
  checkResourceRequest := fun _ _ _ w => (inr tt, w);
  encode_job := fun command _ => command;
  EXIT_STATUS_UNAVAILABLE_VALUE := 255;
  epsilon := 1 # 4503599627370496;
  retry_intervals := [1; 1; 2; 4; 8; 16; 32; 64]%Q
}.

Definition cfg : Settings :=
  {| queue := "queue";
     job_role_arn := None;
     owner_tag := None;
     worker_work_dir := "/var/lib/toil";
     docker_image := "quay.io/ucsc_cgl/toil";
     defaultMemory := 2147483648;
     defaultCores := 1;
     environment := [];
     user_script := None |}.

Definition running (aws_id : string) (started : Z) : job :=
  {| sj_id := aws_id; sj_status := "RUNNING"; sj_started := Some started;
     sj_stopped := None; sj_exit := None; sj_stops_in := None |}.

(** Two jobs that run until they are cancelled; descriptions are answered at
    once and a cancelled job survives one description. *)
Definition two_running : t :=
  {| clock := 10;
     jobs := [running "job-1" 1000; running "job-2" 2000];
     handles := ["job-1"; "job-2"];
     describe_cost_ms := 0;
     kill_delay := 1;
     terminate_errors := [];
     deregister_error := None |}.

Definition sleep_job (name : string) : JobDescription :=
  {| job_str := name; command := "sleep 1000"; memory := 1; cores := 1 # 100;
     disk := 0 |}.

(** The same two jobs on a backend that refuses to cancel the first of
    them, with an error that is not retried. *)
Definition refusing_cancel : t :=
  {| clock := 10;
     jobs := [running "job-1" 1000; running "job-2" 2000];
     handles := ["job-1"; "job-2"];
     describe_cost_ms := 0;
     kill_delay := 1;
     terminate_errors := [("job-1", ClientError)];
     deregister_error := None |}.

(** The job [aws_id] is unknown to the simulated backend, or has stopped. *)
Definition settled (aws_id : string) (w : t) : Prop :=
  match find aws_id (jobs w) with
  | Some j => is_terminal (sj_status j) = true
  | None => True
  end.

(** The same backend with a local delegate that has the completion of a
    local job at hand. *)
Definition local_done : UpdatedBatchJobInfo :=
  {| jobID := 7; exitStatus := 0; wallTime := Some 1%Q; exitReason := FINISHED |}.

Definition with_local_job : Backend t := {|
  client_submit_job := submit;
  client_describe_jobs := describe;
  client_terminate_job := terminate;
  client_register_job_definition := fun _ w => (inr "arn:aws:batch:job-definition/toil", w);
  client_deregister_job_definition := deregister;
  datetime_now := clock;
  unix_now_ms := now_ms;
  time_sleep := fun seconds w => with_clock (clock w + Qmax 0 seconds) w;
  uuid4 := fun w => ("00000000-0000-4000-8000-000000000000", w);
  handleLocalJob := fun _ w => (inr None, w);
  getUpdatedLocalJob := fun _ w => (inr (Some local_done), w);
  getIssuedLocalJobIDs := fun _ => [7%Z];
  killLocalJobs := fun _ w => (inr tt, w);
  shutdownLocal := fun w => (inr tt, w);
  checkResourceRequest := fun _ _ _ w => (inr tt, w);
  encode_job := fun command _ => command;
  EXIT_STATUS_UNAVAILABLE_VALUE := 255;
  epsilon := 1 # 4503599627370496;
  retry_intervals := [1; 1; 2; 4; 8; 16; 32; 64]%Q
|}.

End Sim.

(** ** A backend that learns of a job when it is submitted

    The handle of a job is the name it is submitted under.  A job is unknown
    to this backend until it is submitted; it is RUNNING from then on, and
    FAILED once a cancel call has named it. *)

Module Lifecycle.

Record t := {
  clock : Q;
  submitted : list string;
  cancelled : list string
}.

Definition now_ms (w : t) : Z := Qfloor (clock w * 1000).

Definition detail (w : t) (aws_id : string) : JobDetail :=
  if bool_decide (aws_id ∈ cancelled w) then
    {| jobId := aws_id; status := Some "FAILED"; startedAt := Some 0%Z;
       stoppedAt := Some 1000%Z; container := None; statusReason := None |}
  else
    {| jobId := aws_id; status := Some "RUNNING"; startedAt := Some 0%Z;
       stoppedAt := None; container := None; statusReason := None |}.

Definition describe (ids : list string) (w : t) : (exn + list JobDetail) * t :=
  (inr (flat_map (fun id => if bool_decide (id ∈ submitted w)
                            then [detail w id] else []) ids), w).

Definition submit (spec : JobSpec) (w : t) : (exn + string) * t :=
  (inr (jobName spec),
   {| clock := clock w; submitted := jobName spec :: submitted w;
      cancelled := cancelled w |}).

Definition terminate (aws_id reason : string) (w : t) : (exn + unit) * t :=
  (inr tt,
   {| clock := clock w; submitted := submitted w;
      cancelled := aws_id :: cancelled w |}).

Global Instance backend : Backend t := {
  client_submit_job := submit;
  client_describe_jobs := describe;
  client_terminate_job := terminate;
  client_register_job_definition := fun _ w => (inr "arn:aws:batch:job-definition/toil", w);
  client_deregister_job_definition := fun _ w => (inr tt, w);
  datetime_now := clock;
  unix_now_ms := now_ms;
  time_sleep := fun seconds w =>
    {| clock := clock w + Qmax 0 seconds; submitted := submitted w;
       cancelled := cancelled w |};
  uuid4 := fun w => ("00000000-0000-4000-8000-000000000000", w);
  handleLocalJob := fun _ w => (inr None, w);
  getUpdatedLocalJob := fun _ w => (inr None, w);
  getIssuedLocalJobIDs := fun _ => [];
  killLocalJobs := fun _ w => (inr tt, w);
  shutdownLocal := fun w => (inr tt, w);
  checkResourceRequest := fun _ _ _ w => (inr tt, w);
  encode_job := fun command _ => command;
  EXIT_STATUS_UNAVAILABLE_VALUE := 255;
  epsilon := 1 # 4503599627370496;
  retry_intervals := [1; 1; 2; 4; 8; 16; 32; 64]%Q
}.


End Lifecycle.

(** The trace of [s'] continues the trace of [s]. *)
Definition extends {W : Type} (s s' : state W) : Prop :=
  exists t, trace s' = trace s ++ t.


(** ** One polling pass, and the sleeps of a wait *)

Section Waiting.
Context {W : Type} `{Backend W}.

(** One polling pass of [getUpdatedBatchJob]: the local jobs first, then one
    pass over the remote ones. *)
Definition poll_once : M W (option UpdatedBatchJobInfo) :=
  result <~ call (getUpdatedLocalJob 0) ;;
  match result with
  | Some result => ret (Some result)
  | None => poll_remote
  end.

(** The events of [s'] that [s] did not have yet. *)
Definition new_events (s s' : state W) : list event :=
  skipn (length (trace s)) (trace s').

(** From [s] to [s'] the trace grows by events that satisfy [P]. *)
Definition adds (P : event -> Prop) (s s' : state W) : Prop :=
  exists t, trace s' = trace s ++ t /\ Forall P t.

Definition not_sleep (e : event) : Prop :=
  match e with EvSleep _ _ => False | _ => True end.

Definition sleeps_for (seconds : Q) (e : event) : Prop :=
  match e with EvSleep _ d => d = seconds | _ => True end.

(** The reading of the specification: each sleep of a call entered at [entry]
    with budget [maxWait] is a fraction of what remains of the budget when the
    sleep starts, so it does not outlast the budget. *)
Definition sleeps_within_remaining_budget (maxWait : Z) (entry : Q)
    (t : list event) : Prop :=
  forall now seconds,
    In (EvSleep now seconds) t ->
    (seconds <= inject_Z maxWait - (now - entry))%Q.

End Waiting.

(** ** Killing: cancel calls first, confirmations after *)

Section Killing.
Context {W : Type} `{Backend W}.

(** The events of the cancelling phase of [killBatchJobs]: a cancel call, or
    a wait between the attempts of [retry]. *)
Definition cancel_event (e : event) : Prop :=
  match e with
  | EvTerminate _ _ => True
  | EvSleep _ d => In d retry_intervals
  | _ => False
  end.






(** From [s] to [s'] the registry stays well formed, the counter does not go
    back, and an internal id handed out before [s] is registered in [s'] only
    under the handle it had in [s]. *)
Definition keeps_handles (s s' : state W) : Prop :=
  registry_ok s ->
  registry_ok s' /\
  (jobIndex (self s) <= jobIndex (self s'))%Z /\
  forall bs_id aws_id,
    (bs_id < jobIndex (self s))%Z ->
    Dict.get bs_id (bs_id_to_aws_id (self s')) = Some aws_id ->
    Dict.get bs_id (bs_id_to_aws_id (self s)) = Some aws_id.

End Killing.

(** ** Shutting down *)

Section ShuttingDown.
Context {W : Type} `{Backend W}.

(** Among the events [t], a cancel call was made for every job that is
    registered in [s]. *)
Definition cancel_attempted_for_all (s : state W) (t : list event) : Prop :=
  forall aws_id,
    In aws_id (Dict.keys (aws_id_to_bs_id (self s))) ->
    exists r, In (EvTerminate aws_id r) t.

(** Among the events [t], a cancel call succeeded for every job that is
    registered in [s]. *)
Definition cancelled_all (s : state W) (t : list event) : Prop :=
  forall aws_id,
    In aws_id (Dict.keys (aws_id_to_bs_id (self s))) ->
    In (EvTerminate aws_id (inr tt)) t.

(** Among the events [t], the deletion of the job definition of [s] was
    asked for. *)
Definition teardown_attempted (s : state W) (t : list event) : Prop :=
  forall arn,
    job_definition (self s) = Some arn -> exists r, In (EvDeregister arn r) t.

(** The reading of the specification: whatever fails during [shutdown], no
    step is skipped; every issued job gets its cancel call and the teardown
    of the template is attempted. *)
Definition completes_all_steps (s : state W) : Prop :=
  let t := new_events s (snd (shutdown s)) in
  cancel_attempted_for_all s t /\ teardown_attempted s t.

(** A step that leaves the recorded job definition alone. *)
Definition keeps_definition (s s' : state W) : Prop :=
  job_definition (self s') = job_definition (self s).

End ShuttingDown.

(** ** LSF: [LSFBatchSystem.Worker.getJobExitCode] (lsf.py, lines 80-132) *)

Module LSF.

(** The Python values a job id can be: the caller hands over what
    [getBatchSystemID] builds, a [str] such as ["123"] or ["123.4"]; the
    messages of the method format the id as a number. *)
Inductive pyval :=
| PyInt (n : Z)
| PyStr (s : string).

(** What the two command-line tools print: the lines of the standard output
    of a spawned command, by its argument vector. *)
Record Tools := { stdout_lines : list string -> list string }.

(** A run of the method: the commands spawned so far are threaded through,
    and the run returns a value or raises. *)
Definition R (A : Type) : Type :=
  list (list string) -> (exn + A) * list (list string).

Definition ret {A} (a : A) : R A := fun spawned => (inr a, spawned).

Definition raise {A} (e : exn) : R A := fun spawned => (inl e, spawned).

Definition bind {A B} (m : R A) (k : A -> R B) : R B :=
  fun spawned =>
    match m spawned with
    | (inr a, spawned') => k a spawned'
    | (inl e, spawned') => (inl e, spawned')
    end.

Declare Scope lsf_scope.
Delimit Scope lsf_scope with lsf.
Notation "x <~ m ;; k" := (bind m (fun x => k))
  (at level 100, m at next level, right associativity) : lsf_scope.
Notation "m ;;; k" := (bind m (fun _ => k))
  (at level 100, right associativity) : lsf_scope.
Local Open Scope lsf_scope.

(** [subprocess.Popen(args, stdout=PIPE, stderr=STDOUT)] and its [stdout]. *)
Definition Popen (tools : Tools) (args : list string) : R (list string) :=
  fun spawned => (inr (stdout_lines tools args), spawned ++ [args]).

(** ['.' in x]: an [int] is not iterable. *)
Definition py_in (sub : string) (x : pyval) : R bool :=
  match x with
  | PyStr s => ret (Py.contains sub s)
  | PyInt _ => raise TypeError
  end.

(** [s.split('.', 1)] for an [s] in which a dot occurs: what is before the
    first dot, and what is after it. *)
Fixpoint split_dot (s : string) : string * string :=
  match s with
  | EmptyString => (EmptyString, EmptyString)
  | String c s' =>
      if Ascii.eqb c "." then (EmptyString, s')
      else let (before, after) := split_dot s' in (String c before, after)
  end.

(** [str(x)] *)
Definition py_str (x : pyval) : string :=
  match x with
  | PyStr s => s
  | PyInt n => Py.str n
  end.

(** [fmt % x] for a format that ends in its only conversion, [%d]: a [str]
    operand raises [TypeError] ("%d format: a number is required, not
    str"). *)
Definition percent_d (prefix : string) (x : pyval) : R string :=
  match x with
  | PyInt n => ret (String.append prefix (Py.str n))
  | PyStr _ => raise TypeError
  end.

(** [logger.debug(prefix + "%d" % job)]: the message is formatted before the
    logger is called; the logger itself does nothing that is observed. *)
Definition debug (prefix : string) (job : pyval) : R unit :=
  percent_d prefix job ;;; ret tt.

(** The loop over the output of bjobs (lines 92-110): [inl result] when the
    method returns [result] from inside the loop, [inr started] when the
    lines are used up. *)
Fixpoint bjobs_loop (job : pyval) (lines : list string) (started : Z)
  : R (option Z + Z) :=
  match lines with
  | [] => ret (inr started)
  | line :: rest =>
      if Py.contains "Done successfully" line then
        debug "bjobs detected job completed for job: " job ;;;
        ret (inl (Some 0%Z))
      else if Py.contains "Completed <exit>" line then
        debug "bjobs detected job failed for job: " job ;;;
        ret (inl (Some 1%Z))
      else if Py.contains "New job is waiting for scheduling" line then
        debug "bjobs detected job pending scheduling for job: " job ;;;
        ret (inl None)
      else if Py.contains "PENDING REASONS" line then
        debug "bjobs detected job pending for job: " job ;;;
        ret (inl None)
      else if Py.contains "Started on " line then
        bjobs_loop job rest 1
      else bjobs_loop job rest started
  end.

(** The loop over the output of bacct (lines 123-129): [Some result] when
    the method returns [result] from inside the loop. *)
Fixpoint bacct_loop (job : pyval) (lines : list string) : R (option (option Z)) :=
  match lines with
  | [] => ret None
  | line :: rest =>
      if Py.contains "Completed <done>" line then
        debug "Detected job completed for job: " job ;;;
        ret (Some (Some 0%Z))
      else if Py.contains "Completed <exit>" line then
        debug "Detected job failed for job: " job ;;;
        ret (Some (Some 1%Z))
      else bacct_loop job rest
  end.

(** Lines 89-132: the method from the moment it spawns bjobs. *)
Definition consult_tools (tools : Tools) (job : pyval) : R (option Z) :=
  let args := ["bjobs"; "-l"; py_str job] in
  stdout <~ Popen tools args ;;
  r <~ bjobs_loop job stdout 0 ;;
  match r with
  | inl result => ret result
  | inr started =>
      if (started =? 1)%Z then
        debug "bjobs detected job started but not completed: " job ;;;
        ret None
      else
        (* if not found in bjobs, then try bacct (slower than bjobs) *)
        debug "bjobs failed to detect job - trying bacct: " job ;;;
        let args := ["bacct"; "-l"; py_str job] in
        stdout <~ Popen tools args ;;
        r <~ bacct_loop job stdout ;;
        match r with
        | Some result => ret result
        | None =>
            debug "Can't determine exit code for job or job still running: " job ;;;
            ret None
        end
  end.

(** [getJobExitCode] (lines 80-132); [None] is Python's [None]. *)
Definition getJobExitCode (tools : Tools) (lsfJobID : pyval) : R (option Z) :=
  (* the task is set as part of the job ID if using getBatchSystemID() *)
  has_task <~ py_in "." lsfJobID ;;
  let job :=
    if has_task then PyStr (fst (split_dot (py_str lsfJobID))) else lsfJobID in
  (* first try bjobs to find out job state *)
  debug "Checking job exit code for job via bjobs: " job ;;;
  consult_tools tools job.

(** The cascade as the specification words it, over the lines the two tools
    print, to be compared with [getJobExitCode]. *)
Module Spec.

Inductive listing_verdict :=
| Success
| Failure
| Pending
| StartedOnly
| NoMatch.

(** The first marker of the detailed listing decides; a "Started on" line
    alone is remembered. *)
Fixpoint listing (lines : list string) (started : bool) : listing_verdict :=
  match lines with
  | [] => if started then StartedOnly else NoMatch
  | line :: rest =>
      if Py.contains "Done successfully" line then Success
      else if Py.contains "Completed <exit>" line then Failure
      else if Py.contains "New job is waiting for scheduling" line
              || Py.contains "PENDING REASONS" line then Pending
      else listing rest (started || Py.contains "Started on " line)
  end.

(** The first marker of the accounting tool decides. *)
Fixpoint accounting (lines : list string) : option Z :=
  match lines with
  | [] => None
  | line :: rest =>
      if Py.contains "Completed <done>" line then Some 0%Z
      else if Py.contains "Completed <exit>" line then Some 1%Z
      else accounting rest
  end.

Definition exit_code (bjobs bacct : list string) : option Z :=
  match listing bjobs false with
  | Success => Some 0%Z
  | Failure => Some 1%Z
  | Pending => None
  | StartedOnly => None
  | NoMatch => accounting bacct
  end.

(** The accounting tool is consulted only when the listing matched
    nothing. *)
Definition commands (job : string) (bjobs : list string) : list (list string) :=
  match listing bjobs false with
  | NoMatch => [["bjobs"; "-l"; job]; ["bacct"; "-l"; job]]
  | _ => [["bjobs"; "-l"; job]]
  end.

End Spec.

(** Tools that print the same whatever the job: a listing and an accounting
    record. *)
Definition fixed_tools (bjobs bacct : list string) : Tools :=
  {| stdout_lines := fun args =>
       match args with
       | "bjobs" :: _ => bjobs
       | "bacct" :: _ => bacct
       | _ => []
       end |}.

End LSF.

(** ** Readings used by the further properties of the adapter *)

Section Conduct.
Context {W : Type} `{Backend W}.

(** A name AWS Batch accepts as it is. *)
Definition safe_name (s : string) : Prop :=
  Forall (fun c => NameSpec.allowed c = true) (Py.chars s) /\
  (exists c rest, s = String c rest /\ Py.isalnum c = true) /\
  (String.length s <= 128)%nat.

(** A step that leaves the attributes set by [__init__] alone. *)
Definition keeps_settings (s s' : state W) : Prop :=
  settings (self s') = settings (self s).

(** The environment a job is submitted with (lines 171-174): a copy of the
    environment of the batch system, updated with the one of the job. *)
Definition job_environment_of (cfg : Settings)
    (job_environment : option (list (string * string))) : list (string * string) :=
  match job_environment with
  | Some (kv :: more) => Dict.update (kv :: more) (environment cfg)
  | _ => environment cfg
  end.

(** What [issueBatchJob] sends for [job_desc] when the instance is [b]. *)
Definition payload_of (b : AWSBatchBatchSystem) (job_desc : JobDescription)
    (job_environment : option (list (string * string))) (spec : JobSpec) : Prop :=
  jobName spec = _ensafen_name (job_str job_desc) /\
  jobQueue spec = queue (settings b) /\
  co_command spec =
    ["_toil_contained_executor";
     encode_job (command job_desc) (user_script (settings b))] /\
  co_environment spec = job_environment_of (settings b) job_environment /\
  co_resourceRequirements spec =
    resourceRequirements (memory job_desc) (cores job_desc) /\
  tags spec = match owner_tag (settings b) with
              | Some tag => if truthy_str (Some tag) then Some [("Owner", tag)] else None
              | None => None
              end.

(** *** The job definition over a run *)

(** Events that neither change nor use the job definition. *)
Definition template_neutral (e : event) : Prop :=
  match e with
  | EvRegister _ _ | EvDeregister _ _ | EvSubmit _ _ => False
  | _ => True
  end.

(** The job definition that is live after the events [t], when [live] was
    before them; [None] when the events misuse it: a registration while a
    definition is live, a deregistration of another definition than the
    live one, or a submission that names another definition than the live
    one. *)
Fixpoint template_run (live : option string) (t : list event)
  : option (option string) :=
  match t with
  | [] => Some live
  | EvRegister _ r :: t' =>
      match live with
      | Some _ => None
      | None => template_run (match r with inr arn => Some arn | inl _ => None end) t'
      end
  | EvDeregister arn r :: t' =>
      if bool_decide (live = Some arn)
      then template_run (match r with inr _ => None | inl _ => live end) t'
      else None
  | EvSubmit spec _ :: t' =>
      if bool_decide (live = Some (jobDefinition spec))
      then template_run live t'
      else None
  | _ :: t' => template_run live t'
  end.

(** From [s] to [s'] the events added use the job definition well, and take
    it from the one recorded in [s] to the one recorded in [s']. *)
Definition templated (s s' : state W) : Prop :=
  exists t, trace s' = trace s ++ t /\
            template_run (job_definition (self s)) t = Some (job_definition (self s')).

(** *** The requests over a run *)

(** [aws_id] is a handle the registry knows: a key of one map or a value of
    the other. *)
Definition registered_handle (b : AWSBatchBatchSystem) (aws_id : string) : Prop :=
  In aws_id (Dict.keys (aws_id_to_bs_id b)) \/
  exists bs_id, Dict.get bs_id (bs_id_to_aws_id b) = Some aws_id.

(** A describe call asks about at least one and at most [MAX_POLL_COUNT]
    jobs, all of them [known]; a cancel call names a [known] job. *)
Definition asks_within (known : string -> Prop) (e : event) : Prop :=
  match e with
  | EvDescribe ids _ =>
      (0 < length ids <= MAX_POLL_COUNT)%nat /\ forall a, In a ids -> known a
  | EvTerminate a _ => known a
  | _ => True
  end.

(** Every describe and cancel call of [t] is about handles that [known]
    holds or that a submission earlier in [t] returned. *)
Fixpoint conducted (known : list string) (t : list event) : Prop :=
  match t with
  | [] => True
  | e :: t' =>
      asks_within (fun a => In a known) e /\
      conducted (known ++ submitted_handles [e]) t'
  end.

(** From [s] to [s'] the registry stays within [known], if it was, and the
    requests added are about [known] handles. *)
Definition within (known : string -> Prop) (s s' : state W) : Prop :=
  (forall a, registered_handle (self s) a -> known a) ->
  (forall a, registered_handle (self s') a -> known a) /\
  adds (asks_within known) s s'.

(** A step that registers nothing new. *)
Definition shrinks (s s' : state W) : Prop :=
  forall a, registered_handle (self s') a -> registered_handle (self s) a.

(** *** Completed jobs *)

(** No job whose completion was returned is still issued. *)
Definition completed_are_gone (s : state W) : Prop :=
  forall bs_id, In bs_id (updated_ids (trace s)) ->
                Dict.get bs_id (bs_id_to_aws_id (self s)) = None.

Definition keeps_gone (s s' : state W) : Prop :=
  registry_ok s /\ completed_are_gone s -> registry_ok s' /\ completed_are_gone s'.

(** *** Snapshots *)

(** The lists of jobs the describe calls of [t] asked about, in order. *)
Definition describe_requests (t : list event) : list (list string) :=
  flat_map (fun e => match e with EvDescribe ids _ => [ids] | _ => [] end) t.

Definition is_warning (e : event) : Prop :=
  match e with EvWarning _ _ => True | _ => False end.

(** *** Completions and the jobs they are for *)

(** A completion, or the dropping of records, is for a pair that [known]
    holds. *)
Definition accounts_for (known : list (string * Z)) (e : event) : Prop :=
  match e with
  | EvUpdated a info => In (a, jobID info) known
  | EvDropped a b => In (a, b) known
  | _ => True
  end.

(** Every completion returned in [t], and every dropping of records, is for
    a pair that [known] holds or that was recorded earlier in [t]. *)
Fixpoint accounted (known : list (string * Z)) (t : list event) : Prop :=
  match t with
  | [] => True
  | e :: t' => accounts_for known e /\ accounted (known ++ recorded [e]) t'
  end.

(** The registry is well formed, holds recorded pairs only, and the trace is
    accounted for. *)
Definition accounts_inv (s : state W) : Prop :=
  registry_ok s /\
  (forall a b, Dict.get a (aws_id_to_bs_id (self s)) = Some b ->
               In (a, b) (recorded (trace s))) /\
  accounted [] (trace s).

Definition keeps_accounts (s s' : state W) : Prop :=
  accounts_inv s -> accounts_inv s'.

(** *** What each call may do *)

(** The events a call of the scheduler may add to the trace. *)
Definition may_add (c : api_call) (e : event) : Prop :=
  match c, e with
  | IssueBatchJob _ _, (EvRegister _ _ | EvSubmit _ _ | EvSleep _ _ | EvRecorded _ _) => True
  | GetUpdatedBatchJob _ _,
      (EvDescribe _ _ | EvSleep _ _ | EvDropped _ _ | EvUpdated _ _) => True
  | GetRunningBatchJobIDs, (EvDescribe _ _ | EvWarning _ _) => True
  | KillBatchJobs _ _, (EvTerminate _ _ | EvDescribe _ _ | EvSleep _ _) => True
  | Shutdown, (EvTerminate _ _ | EvDeregister _ _ | EvSleep _ _) => True
  | _, _ => False
  end.

(** *** Records are dropped for a reason *)

(** From [s] to [s'] no records are dropped, and a killed flag that was not
    there before comes with a cancel call. *)
Definition calm (s s' : state W) : Prop :=
  exists t, trace s' = trace s ++ t /\
            Forall (fun e => ~ is_dropped e) t /\
            forall a, a ∈ killed_job_aws_ids (self s') ->
                      a ∈ killed_job_aws_ids (self s) \/ exists r, In (EvTerminate a r) t.

(** The handles the cancel calls of [t] name, in order. *)
Fixpoint cancel_requests (t : list event) : list string :=
  match t with
  | [] => []
  | EvTerminate a _ :: t' => a :: cancel_requests t'
  | _ :: t' => cancel_requests t'
  end.

(** Every dropping of records in [t] is for a job that [cancelled] holds or
    that a cancel call named earlier in [t], or it is followed in [t] by the
    completion returned for that job. *)
Fixpoint explained (cancelled : list string) (t : list event) : Prop :=
  match t with
  | [] => True
  | e :: t' =>
      match e with
      | EvDropped a b =>
          In a cancelled \/ exists info, In (EvUpdated a info) t' /\ jobID info = b
      | _ => True
      end /\ explained (cancelled ++ cancel_requests [e]) t'
  end.

(** The registry is well formed, every killed flag comes from a cancel
    call, and every dropping of records is explained. *)
Definition drops_inv (s : state W) : Prop :=
  registry_ok s /\
  (forall a, a ∈ killed_job_aws_ids (self s) -> In a (cancel_requests (trace s))) /\
  explained [] (trace s).

Definition keeps_drops (s s' : state W) : Prop := drops_inv s -> drops_inv s'.

(** *** A pass of remote polling, by its result *)

(** Every terminal detail among [details] is of a registered job that
    carries the killed flag, and its pair is in [new]. *)
Definition acknowledged_as_killed (b : AWSBatchBatchSystem)
    (details : list JobDetail) (new : list (string * Z)) : Prop :=
  forall jd, In jd details -> terminal jd ->
    jobId jd ∈ killed_job_aws_ids b /\
    exists bs_id, Dict.get (jobId jd) (aws_id_to_bs_id b) = Some bs_id /\
                  In (jobId jd, bs_id) new.

(** On the way from [s] to [s'] the terminal report [jd] of a job that
    carried the killed flag in [s] was suppressed: no completion was
    returned for it, its records were dropped, and both registry entries
    and the flag are gone. *)
Definition report_suppressed (s s' : state W) (jd : JobDetail) : Prop :=
  jobId jd ∈ killed_job_aws_ids (self s) /\
  exists bs_id,
    Dict.get (jobId jd) (aws_id_to_bs_id (self s)) = Some bs_id /\
    In (EvDropped (jobId jd) bs_id) (new_events s s') /\
    (forall info, ~ In (EvUpdated (jobId jd) info) (new_events s s')) /\
    Dict.get (jobId jd) (aws_id_to_bs_id (self s')) = None /\
    Dict.get bs_id (bs_id_to_aws_id (self s')) = None /\
    jobId jd ∉ killed_job_aws_ids (self s').

(** What a pass of remote polling that returns [r] has done between [s] and
    [s'].  With no completion, it asked about every batch of registered
    handles and every terminal report it was given was a suppressed one.
    With the completion [info], the reports it was given lead, through
    suppressed terminal reports only, to a terminal report [jd] of a
    registered job without the killed flag; [info] is composed from [jd],
    with the clock read after the answer that held [jd]; it is the last
    event and the only completion of the pass, and the records of the job
    are dropped. *)
Definition pass_outcome (s s' : state W) (r : option UpdatedBatchJobInfo) : Prop :=
  let t := new_events s s' in
  match r with
  | None =>
      describe_requests t = describe_batches (self s) /\
      updated_ids t = [] /\
      forall jd, In jd (described t) -> terminal jd -> report_suppressed s s' jd
  | Some info =>
      exists d1 jd d2 t0,
        described t = d1 ++ jd :: d2 /\
        t = t0 ++ [EvUpdated (jobId jd) info] /\
        updated_ids t0 = [] /\
        terminal jd /\
        (jobId jd ∉ killed_job_aws_ids (self s)) /\
        Dict.get (jobId jd) (aws_id_to_bs_id (self s)) = Some (jobID info) /\
        composed (unix_now_ms (world s')) (jobID info) jd info /\
        In (EvDropped (jobId jd) (jobID info)) t0 /\
        Dict.get (jobId jd) (aws_id_to_bs_id (self s')) = None /\
        Dict.get (jobID info) (bs_id_to_aws_id (self s')) = None /\
        forall jd', In jd' d1 -> terminal jd' -> report_suppressed s s' jd'
  end.

(** Following the words of the specification: the wall time, exit code and
    exit reason asked of the completion [info] for a terminal job detail
    [jd], when the current time is [now_ms]. *)
Definition specified_completion (now_ms : Z) (jd : JobDetail)
    (info : UpdatedBatchJobInfo) : Prop :=
  wallTime info =
    match startedAt jd with
    | None => None
    | Some start_ms =>
        let end_ms := match stoppedAt jd with Some e => e | None => now_ms end in
        Some (Qmax (inject_Z (end_ms - start_ms) / 1000) epsilon)
    end /\
  exitStatus info =
    match container jd with
    | Some {| exitCode := Some code |} => code
    | _ => EXIT_STATUS_UNAVAILABLE_VALUE
    end /\
  (status jd = Some "SUCCEEDED" -> exitReason info = FINISHED) /\
  (status jd = Some "FAILED" -> exitReason info = FAILED).

(** *** No completion after a kill *)

(** The handles a cancel call has named, among [cancelled] and in [t], that
    were not recorded for a new job since. *)
Fixpoint kill_pending (cancelled : list string) (t : list event) : list string :=
  match t with
  | [] => cancelled
  | EvTerminate a _ :: t' => kill_pending (a :: cancelled) t'
  | EvRecorded a _ :: t' =>
      kill_pending (List.filter (fun x => negb (bool_decide (x = a))) cancelled) t'
  | _ :: t' => kill_pending cancelled t'
  end.

(** No completion in [t] is for a handle that a cancel call named before
    it (or that [cancelled] holds), unless the backend returned that handle
    again for a new job in between. *)
Fixpoint never_after_kill (cancelled : list string) (t : list event) : Prop :=
  match t with
  | [] => True
  | EvTerminate a _ :: t' => never_after_kill (a :: cancelled) t'
  | EvRecorded a _ :: t' =>
      never_after_kill (List.filter (fun x => negb (bool_decide (x = a))) cancelled) t'
  | EvUpdated a _ :: t' => ~ In a cancelled /\ never_after_kill cancelled t'
  | _ :: t' => never_after_kill cancelled t'
  end.

(** The registry is well formed, no completion followed a kill, and a
    handle with a pending kill carries the killed flag or is not
    registered. *)
Definition kill_inv (s : state W) : Prop :=
  registry_ok s /\
  never_after_kill [] (trace s) /\
  forall a, In a (kill_pending [] (trace s)) ->
            a ∈ killed_job_aws_ids (self s) \/
            Dict.get a (aws_id_to_bs_id (self s)) = None.

Definition keeps_kill (s s' : state W) : Prop := kill_inv s -> kill_inv s'.

(** A step that leaves the two maps and the counter alone, and after which
    every handle that one of its cancel calls named carries the killed
    flag, whatever the fate of that call. *)
Definition kills (s s' : state W) : Prop :=
  frame s s' /\
  forall a r, In (EvTerminate a r) (new_events s s') ->
              a ∈ killed_job_aws_ids (self s').

End Conduct.

(** * Proofs *)

(** ** Dictionaries *)

Module DictFacts.
Section Facts.
Context {K V : Type} `{EqDecision K}.
Implicit Types (k : K) (v : V) (d : list (K * V)).

Lemma get_set_eq k v d : Dict.get k (Dict.set k v d) = Some v.
Proof.
  induction d as [|[k' v'] d IH]; simpl.
  - destruct (decide (k = k)); congruence.
  - destruct (decide (k = k')) as [->|Hne]; simpl.
    + destruct (decide (k' = k')); congruence.
    + destruct (decide (k = k')); [contradiction|exact IH].
Qed.

Lemma get_set_ne k k' v d :
  k <> k' -> Dict.get k' (Dict.set k v d) = Dict.get k' d.
Proof.
  intros Hne. induction d as [|[k0 v0] d IH]; simpl.
  - destruct (decide (k' = k)); congruence.
  - destruct (decide (k = k0)) as [->|Hk]; simpl.
    + destruct (decide (k' = k0)); congruence.
    + destruct (decide (k' = k0)); auto.
Qed.

Lemma get_remove_eq k d : Dict.get k (Dict.remove k d) = None.
Proof.
  induction d as [|[k' v'] d IH]; simpl; auto.
  destruct (decide (k = k')) as [->|Hne]; simpl; auto.
  destruct (decide (k = k')); [contradiction|exact IH].
Qed.

Lemma get_remove_ne k k' d :
  k <> k' -> Dict.get k' (Dict.remove k d) = Dict.get k' d.
Proof.
  intros Hne. induction d as [|[k0 v0] d IH]; simpl; auto.
  destruct (decide (k = k0)) as [->|Hk]; simpl.
  - destruct (decide (k' = k0)); congruence.
  - destruct (decide (k' = k0)); auto.
Qed.

Lemma get_Some_In k v d : Dict.get k d = Some v -> In (k, v) d.
Proof.
  induction d as [|[k' v'] d IH]; simpl; [discriminate|].
  destruct (decide (k = k')) as [->|Hne].
  - intros [= ->]. now left.
  - intros Hg. right. auto.
Qed.

Lemma get_None_keys k d : Dict.get k d = None <-> ~ In k (Dict.keys d).
Proof.
  induction d as [|[k' v'] d IH]; simpl.
  - tauto.
  - destruct (decide (k = k')) as [->|Hne].
    + split; [discriminate|]. intros Hn. exfalso. apply Hn. now left.
    + rewrite IH. split.
      * intros Hn [Heq|Hin]; [congruence|contradiction].
      * intros Hn Hin. apply Hn. now right.
Qed.

Lemma get_Some_keys k v d : Dict.get k d = Some v -> In k (Dict.keys d).
Proof.
  intros Hg. destruct (in_dec (fun x y => decide (x = y)) k (Dict.keys d)) as [Hin|Hn]; auto.
  apply get_None_keys in Hn. congruence.
Qed.

Lemma In_get_NoDup k v d :
  List.NoDup (Dict.keys d) -> In (k, v) d -> Dict.get k d = Some v.
Proof.
  induction d as [|[k' v'] d IH]; simpl; [tauto|].
  intros Hnd [Heq|Hin].
  - inversion Heq; subst. destruct (decide (k = k)); congruence.
  - apply List.NoDup_cons_iff in Hnd as [Hnotin Hnd].
    destruct (decide (k = k')) as [->|Hne].
    + exfalso. apply Hnotin. change (In (fst (k', v)) (map fst d)).
      now apply in_map.
    + auto.
Qed.

Lemma keys_set_absent k v d :
  Dict.get k d = None -> Dict.keys (Dict.set k v d) = Dict.keys d ++ [k].
Proof.
  induction d as [|[k' v'] d IH]; simpl; auto.
  destruct (decide (k = k')); [discriminate|].
  intros Hg. simpl. now rewrite IH.
Qed.

Lemma set_absent k v d : Dict.get k d = None -> Dict.set k v d = d ++ [(k, v)].
Proof.
  induction d as [|[k' v'] d IH]; simpl; auto.
  destruct (decide (k = k')); [discriminate|].
  intros Hg. now rewrite IH.
Qed.

Lemma keys_remove_incl k k' d :
  In k' (Dict.keys (Dict.remove k d)) -> In k' (Dict.keys d).
Proof.
  induction d as [|[k0 v0] d IH]; simpl; auto.
  destruct (decide (k = k0)); simpl; intuition.
Qed.

Lemma NoDup_keys_remove k d :
  List.NoDup (Dict.keys d) -> List.NoDup (Dict.keys (Dict.remove k d)).
Proof.
  induction d as [|[k0 v0] d IH]; simpl; auto.
  intros Hnd. apply List.NoDup_cons_iff in Hnd as [Hnotin Hnd].
  destruct (decide (k = k0)); simpl; auto.
  apply List.NoDup_cons_iff. split; auto.
  intros Hin. apply Hnotin. eapply keys_remove_incl; eauto.
Qed.

Lemma remove_absent k d : Dict.get k d = None -> Dict.remove k d = d.
Proof.
  induction d as [|[k0 v0] d IH]; simpl; auto.
  destruct (decide (k = k0)); [discriminate|].
  intros Hg. now rewrite IH.
Qed.

Lemma length_remove k v d :
  List.NoDup (Dict.keys d) -> Dict.get k d = Some v ->
  S (length (Dict.remove k d)) = length d.
Proof.
  induction d as [|[k0 v0] d IH]; simpl; [discriminate|].
  intros Hnd. apply List.NoDup_cons_iff in Hnd as [Hnotin Hnd].
  destruct (decide (k = k0)) as [->|Hne].
  - intros _. rewrite remove_absent; auto.
    now apply get_None_keys.
  - intros Hg. simpl. f_equal. auto.
Qed.

Lemma del_Some k d d' :
  Dict.del k d = Some d' -> d' = Dict.remove k d /\ exists v, Dict.get k d = Some v.
Proof.
  unfold Dict.del, Dict.mem. destruct (Dict.get k d) eqn:Hg; [|discriminate].
  intros [= <-]. eauto.
Qed.

Lemma del_None k d : Dict.del k d = None -> Dict.get k d = None.
Proof.
  unfold Dict.del, Dict.mem. destruct (Dict.get k d); [discriminate|auto].
Qed.
End Facts.
End DictFacts.

(** ** Reasoning about methods through a preorder on states

    A method [respects] a relation when the state it leaves is related to the
    state it started from, whatever its outcome.  For a reflexive and
    transitive relation this passes through sequencing, loops and retries. *)

Section Respects.
Context {W : Type} `{Backend W}.

Context (R : relation (state W)) `{!PreOrder R}.

Lemma respects_ret {A} (a : A) : respects R (ret a).
Proof. intros s. simpl. reflexivity. Qed.

Lemma respects_raise {A} (e : exn) : respects R (@raise W A e).
Proof. intros s. simpl. reflexivity. Qed.

Lemma respects_out_of_fuel {A} : respects R (@out_of_fuel W A).
Proof. intros s. simpl. reflexivity. Qed.

Lemma respects_get_self : respects R (@get_self W).
Proof. intros s. simpl. reflexivity. Qed.

Lemma respects_get_world {A} (f : W -> A) : respects R (get_world f).
Proof. intros s. simpl. reflexivity. Qed.

Lemma respects_bind {A B} (m : M W A) (k : A -> M W B) :
  respects R m -> (forall a, respects R (k a)) -> respects R (bind m k).
Proof.
  intros Hm Hk s. unfold bind. specialize (Hm s).
  destruct (m s) as [[a|e|] s']; simpl in *; auto.
  etransitivity; [exact Hm|apply Hk].
Qed.

Lemma respects_for {A} (l : list A) (body : A -> M W unit) :
  (forall x, respects R (body x)) -> respects R (for_ l body).
Proof.
  intros Hb. induction l as [|x l IH]; simpl.
  - apply respects_ret.
  - apply respects_bind; auto.
Qed.

Lemma respects_retry_with {A} (intervals : list Q) (f : M W A) :
  (forall d, respects R (sleep d)) -> respects R f ->
  respects R (retry_with intervals f).
Proof.
  intros Hs Hf. induction intervals as [|d rest IH]; intros s; simpl.
  - specialize (Hf s). destruct (f s) as [[a|e|] s']; simpl in *; auto.
    destruct e; auto.
  - specialize (Hf s). destruct (f s) as [[a|e|] s']; simpl in *; auto.
    destruct e; auto.
    etransitivity; [exact Hf|].
    apply (respects_bind (sleep d) (fun _ => retry_with rest f)); auto.
Qed.

Lemma respects_retry {A} (f : M W A) :
  (forall d, respects R (sleep d)) -> respects R f -> respects R (retry f).
Proof. apply respects_retry_with. Qed.

End Respects.

(** ** Frame steps *)

Section Frame.
Context {W : Type} `{Backend W}.

Global Instance frame_preorder : PreOrder (@frame W).
Proof.
  split.
  - intros s. unfold frame. repeat split; auto.
    exists []. rewrite app_nil_r. auto.
  - intros s1 s2 s3 (Ha & Hb & Hc & Hd & t & Ht & Hq) (Ha' & Hb' & Hc' & Hd' & t' & Ht' & Hq').
    unfold frame. repeat split; try congruence.
    + set_solver.
    + exists (t ++ t'). rewrite Ht', Ht, app_assoc. split; auto.
      apply Forall_app; auto.
Qed.

Lemma frame_sleep d : respects (@frame W) (sleep d).
Proof.
  intros s. unfold frame; simpl. repeat split; auto.
  eexists; split; eauto. repeat constructor.
Qed.

Lemma frame_call {A} (f : W -> (exn + A) * W) : respects (@frame W) (call f).
Proof.
  intros s. unfold call. destruct (f (world s)) as [[e|a] w]; simpl;
    (unfold frame; simpl; repeat split; auto; exists []; rewrite app_nil_r; auto).
Qed.

Lemma frame_client_call {A} (f : W -> (exn + A) * W) (ev : exn + A -> event) :
  (forall r, quiet (ev r)) -> respects (@frame W) (client_call f ev).
Proof.
  intros Hq s. unfold client_call. destruct (f (world s)) as [[e|a] w]; simpl;
    (unfold frame; simpl; repeat split; auto; eexists; split; eauto;
     repeat constructor; apply Hq).
Qed.

Lemma frame_log e : quiet e -> respects (@frame W) (log e).
Proof.
  intros Hq s. unfold frame; simpl. repeat split; auto.
  eexists; split; eauto.
Qed.

Lemma frame_modify_self (f : AWSBatchBatchSystem -> AWSBatchBatchSystem) :
  (forall b, bs_id_to_aws_id (f b) = bs_id_to_aws_id b /\
             aws_id_to_bs_id (f b) = aws_id_to_bs_id b /\
             jobIndex (f b) = jobIndex b /\
             killed_job_aws_ids b ⊆ killed_job_aws_ids (f b)) ->
  respects (@frame W) (modify_self f).
Proof.
  intros Hf s. destruct (Hf (self s)) as (? & ? & ? & ?).
  unfold frame; simpl. repeat split; auto.
  exists []. rewrite app_nil_r. auto.
Qed.

Lemma frame_try_terminate aws_id : respects (@frame W) (_try_terminate aws_id).
Proof.
  unfold _try_terminate. apply respects_retry; try apply _.
  - apply frame_sleep.
  - apply respects_bind; try apply _.
    + apply frame_modify_self. intros b; simpl. repeat split; auto. set_solver.
    + intros _. apply frame_client_call. intros r; exact I.
Qed.

Lemma frame_wait_loop fuel aws_id : respects (@frame W) (wait_loop fuel aws_id).
Proof.
  induction fuel as [|fuel IH]; simpl.
  - apply respects_out_of_fuel; apply _.
  - apply respects_bind; try apply _.
    + apply frame_client_call. intros r; exact I.
    + intros [|job jobs].
      * apply respects_ret; apply _.
      * destruct (truthy_str (status job) && status_in job ["SUCCEEDED"; "FAILED"]).
        -- apply respects_ret; apply _.
        -- apply respects_bind; try apply _; auto. apply frame_sleep.
Qed.

Lemma frame_wait_until_stopped fuel aws_id :
  respects (@frame W) (_wait_until_stopped fuel aws_id).
Proof.
  unfold _wait_until_stopped. apply respects_retry; try apply _.
  - apply frame_sleep.
  - apply frame_wait_loop.
Qed.

Lemma frame_killBatchJobs fuel job_ids : respects (@frame W) (killBatchJobs fuel job_ids).
Proof.
  unfold killBatchJobs.
  apply respects_bind; try apply _; [apply frame_call|intros _].
  apply respects_bind; try apply _; [|intros _].
  - apply respects_for; try apply _. intros bs_id.
    apply respects_bind; try apply _; [apply respects_get_self; apply _|].
    intros b. destruct (Dict.get bs_id (bs_id_to_aws_id b)).
    + apply frame_try_terminate.
    + apply respects_ret; apply _.
  - apply respects_for; try apply _. intros bs_id.
    apply respects_bind; try apply _; [apply respects_get_self; apply _|].
    intros b. destruct (Dict.get bs_id (bs_id_to_aws_id b)).
    + apply frame_wait_until_stopped.
    + apply respects_ret; apply _.
Qed.

Lemma frame_destroy_job_definition : respects (@frame W) _destroy_job_definition.
Proof.
  unfold _destroy_job_definition. apply respects_retry; try apply _.
  - apply frame_sleep.
  - apply respects_bind; try apply _; [apply respects_get_self; apply _|].
    intros b. destruct (job_definition b).
    + apply respects_bind; try apply _.
      * apply frame_client_call. intros r; exact I.
      * intros _. apply frame_modify_self. intros b'; simpl. repeat split; auto.
    + apply respects_ret; apply _.
Qed.

Lemma frame_get_or_create_job_definition :
  respects (@frame W) _get_or_create_job_definition.
Proof.
  unfold _get_or_create_job_definition. apply respects_retry; try apply _.
  - apply frame_sleep.
  - apply respects_bind; try apply _; [apply respects_get_self; apply _|].
    intros b. destruct (job_definition b).
    + apply respects_ret; apply _.
    + apply respects_bind; try apply _; [apply frame_call|intros name].
      apply respects_bind; try apply _.
      * apply frame_client_call. intros r; exact I.
      * intros arn. apply respects_bind; try apply _.
        -- apply frame_modify_self. intros b'; simpl. repeat split; auto.
        -- intros _. apply respects_ret; apply _.
Qed.

Lemma frame_shutdown : respects (@frame W) shutdown.
Proof.
  unfold shutdown.
  apply respects_bind; try apply _; [apply frame_call|intros _].
  apply respects_bind; try apply _; [apply respects_get_self; apply _|intros b].
  apply respects_bind; try apply _.
  - apply respects_for; try apply _. intros a. apply frame_try_terminate.
  - intros _. apply frame_destroy_job_definition.
Qed.

Lemma frame_running_details details acc :
  respects (@frame W) (running_details details acc).
Proof.
  revert acc. induction details as [|jd rest IH]; intros acc; simpl.
  - apply respects_ret; apply _.
  - destruct (bool_decide (status jd = Some "RUNNING")); auto.
    apply respects_bind; try apply _; [apply respects_get_world; apply _|intros now_ms].
    apply respects_bind; try apply _; [apply respects_get_self; apply _|intros b].
    destruct (Dict.get (jobId jd) (aws_id_to_bs_id b)).
    + destruct (_get_runtime now_ms jd) as [r|].
      * destruct (truthy_float (Some r)); auto.
        apply respects_bind; try apply _; auto. apply frame_log. exact I.
      * apply respects_bind; try apply _; auto. apply frame_log. exact I.
    + apply respects_raise; apply _.
Qed.

Lemma frame_running_batches batches acc :
  respects (@frame W) (running_batches batches acc).
Proof.
  revert acc. induction batches as [|cb rest IH]; intros acc; simpl.
  - apply respects_ret; apply _.
  - apply respects_bind; try apply _.
    + apply frame_client_call. intros r; exact I.
    + intros details. apply respects_bind; try apply _; auto.
      apply frame_running_details.
Qed.

Lemma frame_getRunningBatchJobIDs : respects (@frame W) getRunningBatchJobIDs.
Proof.
  unfold getRunningBatchJobIDs.
  apply respects_bind; try apply _; [apply respects_get_self; apply _|intros b].
  apply frame_running_batches.
Qed.

End Frame.

(** ** One pass of remote polling *)

Section PollPass.
Context {W : Type} `{Backend W}.

Lemma status_in_terminal jd :
  status_in jd ["SUCCEEDED"; "FAILED"] = true <-> terminal jd.
Proof.
  unfold status_in, terminal. destruct (status jd) as [st|].
  - rewrite bool_decide_eq_true. split.
    + intros Hin. apply elem_of_cons in Hin as [->|Hin]; auto.
      apply elem_of_cons in Hin as [->|Hin]; auto.
      apply elem_of_nil in Hin. contradiction.
    + intros [[= ->]|[= ->]]; set_solver.
  - split; [discriminate|]. intros [?|?]; discriminate.
Qed.

Lemma terminal_exit_reason jd :
  terminal jd ->
  exists r, (status jd ≫= (fun st => Dict.get st STATE_TO_EXIT_REASON)) = Some r.
Proof. intros [->| ->]; simpl; eauto. Qed.

Lemma reconcile_spec (b : AWSBatchBatchSystem) (now_ms : Z) (details : list JobDetail) :
  forall acks o acks',
    reconcile b now_ms details acks = (o, acks') ->
    exists new,
      acks' = acks ++ new /\
      (forall a bs, In (a, bs) new ->
         Dict.get a (aws_id_to_bs_id b) = Some bs /\
         exists jd, In jd details /\ jobId jd = a /\ terminal jd) /\
      match o with
      | Ret (Some (a, info)) =>
          exists pre jd,
            new = pre ++ [(a, jobID info)] /\
            (forall a' b', In (a', b') pre -> a' ∈ killed_job_aws_ids b) /\
            (a ∉ killed_job_aws_ids b) /\
            In jd details /\ jobId jd = a /\ terminal jd /\
            composed now_ms (jobID info) jd info
      | Ret None => forall a' b', In (a', b') new -> a' ∈ killed_job_aws_ids b
      | Raise e => e = KeyError /\
                   forall a' b', In (a', b') new -> a' ∈ killed_job_aws_ids b
      | OutOfFuel => False
      end.
Proof.
  induction details as [|jd rest IH]; intros acks o acks'; cbn [reconcile].
  - intros [= <- <-]. exists []. rewrite app_nil_r.
    split; [reflexivity|]. split; intros ? ? [].
  - destruct (status_in jd ["SUCCEEDED"; "FAILED"]) eqn:Hst.
    + apply status_in_terminal in Hst.
      destruct (Dict.get (jobId jd) (aws_id_to_bs_id b)) as [bs_id|] eqn:Hget.
      * destruct (bool_decide (jobId jd ∈ killed_job_aws_ids b)) eqn:Hk.
        -- apply bool_decide_eq_true in Hk. intros Hrec.
           apply IH in Hrec as (new & -> & Hnew & Ho).
           exists ((jobId jd, bs_id) :: new). rewrite <- app_assoc. simpl.
           split; [reflexivity|]. split.
           ++ intros a bs [[= <- <-]|Hin].
              ** split; auto. exists jd. split; [now left|auto].
              ** destruct (Hnew _ _ Hin) as (? & jd' & ? & ? & ?).
                 split; auto. exists jd'. split; [now right|auto].
           ++ destruct o as [[[a info]|]|e|].
              ** destruct Ho as (pre & jd' & -> & Hpre & Hnk & Hin & Hid & Hterm & Hc).
                 exists ((jobId jd, bs_id) :: pre), jd'. simpl.
                 split; [reflexivity|]. split.
                 { intros a' b' [[= <- <-]|Hin']; eauto. }
                 repeat split; auto; apply Hc.
              ** intros a' b' [[= <- <-]|Hin']; eauto.
              ** destruct Ho as [-> Ho]. split; auto.
                 intros a' b' [[= <- <-]|Hin']; eauto.
              ** exact Ho.
        -- apply bool_decide_eq_false in Hk.
           destruct (terminal_exit_reason jd Hst) as [r Hr]. rewrite Hr.
           intros [= <- <-].
           exists [(jobId jd, bs_id)]. split; [reflexivity|]. split.
           ++ intros a bs [[= <- <-]|[]]. split; auto. exists jd. split; [now left|auto].
           ++ exists [], jd. simpl.
              split; [reflexivity|]. split; [intros ? ? []|].
              repeat split; auto.
      * intros [= <- <-]. exists []. rewrite app_nil_r.
        split; [reflexivity|]. split; [intros ? ? []|].
        split; [reflexivity|intros ? ? []].
    + intros Hrec. apply IH in Hrec as (new & -> & Hnew & Ho).
      exists new. split; [reflexivity|]. split.
      * intros a bs Hin. destruct (Hnew _ _ Hin) as (? & jd' & ? & ? & ?).
        split; auto. exists jd'. split; [now right|auto].
      * destruct o as [[[a info]|]|e|]; auto.
        destruct Ho as (pre & jd' & -> & Hpre & Hnk & Hin & Hid & Hterm & Hc).
        exists pre, jd'. repeat split; auto; try apply Hc; try (now right).
Qed.

End PollPass.

Section PollBatches.
Context {W : Type} `{Backend W}.

Lemma is_describe_quiet t : Forall is_describe t -> Forall quiet t.
Proof.
  intros Hf. eapply List.Forall_impl; [|exact Hf].
  intros [] Hd; simpl in *; auto.
Qed.

Lemma described_app t1 t2 : described (t1 ++ t2) = described t1 ++ described t2.
Proof. unfold described. apply flat_map_app. Qed.

Lemma updated_ids_app t1 t2 : updated_ids (t1 ++ t2) = updated_ids t1 ++ updated_ids t2.
Proof. unfold updated_ids. apply flat_map_app. Qed.

Lemma submitted_handles_app t1 t2 :
  submitted_handles (t1 ++ t2) = submitted_handles t1 ++ submitted_handles t2.
Proof. unfold submitted_handles. apply flat_map_app. Qed.

Lemma updated_ids_quiet t : Forall quiet_or_submit t -> updated_ids t = [].
Proof.
  induction 1 as [|e t He Ht IH]; simpl; auto.
  unfold updated_ids in *. simpl. rewrite IH. destruct e; simpl in *; tauto.
Qed.

Lemma quiet_quiet_or_submit t : Forall quiet t -> Forall quiet_or_submit t.
Proof.
  intros Hf. eapply List.Forall_impl; [|exact Hf].
  intros [] Hq; simpl in *; auto; contradiction.
Qed.

Lemma submitted_handles_quiet t : Forall quiet_or_submit t -> submitted_handles t = [].
Proof.
  induction 1 as [|e t He Ht IH]; simpl; auto.
  unfold submitted_handles in *. simpl. rewrite IH.
  destruct e as [spec [e|a]| | | | | | | | |]; simpl in *; tauto.
Qed.

Lemma poll_batches_spec (batches : list (list string)) :
  forall acks s o acks' s',
    poll_batches batches acks s = ((o, acks'), s') ->
    self s' = self s /\
    exists t,
      trace s' = trace s ++ t /\ Forall is_describe t /\
      exists new,
        acks' = acks ++ new /\
        (forall a bs, In (a, bs) new ->
           Dict.get a (aws_id_to_bs_id (self s)) = Some bs /\
           exists jd, In jd (described t) /\ jobId jd = a /\ terminal jd) /\
        match o with
        | Ret (Some (a, info)) =>
            exists pre jd w,
              new = pre ++ [(a, jobID info)] /\
              (forall a' b', In (a', b') pre -> a' ∈ killed_job_aws_ids (self s)) /\
              (a ∉ killed_job_aws_ids (self s)) /\
              In jd (described t) /\ jobId jd = a /\ terminal jd /\
              composed (unix_now_ms w) (jobID info) jd info
        | Ret None | Raise _ =>
            forall a' b', In (a', b') new -> a' ∈ killed_job_aws_ids (self s)
        | OutOfFuel => False
        end.
Proof.
  induction batches as [|cb rest IH]; intros acks s o acks' s'; cbn [poll_batches].
  - intros [= <- <- <-]. split; auto. exists []. rewrite app_nil_r.
    split; auto. split; auto. exists []. rewrite app_nil_r.
    split; auto. split; intros ? ? [].
  - unfold client_call.
    destruct (client_describe_jobs cb (world s)) as [[e|details] w] eqn:Hd.
    + intros [= <- <- <-]. simpl. split; auto.
      eexists. split; [reflexivity|]. split; [repeat constructor|].
      exists []. rewrite app_nil_r. split; auto. split; intros ? ? [].
    + cbn [self world trace].
      destruct (reconcile (self s) (unix_now_ms w) details acks) as [o1 acks1] eqn:Hrec.
      apply reconcile_spec in Hrec as (new1 & -> & Hnew1 & Ho1).
      assert (Hin1 : forall a bs, In (a, bs) new1 ->
                Dict.get a (aws_id_to_bs_id (self s)) = Some bs /\
                exists jd, In jd (described ([EvDescribe cb (inr details)])) /\
                           jobId jd = a /\ terminal jd).
      { intros a bs Hin. destruct (Hnew1 _ _ Hin) as (? & jd & ? & ? & ?).
        split; auto. exists jd. unfold described; simpl. rewrite app_nil_r. auto. }
      destruct o1 as [[[a info]|]|e|].
      * intros [= <- <- <-]. simpl. split; auto.
        eexists. split; [reflexivity|]. split; [repeat constructor|].
        exists new1. split; auto. split; auto.
        destruct Ho1 as (pre & jd & -> & Hpre & Hnk & Hin & Hid & Hterm & Hc).
        exists pre, jd, w. repeat split; auto; try apply Hc.
        unfold described; simpl. rewrite app_nil_r. auto.
      * intros Hrest. apply IH in Hrest as (Hself & t & Ht & Hdesc & new & -> & Hnew & Ho).
        simpl in Hself, Ht, Hnew, Ho. split; auto.
        exists (EvDescribe cb (inr details) :: t). split.
        { rewrite Ht, <- app_assoc. reflexivity. }
        split; [constructor; simpl; auto|].
        exists (new1 ++ new). rewrite app_assoc. split; auto.
        assert (Hdapp : forall jd, In jd (described [EvDescribe cb (inr details)]) \/
                                   In jd (described t) ->
                                   In jd (described (EvDescribe cb (inr details) :: t))).
        { intros jd. change (EvDescribe cb (inr details) :: t)
            with ([EvDescribe cb (inr details)] ++ t).
          rewrite described_app, in_app_iff. auto. }
        split.
        { intros a bs Hin. apply in_app_iff in Hin as [Hin|Hin].
          - destruct (Hin1 _ _ Hin) as (? & jd & ? & ? & ?). split; auto.
            exists jd. auto.
          - destruct (Hnew _ _ Hin) as (? & jd & ? & ? & ?). split; auto.
            exists jd. auto. }
        destruct o as [[[a info]|]|e|]; auto.
        -- destruct Ho as (pre & jd & w' & -> & Hpre & Hnk & Hin & Hid & Hterm & Hc).
           exists (new1 ++ pre), jd, w'. rewrite app_assoc.
           repeat split; auto; try apply Hc.
           intros a' b' Hin'. apply in_app_iff in Hin' as [Hin'|Hin']; eauto.
        -- intros a' b' Hin'. apply in_app_iff in Hin' as [Hin'|Hin']; eauto.
        -- intros a' b' Hin'. apply in_app_iff in Hin' as [Hin'|Hin']; eauto.
      * intros [= <- <- <-]. simpl. split; auto.
        eexists. split; [reflexivity|]. split; [repeat constructor|].
        exists new1. split; auto. split; auto. apply Ho1.
      * contradiction.
Qed.

End PollBatches.

Section Dropping.
Context {W : Type} `{Backend W}.

Lemma registry_ok_drop_pair (s : state W) a bs :
  registry_ok s ->
  Dict.get a (aws_id_to_bs_id (self s)) = Some bs ->
  registry_ok (drop_pair (a, bs) s).
Proof.
  intros [Hinj Hback Hbound Hub Hgone Honce] Hget.
  split; simpl.
  - intros a1 a2 b H1 H2.
    destruct (decide (a = a1)) as [->|Hn1];
      [rewrite DictFacts.get_remove_eq in H1; discriminate|].
    destruct (decide (a = a2)) as [->|Hn2];
      [rewrite DictFacts.get_remove_eq in H2; discriminate|].
    rewrite DictFacts.get_remove_ne in H1, H2 by auto. eauto.
  - intros a1 b H1.
    destruct (decide (a = a1)) as [->|Hn1];
      [rewrite DictFacts.get_remove_eq in H1; discriminate|].
    rewrite DictFacts.get_remove_ne in H1 by auto.
    destruct (decide (bs = b)) as [->|Hnb].
    + exfalso. apply Hn1. eapply Hinj; eauto.
    + rewrite DictFacts.get_remove_ne by auto. auto.
  - intros b a1 H1.
    destruct (decide (bs = b)) as [->|Hnb];
      [rewrite DictFacts.get_remove_eq in H1; discriminate|].
    rewrite DictFacts.get_remove_ne in H1 by auto. eauto.
  - intros b. rewrite updated_ids_app. simpl. rewrite app_nil_r. auto.
  - intros b a1. rewrite updated_ids_app. simpl. rewrite app_nil_r. intros Hin.
    destruct (decide (a = a1)) as [->|Hn1].
    + rewrite DictFacts.get_remove_eq. discriminate.
    + rewrite DictFacts.get_remove_ne by auto. auto.
  - rewrite updated_ids_app. simpl. rewrite app_nil_r. auto.
Qed.

Lemma dropped_app (s1 s2 s3 : state W) d1 d2 :
  dropped s1 d1 s2 -> dropped s2 d2 s3 -> dropped s1 (d1 ++ d2) s3.
Proof.
  induction 1; simpl; auto. intros Hd. econstructor; eauto.
Qed.

Lemma drop_acknowledged_spec (acks : list (string * Z)) :
  forall s : state W,
    registry_ok s ->
    (forall a bs, In (a, bs) acks ->
       Dict.get a (aws_id_to_bs_id (self s)) = None \/
       Dict.get a (aws_id_to_bs_id (self s)) = Some bs) ->
    exists done rest,
      acks = done ++ rest /\
      dropped s done (snd (drop_acknowledged acks s)) /\
      ((fst (drop_acknowledged acks s) = Ret tt /\ rest = []) \/
       (fst (drop_acknowledged acks s) = Raise KeyError /\
        exists a bs rest',
          rest = (a, bs) :: rest' /\
          Dict.get a (aws_id_to_bs_id (self (snd (drop_acknowledged acks s)))) = None)).
Proof.
  induction acks as [|[a bs] acks IH]; intros s Hok Hcons.
  - exists [], []. simpl. repeat split; auto. constructor.
  - destruct (Hcons a bs (or_introl eq_refl)) as [Hnone|Hsome].
    + exists [], ((a, bs) :: acks). simpl.
      unfold bind, get_self, Dict.del, Dict.mem. simpl. rewrite Hnone. simpl.
      split; auto. split; [constructor|]. right. split; auto.
      exists a, bs, acks. auto.
    + pose proof (ok_backed _ Hok _ _ Hsome) as Hb.
      assert (Hstep : drop_acknowledged ((a, bs) :: acks) s
                      = drop_acknowledged acks (drop_pair (a, bs) s)).
      { simpl. unfold bind, get_self, put_self, Dict.del, Dict.mem, log, ret. simpl.
        rewrite Hsome. simpl. rewrite Hb. simpl.
        destruct (bool_decide (a ∈ killed_job_aws_ids (self s))) eqn:Hk; simpl.
        - reflexivity.
        - apply bool_decide_eq_false in Hk.
          assert (Heq : killed_job_aws_ids (self s) ∖ {[a]} = killed_job_aws_ids (self s)).
          { apply set_eq. intros x. rewrite elem_of_difference, elem_of_singleton.
            split; [tauto|]. intros Hx. split; auto. intros ->. contradiction. }
          unfold drop_pair. simpl. rewrite Heq.
          destruct s as [w [cfg jd m1 m2 k idx] t]; reflexivity. }
      rewrite Hstep.
      destruct (IH (drop_pair (a, bs) s)) as (done & rest & -> & Hd & Ho).
      { now apply registry_ok_drop_pair. }
      { intros a' bs' Hin. simpl.
        destruct (decide (a = a')) as [->|Hne].
        - left. apply DictFacts.get_remove_eq.
        - rewrite DictFacts.get_remove_ne by auto. apply Hcons. now right. }
      exists ((a, bs) :: done), rest. split; auto. split; auto.
      econstructor; eauto.
Qed.

(** Facts about a sequence of drops. *)

Lemma dropped_registry_ok (s s' : state W) done :
  dropped s done s' -> registry_ok s -> registry_ok s'.
Proof.
  induction 1; auto. intros Hok. apply IHdropped.
  now apply registry_ok_drop_pair.
Qed.

Lemma dropped_world_trace (s s' : state W) done :
  dropped s done s' ->
  world s' = world s /\
  trace s' = trace s ++ map (fun p => EvDropped (fst p) (snd p)) done /\
  jobIndex (self s') = jobIndex (self s) /\
  settings (self s') = settings (self s) /\
  job_definition (self s') = job_definition (self s).
Proof.
  induction 1; simpl.
  - rewrite app_nil_r. auto.
  - destruct IHdropped as (Hw & Ht & Hi & Hs & Hj). simpl in *.
    rewrite Ht, <- app_assoc. auto.
Qed.

Lemma dropped_aws (s s' : state W) done a :
  dropped s done s' ->
  (In a (map fst done) -> Dict.get a (aws_id_to_bs_id (self s')) = None) /\
  (~ In a (map fst done) ->
   Dict.get a (aws_id_to_bs_id (self s')) = Dict.get a (aws_id_to_bs_id (self s))).
Proof.
  induction 1 as [s|s aws_id bs_id done s' Hget Hd [IH1 IH2]]; simpl.
  - tauto.
  - simpl in *. destruct (decide (aws_id = a)) as [->|Hne].
    + split; [|tauto]. intros _.
      destruct (in_dec string_dec a (map fst done)) as [Hin|Hnin]; auto.
      rewrite IH2 by auto. apply DictFacts.get_remove_eq.
    + rewrite DictFacts.get_remove_ne in IH2 by auto. split.
      * intros [?|?]; [contradiction|auto].
      * intros Hnin. apply IH2. tauto.
Qed.

Lemma dropped_bs (s s' : state W) done b :
  dropped s done s' ->
  (In b (map snd done) -> Dict.get b (bs_id_to_aws_id (self s')) = None) /\
  (~ In b (map snd done) ->
   Dict.get b (bs_id_to_aws_id (self s')) = Dict.get b (bs_id_to_aws_id (self s))).
Proof.
  induction 1 as [s|s aws_id bs_id done s' Hget Hd [IH1 IH2]]; simpl.
  - tauto.
  - simpl in *. destruct (decide (bs_id = b)) as [->|Hne].
    + split; [|tauto]. intros _.
      destruct (in_dec Z.eq_dec b (map snd done)) as [Hin|Hnin]; auto.
      rewrite IH2 by auto. apply DictFacts.get_remove_eq.
    + rewrite DictFacts.get_remove_ne in IH2 by auto. split.
      * intros [?|?]; [contradiction|auto].
      * intros Hnin. apply IH2. tauto.
Qed.

Lemma dropped_killed (s s' : state W) done a :
  dropped s done s' ->
  a ∈ killed_job_aws_ids (self s') <->
  a ∈ killed_job_aws_ids (self s) /\ ~ In a (map fst done).
Proof.
  induction 1; simpl.
  - tauto.
  - rewrite IHdropped. simpl. rewrite elem_of_difference, elem_of_singleton.
    split.
    + intros [[Hk Hne] Hnin]. split; auto. intros [Heq|Hin]; auto.
    + intros [Hk Hnin]. split; [split|]; auto.
Qed.

End Dropping.

Section PollRemote.
Context {W : Type} `{Backend W}.

Lemma registry_ok_frame (s s' : state W) :
  frame s s' -> registry_ok s -> registry_ok s'.
Proof.
  intros (Hb & Ha & Hi & Hk & t & Ht & Hq) [Hinj Hback Hbound Hub Hgone Honce].
  assert (Hu : updated_ids (trace s') = updated_ids (trace s)).
  { rewrite Ht, updated_ids_app, (updated_ids_quiet t), app_nil_r; auto.
    now apply quiet_quiet_or_submit. }
  split; rewrite ?Hb, ?Ha, ?Hi, ?Hu; auto.
Qed.

Lemma app_snoc_split {A} (done rest pre : list A) (x y : A) :
  done ++ x :: rest = pre ++ [y] ->
  (exists l, pre = done ++ x :: l) \/ (done = pre /\ x = y /\ rest = []).
Proof.
  revert pre. induction done as [|d done IH]; intros pre; simpl.
  - destruct pre as [|p pre]; simpl.
    + intros [= -> ->]. right. auto.
    + intros [= -> ->]. left. eauto.
  - destruct pre as [|p pre]; simpl.
    + intros [= -> Hd]. destruct done; discriminate.
    + intros [= -> Hd]. apply IH in Hd as [[l ->]|(-> & -> & ->)].
      * left. eauto.
      * right. auto.
Qed.

Lemma in_map_fst {A B} (a : A) (l : list (A * B)) :
  In a (map fst l) -> exists b, In (a, b) l.
Proof.
  intros Hin. apply in_map_iff in Hin as ([a' b] & <- & Hin). eauto.
Qed.

Lemma poll_remote_polled (s : state W) :
  registry_ok s -> polled s (snd (poll_remote s)) (fst (poll_remote s)).
Proof.
  intros Hok. unfold poll_remote.
  destruct (poll_batches (describe_batches (self s)) [] s) as [[o acks] s1] eqn:Hpb.
  apply poll_batches_spec in Hpb
    as (Hself & t & Ht & Hdesc & new & Hacks & Hnew & Ho).
  simpl in Hacks. subst acks.
  assert (Hframe : frame s s1).
  { unfold frame. rewrite Hself. repeat split; auto.
    exists t. split; auto. now apply is_describe_quiet. }
  assert (Hok1 : registry_ok s1) by (eapply registry_ok_frame; eauto).
  assert (Hskip : skipn (length (trace s)) (trace s1) = t).
  { rewrite Ht. apply drop_app_length. }
  destruct (drop_acknowledged_spec new s1 Hok1) as (done & rest & -> & Hdrop & Hout).
  { intros a bs Hin. right. rewrite Hself. apply Hnew. auto. }
  set (r := drop_acknowledged (done ++ rest) s1) in *.
  destruct r as [f s2]. simpl in Hdrop, Hout.
  assert (Hdone : forall a b, In (a, b) done ->
            exists jd, In jd (described t) /\ jobId jd = a /\ terminal jd).
  { intros a b Hin. apply (Hnew a b). apply in_app_iff. auto. }
  assert (Hdescr : forall e, In e t -> is_describe e) by now apply List.Forall_forall.
  destruct Hout as [[-> ->]|[-> (a0 & bs0 & rest' & -> & Hnone)]].
  - rewrite app_nil_r in *.
    destruct o as [[[a info]|]|e|]; simpl.
    + destruct Ho as (pre & jd & w & -> & Hpre & Hnk & Hin & Hid & Hterm & Hc).
      exists s1, s2, (pre ++ [(a, jobID info)]). rewrite Hskip.
      split; [exact Hframe|]. split; [exact Hself|]. split; [exact Hdescr|].
      split; [exact Hdrop|]. split; [exact Hdone|].
      right. exists a, info, pre, jd, w. repeat split; auto; apply Hc.
    + exists s1, s2, done. rewrite Hskip.
      split; [exact Hframe|]. split; [exact Hself|]. split; [exact Hdescr|].
      split; [exact Hdrop|]. split; [exact Hdone|].
      left. split; [reflexivity|]. split; [intros info Heq; discriminate Heq|exact Ho].
    + exists s1, s2, done. rewrite Hskip.
      split; [exact Hframe|]. split; [exact Hself|]. split; [exact Hdescr|].
      split; [exact Hdrop|]. split; [exact Hdone|].
      left. split; [reflexivity|]. split; [intros info Heq; discriminate Heq|exact Ho].
    + contradiction.
  - exists s1, s2, done. rewrite Hskip.
    split; [exact Hframe|]. split; [exact Hself|]. split; [exact Hdescr|].
    split; [exact Hdrop|]. split; [exact Hdone|].
    left. split; [reflexivity|]. split; [intros info Heq; discriminate Heq|].
    intros a b Hin.
    destruct o as [[[a1 info]|]|e|]; try (apply (Ho a b); apply in_app_iff; auto).
    + destruct Ho as (pre & jd & w & Hsplit & Hpre & Hnk & Hin' & Hid & Hterm & Hc).
      apply app_snoc_split in Hsplit as [[l ->]|(-> & [= -> ->] & ->)].
      * apply (Hpre a b). apply in_app_iff. auto.
      * exfalso.
        destruct (dropped_aws s1 s2 pre a1 Hdrop) as [_ Hkeep].
        rewrite Hkeep in Hnone.
        -- rewrite Hself in Hnone.
           destruct (Hnew a1 (jobID info)) as [Hg _];
             [apply in_app_iff; right; now left|]. congruence.
        -- intros Hin1. apply in_map_fst in Hin1 as [b1 Hin1].
           apply Hnk. eapply Hpre; eauto.
    + contradiction.
Qed.

End PollRemote.

Section Issue.
Context {W : Type} `{Backend W}.

Lemma issueBatchJob_cases (job_desc : JobDescription)
    (job_environment : option (list (string * string))) (s : state W)
    (P : state W -> Prop) :
  (forall s', frame s s' -> P s') ->
  (forall s', allocated s s' -> P s') ->
  (forall s', issued job_desc s s' -> P s') ->
  P (snd (issueBatchJob job_desc job_environment s)).
Proof.
  intros HF HA HI.
  unfold issueBatchJob.
  unfold bind at 1.
  pose proof (frame_call (handleLocalJob job_desc) s) as F1.
  destruct (call (handleLocalJob job_desc) s) as [[[local_id|]|e|] s1]; simpl in F1;
    try (apply HF; exact F1).
  unfold bind at 1.
  pose proof (frame_call (checkResourceRequest (memory job_desc) (cores job_desc)
                                               (disk job_desc)) s1) as F2.
  destruct (call _ s1) as [[[]|e|] s2]; simpl in F2;
    try (apply HF; simpl; etransitivity; [exact F1|exact F2]).
  assert (F12 : frame s s2) by (etransitivity; eauto).
  unfold bind at 1. unfold getNextJobID at 1. unfold bind at 1. unfold get_self at 1.
  unfold bind at 1. unfold put_self at 1. unfold ret at 1.
  unfold bind at 1. unfold get_self at 1. cbn [self with_jobIndex settings].
  set (s3 := {| world := world s2;
                self := with_jobIndex (jobIndex (self s2) + 1) (self s2);
                trace := trace s2 |}).
  unfold bind at 1.
  pose proof (frame_get_or_create_job_definition s3) as F3.
  destruct F12 as (Hb & Ha & Hi & Hk & t12 & Ht12 & Hq12).
  destruct (_get_or_create_job_definition s3) as [[definition|e|] s4]; simpl in F3;
    destruct F3 as (Hb3 & Ha3 & Hi3 & Hk3 & t3 & Ht3 & Hq3); simpl in *.
  2,3: apply HA; unfold allocated; simpl;
       (split; [congruence|]); (split; [congruence|]); (split; [congruence|]);
       (split; [set_solver|]);
       exists (t12 ++ t3); rewrite Ht3, Ht12, app_assoc; split; auto;
       apply quiet_quiet_or_submit, Forall_app; auto.
  unfold bind at 1. unfold client_call at 1.
  match goal with |- context [client_submit_job ?sp (world s4)] => set (spec := sp) end.
  destruct (client_submit_job spec (world s4)) as [[e|aws_id] w5].
  - apply HA. unfold allocated. simpl.
    (split; [congruence|]); (split; [congruence|]); (split; [congruence|]).
    split; [set_solver|].
    exists ((t12 ++ t3) ++ [EvSubmit spec (inl e)]).
    rewrite Ht3, Ht12, !app_assoc. split; auto.
    apply Forall_app. split.
    + apply quiet_quiet_or_submit, Forall_app; auto.
    + repeat constructor.
  - apply HI. unfold issued. simpl.
    exists aws_id, spec, (t12 ++ t3). simpl.
    rewrite Hb3, Ha3, Hb, Ha, Hi3, Hi, Ht3, Ht12.
    split; [reflexivity|]. split; [reflexivity|]. split; [reflexivity|].
    split; [set_solver|]. split.
    + rewrite <- !app_assoc. reflexivity.
    + split; [apply Forall_app; auto|]. split; reflexivity.
Qed.

End Issue.

(** ** At most one completion, and none after a kill *)

Section Once.
Context {W : Type} `{Backend W}.

Global Instance keeps_once_preorder : PreOrder (@keeps_once W).
Proof.
  split.
  - intros s. split; auto. intros bs _ Hs. split; auto.
    exists []. rewrite app_nil_r. auto.
  - intros s1 s2 s3 [Hok12 Hs12] [Hok23 Hs23]. split; auto.
    intros bs Hok Hs.
    destruct (Hs12 bs Hok Hs) as (Hs2 & t & Ht & Hn).
    destruct (Hs23 bs (Hok12 Hok) Hs2) as (Hs3 & t' & Ht' & Hn').
    split; auto. exists (t ++ t'). rewrite Ht', Ht, app_assoc. split; auto.
    rewrite updated_ids_app, in_app_iff. tauto.
Qed.

Lemma frame_keeps_once (s s' : state W) : frame s s' -> keeps_once s s'.
Proof.
  intros Hf. split; [now apply registry_ok_frame|].
  destruct Hf as (Hb & Ha & Hi & Hk & t & Ht & Hq).
  intros bs _ [Hlt Hs]. split.
  - split; [congruence|]. intros a Hget. rewrite Ha in Hget. apply Hk. auto.
  - exists t. split; auto. rewrite updated_ids_quiet; auto.
    now apply quiet_quiet_or_submit.
Qed.

Lemma allocated_keeps_once (s s' : state W) : allocated s s' -> keeps_once s s'.
Proof.
  intros (Hb & Ha & Hi & Hk & t & Ht & Hq).
  assert (Hu : updated_ids (trace s') = updated_ids (trace s)).
  { rewrite Ht, updated_ids_app, (updated_ids_quiet t), app_nil_r; auto. }
  split.
  - intros [Hinj Hback Hbound Hub Hgone Honce].
    split; rewrite ?Hb, ?Ha, ?Hi, ?Hu; auto.
    + intros b a Hg. specialize (Hbound b a Hg). lia.
    + intros b Hin. specialize (Hub b Hin). lia.
  - intros bs _ [Hlt Hs]. split.
    + split; [lia|]. intros a Hget. rewrite Ha in Hget. apply Hk. auto.
    + exists t. split; auto. rewrite updated_ids_quiet; auto.
Qed.

Lemma issued_keeps_once job_desc (s s' : state W) :
  issued job_desc s s' -> keeps_once s s'.
Proof.
  intros (a0 & spec & t & Hb & Ha & Hi & Hk & Ht & Hq & _).
  assert (Hu : updated_ids (trace s') = updated_ids (trace s)).
  { rewrite Ht, !updated_ids_app, (updated_ids_quiet t); simpl.
    - now rewrite app_nil_r.
    - now apply quiet_quiet_or_submit. }
  set (b0 := jobIndex (self s)) in *.
  split.
  - intros [Hinj Hback Hbound Hub Hgone Honce].
    assert (Hlt : forall a b, Dict.get a (aws_id_to_bs_id (self s)) = Some b -> (b < b0)%Z).
    { intros a b Hg. eapply Hbound, Hback, Hg. }
    split; rewrite ?Hb, ?Ha, ?Hi, ?Hu; auto.
    + intros a1 a2 b H1 H2.
      destruct (decide (a0 = a1)) as [<-|Hn1], (decide (a0 = a2)) as [<-|Hn2]; auto.
      * rewrite DictFacts.get_set_eq in H1. rewrite DictFacts.get_set_ne in H2 by auto.
        injection H1 as <-. apply Hlt in H2. lia.
      * rewrite DictFacts.get_set_eq in H2. rewrite DictFacts.get_set_ne in H1 by auto.
        injection H2 as <-. apply Hlt in H1. lia.
      * rewrite DictFacts.get_set_ne in H1, H2 by auto. eauto.
    + intros a b Hg. destruct (decide (a0 = a)) as [<-|Hn].
      * rewrite DictFacts.get_set_eq in Hg. injection Hg as <-.
        apply DictFacts.get_set_eq.
      * rewrite DictFacts.get_set_ne in Hg by auto.
        pose proof (Hlt _ _ Hg).
        rewrite DictFacts.get_set_ne by lia. auto.
    + intros b a Hg. destruct (decide (b0 = b)) as [<-|Hn]; [lia|].
      rewrite DictFacts.get_set_ne in Hg by auto.
      specialize (Hbound _ _ Hg). lia.
    + intros b Hin. specialize (Hub b Hin). lia.
    + intros b a Hin Hg. destruct (decide (a0 = a)) as [<-|Hn].
      * rewrite DictFacts.get_set_eq in Hg. injection Hg as <-.
        specialize (Hub _ Hin). lia.
      * rewrite DictFacts.get_set_ne in Hg by auto. eapply Hgone; eauto.
  - intros bs _ [Hlt Hs]. split.
    + split; [lia|]. intros a Hget. rewrite Ha in Hget.
      destruct (decide (a0 = a)) as [<-|Hn].
      * rewrite DictFacts.get_set_eq in Hget. injection Hget as <-. lia.
      * rewrite DictFacts.get_set_ne in Hget by auto. apply Hk. auto.
    + eexists. split; [exact Ht|].
      rewrite updated_ids_app, (updated_ids_quiet t); simpl; auto.
      now apply quiet_quiet_or_submit.
Qed.

Lemma issueBatchJob_keeps_once job_desc job_environment :
  respects (@keeps_once W) (issueBatchJob job_desc job_environment).
Proof.
  intros s. apply issueBatchJob_cases.
  - apply frame_keeps_once.
  - apply allocated_keeps_once.
  - apply issued_keeps_once.
Qed.

Lemma dropped_registered (s s' : state W) done a b :
  dropped s done s' -> In (a, b) done ->
  Dict.get a (aws_id_to_bs_id (self s)) = Some b.
Proof.
  induction 1 as [s|s a0 b0 done s' Hget Hd IH]; simpl; [tauto|].
  intros [[= -> ->]|Hin]; auto.
  specialize (IH Hin). simpl in IH.
  destruct (decide (a0 = a)) as [->|Hne].
  - rewrite DictFacts.get_remove_eq in IH. discriminate.
  - now rewrite DictFacts.get_remove_ne in IH by auto.
Qed.

Lemma updated_ids_dropped (done : list (string * Z)) :
  updated_ids (map (fun p => EvDropped (fst p) (snd p)) done) = [].
Proof. induction done; simpl; auto. Qed.

Lemma polled_keeps_once (s s' : state W) r :
  registry_ok s -> polled s s' r -> keeps_once s s'.
Proof.
  intros Hok (s1 & s2 & done & Hframe & Hself & Hdescr & Hdrop & Hdone & Hres).
  pose proof (registry_ok_frame _ _ Hframe Hok) as Hok1.
  pose proof (dropped_registry_ok _ _ _ Hdrop Hok1) as Hok2.
  destruct (dropped_world_trace _ _ _ Hdrop) as (Hw2 & Ht2 & Hi2 & _).
  destruct Hframe as (_ & _ & _ & _ & t1 & Ht1 & Hq1).
  assert (Hu2 : updated_ids (trace s2) = updated_ids (trace s)).
  { rewrite Ht2, Ht1, !updated_ids_app, updated_ids_dropped,
      (updated_ids_quiet t1), !app_nil_r; auto.
    now apply quiet_quiet_or_submit. }
  assert (Hsupp2 : forall bs, suppressed bs s -> suppressed bs s2).
  { intros bs [Hlt Hs]. split; [rewrite Hi2, Hself; auto|].
    intros a Hg.
    destruct (dropped_aws s1 s2 done a Hdrop) as [Hgone Hkeep].
    destruct (in_dec string_dec a (map fst done)) as [Hin|Hnin].
    - rewrite Hgone in Hg by auto. discriminate.
    - rewrite Hkeep, Hself in Hg by auto.
      apply (dropped_killed s1 s2 done a Hdrop). rewrite Hself. auto. }
  destruct Hres as [(-> & _ & _)|(a & info & pre & jd & w & _ & -> & -> & Hpre & Hnk & _ & _ & _ & Hc)].
  - split; auto. intros bs _ Hs. split; auto.
    eexists. split; [rewrite Ht2, Ht1, <- app_assoc; reflexivity|].
    rewrite updated_ids_app, updated_ids_dropped, (updated_ids_quiet t1), app_nil_r; auto.
    now apply quiet_quiet_or_submit.
  - set (b := jobID info) in *.
    assert (Hreg1 : Dict.get a (aws_id_to_bs_id (self s1)) = Some b).
    { eapply dropped_registered; eauto. apply in_app_iff. right. now left. }
    split.
    + intros _. destruct Hok2 as [Hinj2 Hback2 Hbound2 Hub2 Hgone2 Honce2].
      split; simpl; auto.
      * intros b'. rewrite updated_ids_app, in_app_iff. simpl.
        intros [Hin|[<-|[]]]; auto. rewrite Hi2.
        eapply (ok_bound _ Hok1), (ok_backed _ Hok1), Hreg1.
      * intros b' a'. rewrite updated_ids_app, in_app_iff. simpl.
        intros [Hin|[<-|[]]]; auto. intros Hg.
        destruct (dropped_aws s1 s2 (pre ++ [(a, b)]) a' Hdrop) as [Hgone Hkeep].
        destruct (in_dec string_dec a' (map fst (pre ++ [(a, b)]))) as [Hin|Hnin].
        -- rewrite Hgone in Hg by auto. discriminate.
        -- rewrite Hkeep in Hg by auto.
           apply Hnin. rewrite (ok_injective _ Hok1 _ _ _ Hg Hreg1).
           rewrite map_app, in_app_iff. right. now left.
      * rewrite updated_ids_app. simpl. apply List.NoDup_app; auto.
        -- repeat constructor. simpl. tauto.
        -- intros x Hx [Heq|[]]. subst x. rewrite Hu2 in Hx.
           apply (ok_updated_gone _ Hok b a Hx). now rewrite <- Hself.
    + intros bs _ Hs. split.
      * destruct (Hsupp2 bs Hs) as [Hlt2 Hs2]. split; auto.
      * eexists. split; [simpl; rewrite Ht2, Ht1, <- !app_assoc; reflexivity|].
        rewrite !updated_ids_app, updated_ids_dropped, (updated_ids_quiet t1); simpl.
        2: now apply quiet_quiet_or_submit.
        intros [<-|[]]. apply Hnk. apply Hs. now rewrite <- Hself.
Qed.

Lemma poll_remote_keeps_once : respects (@keeps_once W) poll_remote.
Proof.
  intros s. split.
  - intros Hok. eapply polled_keeps_once; eauto. now apply poll_remote_polled.
  - intros bs Hok. eapply polled_keeps_once; eauto. now apply poll_remote_polled.
Qed.

Lemma respects_frame_keeps_once {A} (m : M W A) :
  respects (@frame W) m -> respects (@keeps_once W) m.
Proof. intros Hf s. apply frame_keeps_once, Hf. Qed.

Lemma getUpdatedBatchJob_loop_keeps_once fuel maxWait entry :
  respects (@keeps_once W) (getUpdatedBatchJob_loop fuel maxWait entry).
Proof.
  induction fuel as [|fuel IH]; simpl.
  - apply respects_out_of_fuel; apply _.
  - apply respects_bind; try apply _; [apply respects_get_world; apply _|intros now].
    destruct (Qlt_bool (now - entry) (inject_Z maxWait) || (maxWait =? 0)%Z);
      [|apply respects_ret; apply _].
    apply respects_bind; try apply _.
    { apply respects_frame_keeps_once, frame_call. }
    intros [result|]; [apply respects_ret; apply _|].
    apply respects_bind; try apply _; [apply poll_remote_keeps_once|].
    intros [info|]; [apply respects_ret; apply _|].
    destruct (negb (maxWait =? 0)%Z); [|apply respects_ret; apply _].
    apply respects_bind; try apply _; auto.
    apply respects_frame_keeps_once, frame_sleep.
Qed.

Lemma getUpdatedBatchJob_keeps_once fuel maxWait :
  respects (@keeps_once W) (getUpdatedBatchJob fuel maxWait).
Proof.
  unfold getUpdatedBatchJob.
  apply respects_bind; try apply _; [apply respects_get_world; apply _|intros entry].
  apply getUpdatedBatchJob_loop_keeps_once.
Qed.

Lemma run_call_keeps_once (c : api_call) (s : state W) : keeps_once s (run_call c s).
Proof.
  destruct c; simpl.
  - apply issueBatchJob_keeps_once.
  - apply getUpdatedBatchJob_keeps_once.
  - apply frame_keeps_once, frame_getRunningBatchJobIDs.
  - apply frame_keeps_once, frame_killBatchJobs.
  - apply frame_keeps_once, frame_shutdown.
Qed.

Lemma run_keeps_once (calls : list api_call) (s : state W) : keeps_once s (run calls s).
Proof.
  revert s. induction calls as [|c calls IH]; intros s; simpl.
  - reflexivity.
  - etransitivity; [apply run_call_keeps_once|apply IH].
Qed.

Lemma registry_ok_init (cfg : Settings) (w : W) : registry_ok (init cfg w).
Proof.
  split; simpl; try discriminate; try tauto. constructor.
Qed.

End Once.

Section KillFlag.
Context {W : Type} `{Backend W}.

Lemma try_terminate_flag_set aws_id (s : state W) :
  aws_id ∈ killed_job_aws_ids (self (snd (_try_terminate aws_id s))).
Proof.
  unfold _try_terminate, retry.
  set (attempt := (modify_self (fun b =>
         with_killed_job_aws_ids (killed_job_aws_ids b ∪ {[aws_id]}) b) ;;;
       client_call (client_terminate_job aws_id "Killed by Toil") (EvTerminate aws_id))).
  assert (Hattempt : forall s0 : state W,
            aws_id ∈ killed_job_aws_ids (self (snd (attempt s0)))).
  { intros s0. unfold attempt, bind, modify_self, client_call. simpl.
    destruct (client_terminate_job aws_id "Killed by Toil" (world s0)) as [[e|[]] w];
      simpl; set_solver. }
  assert (Hframe : respects (@frame W) attempt).
  { unfold attempt. apply respects_bind; try apply _.
    - apply frame_modify_self. intros b; simpl. repeat split; auto. set_solver.
    - intros _. apply frame_client_call. intros r; exact I. }
  destruct retry_intervals as [|d rest]; simpl.
  - specialize (Hattempt s). destruct (attempt s) as [[a|e|] s1]; simpl in *; auto.
    destruct e; auto.
  - specialize (Hattempt s). destruct (attempt s) as [[a|e|] s1]; simpl in *; auto.
    destruct e; auto.
    pose proof (respects_bind (@frame W) (sleep d) (fun _ => retry_with rest attempt)
                  (frame_sleep d)
                  (fun _ => respects_retry_with (@frame W) rest attempt frame_sleep Hframe) s1)
      as (_ & _ & _ & Hk & _).
    apply Hk. exact Hattempt.
Qed.

Lemma poll_remote_suppresses (s : state W) aws_id :
  registry_ok s ->
  aws_id ∈ killed_job_aws_ids (self s) ->
  let s' := snd (poll_remote s) in
  exists t,
    trace s' = trace s ++ t /\
    (forall info, ~ In (EvUpdated aws_id info) t) /\
    (forall bs_id, In (EvDropped aws_id bs_id) t ->
       Dict.get aws_id (aws_id_to_bs_id (self s')) = None /\
       Dict.get bs_id (bs_id_to_aws_id (self s')) = None /\
       aws_id ∉ killed_job_aws_ids (self s')).
Proof.
  intros Hok Hk s'.
  destruct (poll_remote_polled s Hok)
    as (s1 & s2 & done & Hframe & Hself & Hdescr & Hdrop & Hdone & Hres).
  fold s' in Hres.
  destruct (dropped_world_trace _ _ _ Hdrop) as (Hw2 & Ht2 & Hi2 & _).
  destruct Hframe as (_ & _ & _ & _ & t1 & Ht1 & Hq1).
  rewrite Ht1, drop_app_length in Hdescr.
  assert (Hin_done : forall b, In (EvDropped aws_id b)
                       (t1 ++ map (fun p => EvDropped (fst p) (snd p)) done) ->
                     In (aws_id, b) done).
  { intros b Hin. apply in_app_iff in Hin as [Hin|Hin].
    - apply Hdescr in Hin. destruct Hin.
    - apply in_map_iff in Hin as ([a' b'] & [= -> ->] & Hin). exact Hin. }
  assert (Hgone : forall b, In (aws_id, b) done ->
            Dict.get aws_id (aws_id_to_bs_id (self s2)) = None /\
            Dict.get b (bs_id_to_aws_id (self s2)) = None /\
            aws_id ∉ killed_job_aws_ids (self s2)).
  { intros b Hin.
    assert (In aws_id (map fst done)) by (change aws_id with (fst (aws_id, b)); now apply in_map).
    assert (In b (map snd done)) by (change b with (snd (aws_id, b)); now apply in_map).
    split; [now apply (dropped_aws s1 s2 done aws_id Hdrop)|].
    split; [now apply (dropped_bs s1 s2 done b Hdrop)|].
    rewrite (dropped_killed s1 s2 done aws_id Hdrop). tauto. }
  destruct Hres as [(Hs' & _ & _)|(a & info & pre & jd & w & _ & Hs' & -> & Hpre & Hnk & _)].
  - rewrite Hs'. exists (t1 ++ map (fun p => EvDropped (fst p) (snd p)) done).
    split; [rewrite Ht2, Ht1, <- app_assoc; reflexivity|]. split.
    + intros info Hin. apply in_app_iff in Hin as [Hin|Hin].
      * apply Hdescr in Hin. destruct Hin.
      * apply in_map_iff in Hin as (p & Hp & _). discriminate.
    + intros b Hin. auto.
  - rewrite Hs'. simpl.
    exists ((t1 ++ map (fun p => EvDropped (fst p) (snd p)) (pre ++ [(a, jobID info)]))
              ++ [EvUpdated a info]).
    split; [rewrite Ht2, Ht1, <- !app_assoc; reflexivity|]. split.
    + intros info' Hin. apply in_app_iff in Hin as [Hin|[[= -> ->]|[]]].
      * apply in_app_iff in Hin as [Hin|Hin].
        -- apply Hdescr in Hin. destruct Hin.
        -- apply in_map_iff in Hin as (p & Hp & _). discriminate.
      * contradiction.
    + intros b Hin. apply in_app_iff in Hin as [Hin|[[=]|[]]]. auto.
Qed.

End KillFlag.

(** ** The registry maps are mutual inverses *)

Section Registry.
Context {W : Type} `{Backend W}.

Lemma outstanding_from_app acc t1 t2 :
  outstanding_from acc (t1 ++ t2) = outstanding_from (outstanding_from acc t1) t2.
Proof.
  revert acc. induction t1 as [|e t1 IH]; intros acc; simpl; auto.
  destruct e; auto.
Qed.

Lemma outstanding_from_quiet acc t :
  Forall quiet_or_submit t -> outstanding_from acc t = acc.
Proof.
  induction 1 as [|e t He Ht IH]; simpl; auto.
  destruct e; simpl in *; auto; contradiction.
Qed.

Lemma recorded_app t1 t2 : recorded (t1 ++ t2) = recorded t1 ++ recorded t2.
Proof. unfold recorded. apply flat_map_app. Qed.

Lemma recorded_quiet t : Forall quiet_or_submit t -> recorded t = [].
Proof.
  induction 1 as [|e t He Ht IH]; simpl; auto.
  unfold recorded in *. simpl. rewrite IH. destruct e; simpl in *; tauto.
Qed.

Lemma described_incl t1 t2 jd : In jd (described t1) -> In jd (described (t1 ++ t2)).
Proof. rewrite described_app, in_app_iff. auto. Qed.

Lemma filter_remove_length {A} `{EqDecision A} (p : A) (l : list A) :
  List.NoDup l -> In p l ->
  S (length (List.filter (fun x => negb (bool_decide (x = p))) l)) = length l.
Proof.
  induction 1 as [|x l Hnin Hnd IH]; simpl; [tauto|].
  intros [->|Hin].
  - rewrite bool_decide_eq_true_2 by auto. simpl. f_equal.
    clear IH. induction l as [|y l IHl]; simpl; auto.
    apply List.NoDup_cons_iff in Hnd as [Hy Hnd].
    rewrite bool_decide_eq_false_2; simpl.
    + f_equal. apply IHl; auto. intros Hin. apply Hnin. now right.
    + intros ->. apply Hnin. now left.
  - rewrite bool_decide_eq_false_2; simpl; auto.
    intros ->. contradiction.
Qed.

Lemma filter_remove_In {A} `{EqDecision A} (p q : A) (l : list A) :
  In q (List.filter (fun x => negb (bool_decide (x = p))) l) <-> In q l /\ q <> p.
Proof.
  rewrite filter_In, negb_true_iff, bool_decide_eq_false. tauto.
Qed.

Global Instance keeps_registry_preorder : PreOrder (@keeps_registry W).
Proof.
  split.
  - intros s. split; auto. exists []. now rewrite app_nil_r.
  - intros s1 s2 s3 [[t Ht] H12] [[t' Ht'] H23]. split.
    + exists (t ++ t'). now rewrite Ht', Ht, app_assoc.
    + intros Hnd Hinv. apply H23; auto. apply H12; auto.
      rewrite Ht', submitted_handles_app in Hnd.
      eapply List.NoDup_app_remove_r; eauto.
Qed.

Lemma registry_inv_quiet (s s' : state W) t :
  bs_id_to_aws_id (self s') = bs_id_to_aws_id (self s) ->
  aws_id_to_bs_id (self s') = aws_id_to_bs_id (self s) ->
  trace s' = trace s ++ t -> Forall quiet_or_submit t ->
  registry_ok s' -> registry_inv s -> registry_inv s'.
Proof.
  intros Hb Ha Ht Hq Hok' [Hok Hinv Hsingle Hout Hsub Hdt Hrec].
  split; auto.
  - unfold mutual_inverses. rewrite Hb, Ha. exact Hinv.
  - unfold single_entries. rewrite Hb, Ha. exact Hsingle.
  - unfold registry_is_outstanding, outstanding in *.
    rewrite Hb, Ha, Ht, outstanding_from_app, (outstanding_from_quiet _ t); auto.
  - intros a b. rewrite Ha, Ht, submitted_handles_app, in_app_iff. eauto.
  - intros a b. rewrite Ht, in_app_iff. intros [Hin|Hin].
    + destruct (Hdt a b Hin) as (jd & Hjd & Hrest). exists jd. split; auto.
      now apply described_incl.
    + rewrite List.Forall_forall in Hq. apply Hq in Hin. destruct Hin.
  - rewrite Ht, submitted_handles_app, recorded_app, map_app, Hrec,
      (submitted_handles_quiet t), (recorded_quiet t); auto.
Qed.

Lemma frame_keeps_registry (s s' : state W) : frame s s' -> keeps_registry s s'.
Proof.
  intros Hf. pose proof Hf as (Hb & Ha & Hi & Hk & t & Ht & Hq). split; eauto.
  intros _ Hinv. eapply registry_inv_quiet; eauto.
  - now apply quiet_quiet_or_submit.
  - eapply registry_ok_frame; eauto. apply Hinv.
Qed.

Lemma allocated_keeps_registry (s s' : state W) : allocated s s' -> keeps_registry s s'.
Proof.
  intros Hal. pose proof Hal as (Hb & Ha & Hi & Hk & t & Ht & Hq). split; eauto.
  intros _ Hinv. eapply registry_inv_quiet; eauto.
  apply (allocated_keeps_once s s' Hal), Hinv.
Qed.

Lemma issued_keeps_registry job_desc (s s' : state W) :
  issued job_desc s s' -> keeps_registry s s'.
Proof.
  intros His. pose proof His as (a0 & spec & t & Hb & Ha & Hi & Hk & Ht & Hq & _).
  set (b0 := jobIndex (self s)) in *.
  split; [eauto|].
  intros Hnd [Hok Hinv Hsingle Hout Hsub Hdt Hrec].
  assert (Hqs : Forall quiet_or_submit t) by now apply quiet_quiet_or_submit.
  assert (Hfresh_a : Dict.get a0 (aws_id_to_bs_id (self s)) = None).
  { destruct (Dict.get a0 (aws_id_to_bs_id (self s))) as [b|] eqn:Hg; auto.
    exfalso. apply Hsub in Hg.
    rewrite Ht, !submitted_handles_app, (submitted_handles_quiet t) in Hnd by auto.
    simpl in Hnd. apply List.NoDup_remove_2 in Hnd. rewrite app_nil_r in Hnd. auto. }
  assert (Hfresh_b : Dict.get b0 (bs_id_to_aws_id (self s)) = None).
  { destruct (Dict.get b0 (bs_id_to_aws_id (self s))) as [a|] eqn:Hg; auto.
    apply (ok_bound _ Hok) in Hg. unfold b0 in Hg. lia. }
  assert (Hout' : outstanding (trace s') = outstanding (trace s) ++ [(a0, b0)]).
  { unfold outstanding. rewrite Ht, !outstanding_from_app, (outstanding_from_quiet _ t); auto. }
  destruct Hout as (Hiff & Hndo & Hlb & Hla).
  destruct Hsingle as [Hsb Hsa].
  split.
  - apply (issued_keeps_once job_desc s s' His), Hok.
  - intros b a. rewrite Hb, Ha.
    destruct (decide (b0 = b)) as [<-|Hnb], (decide (a0 = a)) as [<-|Hna].
    + rewrite !DictFacts.get_set_eq. split; congruence.
    + rewrite DictFacts.get_set_eq, DictFacts.get_set_ne by auto. split.
      * congruence.
      * intros Hg. apply Hinv in Hg. congruence.
    + rewrite DictFacts.get_set_eq, DictFacts.get_set_ne by auto. split.
      * intros Hg. apply Hinv in Hg. congruence.
      * congruence.
    + rewrite !DictFacts.get_set_ne by auto. apply Hinv.
  - split.
    + rewrite Hb, DictFacts.keys_set_absent by auto.
      apply List.NoDup_app; auto.
      * repeat constructor. simpl. tauto.
      * intros x Hx [<-|[]]. apply DictFacts.get_None_keys in Hfresh_b. auto.
    + rewrite Ha, DictFacts.keys_set_absent by auto.
      apply List.NoDup_app; auto.
      * repeat constructor. simpl. tauto.
      * intros x Hx [<-|[]]. apply DictFacts.get_None_keys in Hfresh_a. auto.
  - unfold registry_is_outstanding. rewrite Hout', Hb, Ha.
    split; [|split; [|split]].
    + intros a b. rewrite in_app_iff. simpl.
      destruct (decide (a0 = a)) as [<-|Hna].
      * rewrite DictFacts.get_set_eq. split.
        -- intros [= <-]. auto.
        -- intros [Hin|[[= <-]|[]]]; auto. apply Hiff in Hin. congruence.
      * rewrite DictFacts.get_set_ne by auto. rewrite Hiff. split; auto.
        intros [Hin|[[= <- <-]|[]]]; auto. contradiction.
    + apply List.NoDup_app; auto.
      * repeat constructor. simpl. tauto.
      * intros x Hx [<-|[]]. apply Hiff in Hx. congruence.
    + rewrite DictFacts.set_absent, !length_app by auto. simpl. lia.
    + rewrite DictFacts.set_absent, !length_app by auto. simpl. lia.
  - intros a b. rewrite Ha, Ht, !submitted_handles_app, !in_app_iff. simpl.
    destruct (decide (a0 = a)) as [<-|Hna]; auto.
    rewrite DictFacts.get_set_ne by auto. eauto.
  - intros a b. rewrite Ht, !in_app_iff. simpl. intros [Hin|[Hin|Hin]].
    + destruct (Hdt a b Hin) as (jd & Hjd & Hrest). exists jd. split; auto.
      now apply described_incl.
    + rewrite List.Forall_forall in Hq. apply Hq in Hin. destruct Hin.
    + destruct Hin as [[=]|[[=]|[]]].
  - rewrite Ht, !submitted_handles_app, !recorded_app, !map_app, Hrec,
      (submitted_handles_quiet t), (recorded_quiet t); auto.
Qed.

End Registry.

Section RegistryPoll.
Context {W : Type} `{Backend W}.

Lemma registry_inv_drop_pair (s : state W) a b :
  registry_inv s ->
  Dict.get a (aws_id_to_bs_id (self s)) = Some b ->
  (exists jd, In jd (described (trace s)) /\ jobId jd = a /\ terminal jd) ->
  registry_inv (drop_pair (a, b) s).
Proof.
  intros [Hok Hinv [Hsb Hsa] (Hiff & Hndo & Hlb & Hla) Hsub Hdt Hrec] Hget Hjd.
  pose proof (proj2 (Hinv b a) Hget) as Hgetb.
  assert (Hout' : outstanding (trace (drop_pair (a, b) s))
                  = List.filter (fun p => negb (bool_decide (p = (a, b))))
                                (outstanding (trace s))).
  { unfold outstanding. simpl. now rewrite outstanding_from_app. }
  split.
  - now apply registry_ok_drop_pair.
  - intros b' a'. simpl.
    destruct (decide (b = b')) as [<-|Hnb], (decide (a = a')) as [<-|Hna].
    + rewrite !DictFacts.get_remove_eq. split; discriminate.
    + rewrite DictFacts.get_remove_eq, DictFacts.get_remove_ne by auto. split.
      * discriminate.
      * intros Hg. apply Hinv in Hg. congruence.
    + rewrite DictFacts.get_remove_eq, DictFacts.get_remove_ne by auto. split.
      * intros Hg. apply Hinv in Hg. congruence.
      * discriminate.
    + rewrite !DictFacts.get_remove_ne by auto. apply Hinv.
  - split; simpl; now apply DictFacts.NoDup_keys_remove.
  - unfold registry_is_outstanding. rewrite Hout'. simpl.
    split; [|split; [|split]].
    + intros a' b'. rewrite filter_remove_In, <- Hiff.
      destruct (decide (a = a')) as [<-|Hna].
      * rewrite DictFacts.get_remove_eq. split; [discriminate|].
        intros [Hg Hne]. exfalso. apply Hne. congruence.
      * rewrite DictFacts.get_remove_ne by auto. split; [|tauto].
        intros Hg. split; auto. congruence.
    + now apply List.NoDup_filter.
    + pose proof (DictFacts.length_remove b a _ Hsb Hgetb).
      pose proof (filter_remove_length (a, b) _ Hndo (proj1 (Hiff a b) Hget)). lia.
    + pose proof (DictFacts.length_remove a b _ Hsa Hget).
      pose proof (filter_remove_length (a, b) _ Hndo (proj1 (Hiff a b) Hget)). lia.
  - intros a' b'. simpl. rewrite submitted_handles_app, in_app_iff.
    destruct (decide (a = a')) as [<-|Hna].
    + rewrite DictFacts.get_remove_eq. discriminate.
    + rewrite DictFacts.get_remove_ne by auto. eauto.
  - intros a' b'. simpl. rewrite in_app_iff. simpl. intros [Hin|[[= <- <-]|[]]].
    + destruct (Hdt a' b' Hin) as (jd & Hjd' & Hrest). exists jd. split; auto.
      now apply described_incl.
    + destruct Hjd as (jd & Hjd' & Hrest). exists jd. split; auto.
      now apply described_incl.
  - simpl. rewrite submitted_handles_app, recorded_app, map_app, Hrec. reflexivity.
Qed.

Lemma registry_inv_dropped (s s' : state W) done :
  dropped s done s' ->
  registry_inv s ->
  (forall a b, In (a, b) done ->
     exists jd, In jd (described (trace s)) /\ jobId jd = a /\ terminal jd) ->
  registry_inv s'.
Proof.
  induction 1 as [s|s a b done s' Hget Hd IH]; auto.
  intros Hinv Hjd. apply IH.
  - apply registry_inv_drop_pair; auto. apply (Hjd a b). now left.
  - intros a' b' Hin. destruct (Hjd a' b') as (jd & Hjd' & Hrest); [now right|].
    exists jd. split; auto. simpl. now apply described_incl.
Qed.

Lemma polled_keeps_registry (s s' : state W) r :
  registry_ok s -> polled s s' r -> keeps_registry s s'.
Proof.
  intros Hok Hp.
  pose proof (polled_keeps_once s s' r Hok Hp) as [Hok' _].
  destruct Hp as (s1 & s2 & done & Hframe & Hself & Hdescr & Hdrop & Hdone & Hres).
  destruct (dropped_world_trace _ _ _ Hdrop) as (Hw2 & Ht2 & Hi2 & _).
  pose proof Hframe as (_ & _ & _ & _ & t1 & Ht1 & Hq1).
  assert (Hinv2 : List.NoDup (submitted_handles (trace s1)) ->
                  registry_inv s -> registry_inv s2).
  { intros Hnd Hinv. eapply registry_inv_dropped; eauto.
    - apply (frame_keeps_registry s s1 Hframe); auto.
    - intros a b Hin. destruct (Hdone a b Hin) as (jd & Hjd & Hrest).
      exists jd. split; auto. rewrite Ht1, drop_app_length in Hjd.
      rewrite Ht1. rewrite described_app, in_app_iff. auto. }
  destruct Hres as [(-> & _)|(a & info & pre & jd & w & _ & -> & _)].
  - split.
    + eexists. rewrite Ht2, Ht1, <- app_assoc. reflexivity.
    + intros Hnd Hinv. apply Hinv2; auto.
      rewrite Ht2, submitted_handles_app in Hnd.
      eapply List.NoDup_app_remove_r; eauto.
  - split.
    + eexists. simpl. rewrite Ht2, Ht1, <- !app_assoc. reflexivity.
    + simpl. intros Hnd Hinv.
      rewrite Ht2, !submitted_handles_app in Hnd.
      apply List.NoDup_app_remove_r, List.NoDup_app_remove_r in Hnd.
      destruct (Hinv2 Hnd Hinv) as [_ Hinv' Hsingle' Hout' Hsub' Hdt' Hrec'].
      split; auto; simpl.
      * unfold registry_is_outstanding, outstanding in *. simpl.
        rewrite outstanding_from_app. simpl. exact Hout'.
      * intros a' b' Hg. rewrite submitted_handles_app, in_app_iff. eauto.
      * intros a' b'. rewrite in_app_iff. simpl. intros [Hin|[[=]|[]]].
        destruct (Hdt' a' b' Hin) as (jd' & Hjd' & Hrest). exists jd'. split; auto.
        now apply described_incl.
      * rewrite submitted_handles_app, recorded_app, map_app, Hrec'. reflexivity.
Qed.

Global Instance extends_preorder : PreOrder (@extends W).
Proof.
  split.
  - intros s. exists []. now rewrite app_nil_r.
  - intros s1 s2 s3 [t Ht] [t' Ht']. exists (t ++ t'). now rewrite Ht', Ht, app_assoc.
Qed.

Lemma drop_acknowledged_extends acks : respects (@extends W) (drop_acknowledged acks).
Proof.
  induction acks as [|[a b] acks IH]; simpl.
  - apply respects_ret; apply _.
  - apply respects_bind; try apply _; [apply respects_get_self; apply _|intros b1].
    apply respects_bind; try apply _.
    { destruct (Dict.del a (aws_id_to_bs_id b1)).
      - intros s. exists []. simpl. now rewrite app_nil_r.
      - apply respects_raise; apply _. }
    intros _.
    apply respects_bind; try apply _; [apply respects_get_self; apply _|intros b2].
    apply respects_bind; try apply _.
    { destruct (Dict.del b (bs_id_to_aws_id b2)).
      - intros s. exists []. simpl. now rewrite app_nil_r.
      - apply respects_raise; apply _. }
    intros _.
    apply respects_bind; try apply _; [apply respects_get_self; apply _|intros b3].
    apply respects_bind; try apply _.
    { destruct (bool_decide (a ∈ killed_job_aws_ids b3)).
      - intros s. exists []. simpl. now rewrite app_nil_r.
      - apply respects_ret; apply _. }
    intros _.
    apply respects_bind; try apply _; auto.
    intros s. eexists. simpl. reflexivity.
Qed.

Lemma poll_remote_extends : respects (@extends W) poll_remote.
Proof.
  intros s. unfold poll_remote.
  destruct (poll_batches (describe_batches (self s)) [] s) as [[o acks] s1] eqn:Hpb.
  apply poll_batches_spec in Hpb as (_ & t & Ht & _).
  pose proof (drop_acknowledged_extends acks s1) as [t2 Ht2].
  destruct (drop_acknowledged acks s1) as [[[]|e|] s2]; simpl in *.
  - destruct o as [[[a info]|]|e|]; simpl.
    + exists (t ++ t2 ++ [EvUpdated a info]). now rewrite Ht2, Ht, <- !app_assoc.
    + exists (t ++ t2). now rewrite Ht2, Ht, <- !app_assoc.
    + exists (t ++ t2). now rewrite Ht2, Ht, <- !app_assoc.
    + exists (t ++ t2). now rewrite Ht2, Ht, <- !app_assoc.
  - exists (t ++ t2). now rewrite Ht2, Ht, <- !app_assoc.
  - exists (t ++ t2). now rewrite Ht2, Ht, <- !app_assoc.
Qed.

Lemma poll_remote_keeps_registry : respects (@keeps_registry W) poll_remote.
Proof.
  intros s. split; [apply poll_remote_extends|].
  intros Hnd Hinv.
  assert (Hok : registry_ok s) by apply Hinv.
  apply (polled_keeps_registry s _ _ Hok (poll_remote_polled s Hok)); auto.
Qed.

Lemma respects_frame_keeps_registry {A} (m : M W A) :
  respects (@frame W) m -> respects (@keeps_registry W) m.
Proof. intros Hf s. apply frame_keeps_registry, Hf. Qed.

Lemma issueBatchJob_keeps_registry job_desc job_environment :
  respects (@keeps_registry W) (issueBatchJob job_desc job_environment).
Proof.
  intros s. apply issueBatchJob_cases.
  - apply frame_keeps_registry.
  - apply allocated_keeps_registry.
  - apply issued_keeps_registry.
Qed.

Lemma getUpdatedBatchJob_loop_keeps_registry fuel maxWait entry :
  respects (@keeps_registry W) (getUpdatedBatchJob_loop fuel maxWait entry).
Proof.
  induction fuel as [|fuel IH]; simpl.
  - apply respects_out_of_fuel; apply _.
  - apply respects_bind; try apply _; [apply respects_get_world; apply _|intros now].
    destruct (Qlt_bool (now - entry) (inject_Z maxWait) || (maxWait =? 0)%Z);
      [|apply respects_ret; apply _].
    apply respects_bind; try apply _.
    { apply respects_frame_keeps_registry, frame_call. }
    intros [result|]; [apply respects_ret; apply _|].
    apply respects_bind; try apply _; [apply poll_remote_keeps_registry|].
    intros [info|]; [apply respects_ret; apply _|].
    destruct (negb (maxWait =? 0)%Z); [|apply respects_ret; apply _].
    apply respects_bind; try apply _; auto.
    apply respects_frame_keeps_registry, frame_sleep.
Qed.

Lemma run_call_keeps_registry (c : api_call) (s : state W) :
  keeps_registry s (run_call c s).
Proof.
  destruct c; simpl.
  - apply issueBatchJob_keeps_registry.
  - unfold getUpdatedBatchJob.
    apply respects_bind; try apply _; [apply respects_get_world; apply _|intros entry].
    apply getUpdatedBatchJob_loop_keeps_registry.
  - apply frame_keeps_registry, frame_getRunningBatchJobIDs.
  - apply frame_keeps_registry, frame_killBatchJobs.
  - apply frame_keeps_registry, frame_shutdown.
Qed.

Lemma run_keeps_registry (calls : list api_call) (s : state W) :
  keeps_registry s (run calls s).
Proof.
  revert s. induction calls as [|c calls IH]; intros s; simpl.
  - reflexivity.
  - etransitivity; [apply run_call_keeps_registry|apply IH].
Qed.

Lemma registry_inv_init (cfg : Settings) (w : W) : registry_inv (init cfg w).
Proof.
  split.
  - apply registry_ok_init.
  - intros b a. simpl. split; discriminate.
  - split; simpl; constructor.
  - unfold registry_is_outstanding. simpl. repeat split; try discriminate; try tauto.
    constructor.
  - simpl. discriminate.
  - simpl. tauto.
  - reflexivity.
Qed.

End RegistryPoll.

(** C2.  Over any sequence of calls of the scheduler, against a backend that
    hands out each job handle once: the two registry maps are mutual inverses
    with at most one entry per internal id and per handle; every successful
    submission was recorded as a pair; the registry holds exactly the pairs
    recorded and not dropped since, so both maps have the size of the
    outstanding jobs; and records were dropped only for jobs the backend had
    reported in a terminal state. *)
Theorem registry_maps_are_mutual_inverses
    {W : Type} `{Backend W} (cfg : Settings) (w : W) (calls : list api_call) :
  let s := run calls (init cfg w) in
  List.NoDup (submitted_handles (trace s)) ->
  mutual_inverses (self s) /\
  single_entries (self s) /\
  submitted_handles (trace s) = map fst (recorded (trace s)) /\
  registry_is_outstanding s /\
  (forall a b, In (EvDropped a b) (trace s) ->
     exists jd, In jd (described (trace s)) /\ jobId jd = a /\ terminal jd).
Proof.
  intros s Hnd.
  destruct (run_keeps_registry calls (init cfg w)) as [_ Hkeep].
  destruct (Hkeep Hnd (registry_inv_init cfg w)) as [_ Hinv Hsingle Hout _ Hdt Hrec].
  auto.
Qed.

(** C2 at work: two jobs are issued, the first is killed and then reported
    FAILED; one pair is left in each map. *)
Lemma registry_maps_are_mutual_inverses_witness :
  let calls := [IssueBatchJob (Sim.sleep_job "first") None;
                IssueBatchJob (Sim.sleep_job "second") None;
                KillBatchJobs 5 [0%Z];
                GetUpdatedBatchJob 5 0] in
  let s := run calls (init Sim.cfg Sim.two_running) in
  submitted_handles (trace s) = ["job-1"; "job-2"] /\
  bs_id_to_aws_id (self s) = [(1%Z, "job-2")] /\
  aws_id_to_bs_id (self s) = [("job-2", 1%Z)] /\
  outstanding (trace s) = [("job-2", 1%Z)] /\
  mutual_inverses (self s) /\
  registry_is_outstanding s.
Proof.
  intros calls s.
  assert (Hsub : submitted_handles (trace s) = ["job-1"; "job-2"])
    by (vm_compute; reflexivity).
  assert (Hnd : List.NoDup (submitted_handles (trace s))).
  { rewrite Hsub. repeat constructor; simpl; intuition discriminate. }
  pose proof (registry_maps_are_mutual_inverses Sim.cfg Sim.two_running calls Hnd)
    as (Hinv & _ & _ & Hout & _).
  split; [exact Hsub|].
  split; [vm_compute; reflexivity|].
  split; [vm_compute; reflexivity|].
  split; [vm_compute; reflexivity|].
  split; [exact Hinv|exact Hout].
Defined.

(** ** Resource requirements of a submission *)

Section Resources.
Context {W : Type} `{Backend W}.

Lemma ceil_bounds (x : Q) : (inject_Z (ceil x) - 1 < x /\ x <= inject_Z (ceil x))%Q.
Proof.
  unfold ceil. split.
  - pose proof (Qceiling_lt x) as Hlt.
    unfold Z.sub in Hlt. rewrite inject_Z_plus in Hlt. exact Hlt.
  - apply Qle_ceiling.
Qed.

Lemma b_to_mib_bytes (m : Z) : (inject_Z m == b_to_mib m * inject_Z (1024 * 1024))%Q.
Proof. unfold b_to_mib. field. discriminate. Qed.

Lemma memory_not_below_request (m : Z) :
  (inject_Z m <=
   inject_Z (Z.max MIN_REQUESTABLE_MIB (ceil (b_to_mib m))) * inject_Z (1024 * 1024))%Q.
Proof.
  rewrite (b_to_mib_bytes m) at 1.
  apply Qmult_le_compat_r; [|discriminate].
  eapply Qle_trans; [apply ceil_bounds|].
  rewrite <- Zle_Qle. lia.
Qed.

Lemma cores_not_below_request (c : Q) :
  (c <= inject_Z (Z.max MIN_REQUESTABLE_CORES (ceil c)))%Q.
Proof.
  eapply Qle_trans; [apply ceil_bounds|].
  rewrite <- Zle_Qle. lia.
Qed.

Global Instance submits_only_preorder reqs : PreOrder (@submits_only W reqs).
Proof.
  split.
  - intros s spec r Hin. auto.
  - intros s1 s2 s3 H12 H23 spec r Hin.
    destruct (H23 spec r Hin) as [Hin2|]; auto.
Qed.

Lemma frame_submits_only reqs (s s' : state W) : frame s s' -> submits_only reqs s s'.
Proof.
  intros (_ & _ & _ & _ & t & Ht & Hq) spec r. rewrite Ht, in_app_iff.
  intros [Hin|Hin]; auto.
  rewrite List.Forall_forall in Hq. apply Hq in Hin. destruct Hin.
Qed.

Lemma issueBatchJob_submits_only job_desc job_environment :
  respects (submits_only (resourceRequirements (memory job_desc) (cores job_desc)))
           (issueBatchJob job_desc job_environment).
Proof.
  set (reqs := resourceRequirements (memory job_desc) (cores job_desc)).
  assert (Hsame : forall {A} (m : M W A),
            (forall s, trace (snd (m s)) = trace s) -> respects (submits_only reqs) m).
  { intros A m Hm s spec r. rewrite Hm. auto. }
  unfold issueBatchJob.
  apply respects_bind; try apply _.
  { intros s. apply frame_submits_only, frame_call. }
  intros [local_id|]; [apply respects_ret; apply _|].
  apply respects_bind; try apply _.
  { intros s. apply frame_submits_only, frame_call. }
  intros _. apply respects_bind; try apply _.
  { apply Hsame. intros s. reflexivity. }
  intros bs_id. apply respects_bind; try apply _; [apply respects_get_self; apply _|].
  intros b. apply respects_bind; try apply _.
  { intros s. apply frame_submits_only, frame_get_or_create_job_definition. }
  intros definition. apply respects_bind; try apply _.
  { intros s spec r. unfold client_call.
    destruct (client_submit_job _ (world s)) as [[e|a] w']; simpl;
      rewrite in_app_iff; simpl; intros [Hin|[[= <- <-]|[]]]; auto. }
  intros aws_id. apply respects_bind; try apply _.
  { apply Hsame. intros s. reflexivity. }
  intros _. apply respects_bind; try apply _.
  { apply Hsame. intros s. reflexivity. }
  intros _. apply respects_bind; try apply _.
  { intros s spec r. simpl. rewrite in_app_iff. simpl.
    intros [Hin|[[=]|[]]]; auto. }
  intros _. apply respects_ret; apply _.
Qed.

End Resources.

(** C3.  Every submission that [issueBatchJob] sends for a job asking for
    [m] bytes of memory and [c] cores carries exactly the two requirements
    MEMORY = max(4, ceil(m / 2^20)) and VCPU = max(1, ceil(c)), written as
    decimal integers; the memory sent, in bytes, and the cores sent are not
    below the request, and not below 4 MiB and 1; a request of 1 byte and 0.01
    cores is sent as 4 MiB and 1 core. *)
Theorem submitted_requirements_rounded_up
    {W : Type} `{Backend W} (job_desc : JobDescription)
    (job_environment : option (list (string * string))) (s : state W) :
  let m := memory job_desc in
  let c := cores job_desc in
  let mib := Z.max 4 (ceil (b_to_mib m)) in
  let vcpus := Z.max 1 (ceil c) in
  (forall spec r,
     In (EvSubmit spec r) (trace (snd (issueBatchJob job_desc job_environment s))) ->
     In (EvSubmit spec r) (trace s) \/
     co_resourceRequirements spec =
       [ {| rr_type := "MEMORY"; rr_value := Py.str mib |};
         {| rr_type := "VCPU"; rr_value := Py.str vcpus |} ]) /\
  (inject_Z (ceil (b_to_mib m)) - 1 < inject_Z m / inject_Z (1024 * 1024)
   /\ inject_Z m / inject_Z (1024 * 1024) <= inject_Z (ceil (b_to_mib m)))%Q /\
  (inject_Z (ceil c) - 1 < c /\ c <= inject_Z (ceil c))%Q /\
  (inject_Z m <= inject_Z mib * inject_Z (1024 * 1024))%Q /\
  (c <= inject_Z vcpus)%Q /\
  (4 <= mib)%Z /\ (1 <= vcpus)%Z /\
  resourceRequirements 1 (1 # 100) =
    [ {| rr_type := "MEMORY"; rr_value := "4" |};
      {| rr_type := "VCPU"; rr_value := "1" |} ].
Proof.
  intros m c mib vcpus.
  split; [apply issueBatchJob_submits_only|].
  split; [apply (ceil_bounds (b_to_mib m))|].
  split; [apply ceil_bounds|].
  split; [apply memory_not_below_request|].
  split; [apply cores_not_below_request|].
  split; [unfold mib; lia|].
  split; [unfold vcpus; lia|].
  vm_compute. reflexivity.
Qed.

(** C3 at work: the job of 1 byte and 0.01 cores, submitted to the
    simulated backend. *)
Lemma submitted_requirements_rounded_up_witness :
  let s := init Sim.cfg Sim.two_running in
  let s' := snd (issueBatchJob (Sim.sleep_job "tiny") None s) in
  exists spec,
    In (EvSubmit spec (inr "job-1")) (trace s') /\
    co_resourceRequirements spec =
      [ {| rr_type := "MEMORY"; rr_value := "4" |};
        {| rr_type := "VCPU"; rr_value := "1" |} ].
Proof.
  intros s s'.
  assert (Hin : exists spec, In (EvSubmit spec (inr "job-1")) (trace s')).
  { eexists. vm_compute. right. left. reflexivity. }
  destruct Hin as [spec Hin]. exists spec. split; [exact Hin|].
  destruct (proj1 (submitted_requirements_rounded_up (Sim.sleep_job "tiny") None s)
              spec (inr "job-1") Hin) as [Hold|Hreq].
  - destruct Hold.
  - rewrite Hreq. vm_compute. reflexivity.
Defined.

(** ** Job names *)

Section Names.

Lemma join_chars (s : string) : Py.join (Py.chars s) = s.
Proof. apply string_of_list_ascii_of_string. Qed.

Lemma chars_join (l : list ascii) : Py.chars (Py.join l) = l.
Proof. apply list_ascii_of_string_of_list_ascii. Qed.

Lemma drop_disallowed_filter (s : string) :
  NameSpec.drop_disallowed s = Py.join (List.filter NameSpec.allowed (Py.chars s)).
Proof.
  induction s as [|c s IH]; simpl; auto.
  destruct (NameSpec.allowed c); simpl; now rewrite IH.
Qed.

Lemma truncate_firstn (n : nat) (l : list ascii) :
  NameSpec.truncate n (Py.join l) = Py.join (firstn n l).
Proof.
  revert l. induction n as [|n IH]; intros [|c l]; simpl; auto.
  now rewrite IH.
Qed.

Lemma prepend_filler_join (l : list ascii) :
  NameSpec.prepend_filler (Py.join l) =
  Py.join (if (length l =? 0)%nat
              || negb (match l with c :: _ => Py.isalnum c | [] => false end)
           then "j"%char :: l else l).
Proof.
  destruct l as [|c l]; simpl; auto.
  destruct (Py.isalnum c); reflexivity.
Qed.

Lemma ensafen_name_steps (input_name : string) :
  _ensafen_name input_name = NameSpec.sanitize input_name.
Proof.
  unfold _ensafen_name, NameSpec.sanitize, NameSpec.replace_spaces, NameSpec.max_length.
  rewrite drop_disallowed_filter, prepend_filler_join, truncate_firstn.
  reflexivity.
Qed.

Lemma length_join (l : list ascii) : String.length (Py.join l) = length l.
Proof. induction l; simpl; auto. Qed.

Lemma isalnum_j : Py.isalnum "j" = true.
Proof. reflexivity. Qed.

Lemma filter_no_alnum (l : list ascii) :
  (forall c, In c l -> Py.isalnum c = false) ->
  match List.filter NameSpec.allowed l with
  | c :: _ => Py.isalnum c = false
  | [] => True
  end.
Proof.
  induction l as [|c l IH]; simpl; auto.
  intros Hall. destruct (NameSpec.allowed c).
  - apply Hall. now left.
  - apply IH. intros c' Hin. apply Hall. now right.
Qed.

Lemma chars_replace_no_alnum (s : string) :
  (forall c, In c (Py.chars s) -> Py.isalnum c = false) ->
  forall c, In c (Py.chars (Py.replace " " "-" s)) -> Py.isalnum c = false.
Proof.
  induction s as [|c0 s IH]; simpl; [tauto|].
  intros Hall c [<-|Hin].
  - destruct (Ascii.eqb c0 " "); [reflexivity|]. apply Hall. now left.
  - apply IH; auto.
Qed.

End Names.

(** C4.  [_ensafen_name] is the composition of the four steps of the
    sanitization algorithm, in order: spaces become hyphens; characters that
    are not alphanumeric, hyphen or underscore are dropped; the filler "j" is
    put in front when nothing is left or the first character is not
    alphanumeric; the result is cut to 128 characters.  So the name is not
    empty, has at most 128 characters and starts with an alphanumeric
    character; "my job #1!!" becomes "my-job-1"; and a name without any
    alphanumeric character becomes a name that starts with the filler. *)
Theorem ensafen_name_sanitizes (input_name : string) :
  _ensafen_name input_name =
    NameSpec.truncate 128
      (NameSpec.prepend_filler
         (NameSpec.drop_disallowed (NameSpec.replace_spaces input_name))) /\
  _ensafen_name input_name <> "" /\
  (String.length (_ensafen_name input_name) <= 128)%nat /\
  (exists c rest, _ensafen_name input_name = String c rest /\ Py.isalnum c = true) /\
  _ensafen_name "my job #1!!" = "my-job-1" /\
  ((forall c, In c (Py.chars input_name) -> Py.isalnum c = false) ->
   exists rest, _ensafen_name input_name = String "j" rest).
Proof.
  split; [apply ensafen_name_steps|].
  unfold _ensafen_name.
  set (kept := List.filter _ (Py.chars (Py.replace " " "-" input_name))).
  assert (Hhead : exists c rest,
            Py.join (firstn 128
              (if (length kept =? 0)%nat
                  || negb (match kept with c :: _ => Py.isalnum c | [] => false end)
               then "j"%char :: kept else kept)) = String c rest
            /\ Py.isalnum c = true).
  { destruct kept as [|c kept']; simpl.
    - exists "j"%char, EmptyString. auto.
    - destruct (Py.isalnum c) eqn:Hc; simpl.
      + exists c, (Py.join (firstn 127 kept')). auto.
      + exists "j"%char, (Py.join (firstn 127 (c :: kept'))). auto. }
  split.
  { destruct Hhead as (c & rest & -> & _). discriminate. }
  split.
  { rewrite length_join. apply firstn_le_length. }
  split; [exact Hhead|].
  split; [vm_compute; reflexivity|].
  intros Hsym.
  pose proof (filter_no_alnum _ (chars_replace_no_alnum _ Hsym)) as Hkept.
  fold NameSpec.allowed in kept. fold kept in Hkept.
  destruct kept as [|c kept']; simpl.
  - exists EmptyString. reflexivity.
  - rewrite Hkept. simpl. eexists. reflexivity.
Qed.

(** C4 at work on a name made of symbols only. *)
Lemma ensafen_name_sanitizes_witness :
  (forall c, In c (Py.chars "#!? --") -> Py.isalnum c = false) /\
  exists rest, _ensafen_name "#!? --" = String "j" rest.
Proof.
  assert (Hsym : forall c, In c (Py.chars "#!? --") -> Py.isalnum c = false).
  { simpl. intros c Hin. repeat (destruct Hin as [<-|Hin]; [reflexivity|]). destruct Hin. }
  split; [exact Hsym|].
  exact (proj2 (proj2 (proj2 (proj2 (proj2 (ensafen_name_sanitizes "#!? --"))))) Hsym).
Defined.

(** ** The completion composed from a terminal job detail *)

Section Completion.
Context {W : Type} `{Backend W}.

Lemma get_runtime_terminal (now_ms : Z) (jd : JobDetail) :
  terminal jd ->
  _get_runtime now_ms jd =
    match startedAt jd with
    | None => None
    | Some start_ms =>
        let end_ms := match stoppedAt jd with Some e => e | None => now_ms end in
        Some (Qmax (inject_Z (end_ms - start_ms) / 1000) epsilon)
    end.
Proof.
  intros Hterm. unfold _get_runtime, status_in.
  destruct Hterm as [-> | ->]; reflexivity.
Qed.

Lemma slow_down_positive (x : Q) : (0 < epsilon)%Q -> (0 < slow_down x)%Q.
Proof.
  intros Hpos. unfold slow_down.
  eapply Qlt_le_trans; [exact Hpos|apply Q.le_max_r].
Qed.

Lemma get_runtime_nonzero (now_ms : Z) (jd : JobDetail) (r : Q) :
  (0 < epsilon)%Q -> _get_runtime now_ms jd = Some r -> (0 < r)%Q.
Proof.
  intros Hpos. unfold _get_runtime.
  destruct (negb _); [discriminate|].
  destruct (startedAt jd); [|discriminate].
  intros [= <-]. now apply slow_down_positive.
Qed.

End Completion.

(** ** The snapshot of running jobs *)

Section Running.
Context {W : Type} `{Backend W}.

Lemma keys_set_In {K V} `{EqDecision K} (k k' : K) (v : V) (d : list (K * V)) :
  In k' (Dict.keys (Dict.set k v d)) <-> k' = k \/ In k' (Dict.keys d).
Proof.
  induction d as [|[k0 v0] d IH]; simpl.
  - split; intros [?|?]; auto.
  - destruct (decide (k = k0)) as [->|Hne]; simpl.
    + split; [intros [<-|?]; auto|intros [->|[?|?]]; auto].
    + rewrite IH. split; [intros [<-|[?|?]]; auto|intros [?|[?|?]]; auto].
Qed.




End Running.



(** ** Waiting for an update *)

Section Wait.
Context {W : Type} `{Backend W}.

Global Instance adds_preorder (P : event -> Prop) : PreOrder (@adds W P).
Proof.
  split.
  - intros s. exists []. rewrite app_nil_r. auto.
  - intros s1 s2 s3 (t & Ht & Hp) (t' & Ht' & Hp'). exists (t ++ t').
    rewrite Ht', Ht, app_assoc. split; auto. apply Forall_app; auto.
Qed.

Lemma adds_same_trace (P : event -> Prop) {A} (m : M W A) :
  (forall s, trace (snd (m s)) = trace s) -> respects (adds P) m.
Proof. intros Hm s. exists []. rewrite Hm, app_nil_r. auto. Qed.

Lemma adds_call (P : event -> Prop) {A} (f : W -> (exn + A) * W) :
  respects (adds P) (call f).
Proof.
  apply adds_same_trace. intros s. unfold call.
  destruct (f (world s)) as [[e|a] w]; reflexivity.
Qed.

Lemma adds_new_events (P : event -> Prop) (s s' : state W) :
  adds P s s' -> Forall P (new_events s s').
Proof.
  intros (t & Ht & Hp). unfold new_events. now rewrite Ht, drop_app_length.
Qed.

Lemma drop_acknowledged_adds (P : event -> Prop) acks :
  (forall a b, P (EvDropped a b)) -> respects (@adds W P) (drop_acknowledged acks).
Proof.
  intros HP. induction acks as [|[a b] acks IH]; simpl.
  - apply respects_ret; apply _.
  - apply respects_bind; try apply _; [apply respects_get_self; apply _|intros b1].
    apply respects_bind; try apply _.
    { destruct (Dict.del a (aws_id_to_bs_id b1)).
      - apply adds_same_trace. reflexivity.
      - apply respects_raise; apply _. }
    intros _.
    apply respects_bind; try apply _; [apply respects_get_self; apply _|intros b2].
    apply respects_bind; try apply _.
    { destruct (Dict.del b (bs_id_to_aws_id b2)).
      - apply adds_same_trace. reflexivity.
      - apply respects_raise; apply _. }
    intros _.
    apply respects_bind; try apply _; [apply respects_get_self; apply _|intros b3].
    apply respects_bind; try apply _.
    { destruct (bool_decide (a ∈ killed_job_aws_ids b3)).
      - apply adds_same_trace. reflexivity.
      - apply respects_ret; apply _. }
    intros _.
    apply respects_bind; try apply _; auto.
    intros s. eexists. simpl. split; [reflexivity|]. repeat constructor. apply HP.
Qed.

Lemma poll_remote_adds (P : event -> Prop) :
  (forall ids r, P (EvDescribe ids r)) ->
  (forall a b, P (EvDropped a b)) ->
  (forall a info, P (EvUpdated a info)) ->
  respects (@adds W P) poll_remote.
Proof.
  intros Hd Hdr Hu s. unfold poll_remote.
  destruct (poll_batches (describe_batches (self s)) [] s) as [[o acks] s1] eqn:Hpb.
  apply poll_batches_spec in Hpb as (_ & t & Ht & Hdesc & _).
  assert (Hpt : Forall P t).
  { eapply List.Forall_impl; [|exact Hdesc]. intros [] He; simpl in He; try tauto. apply Hd. }
  pose proof (drop_acknowledged_adds P acks Hdr s1) as (t2 & Ht2 & Hp2).
  assert (Hs2 : adds P s (snd (drop_acknowledged acks s1))).
  { exists (t ++ t2). rewrite Ht2, Ht, app_assoc. split; auto. apply Forall_app; auto. }
  destruct (drop_acknowledged acks s1) as [[[]|e|] s2]; simpl in *; auto.
  destruct o as [[[a info]|]|e|]; simpl; auto.
  etransitivity; [exact Hs2|].
  eexists. simpl. split; [reflexivity|]. repeat constructor. apply Hu.
Qed.

Lemma poll_once_adds_no_sleep : respects (@adds W not_sleep) poll_once.
Proof.
  unfold poll_once. apply respects_bind; try apply _; [apply adds_call|].
  intros [r|]; [apply respects_ret; apply _|].
  apply poll_remote_adds; intros; exact I.
Qed.

Lemma getUpdatedBatchJob_zero (fuel : nat) (s : state W) :
  getUpdatedBatchJob (S fuel) 0 s = poll_once s.
Proof.
  unfold getUpdatedBatchJob, poll_once. unfold bind at 1. unfold get_world at 1.
  cbn [getUpdatedBatchJob_loop]. unfold bind at 1. unfold get_world at 1.
  rewrite orb_true_r. unfold bind.
  destruct (call (getUpdatedLocalJob 0) s) as [[[r|]|e|] s1]; auto.
  destruct (poll_remote s1) as [[[info|]|e|] s2]; reflexivity.
Qed.

Lemma getUpdatedBatchJob_loop_sleeps fuel maxWait entry :
  respects (@adds W (sleeps_for (Qmin (inject_Z maxWait / 2) 1)))
           (getUpdatedBatchJob_loop fuel maxWait entry).
Proof.
  induction fuel as [|fuel IH]; simpl.
  - apply respects_out_of_fuel; apply _.
  - apply respects_bind; try apply _; [apply respects_get_world; apply _|intros now].
    destruct (Qlt_bool (now - entry) (inject_Z maxWait) || (maxWait =? 0)%Z);
      [|apply respects_ret; apply _].
    apply respects_bind; try apply _; [apply adds_call|].
    intros [result|]; [apply respects_ret; apply _|].
    apply respects_bind; try apply _.
    { apply poll_remote_adds; intros; exact I. }
    intros [info|]; [apply respects_ret; apply _|].
    destruct (negb (maxWait =? 0)%Z); [|apply respects_ret; apply _].
    apply respects_bind; try apply _; auto.
    intros s. eexists. simpl. split; [reflexivity|]. repeat constructor.
Qed.

Lemma Qlt_bool_false (x y : Q) : Qlt_bool x y = false -> (y <= x)%Q.
Proof.
  unfold Qlt_bool. rewrite negb_false_iff. apply Qle_bool_imp_le.
Qed.

Lemma Qlt_bool_true (x y : Q) : Qlt_bool x y = true -> (x < y)%Q.
Proof.
  unfold Qlt_bool. rewrite negb_true_iff. intros Hb.
  apply Qnot_le_lt. intros Hle. apply Qle_bool_iff in Hle. congruence.
Qed.

Lemma getUpdatedBatchJob_loop_deadline fuel maxWait entry (s s' : state W) :
  maxWait <> 0%Z ->
  getUpdatedBatchJob_loop fuel maxWait entry s = (Ret None, s') ->
  (inject_Z maxWait <= datetime_now (world s') - entry)%Q.
Proof.
  intros Hnz. revert s. induction fuel as [|fuel IH]; intros s; simpl; [discriminate|].
  unfold bind at 1. unfold get_world at 1.
  assert (Hz : (maxWait =? 0)%Z = false) by now apply Z.eqb_neq.
  rewrite Hz, orb_false_r. simpl.
  destruct (Qlt_bool (datetime_now (world s) - entry) (inject_Z maxWait)) eqn:Hlt.
  - unfold bind at 1.
    destruct (call (getUpdatedLocalJob 0) s) as [[[r|]|e|] s1]; try discriminate.
    unfold bind at 1.
    destruct (poll_remote s1) as [[[info|]|e|] s2]; try discriminate.
    unfold bind at 1. simpl. apply IH.
  - intros [= <-]. now apply Qlt_bool_false.
Qed.

End Wait.

Section Clock.
Context {W : Type} `{Backend W}.

Lemma later_trans (w1 w2 w3 : W) : later w1 w2 -> later w2 w3 -> later w1 w3.
Proof. induction 1; auto. intros Hl. econstructor; eauto. Qed.

Lemma later_one (w w' : W) : world_step w w' -> later w w'.
Proof. intros Hs. econstructor; [exact Hs|constructor]. Qed.

Global Instance moves_on_preorder : PreOrder (@moves_on W _).
Proof.
  split.
  - intros s. constructor.
  - intros s1 s2 s3. apply later_trans.
Qed.

Lemma moves_on_same_world {A} (m : M W A) :
  (forall s, world (snd (m s)) = world s) -> respects (@moves_on W _) m.
Proof. intros Hm s. unfold moves_on. rewrite Hm. constructor. Qed.

Lemma moves_on_call {A} (f : W -> (exn + A) * W) :
  (forall w, world_step w (snd (f w))) -> respects (@moves_on W _) (call f).
Proof.
  intros Hf s. unfold moves_on, call. specialize (Hf (world s)).
  destruct (f (world s)) as [[e|a] w]; simpl in *; now apply later_one.
Qed.

Lemma moves_on_client_call {A} (f : W -> (exn + A) * W) (ev : exn + A -> event) :
  (forall w, world_step w (snd (f w))) -> respects (@moves_on W _) (client_call f ev).
Proof.
  intros Hf s. unfold moves_on, client_call. specialize (Hf (world s)).
  destruct (f (world s)) as [[e|a] w]; simpl in *; now apply later_one.
Qed.

Lemma moves_on_sleep d : respects (@moves_on W _) (sleep d).
Proof. intros s. unfold moves_on. simpl. apply later_one. constructor. Qed.

Lemma moves_on_drop_acknowledged acks :
  respects (@moves_on W _) (drop_acknowledged acks).
Proof.
  induction acks as [|[a b] acks IH]; simpl.
  - apply respects_ret; apply _.
  - apply respects_bind; try apply _; [apply respects_get_self; apply _|intros b1].
    apply respects_bind; try apply _.
    { destruct (Dict.del a (aws_id_to_bs_id b1)).
      - apply moves_on_same_world. reflexivity.
      - apply respects_raise; apply _. }
    intros _.
    apply respects_bind; try apply _; [apply respects_get_self; apply _|intros b2].
    apply respects_bind; try apply _.
    { destruct (Dict.del b (bs_id_to_aws_id b2)).
      - apply moves_on_same_world. reflexivity.
      - apply respects_raise; apply _. }
    intros _.
    apply respects_bind; try apply _; [apply respects_get_self; apply _|intros b3].
    apply respects_bind; try apply _.
    { destruct (bool_decide (a ∈ killed_job_aws_ids b3)).
      - apply moves_on_same_world. reflexivity.
      - apply respects_ret; apply _. }
    intros _.
    apply respects_bind; try apply _; auto.
    apply moves_on_same_world. reflexivity.
Qed.

Lemma moves_on_poll_batches batches :
  forall acks (s : state W), moves_on s (snd (poll_batches batches acks s)).
Proof.
  induction batches as [|cb rest IH]; intros acks s; cbn [poll_batches].
  - constructor.
  - pose proof (moves_on_client_call (client_describe_jobs cb) (EvDescribe cb)
                  (fun w => ws_describe cb w) s) as Hstep.
    destruct (client_call (client_describe_jobs cb) (EvDescribe cb) s)
      as [[details|e|] s1]; simpl in Hstep; auto.
    destruct (reconcile (self s1) (unix_now_ms (world s1)) details acks)
      as [[[r|]|e|] acks1]; simpl; auto.
    etransitivity; [exact Hstep|apply IH].
Qed.

Lemma moves_on_poll_remote : respects (@moves_on W _) poll_remote.
Proof.
  intros s. unfold poll_remote.
  pose proof (moves_on_poll_batches (describe_batches (self s)) [] s) as H1.
  destruct (poll_batches (describe_batches (self s)) [] s) as [[o acks] s1].
  simpl in H1.
  pose proof (moves_on_drop_acknowledged acks s1) as H2.
  destruct (drop_acknowledged acks s1) as [[[]|e|] s2]; simpl in *;
    try (etransitivity; eassumption).
  destruct o as [[[a info]|]|e|]; simpl; etransitivity; eassumption.
Qed.

Lemma clock_later (w w' : W) :
  clock_moves_on -> later w w' -> (datetime_now w <= datetime_now w')%Q.
Proof.
  intros [Hstep _]. induction 1 as [w|w1 w2 w3 Hs Hl IH].
  - apply Qle_refl.
  - eapply Qle_trans; [apply Hstep; exact Hs|exact IH].
Qed.

Lemma wait_sleep_positive (maxWait : Z) :
  (0 < maxWait)%Z -> (0 < Qmin (inject_Z maxWait / 2) 1)%Q.
Proof.
  intros Hpos. apply Q.min_glb_lt; [|reflexivity].
  apply Qlt_shift_div_l; [reflexivity|].
  rewrite Qmult_0_l. change 0%Q with (inject_Z 0). now rewrite <- Zlt_Qlt.
Qed.

Lemma call_fueled {A} (f : W -> (exn + A) * W) (s : state W) :
  fst (call f s) <> OutOfFuel.
Proof. unfold call. destruct (f (world s)) as [[e|a] w]; discriminate. Qed.

Lemma bind_fueled {A B} (m : M W A) (k : A -> M W B) :
  (forall s, fst (m s) <> OutOfFuel) ->
  (forall a s, fst (k a s) <> OutOfFuel) ->
  forall s, fst (bind m k s) <> OutOfFuel.
Proof.
  intros Hm Hk s. unfold bind. specialize (Hm s).
  destruct (m s) as [[a|e|] s1]; simpl in *; auto; discriminate.
Qed.

Lemma drop_acknowledged_fueled acks (s : state W) :
  fst (drop_acknowledged acks s) <> OutOfFuel.
Proof.
  revert s. induction acks as [|[a b] acks IH]; simpl; [discriminate|].
  apply bind_fueled; [discriminate|intros b1].
  apply bind_fueled.
  { intros s. destruct (Dict.del a (aws_id_to_bs_id b1)); discriminate. }
  intros _. apply bind_fueled; [discriminate|intros b2].
  apply bind_fueled.
  { intros s. destruct (Dict.del b (bs_id_to_aws_id b2)); discriminate. }
  intros _. apply bind_fueled; [discriminate|intros b3].
  apply bind_fueled.
  { intros s. destruct (bool_decide (a ∈ killed_job_aws_ids b3)); discriminate. }
  intros _. apply bind_fueled; [discriminate|auto].
Qed.

Lemma poll_remote_fueled (s : state W) : fst (poll_remote s) <> OutOfFuel.
Proof.
  unfold poll_remote.
  destruct (poll_batches (describe_batches (self s)) [] s) as [[o acks] s1] eqn:Hpb.
  apply poll_batches_spec in Hpb as (_ & t & _ & _ & new & _ & _ & Ho).
  pose proof (drop_acknowledged_fueled acks s1) as Hd.
  destruct (drop_acknowledged acks s1) as [[[]|e|] s2]; simpl in *;
    try discriminate; try contradiction.
  destruct o as [[[a info]|]|e|]; simpl; try discriminate; try contradiction.
Qed.

Lemma budget_used_up (m now entry d : Q) :
  (m - (now - entry) <= 0 * d -> now - entry < m -> False)%Q.
Proof. intros H1 H2. lra. Qed.

Lemma budget_after_sleep (m now now' entry d qf : Q) :
  (m - (now - entry) <= (qf + 1) * d -> now + d <= now' ->
   m - (now' - entry) <= qf * d)%Q.
Proof. intros H1 H2. lra. Qed.

Lemma getUpdatedBatchJob_loop_returns (maxWait : Z) (entry : Q) (fuel : nat) :
  clock_moves_on ->
  (0 < maxWait)%Z ->
  forall s : state W,
    (inject_Z maxWait - (datetime_now (world s) - entry)
     <= inject_Z (Z.of_nat fuel) * Qmin (inject_Z maxWait / 2) 1)%Q ->
    fst (getUpdatedBatchJob_loop (S fuel) maxWait entry s) <> OutOfFuel.
Proof.
  intros Hclock Hpos.
  pose proof (wait_sleep_positive maxWait Hpos) as Hd.
  set (d := Qmin (inject_Z maxWait / 2) 1) in *.
  assert (Hz : (maxWait =? 0)%Z = false) by (apply Z.eqb_neq; lia).
  induction fuel as [|fuel IH]; intros s Hrem.
  - cbn [getUpdatedBatchJob_loop]. unfold bind at 1. unfold get_world at 1.
    rewrite Hz, orb_false_r.
    destruct (Qlt_bool (datetime_now (world s) - entry) (inject_Z maxWait)) eqn:Hlt.
    + apply Qlt_bool_true in Hlt. exfalso.
      exact (budget_used_up _ _ _ _ Hrem Hlt).
    + simpl. discriminate.
  - remember (S fuel) as n eqn:Hn.
    cbn [getUpdatedBatchJob_loop]. unfold bind at 1. unfold get_world at 1.
    rewrite Hz, orb_false_r.
    destruct (Qlt_bool (datetime_now (world s) - entry) (inject_Z maxWait)) eqn:Hlt;
      [|simpl; discriminate].
    unfold bind at 1.
    pose proof (moves_on_call (getUpdatedLocalJob 0)
                  (fun w => ws_getUpdatedLocalJob 0 w) s) as H1.
    pose proof (call_fueled (getUpdatedLocalJob 0) s) as F1.
    destruct (call (getUpdatedLocalJob 0) s) as [[[r|]|e|] s1]; simpl in H1;
      try discriminate; try contradiction.
    unfold bind at 1.
    pose proof (moves_on_poll_remote s1) as H2.
    pose proof (poll_remote_fueled s1) as F2.
    destruct (poll_remote s1) as [[[info|]|e|] s2]; simpl in H2;
      try discriminate; try contradiction.
    simpl negb. cbv iota. fold d. unfold bind at 1.
    destruct (sleep d s2) as [o3 s3] eqn:Hsleep.
    unfold sleep in Hsleep. injection Hsleep as <- <-.
    subst n. apply IH. simpl.
    assert (Hnow : (datetime_now (world s) + d <= datetime_now (time_sleep d (world s2)))%Q).
    { eapply Qle_trans; [|apply Hclock].
      apply Qplus_le_l. apply clock_later; auto.
      eapply later_trans; eassumption. }
    rewrite Nat2Z.inj_succ in Hrem. unfold Z.succ in Hrem.
    rewrite inject_Z_plus in Hrem.
    exact (budget_after_sleep _ _ _ _ _ _ Hrem Hnow).
Qed.

End Clock.

Section WaitResult.
Context {W : Type} `{Backend W}.

Lemma updated_ids_describes t : Forall is_describe t -> updated_ids t = [].
Proof.
  intros Hd. apply updated_ids_quiet, quiet_quiet_or_submit. now apply is_describe_quiet.
Qed.

Lemma updated_ids_is_dropped t : Forall is_dropped t -> updated_ids t = [].
Proof.
  induction 1 as [|e t He Ht IH]; auto.
  unfold updated_ids in *. simpl. rewrite IH. destruct e; simpl in *; tauto.
Qed.

Lemma poll_remote_updates (s : state W) :
  exists t,
    trace (snd (poll_remote s)) = trace s ++ t /\
    (updated_ids t = [] \/
     exists info, fst (poll_remote s) = Ret (Some info) /\ updated_ids t = [jobID info]).
Proof.
  unfold poll_remote.
  destruct (poll_batches (describe_batches (self s)) [] s) as [[o acks] s1] eqn:Hpb.
  apply poll_batches_spec in Hpb as (_ & t & Ht & Hdesc & _).
  pose proof (drop_acknowledged_adds is_dropped acks (fun _ _ => I) s1) as (t2 & Ht2 & Hp2).
  assert (Hquiet : updated_ids (t ++ t2) = []).
  { rewrite updated_ids_app, updated_ids_describes, updated_ids_is_dropped; auto. }
  destruct (drop_acknowledged acks s1) as [[[]|e|] s2]; simpl in *.
  - destruct o as [[[a info]|]|e|]; simpl.
    + exists ((t ++ t2) ++ [EvUpdated a info]).
      split; [rewrite Ht2, Ht, <- !app_assoc; reflexivity|].
      right. exists info. split; auto. rewrite updated_ids_app, Hquiet. reflexivity.
    + exists (t ++ t2). split; [rewrite Ht2, Ht, <- !app_assoc; reflexivity|auto].
    + exists (t ++ t2). split; [rewrite Ht2, Ht, <- !app_assoc; reflexivity|auto].
    + exists (t ++ t2). split; [rewrite Ht2, Ht, <- !app_assoc; reflexivity|auto].
  - exists (t ++ t2). split; [rewrite Ht2, Ht, <- !app_assoc; reflexivity|auto].
  - exists (t ++ t2). split; [rewrite Ht2, Ht, <- !app_assoc; reflexivity|auto].
Qed.

Lemma call_same_trace {A} (f : W -> (exn + A) * W) (s : state W) :
  trace (snd (call f s)) = trace s.
Proof. unfold call. destruct (f (world s)) as [[e|a] w]; reflexivity. Qed.

Lemma getUpdatedBatchJob_loop_updates fuel maxWait entry :
  forall (s : state W) o s',
    getUpdatedBatchJob_loop fuel maxWait entry s = (o, s') ->
    exists t,
      trace s' = trace s ++ t /\
      (updated_ids t = [] \/
       exists info, o = Ret (Some info) /\ updated_ids t = [jobID info]).
Proof.
  induction fuel as [|fuel IH]; intros s o s'; cbn [getUpdatedBatchJob_loop].
  - intros [= <- <-]. exists []. rewrite app_nil_r. auto.
  - unfold bind at 1. unfold get_world at 1.
    destruct (Qlt_bool (datetime_now (world s) - entry) (inject_Z maxWait)
              || (maxWait =? 0)%Z).
    2: { intros [= <- <-]. exists []. rewrite app_nil_r. auto. }
    unfold bind at 1.
    pose proof (call_same_trace (getUpdatedLocalJob 0) s) as Hc.
    destruct (call (getUpdatedLocalJob 0) s) as [[[r|]|e|] s1]; simpl in Hc;
      try (intros [= <- <-]; exists []; rewrite Hc, app_nil_r; auto; fail).
    unfold bind at 1.
    destruct (poll_remote_updates s1) as (t1 & Ht1 & Hu1).
    destruct (poll_remote s1) as [[[info|]|e|] s2]; simpl in Ht1, Hu1.
    + intros [= <- <-]. exists t1. rewrite Ht1, Hc. split; [reflexivity|].
      destruct Hu1 as [Hu1|(info' & [= <-] & Hu1)]; [auto|right; exists info; auto].
    + destruct Hu1 as [Hu1|(info' & [=] & _)].
      destruct (negb (maxWait =? 0)%Z).
      * unfold bind at 1. unfold sleep at 1. intros Hrest.
        apply IH in Hrest as (t2 & Ht2 & Hu2). simpl in Ht2.
        eexists. split; [rewrite Ht2, Ht1, Hc, <- !app_assoc; reflexivity|].
        rewrite !updated_ids_app, Hu1. simpl. exact Hu2.
      * intros [= <- <-]. exists t1. rewrite Ht1, Hc. auto.
    + intros [= <- <-]. exists t1. rewrite Ht1, Hc. split; [reflexivity|].
      destruct Hu1 as [Hu1|(info' & [=] & _)]; auto.
    + intros [= <- <-]. exists t1. rewrite Ht1, Hc. split; [reflexivity|].
      destruct Hu1 as [Hu1|(info' & [=] & _)]; auto.
Qed.

End WaitResult.

Module SimFacts.

Lemma clock_moves_on : @clock_moves_on Sim.t Sim.backend.
Proof.
  split.
  - intros w w' Hstep. destruct Hstep; simpl.
    + unfold Sim.submit. destruct (Sim.handles w); simpl; apply Qle_refl.
    + rewrite <- (Qplus_0_r (Sim.clock w)) at 1.
      apply Qplus_le_r. apply Qle_shift_div_l; [reflexivity|].
      rewrite Qmult_0_l. change 0%Q with (inject_Z 0). rewrite <- Zle_Qle. lia.
    + unfold Sim.terminate. destruct (Dict.get aws_id (Sim.terminate_errors w));
        simpl; apply Qle_refl.
    + apply Qle_refl.
    + unfold Sim.deregister. destruct (Sim.deregister_error w); simpl; apply Qle_refl.
    + rewrite <- (Qplus_0_r (Sim.clock w)) at 1.
      apply Qplus_le_r. apply Q.le_max_l.
    + apply Qle_refl.
    + apply Qle_refl.
    + apply Qle_refl.
    + apply Qle_refl.
    + apply Qle_refl.
    + apply Qle_refl.
  - intros seconds w. simpl. apply Qplus_le_r. apply Q.le_max_r.
Qed.

Lemma find_id (a : string) (js : list Sim.job) (j : Sim.job) :
  Sim.find a js = Some j -> Sim.sj_id j = a.
Proof.
  induction js as [|j0 js IH]; simpl; [discriminate|].
  destruct (decide (Sim.sj_id j0 = a)); auto. now intros [= <-].
Qed.

Lemma find_map (f : Sim.job -> Sim.job) (a : string) (js : list Sim.job) :
  (forall j, Sim.sj_id (f j) = Sim.sj_id j) ->
  Sim.find a (map f js) = option_map f (Sim.find a js).
Proof.
  intros Hf. induction js as [|j0 js IH]; simpl; auto.
  rewrite Hf. destruct (decide (Sim.sj_id j0 = a)); auto.
Qed.

Lemma tick_id (now : Z) (j : Sim.job) : Sim.sj_id (Sim.tick now j) = Sim.sj_id j.
Proof.
  unfold Sim.tick. destruct (Sim.is_terminal (Sim.sj_status j)); auto.
  destruct (Sim.sj_stops_in j) as [[|n]|]; reflexivity.
Qed.

Lemma cancel_id (delay : nat) (a : string) (j : Sim.job) :
  Sim.sj_id (Sim.cancel delay a j) = Sim.sj_id j.
Proof.
  unfold Sim.cancel. destruct (decide (Sim.sj_id j = a)); auto.
  destruct (Sim.is_terminal (Sim.sj_status j)); auto.
  destruct (Sim.sj_stops_in j); reflexivity.
Qed.

Lemma settled_map (f : Sim.job -> Sim.job) (a : string) (w : Sim.t) :
  (forall j, Sim.sj_id (f j) = Sim.sj_id j) ->
  (forall j, Sim.is_terminal (Sim.sj_status j) = true -> f j = j) ->
  Sim.settled a w -> Sim.settled a (Sim.with_jobs (map f (Sim.jobs w)) w).
Proof.
  intros Hid Hfix. unfold Sim.settled. simpl. rewrite find_map by exact Hid.
  destruct (Sim.find a (Sim.jobs w)) as [j|]; simpl; auto.
  intros Ht. now rewrite Hfix.
Qed.

Lemma settled_step (a : string) (w w' : Sim.t) :
  world_step w w' -> Sim.settled a w -> Sim.settled a w'.
Proof.
  intros Hstep Hs. destruct Hstep; simpl; auto.
  - unfold Sim.submit. destruct (Sim.handles w); simpl; exact Hs.
  - apply (settled_map (Sim.tick (Sim.now_ms w)) a w); auto.
    + apply tick_id.
    + intros j Ht. unfold Sim.tick. now rewrite Ht.
  - unfold Sim.terminate. destruct (Dict.get aws_id (Sim.terminate_errors w)); simpl; auto.
    apply (settled_map (Sim.cancel (Sim.kill_delay w) aws_id) a w); auto.
    + apply cancel_id.
    + intros j Ht. unfold Sim.cancel. rewrite Ht.
      now destruct (decide (Sim.sj_id j = aws_id)).
  - unfold Sim.deregister. destruct (Sim.deregister_error w); simpl; exact Hs.
Qed.

Lemma settled_later (a : string) (w w' : Sim.t) :
  later w w' -> Sim.settled a w -> Sim.settled a w'.
Proof. induction 1; auto. intros Hs. eauto using settled_step. Qed.

Lemma terminal_is_final : @terminal_is_final Sim.t Sim.backend.
Proof.
  intros a w_out w jobs w1 _ _ Hd Hstop w2 Hlater ids.
  assert (Hs1 : Sim.settled a w1).
  { simpl in Hd. unfold Sim.describe in Hd. injection Hd as <- <-.
    unfold Sim.settled. simpl.
    destruct (Sim.find a (map (Sim.tick (Sim.now_ms w)) (Sim.jobs w))) as [j|]; auto.
    simpl in Hstop. unfold Sim.is_terminal.
    destruct Hstop as [Hst|Hst]; simpl in Hst; injection Hst as ->; reflexivity. }
  pose proof (settled_later a w1 w2 Hlater Hs1) as Hs2.
  simpl. intros jd Hin Hid.
  apply in_flat_map in Hin as (id & _ & Hin).
  destruct (Sim.find id (map (Sim.tick (Sim.now_ms w2)) (Sim.jobs w2))) as [j|] eqn:Hf;
    [|destruct Hin].
  destruct Hin as [<-|[]]. simpl in Hid.
  pose proof (find_id _ _ _ Hf) as Hj. rewrite Hid in Hj. subst id.
  rewrite find_map in Hf by apply tick_id.
  unfold Sim.settled in Hs2.
  destruct (Sim.find a (Sim.jobs w2)) as [j0|]; [|discriminate].
  simpl in Hf. injection Hf as <-. unfold Sim.tick. rewrite Hs2. simpl.
  unfold Sim.is_terminal in Hs2.
  intros [= Hrun]. rewrite Hrun in Hs2. vm_compute in Hs2. discriminate.
Qed.

End SimFacts.

(** C6, as the code has it.  With [maxWait] zero a call is exactly one
    polling pass: it never sleeps and returns what the pass returns.  With
    [maxWait] not zero, every sleep of the call lasts min(maxWait/2, 1)
    seconds, which is at most one second and does not depend on what remains
    of the budget; the call answers "no update" only once the time elapsed
    since entry has reached [maxWait]; and on a clock that sleeps advance and
    nothing turns back it returns within maxWait / min(maxWait/2, 1) passes.
    A call adds at most one completion to the trace, the one it returns. *)
Theorem wait_for_update_polls_and_sleeps
    {W : Type} `{Backend W} (fuel : nat) (maxWait : Z) (s : state W) :
  (getUpdatedBatchJob (S fuel) 0 s = poll_once s /\
   Forall not_sleep (new_events s (snd (poll_once s)))) /\
  (Forall (sleeps_for (Qmin (inject_Z maxWait / 2) 1))
          (new_events s (snd (getUpdatedBatchJob fuel maxWait s))) /\
   (Qmin (inject_Z maxWait / 2) 1 <= 1)%Q) /\
  (maxWait <> 0%Z ->
   forall s', getUpdatedBatchJob fuel maxWait s = (Ret None, s') ->
              (inject_Z maxWait <= datetime_now (world s') - datetime_now (world s))%Q) /\
  (clock_moves_on -> (0 < maxWait)%Z ->
   (inject_Z maxWait <= inject_Z (Z.of_nat fuel) * Qmin (inject_Z maxWait / 2) 1)%Q ->
   fst (getUpdatedBatchJob (S fuel) maxWait s) <> OutOfFuel) /\
  (length (updated_ids (new_events s (snd (getUpdatedBatchJob fuel maxWait s)))) <= 1)%nat.
Proof.
  split; [split|].
  - apply getUpdatedBatchJob_zero.
  - apply adds_new_events, poll_once_adds_no_sleep.
  - split; [split|].
    + apply adds_new_events. unfold getUpdatedBatchJob.
      apply (respects_bind (adds _)); [apply respects_get_world; apply _|].
      intros entry. apply getUpdatedBatchJob_loop_sleeps.
    + apply Q.le_min_r.
    + split; [|split].
      * intros Hnz s' Hret. unfold getUpdatedBatchJob, bind, get_world in Hret.
        eapply getUpdatedBatchJob_loop_deadline; eauto.
      * intros Hclock Hpos Hfuel. unfold getUpdatedBatchJob, bind, get_world.
        apply getUpdatedBatchJob_loop_returns; auto.
        eapply Qle_trans; [|exact Hfuel].
        unfold Qminus. rewrite Qplus_opp_r. rewrite Qplus_0_r. apply Qle_refl.
      * unfold getUpdatedBatchJob, bind, get_world, new_events.
        destruct (getUpdatedBatchJob_loop fuel maxWait (datetime_now (world s)) s)
          as [o s'] eqn:Hloop.
        apply getUpdatedBatchJob_loop_updates in Hloop as (t & Ht & Hu). simpl.
        rewrite Ht, drop_app_length.
        destruct Hu as [->|(info & _ & ->)]; simpl; lia.
Qed.

(** C6 as stated fails: a call with [maxWait] of one second whose first pass
    takes 0.9 seconds sleeps half a second when a tenth of a second is left
    of its budget. *)
Lemma wait_sleep_outlasts_remaining_budget :
  let w := {| Sim.clock := 0; Sim.jobs := [Sim.running "job-1" 0];
              Sim.handles := ["job-1"];
              Sim.describe_cost_ms := 900; Sim.kill_delay := 1;
              Sim.terminate_errors := []; Sim.deregister_error := None |} in
  let s := run [IssueBatchJob (Sim.sleep_job "first") None] (init Sim.cfg w) in
  let s' := snd (getUpdatedBatchJob 5 1 s) in
  In (EvSleep (900 # 1000) (1 # 2)) (new_events s s') /\
  ~ sleeps_within_remaining_budget 1 (datetime_now (world s)) (new_events s s').
Proof.
  intros w s s'.
  assert (Hin : In (EvSleep (900 # 1000) (1 # 2)) (new_events s s')).
  { vm_compute. right. left. reflexivity. }
  split; [exact Hin|].
  intros Hclaim. specialize (Hclaim _ _ Hin).
  vm_compute in Hclaim. apply Hclaim. reflexivity.
Qed.

(** C6 at work on the simulated backend: a wait of three seconds for a job
    that keeps running returns "no update" after the three seconds,
    whereas a wait of zero seconds is one pass. *)
Lemma wait_for_update_polls_and_sleeps_witness :
  let s := run [IssueBatchJob (Sim.sleep_job "first") None]
               (init Sim.cfg Sim.two_running) in
  getUpdatedBatchJob 4 0 s = poll_once s /\
  fst (getUpdatedBatchJob 4 3 s) <> OutOfFuel /\
  (forall s', getUpdatedBatchJob 4 3 s = (Ret None, s') ->
     (3 <= datetime_now (world s') - datetime_now (world s))%Q).
Proof.
  intros s.
  destruct (wait_for_update_polls_and_sleeps 3 0 s) as ((Hzero & _) & _).
  destruct (wait_for_update_polls_and_sleeps 3 3 s) as (_ & _ & _ & Hret & _).
  destruct (wait_for_update_polls_and_sleeps 4 3 s) as (_ & _ & Hdead & _).
  split; [exact Hzero|]. split.
  - apply Hret; [exact SimFacts.clock_moves_on|lia|].
    vm_compute. discriminate.
  - intros s' Hs'. apply (Hdead ltac:(discriminate) s' Hs').
Defined.

(** ** Killing jobs *)

Section Kill.
Context {W : Type} `{Backend W}.






Lemma retry_with_returns {A} (intervals : list Q) (f : M W A) (P : state W -> Prop) :
  (forall s a s', f s = (Ret a, s') -> P s') ->
  forall s a s', retry_with intervals f s = (Ret a, s') -> P s'.
Proof.
  intros Hf. induction intervals as [|d rest IH]; intros s a s'; simpl.
  - destruct (f s) as [[a1|e|] s1] eqn:Hfs.
    + intros [= <- <-]. eauto.
    + destruct e; discriminate.
    + discriminate.
  - destruct (f s) as [[a1|e|] s1] eqn:Hfs.
    + intros [= <- <-]. eauto.
    + destruct e; try discriminate. unfold bind, sleep. apply IH.
    + discriminate.
Qed.


Lemma adds_impl (P Q : event -> Prop) (s s' : state W) :
  (forall e, P e -> Q e) -> adds P s s' -> adds Q s s'.
Proof.
  intros Himp (t & Ht & Hp). exists t. split; auto.
  eapply List.Forall_impl; eauto.
Qed.

Lemma adds_sleep (P : event -> Prop) d :
  (forall now, P (EvSleep now d)) -> respects (@adds W P) (sleep d).
Proof.
  intros HP s. eexists. simpl. split; [reflexivity|]. repeat constructor. apply HP.
Qed.

Lemma adds_retry_with (P : event -> Prop) {A} (intervals : list Q) (f : M W A) :
  (forall d now, In d intervals -> P (EvSleep now d)) ->
  respects (@adds W P) f ->
  respects (@adds W P) (retry_with intervals f).
Proof.
  intros Hs Hf. induction intervals as [|d rest IH]; intros s; simpl.
  - specialize (Hf s). destruct (f s) as [[a|e|] s']; simpl in *; auto.
    destruct e; auto.
  - specialize (Hf s). destruct (f s) as [[a|e|] s']; simpl in *; auto.
    destruct e; auto.
    etransitivity; [exact Hf|].
    apply (respects_bind (adds P) (sleep d) (fun _ => retry_with rest f)).
    + apply adds_sleep. intros now. apply Hs. now left.
    + intros _. apply IH. intros d' now Hin. apply Hs. now right.
Qed.



Lemma try_terminate_adds (aws_id : string) :
  respects (@adds W cancel_event) (_try_terminate aws_id).
Proof.
  unfold _try_terminate, retry. apply adds_retry_with.
  - intros d now Hin. exact Hin.
  - apply respects_bind; try apply _.
    + apply adds_same_trace. reflexivity.
    + intros _ s. unfold client_call.
      destruct (client_terminate_job aws_id "Killed by Toil" (world s)) as [[e|a] w];
        simpl; (eexists; split; [reflexivity|]; repeat constructor).
Qed.

Lemma try_terminate_cancels (aws_id : string) (s s' : state W) :
  _try_terminate aws_id s = (Ret tt, s') ->
  In (EvTerminate aws_id (inr tt)) (new_events s s').
Proof.
  unfold _try_terminate, retry.
  set (attempt := (modify_self _ ;;; client_call _ _)).
  assert (Hext : forall intervals, respects (@extends W) (retry_with intervals attempt)).
  { intros intervals s0.
    destruct (respects_retry_with (@frame W) intervals attempt frame_sleep) with (s := s0)
      as (_ & _ & _ & _ & t & Ht & _).
    - unfold attempt. apply respects_bind; try apply _.
      + apply frame_modify_self. intros b; simpl. repeat split; auto. set_solver.
      + intros _. apply frame_client_call. intros r; exact I.
    - exists t. exact Ht. }
  assert (Hattempt : forall s0 s0', attempt s0 = (Ret tt, s0') ->
            trace s0' = trace s0 ++ [EvTerminate aws_id (inr tt)]).
  { intros s0 s0'. unfold attempt, bind, modify_self, client_call. simpl.
    destruct (client_terminate_job aws_id "Killed by Toil" (world s0)) as [[e|[]] w];
      intros [= <-]; reflexivity. }
  assert (Hgen : forall intervals s0 s0',
            retry_with intervals attempt s0 = (Ret tt, s0') ->
            exists t, trace s0' = trace s0 ++ t /\ In (EvTerminate aws_id (inr tt)) t).
  { induction intervals as [|d rest IH]; intros s0 s0'; simpl.
    - destruct (attempt s0) as [[[]|e|] s1] eqn:Ha.
      + intros [= <-]. apply Hattempt in Ha. eexists. split; [exact Ha|now left].
      + destruct e; discriminate.
      + discriminate.
    - destruct (attempt s0) as [[[]|e|] s1] eqn:Ha.
      + intros [= <-]. apply Hattempt in Ha. eexists. split; [exact Ha|now left].
      + destruct e; try discriminate. unfold bind at 1. unfold sleep at 1.
        intros Hrest. apply IH in Hrest as (t & Ht & Hin). simpl in Ht.
        assert (Hfr : extends s0 s1).
        { unfold attempt in Ha. unfold bind, modify_self, client_call in Ha. simpl in Ha.
          destruct (client_terminate_job aws_id "Killed by Toil" (world s0)) as [[e|[]] w];
            injection Ha as _ <-; eexists; simpl; reflexivity. }
        destruct Hfr as [t0 Ht0].
        eexists. split; [rewrite Ht, Ht0, <- !app_assoc; reflexivity|].
        apply in_app_iff. right. apply in_app_iff. right. exact Hin.
      + discriminate. }
  intros Hrun. apply Hgen in Hrun as (t & Ht & Hin).
  unfold new_events. now rewrite Ht, drop_app_length.
Qed.

End Kill.

Section KillConfirmed.
Context {W : Type} `{Backend W}.

Lemma for_ret_inv {A} (l : list A) (body : A -> M W unit) (s s' : state W) :
  for_ l body s = (Ret tt, s') ->
  (l = [] /\ s' = s) \/
  exists x l' s1, l = x :: l' /\ body x s = (Ret tt, s1) /\ for_ l' body s1 = (Ret tt, s').
Proof.
  destruct l as [|x l']; simpl.
  - intros [= <-]. auto.
  - unfold bind. destruct (body x s) as [[[]|e|] s1] eqn:Hb; try discriminate.
    intros Hrest. right. exists x, l', s1. auto.
Qed.

Lemma new_events_app (s s1 s' : state W) :
  extends s s1 -> extends s1 s' ->
  new_events s s' = new_events s s1 ++ new_events s1 s'.
Proof.
  intros [t Ht] [t' Ht']. unfold new_events.
  rewrite Ht', drop_app_length, Ht, <- app_assoc, !drop_app_length. reflexivity.
Qed.

Lemma frame_extends (s s' : state W) : frame s s' -> extends s s'.
Proof. intros (_ & _ & _ & _ & t & Ht & _). exists t. exact Ht. Qed.








Lemma wait_loop_never_returns (aws_id : string) :
  (forall w : W, exists job jobs w',
      client_describe_jobs [aws_id] w = (inr (job :: jobs), w') /\
      status job = Some "RUNNING") ->
  forall fuel (s : state W), fst (wait_loop fuel aws_id s) = OutOfFuel.
Proof.
  intros Hrunning. induction fuel as [|fuel IH]; intros s; cbn [wait_loop]; auto.
  unfold bind at 1. unfold client_call at 1.
  destruct (Hrunning (world s)) as (job & jobs & w' & -> & Hst).
  unfold status_in. rewrite Hst. simpl. unfold bind at 1. unfold sleep at 1. apply IH.
Qed.

End KillConfirmed.

(** ** The world and the handles over any sequence of calls *)

Section Onwards.
Context {W : Type} `{Backend W}.

Ltac moves :=
  repeat first
    [ apply respects_ret; apply _
    | apply respects_raise; apply _
    | apply respects_out_of_fuel; apply _
    | apply respects_get_self; apply _
    | apply respects_get_world; apply _
    | apply moves_on_sleep
    | apply moves_on_call; intros; constructor
    | apply moves_on_client_call; intros; constructor
    | apply moves_on_same_world; reflexivity
    | apply respects_retry; [apply _ | intros; apply moves_on_sleep | ]
    | apply respects_for; [apply _ | intros]
    | apply respects_bind; [apply _ | | intros] ].

Lemma moves_on_try_terminate aws_id : respects (@moves_on W _) (_try_terminate aws_id).
Proof. unfold _try_terminate. moves. Qed.

Lemma moves_on_destroy_job_definition :
  respects (@moves_on W _) _destroy_job_definition.
Proof.
  unfold _destroy_job_definition. moves.
  destruct (job_definition a); moves.
Qed.









Global Instance keeps_handles_preorder : PreOrder (@keeps_handles W).
Proof.
  split.
  - intros s Hok. split; auto. split; [lia|auto].
  - intros s1 s2 s3 H12 H23 Hok1.
    destruct (H12 Hok1) as (Hok2 & Hle12 & Hget12).
    destruct (H23 Hok2) as (Hok3 & Hle23 & Hget23).
    split; auto. split; [lia|].
    intros bs a Hlt Hget. apply Hget12; auto. apply Hget23; auto. lia.
Qed.








End Onwards.

(** ** Killing jobs: cancel, then wait for the confirmation *)

Section Kill.
Context {W : Type} `{Backend W}.



Lemma adds_extends (P : event -> Prop) (s s' : state W) : adds P s s' -> extends s s'.
Proof. intros (t & Ht & _). exists t. exact Ht. Qed.



End Kill.

(** ** LSF: the exit code of a job *)

Module LSFFacts.
Import LSF.
Local Open Scope lsf_scope.

Lemma debug_number (prefix : string) (n : Z) (spawned : list (list string)) :
  debug prefix (PyInt n) spawned = (inr tt, spawned).
Proof. reflexivity. Qed.

Lemma debug_text (prefix s : string) (spawned : list (list string)) :
  debug prefix (PyStr s) spawned = (inl TypeError, spawned).
Proof. reflexivity. Qed.

Lemma listing_started (lines : list string) :
  Spec.listing lines true <> Spec.NoMatch.
Proof.
  induction lines as [|line rest IH]; simpl; [discriminate|].
  destruct (Py.contains "Done successfully" line); [discriminate|].
  destruct (Py.contains "Completed <exit>" line); [discriminate|].
  destruct (Py.contains "New job is waiting for scheduling" line
            || Py.contains "PENDING REASONS" line); [discriminate|].
  exact IH.
Qed.

(** With a number for the job, the loop over the listing is the scan of the
    specification. *)
Lemma bjobs_loop_listing (n : Z) (lines : list string) :
  forall (started : Z) (spawned : list (list string)),
    bjobs_loop (PyInt n) lines started spawned =
    (inr match Spec.listing lines (started =? 1)%Z with
         | Spec.Success => inl (Some 0%Z)
         | Spec.Failure => inl (Some 1%Z)
         | Spec.Pending => inl None
         | Spec.StartedOnly => inr 1%Z
         | Spec.NoMatch => inr started
         end, spawned).
Proof.
  induction lines as [|line rest IH]; intros started spawned; simpl.
  - destruct (started =? 1)%Z eqn:Hs; [|reflexivity].
    apply Z.eqb_eq in Hs. now subst.
  - destruct (Py.contains "Done successfully" line); [reflexivity|].
    destruct (Py.contains "Completed <exit>" line); [reflexivity|].
    destruct (Py.contains "New job is waiting for scheduling" line); [reflexivity|].
    destruct (Py.contains "PENDING REASONS" line); [reflexivity|]. simpl.
    destruct (Py.contains "Started on " line).
    + rewrite IH, orb_true_r. simpl.
      pose proof (listing_started rest) as Hne.
      destruct (Spec.listing rest true); try reflexivity. now contradiction Hne.
    + rewrite IH, orb_false_r. reflexivity.
Qed.

Lemma bacct_loop_accounting (n : Z) (lines : list string) :
  forall spawned : list (list string),
    bacct_loop (PyInt n) lines spawned =
    (inr match Spec.accounting lines with
         | Some code => Some (Some code)
         | None => None
         end, spawned).
Proof.
  induction lines as [|line rest IH]; intros spawned; simpl; [reflexivity|].
  destruct (Py.contains "Completed <done>" line); [reflexivity|].
  destruct (Py.contains "Completed <exit>" line); [reflexivity|].
  apply IH.
Qed.

(** What the claim describes is what the method does from the moment it
    spawns bjobs, for a job id that is a number: the first marker of the
    listing decides, a "Started on" line alone gives [None] without the
    accounting tool, and the accounting tool is asked only when the listing
    matched nothing. *)
Lemma consult_tools_cascade (tools : Tools) (n : Z) (spawned : list (list string)) :
  let bjobs := stdout_lines tools ["bjobs"; "-l"; Py.str n] in
  let bacct := stdout_lines tools ["bacct"; "-l"; Py.str n] in
  consult_tools tools (PyInt n) spawned =
  (inr (Spec.exit_code bjobs bacct), spawned ++ Spec.commands (Py.str n) bjobs).
Proof.
  intros bjobs bacct. unfold consult_tools, Spec.exit_code, Spec.commands.
  unfold bind at 1. unfold Popen at 1. simpl py_str. fold bjobs.
  unfold bind at 1. rewrite bjobs_loop_listing. simpl (0 =? 1)%Z.
  destruct (Spec.listing bjobs false); try reflexivity.
  simpl (0 =? 1)%Z. cbv iota.
  unfold bind at 1. rewrite debug_number.
  unfold bind at 1. unfold Popen at 1. fold bacct.
  unfold bind at 1. rewrite bacct_loop_accounting.
  rewrite <- app_assoc. simpl.
  destruct (Spec.accounting bacct); reflexivity.
Qed.

(** C8.  The cascade of the claim is never reached: whatever job id the
    method is given and whatever the tools would print, formatting the first
    debug message raises [TypeError] before bjobs is spawned.  The caller
    hands over a [str] (what [getBatchSystemID] builds), which the ["%d"] of
    the message refuses; a number would already fail the test for a dot.
    For job ["123"], whose listing says "Done successfully", the claim
    promises 0. *)
Theorem getJobExitCode_raises_type_error :
  (forall (tools : Tools) (lsfJobID : pyval) (spawned : list (list string)),
     getJobExitCode tools lsfJobID spawned = (inl TypeError, spawned)) /\
  (let bjobs := ["Job <123>, User <toil>, Project <default>, Status <DONE>";
                 "Mon Jan  1 10:00:00: Started on <node1>;";
                 "Mon Jan  1 10:00:10: Done successfully. The CPU time used is 0.1 seconds."] in
   Spec.exit_code bjobs [] = Some 0%Z /\
   getJobExitCode (fixed_tools bjobs []) (PyStr "123") [] = (inl TypeError, [])).
Proof.
  split.
  - intros tools [n|s] spawned; [reflexivity|].
    unfold getJobExitCode, bind, py_in, ret.
    destruct (Py.contains "." s); reflexivity.
  - split; vm_compute; reflexivity.
Qed.

End LSFFacts.

(** ** Shutting down: the first failure ends it *)

Section Shutdown.
Context {W : Type} `{Backend W}.

Global Instance keeps_definition_preorder : PreOrder (@keeps_definition W).
Proof.
  split.
  - intros s. reflexivity.
  - intros s1 s2 s3 H12 H23. unfold keeps_definition in *. congruence.
Qed.

Lemma keeps_definition_try_terminate aws_id :
  respects (@keeps_definition W) (_try_terminate aws_id).
Proof.
  unfold _try_terminate. apply respects_retry; try apply _.
  - intros d s. reflexivity.
  - apply respects_bind; try apply _.
    + intros s. reflexivity.
    + intros _ s. unfold client_call, keeps_definition.
      destruct (client_terminate_job aws_id "Killed by Toil" (world s)) as [[e|a] w];
        reflexivity.
Qed.

Lemma terminate_all_cancels (aws_ids : list string) :
  forall s s' : state W,
    for_ aws_ids _try_terminate s = (Ret tt, s') ->
    forall aws_id, In aws_id aws_ids ->
      In (EvTerminate aws_id (inr tt)) (new_events s s').
Proof.
  induction aws_ids as [|x l IH]; intros s s' Hrun a Hin; [destruct Hin|].
  apply for_ret_inv in Hrun as [[[=] _]|(x' & l' & s1 & [= <- <-] & Hbody & Hrest)].
  pose proof (try_terminate_adds x s) as Hf1. rewrite Hbody in Hf1. simpl in Hf1.
  pose proof (respects_for (@adds W cancel_event) l _try_terminate try_terminate_adds s1)
    as Hf2. rewrite Hrest in Hf2. simpl in Hf2.
  rewrite (new_events_app s s1 s') by (eapply adds_extends; eauto).
  apply in_app_iff. destruct Hin as [->|Hin].
  - left. now apply try_terminate_cancels.
  - right. eapply IH; eauto.
Qed.

(** What a teardown that returns has done. *)
Lemma destroy_job_definition_returns (s s' : state W) :
  _destroy_job_definition s = (Ret tt, s') ->
  job_definition (self s') = None /\
  forall arn, job_definition (self s) = Some arn ->
              In (EvDeregister arn (inr tt)) (new_events s s').
Proof.
  unfold _destroy_job_definition, retry.
  set (attempt := (b <~ get_self ;; _)).
  assert (Hgen : forall intervals s0 s0',
            retry_with intervals attempt s0 = (Ret tt, s0') ->
            job_definition (self s0') = None /\
            forall arn, job_definition (self s0) = Some arn ->
              exists t, trace s0' = trace s0 ++ t /\ In (EvDeregister arn (inr tt)) t).
  { assert (Hattempt : forall s0 s0', attempt s0 = (Ret tt, s0') ->
              job_definition (self s0') = None /\
              forall arn, job_definition (self s0) = Some arn ->
                trace s0' = trace s0 ++ [EvDeregister arn (inr tt)]).
    { intros s0 s0'. unfold attempt, bind, get_self.
      destruct (job_definition (self s0)) as [arn|] eqn:Hdef.
      - unfold client_call, modify_self.
        destruct (client_deregister_job_definition arn (world s0)) as [[e|[]] w];
          [discriminate|]. intros [= <-]. simpl. split; auto.
        now intros arn' [= <-].
      - intros [= <-]. split; auto. discriminate. }
    assert (Hfail : forall s0 e s0', attempt s0 = (Raise e, s0') ->
              self s0' = self s0 /\ exists t, trace s0' = trace s0 ++ t).
    { intros s0 e s0'. unfold attempt, bind, get_self.
      destruct (job_definition (self s0)) as [arn|]; [|discriminate].
      unfold client_call, modify_self.
      destruct (client_deregister_job_definition arn (world s0)) as [[e'|[]] w];
        [|discriminate]. intros [= _ <-]. simpl. eauto. }
    induction intervals as [|d rest IH]; intros s0 s0'; simpl.
    - destruct (attempt s0) as [[[]|e|] s1] eqn:Ha.
      + intros [= <-]. destruct (Hattempt _ _ Ha) as [Hnone Hev]. split; auto.
        intros arn Hd. eexists. split; [apply Hev, Hd|now left].
      + destruct e; discriminate.
      + discriminate.
    - destruct (attempt s0) as [[[]|e|] s1] eqn:Ha.
      + intros [= <-]. destruct (Hattempt _ _ Ha) as [Hnone Hev]. split; auto.
        intros arn Hd. eexists. split; [apply Hev, Hd|now left].
      + destruct e; try discriminate. unfold bind at 1. unfold sleep at 1.
        intros Hrest. apply IH in Hrest as [Hnone Hev]. split; auto.
        destruct (Hfail _ _ _ Ha) as (Hself & t1 & Ht1).
        intros arn Hd. simpl in Hev. rewrite Hself in Hev.
        destruct (Hev arn Hd) as (t & Ht & Hin).
        exists (t1 ++ [EvSleep (datetime_now (world s1)) d] ++ t). split.
        * rewrite Ht, Ht1, <- !app_assoc. reflexivity.
        * rewrite !in_app_iff. auto.
      + discriminate. }
  intros Hrun. destruct (Hgen _ _ _ Hrun) as [Hnone Hev]. split; auto.
  intros arn Hd. destruct (Hev arn Hd) as (t & Ht & Hin).
  unfold new_events. now rewrite Ht, drop_app_length.
Qed.

Lemma destroy_job_definition_extends : respects (@extends W) _destroy_job_definition.
Proof.
  unfold _destroy_job_definition.
  apply respects_retry; try apply _.
  - intros d s. eexists. reflexivity.
  - apply respects_bind; try apply _; [apply respects_get_self; apply _|intros b].
    destruct (job_definition b) as [arn|]; [|apply respects_ret; apply _].
    apply respects_bind; try apply _.
    + intros s. unfold client_call.
      destruct (client_deregister_job_definition arn (world s)) as [[e|a] w];
        eexists; reflexivity.
    + intros _ s. exists []. simpl. now rewrite app_nil_r.
Qed.

Lemma cancel_event_not_deregister (t : list event) arn r :
  Forall cancel_event t -> ~ In (EvDeregister arn r) t.
Proof.
  intros Hall Hin. rewrite List.Forall_forall in Hall. exact (Hall _ Hin).
Qed.

Lemma shutdown_run (s : state W) o (s' : state W) :
  shutdown s = (o, s') ->
  (o = Ret tt ->
     cancelled_all s (new_events s s') /\
     job_definition (self s') = None /\
     forall arn, job_definition (self s) = Some arn ->
                 In (EvDeregister arn (inr tt)) (new_events s s')) /\
  (forall arn r, In (EvDeregister arn r) (new_events s s') ->
                 cancelled_all s (new_events s s')).
Proof.
  unfold shutdown. unfold bind at 1.
  pose proof (call_same_trace shutdownLocal s) as Htrace0.
  assert (Hself0 : self (snd (call shutdownLocal s)) = self s).
  { unfold call. destruct (shutdownLocal (world s)) as [[e|[]] w0]; reflexivity. }
  destruct (call shutdownLocal s) as [[[]|e|] s0] eqn:Hlocal; simpl in Htrace0, Hself0.
  2,3: (intros [= <- <-]; unfold new_events; rewrite Htrace0, drop_all;
        split; [discriminate|intros arn r []]).
  unfold bind at 1. unfold get_self at 1. rewrite Hself0.
  set (ids := Dict.keys (aws_id_to_bs_id (self s))).
  pose proof (respects_for (@adds W cancel_event) ids _try_terminate
                try_terminate_adds s0) as Hadds.
  pose proof (respects_for (@keeps_definition W) ids _try_terminate
                keeps_definition_try_terminate s0) as Hkeep.
  unfold bind at 1.
  destruct (for_ ids _try_terminate s0) as [[[]|e|] s1] eqn:Hfor; simpl in Hadds, Hkeep.
  2,3: (intros [= <- <-]; split; [discriminate|]; intros arn r Hin; exfalso;
        apply adds_new_events in Hadds;
        unfold new_events in Hin, Hadds; rewrite <- Htrace0 in Hin;
        exact (cancel_event_not_deregister _ arn r Hadds Hin)).
  intros Hdestroy.
  pose proof (terminate_all_cancels ids s0 s1 Hfor) as Hall.
  pose proof (destroy_job_definition_extends s1) as Hext.
  rewrite Hdestroy in Hext. simpl in Hext.
  assert (Hnew : new_events s s' = new_events s0 s1 ++ new_events s1 s').
  { rewrite <- (new_events_app s0 s1 s'); [|eapply adds_extends; eauto|exact Hext].
    unfold new_events. now rewrite Htrace0. }
  assert (Hcancelled : cancelled_all s (new_events s s')).
  { intros a Hin. rewrite Hnew. apply in_app_iff. left. now apply Hall. }
  split; [|intros arn r _; exact Hcancelled].
  intros ->. split; [exact Hcancelled|].
  destruct (destroy_job_definition_returns s1 s' Hdestroy) as [Hnone Hev].
  split; [exact Hnone|].
  intros arn Hd. rewrite Hnew. apply in_app_iff. right. apply Hev.
  unfold keeps_definition in Hkeep. now rewrite Hkeep, Hself0.
Qed.

(** C9, as the code has it.  [shutdown] has no handler for a failure: its
    steps run in order and the first one that fails ends it.  When it
    returns, a cancel call succeeded for every issued job, and the job
    definition, if there was one, was deregistered and is forgotten.
    Whatever the outcome, the teardown of the job definition is attempted
    only after a cancel call succeeded for every issued job. *)
Theorem shutdown_stops_at_first_failure (s : state W) :
  let s' := snd (shutdown s) in
  let t := new_events s s' in
  (fst (shutdown s) = Ret tt ->
     cancelled_all s t /\
     job_definition (self s') = None /\
     forall arn, job_definition (self s) = Some arn ->
                 In (EvDeregister arn (inr tt)) t) /\
  (forall arn r, In (EvDeregister arn r) t -> cancelled_all s t).
Proof.
  intros s' t. unfold t, s'. clear s' t.
  destruct (shutdown s) as [o s'] eqn:Hrun. simpl.
  exact (shutdown_run s o s' Hrun).
Qed.

End Shutdown.

(** C9 as stated fails: on a backend that refuses to cancel the first of two
    issued jobs, [shutdown] raises the error of that cancel call; the second
    job gets no cancel call and the deletion of the job definition is not
    attempted. *)
Lemma shutdown_aborts_on_failed_cancel :
  let s := run [IssueBatchJob (Sim.sleep_job "first") None;
                IssueBatchJob (Sim.sleep_job "second") None]
               (init Sim.cfg Sim.refusing_cancel) in
  let s' := snd (shutdown s) in
  Dict.keys (aws_id_to_bs_id (self s)) = ["job-1"; "job-2"] /\
  fst (shutdown s) = Raise ClientError /\
  new_events s s' = [EvTerminate "job-1" (inl ClientError)] /\
  job_definition (self s') = Some "arn:aws:batch:job-definition/toil" /\
  ~ completes_all_steps s.
Proof.
  intros s s'.
  assert (Hnew : new_events s s' = [EvTerminate "job-1" (inl ClientError)])
    by (vm_compute; reflexivity).
  split; [vm_compute; reflexivity|].
  split; [vm_compute; reflexivity|].
  split; [exact Hnew|].
  split; [vm_compute; reflexivity|].
  intros [Hcancel _].
  destruct (Hcancel "job-2") as [r Hin].
  - vm_compute. right. now left.
  - fold s' in Hin. rewrite Hnew in Hin.
    destruct Hin as [Heq|[]]. discriminate Heq.
Qed.

(** C9 at work on the simulated backend: with nothing failing, [shutdown]
    after two submissions cancels both jobs and then deregisters the job
    definition. *)
Lemma shutdown_stops_at_first_failure_witness :
  let s := run [IssueBatchJob (Sim.sleep_job "first") None;
                IssueBatchJob (Sim.sleep_job "second") None]
               (init Sim.cfg Sim.two_running) in
  let s' := snd (shutdown s) in
  In (EvTerminate "job-1" (inr tt)) (new_events s s') /\
  In (EvTerminate "job-2" (inr tt)) (new_events s s') /\
  In (EvDeregister "arn:aws:batch:job-definition/toil" (inr tt)) (new_events s s') /\
  job_definition (self s') = None.
Proof.
  intros s s'.
  destruct (shutdown_stops_at_first_failure s) as [Hret _].
  destruct Hret as (Hall & Hnone & Hev); [vm_compute; reflexivity|].
  split; [apply Hall; vm_compute; now left|].
  split; [apply Hall; vm_compute; right; now left|].
  split; [apply Hev; vm_compute; reflexivity|].
  exact Hnone.
Defined.

(** ** Further properties: batches, names and runtimes *)

Section Batches.

Lemma last_n_length {A} (n : nat) (l : list A) :
  length (Py.last_n n l) = Nat.min n (length l).
Proof. unfold Py.last_n. rewrite length_skipn. lia. Qed.

Lemma drop_last_n_last_n {A} (n : nat) (l : list A) :
  Py.drop_last_n (length (Py.last_n n l)) l ++ Py.last_n n l = l.
Proof.
  unfold Py.drop_last_n. rewrite last_n_length. unfold Py.last_n.
  replace (length l - Nat.min n (length l))%nat with (length l - n)%nat by lia.
  apply firstn_skipn.
Qed.

Lemma div_step (n : nat) :
  (100 <= n)%nat -> S ((n - 100 + 99) / 100) = ((n + 99) / 100)%nat.
Proof.
  intros Hn.
  assert (E : (n + 99 = (n - 100 + 99) + 1 * 100)%nat) by lia.
  rewrite E at 1. rewrite Nat.div_add by lia. lia.
Qed.

Lemma div_small_step (n : nat) :
  (0 < n)%nat -> (n < 100)%nat -> 1%nat = ((n + 99) / 100)%nat.
Proof.
  intros H0 Hn.
  assert (E : (n + 99 = (n - 1) + 1 * 100)%nat) by lia.
  rewrite E. rewrite Nat.div_add by lia. rewrite Nat.div_small by lia. reflexivity.
Qed.

Lemma batches_of_cover (fuel : nat) :
  forall to_check : list string,
    (length to_check <= fuel)%nat ->
    concat (rev (batches_of fuel to_check)) = to_check /\
    Forall (fun batch => (0 < length batch <= MAX_POLL_COUNT)%nat)
           (batches_of fuel to_check) /\
    length (batches_of fuel to_check) = ((length to_check + 99) / 100)%nat.
Proof.
  induction fuel as [|fuel IH]; intros to_check Hlen.
  - destruct to_check; [|simpl in Hlen; lia]. simpl. auto.
  - destruct to_check as [|a rest]; [simpl; auto|].
    cbn [batches_of].
    assert (Hl : (0 < length (a :: rest))%nat) by (simpl; lia).
    remember (a :: rest) as l eqn:El.
    pose proof (last_n_length MAX_POLL_COUNT l) as Hb.
    pose proof (drop_last_n_last_n MAX_POLL_COUNT l) as Hsplit.
    remember (Py.last_n MAX_POLL_COUNT l) as batch eqn:Eb.
    assert (Hrest : length (Py.drop_last_n (length batch) l) = (length l - length batch)%nat).
    { unfold Py.drop_last_n. rewrite length_firstn. lia. }
    destruct (IH (Py.drop_last_n (length batch) l)) as (Hcat & Hall & Hcount).
    { rewrite Hrest. unfold MAX_POLL_COUNT in Hb. simpl in Hlen. lia. }
    split; [|split].
    + simpl. rewrite concat_app, Hcat. simpl. rewrite app_nil_r.
      exact Hsplit.
    + constructor; [|exact Hall]. unfold MAX_POLL_COUNT in *. lia.
    + cbn [length]. rewrite Hcount, Hrest, Hb. unfold MAX_POLL_COUNT.
      destruct (Nat.le_gt_cases 100 (length l)) as [Hbig|Hsmall].
      * rewrite Nat.min_l by lia. now apply div_step.
      * rewrite Nat.min_r by lia.
        replace (length l - length l + 99)%nat with 99%nat by lia.
        rewrite <- (div_small_step (length l)) by lia. reflexivity.
Qed.

(** The batches [_describe_jobs_in_batches] asks for hold every registered
    handle once: put back in the order of the registry they are its keys;
    no batch is empty or longer than [MAX_POLL_COUNT]; and there are as few
    of them as that allows. *)
Theorem describe_batches_cover (b : AWSBatchBatchSystem) :
  concat (rev (describe_batches b)) = Dict.keys (aws_id_to_bs_id b) /\
  Forall (fun batch => (0 < length batch <= 100)%nat) (describe_batches b) /\
  length (describe_batches b) = ((length (aws_id_to_bs_id b) + 99) / 100)%nat.
Proof.
  unfold describe_batches.
  destruct (batches_of_cover _ (Dict.keys (aws_id_to_bs_id b)) (le_n _))
    as (Hcat & Hall & Hcount).
  split; [exact Hcat|]. split; [exact Hall|].
  rewrite Hcount. unfold Dict.keys. now rewrite length_map.
Qed.

End Batches.

Section SafeNames.

Lemma replace_allowed_no_space (s : string) :
  Forall (fun c => NameSpec.allowed c = true) (Py.chars s) ->
  Py.replace " " "-" s = s.
Proof.
  induction s as [|c s IH]; simpl; auto.
  intros Hall. inversion Hall as [|c' l Hc Hrest]; subst.
  rewrite IH by exact Hrest.
  destruct (Ascii.eqb c " ") eqn:Hsp; auto.
  apply Ascii.eqb_eq in Hsp. subst. discriminate Hc.
Qed.

Lemma filter_allowed (l : list ascii) :
  Forall (fun c => NameSpec.allowed c = true) l ->
  List.filter NameSpec.allowed l = l.
Proof.
  induction 1 as [|c l Hc Hl IH]; simpl; auto. now rewrite Hc, IH.
Qed.

Lemma firstn_short {A} (n : nat) (l : list A) : (length l <= n)%nat -> firstn n l = l.
Proof. apply firstn_all2. Qed.

(** A name that is safe already is handed on as it is. *)
Lemma ensafen_name_safe (s : string) : safe_name s -> _ensafen_name s = s.
Proof.
  intros (Hall & (c & rest & -> & Hc) & Hlen).
  unfold _ensafen_name. rewrite replace_allowed_no_space by exact Hall.
  set (kept := List.filter _ _).
  assert (Hkept : kept = Py.chars (String c rest)) by (apply filter_allowed, Hall).
  rewrite Hkept. clear kept Hkept.
  change (Py.chars (String c rest)) with (c :: Py.chars rest).
  cbn [length Nat.eqb orb negb]. rewrite Hc. cbn [negb].
  change (c :: Py.chars rest) with (Py.chars (String c rest)).
  rewrite firstn_short.
  - apply join_chars.
  - rewrite <- length_join, join_chars. exact Hlen.
Qed.

Lemma ensafen_name_is_safe (s : string) : safe_name (_ensafen_name s).
Proof.
  unfold _ensafen_name.
  set (kept := List.filter _ (Py.chars (Py.replace " " "-" s))).
  assert (Hkept : Forall (fun c => NameSpec.allowed c = true) kept).
  { apply List.Forall_forall. intros c Hin. unfold kept in Hin.
    apply filter_In in Hin. exact (proj2 Hin). }
  set (chosen := if (_ || _)%bool then _ :: kept else kept).
  assert (Hchosen : Forall (fun c => NameSpec.allowed c = true) chosen /\
                    exists c rest, chosen = c :: rest /\ Py.isalnum c = true).
  { unfold chosen. destruct kept as [|c kept']; simpl.
    - split; [repeat constructor|]. exists "j"%char, []. auto.
    - destruct (Py.isalnum c) eqn:Hc; simpl.
      + split; [exact Hkept|]. exists c, kept'. auto.
      + split; [constructor; [reflexivity|exact Hkept]|].
        exists "j"%char, (c :: kept'). auto. }
  destruct Hchosen as (Hall & c & rest & Heq & Hc).
  split; [|split].
  - rewrite chars_join. now apply Forall_take.
  - rewrite Heq. simpl. exists c, (Py.join (firstn 127 rest)). auto.
  - rewrite length_join. apply firstn_le_length.
Qed.

(** [_ensafen_name] keeps only characters AWS Batch accepts and changes
    nothing in a name that is safe already; so sanitizing twice is
    sanitizing once. *)
Theorem ensafen_name_idempotent (input_name : string) :
  Forall (fun c => Py.isalnum c || Ascii.eqb c "-" || Ascii.eqb c "_" = true)
         (Py.chars (_ensafen_name input_name)) /\
  _ensafen_name (_ensafen_name input_name) = _ensafen_name input_name.
Proof.
  pose proof (ensafen_name_is_safe input_name) as Hsafe.
  split; [exact (proj1 Hsafe)|]. now apply ensafen_name_safe.
Qed.

End SafeNames.

(** ** Submitting: what [issueBatchJob] does, outcome by outcome *)

Section Hoare.
Context {W : Type} `{Backend W}.
Context (R : relation (state W)) `{!PreOrder R}.

(** Sequencing, when the continuation relies on what the first part
    established on its return. *)
Lemma respects_bind_ret {A B} (m : M W A) (k : A -> M W B)
    (Q : A -> state W -> Prop) :
  respects R m ->
  (forall s a s', m s = (Ret a, s') -> Q a s') ->
  (forall a s, Q a s -> R s (snd (k a s))) ->
  respects R (bind m k).
Proof.
  intros Hm HQ Hk s. unfold bind. specialize (Hm s). specialize (HQ s).
  destruct (m s) as [[a|e|] s']; simpl in *; auto.
  etransitivity; [exact Hm|]. apply Hk. eapply HQ. reflexivity.
Qed.

Lemma respects_bind_self {B} (k : AWSBatchBatchSystem -> M W B) :
  (forall s, R s (snd (k (self s) s))) -> respects R (bind get_self k).
Proof. intros Hk s. unfold bind, get_self. apply Hk. Qed.

Lemma respects_for_in {A} (l : list A) (body : A -> M W unit) :
  (forall x, In x l -> respects R (body x)) -> respects R (for_ l body).
Proof.
  induction l as [|x l IH]; intros Hb; simpl.
  - apply respects_ret; apply _.
  - apply respects_bind; try apply _.
    + apply Hb. now left.
    + intros _. apply IH. intros y Hy. apply Hb. now right.
Qed.

End Hoare.

Section IssueRun.
Context {W : Type} `{Backend W}.

Lemma retry_with_returned {A} (intervals : list Q) (f : M W A)
    (P : A -> state W -> Prop) :
  (forall s a s', f s = (Ret a, s') -> P a s') ->
  forall s a s', retry_with intervals f s = (Ret a, s') -> P a s'.
Proof.
  intros Hf. induction intervals as [|d rest IH]; intros s a s'; simpl.
  - destruct (f s) as [[a1|e|] s1] eqn:Hfs.
    + intros [= <- <-]. eauto.
    + destruct e; discriminate.
    + discriminate.
  - destruct (f s) as [[a1|e|] s1] eqn:Hfs.
    + intros [= <- <-]. eauto.
    + destruct e; try discriminate. unfold bind, sleep. apply IH.
    + discriminate.
Qed.

(** The definition [_get_or_create_job_definition] returns is the one the
    instance holds from then on. *)
Lemma get_or_create_job_definition_returns (s s' : state W) (arn : string) :
  _get_or_create_job_definition s = (Ret arn, s') ->
  job_definition (self s') = Some arn.
Proof.
  unfold _get_or_create_job_definition, retry.
  apply (retry_with_returned _ _ (fun arn s' => job_definition (self s') = Some arn)).
  clear s s' arn. intros s arn s'. unfold bind at 1. unfold get_self at 1.
  destruct (job_definition (self s)) as [arn0|] eqn:Hdef.
  - intros [= <- <-]. exact Hdef.
  - unfold bind at 1.
    destruct (call _ s) as [[name|e|] s1]; try discriminate.
    unfold bind at 1. unfold client_call at 1.
    destruct (client_register_job_definition _ (world s1)) as [[e|arn1] w2];
      [discriminate|].
    unfold bind, modify_self, ret. intros [= <- <-]. reflexivity.
Qed.

Global Instance keeps_settings_preorder : PreOrder (@keeps_settings W).
Proof.
  split.
  - intros s. reflexivity.
  - intros s1 s2 s3 H12 H23. unfold keeps_settings in *. congruence.
Qed.

Lemma keeps_settings_get_or_create :
  respects (@keeps_settings W) _get_or_create_job_definition.
Proof.
  unfold _get_or_create_job_definition. apply respects_retry; try apply _.
  - intros d s. reflexivity.
  - apply respects_bind; try apply _; [apply respects_get_self; apply _|].
    intros b. destruct (job_definition b); [apply respects_ret; apply _|].
    apply respects_bind; try apply _.
    { intros s. unfold call, keeps_settings.
      destruct (uuid4 (world s)) as [u w']. reflexivity. }
    intros name. apply respects_bind; try apply _.
    { intros s. unfold client_call, keeps_settings.
      destruct (client_register_job_definition _ (world s)) as [[e|a] w]; reflexivity. }
    intros arn. apply respects_bind; try apply _.
    + intros s. reflexivity.
    + intros _. apply respects_ret; apply _.
Qed.

(** What one call of [issueBatchJob] did, by its outcome. *)
Lemma issueBatchJob_run (job_desc : JobDescription)
    (job_environment : option (list (string * string)))
    (s : state W) (o : outcome Z) (s' : state W) :
  issueBatchJob job_desc job_environment s = (o, s') ->
  settings (self s') = settings (self s) /\
  match o with
  | Ret id =>
      (fst (handleLocalJob job_desc (world s)) = inr (Some id) /\
       self s' = self s /\ trace s' = trace s)
      \/
      (fst (handleLocalJob job_desc (world s)) = inr None /\
       id = jobIndex (self s) /\
       exists aws_id spec t,
         bs_id_to_aws_id (self s') = Dict.set id aws_id (bs_id_to_aws_id (self s)) /\
         aws_id_to_bs_id (self s') = Dict.set aws_id id (aws_id_to_bs_id (self s)) /\
         jobIndex (self s') = (id + 1)%Z /\
         trace s' = trace s ++ t ++ [EvSubmit spec (inr aws_id); EvRecorded aws_id id] /\
         Forall quiet t /\
         payload_of (self s) job_desc job_environment spec /\
         job_definition (self s') = Some (jobDefinition spec))
  | Raise _ | OutOfFuel =>
      bs_id_to_aws_id (self s') = bs_id_to_aws_id (self s) /\
      aws_id_to_bs_id (self s') = aws_id_to_bs_id (self s) /\
      exists t, trace s' = trace s ++ t /\ Forall quiet_or_submit t
  end.
Proof.
  unfold issueBatchJob.
  unfold bind at 1.
  pose proof (frame_call (handleLocalJob job_desc) s) as F1.
  assert (L1 : self (snd (call (handleLocalJob job_desc) s)) = self s /\
               trace (snd (call (handleLocalJob job_desc) s)) = trace s /\
               match fst (call (handleLocalJob job_desc) s) with
               | Ret r => fst (handleLocalJob job_desc (world s)) = inr r
               | _ => True
               end).
  { unfold call. destruct (handleLocalJob job_desc (world s)) as [[e|r] w1]; simpl; auto. }
  destruct (call (handleLocalJob job_desc) s) as [[[local_id|]|e|] s1];
    simpl in F1, L1; destruct L1 as (Hself1 & Htrace1 & Hlocal).
  1: { intros [= <- <-]. split; [now rewrite Hself1|]. left. auto. }
  2,3: (intros [= <- <-]; rewrite Hself1; split; [reflexivity|];
        split; [reflexivity|]; split; [reflexivity|];
        exists []; rewrite app_nil_r; auto).
  unfold bind at 1.
  pose proof (frame_call (checkResourceRequest (memory job_desc) (cores job_desc)
                                               (disk job_desc)) s1) as F2.
  assert (L2 : self (snd (call (checkResourceRequest (memory job_desc) (cores job_desc)
                                  (disk job_desc)) s1)) = self s1 /\
               trace (snd (call (checkResourceRequest (memory job_desc) (cores job_desc)
                                  (disk job_desc)) s1)) = trace s1).
  { unfold call. destruct (checkResourceRequest _ _ _ (world s1)) as [[e|r] w1]; simpl; auto. }
  destruct (call _ s1) as [[[]|e|] s2]; simpl in F2, L2; destruct L2 as (Hself2 & Htrace2).
  2,3: (intros [= <- <-]; rewrite Hself2, Hself1; split; [reflexivity|];
        split; [reflexivity|]; split; [reflexivity|];
        exists []; rewrite app_nil_r, Htrace2, Htrace1; auto).
  unfold bind at 1. unfold getNextJobID at 1. unfold bind at 1. unfold get_self at 1.
  unfold bind at 1. unfold put_self at 1. unfold ret at 1.
  unfold bind at 1. unfold get_self at 1. cbn [self with_jobIndex settings].
  set (s3 := {| world := world s2;
                self := with_jobIndex (jobIndex (self s2) + 1) (self s2);
                trace := trace s2 |}).
  unfold bind at 1.
  pose proof (frame_get_or_create_job_definition s3) as F3.
  pose proof (keeps_settings_get_or_create s3) as K3.
  pose proof (get_or_create_job_definition_returns s3) as D3.
  destruct (_get_or_create_job_definition s3) as [[definition|e|] s4]; simpl in F3, K3;
    destruct F3 as (Hb3 & Ha3 & Hi3 & Hk3 & t3 & Ht3 & Hq3); simpl in *;
    unfold keeps_settings in K3; simpl in K3.
  2,3: (intros [= <- <-]; rewrite K3, Hb3, Ha3, Ht3, Hself2, Hself1, Htrace2, Htrace1;
        split; [reflexivity|]; split; [reflexivity|]; split; [reflexivity|];
        exists t3; split; [reflexivity|]; now apply quiet_quiet_or_submit).
  specialize (D3 s4 definition eq_refl).
  unfold bind at 1. unfold client_call at 1.
  match goal with |- context [client_submit_job ?sp (world s4)] => set (spec := sp) end.
  destruct (client_submit_job spec (world s4)) as [[e|aws_id] w5].
  - intros [= <- <-]. simpl. rewrite K3, Hb3, Ha3, Ht3, Hself2, Hself1, Htrace2, Htrace1.
    split; [reflexivity|]. split; [reflexivity|]. split; [reflexivity|].
    exists (t3 ++ [EvSubmit spec (inl e)]). rewrite app_assoc. split; [reflexivity|].
    apply Forall_app. split; [now apply quiet_quiet_or_submit|repeat constructor].
  - unfold bind, modify_self, log, ret. intros [= <- <-]. simpl.
    rewrite K3, Hb3, Ha3, Hi3, Ht3, Hself2, Hself1, Htrace2, Htrace1.
    split; [reflexivity|]. right. split; [exact Hlocal|]. split; [reflexivity|].
    exists aws_id, spec, t3.
    split; [reflexivity|]. split; [reflexivity|]. split; [reflexivity|].
    split; [now rewrite <- !app_assoc|]. split; [exact Hq3|].
    split; [|exact D3].
    unfold payload_of, spec; simpl. rewrite Hself2, Hself1.
    split; [reflexivity|]. split; [reflexivity|]. split; [reflexivity|].
    split; [destruct job_environment as [[|kv more]|]; reflexivity|].
    split; [reflexivity|].
    destruct (owner_tag (settings (self s))) as [[|c tag]|]; reflexivity.
Qed.

End IssueRun.

Section DictUpdate.
Context {K V : Type} `{EqDecision K}.

Lemma get_app (k : K) (d1 d2 : list (K * V)) :
  Dict.get k (d1 ++ d2) =
  match Dict.get k d1 with Some v => Some v | None => Dict.get k d2 end.
Proof.
  induction d1 as [|[k' v'] d1 IH]; simpl; auto.
  destruct (decide (k = k')); auto.
Qed.

Lemma keys_rev (d : list (K * V)) : Dict.keys (rev d) = rev (Dict.keys d).
Proof. unfold Dict.keys. now rewrite map_rev. Qed.

(** In a dictionary, the order of the items does not matter to a lookup. *)
Lemma get_rev (k : K) (d : list (K * V)) :
  List.NoDup (Dict.keys d) -> Dict.get k (rev d) = Dict.get k d.
Proof.
  intros Hnd.
  assert (Hnd' : List.NoDup (Dict.keys (rev d))).
  { rewrite keys_rev. now apply List.NoDup_rev. }
  destruct (Dict.get k d) as [v|] eqn:Hg.
  - apply DictFacts.In_get_NoDup; auto.
    apply in_rev. rewrite rev_involutive. now apply DictFacts.get_Some_In.
  - apply DictFacts.get_None_keys. apply DictFacts.get_None_keys in Hg.
    rewrite keys_rev. intros Hin. apply Hg. now apply in_rev.
Qed.

(** [d.update(other)]: the last item of [other] for a key wins over the
    earlier ones and over [d]. *)
Lemma get_update (k : K) (other d : list (K * V)) :
  Dict.get k (Dict.update other d) =
  match Dict.get k (rev other) with
  | Some v => Some v
  | None => Dict.get k d
  end.
Proof.
  unfold Dict.update. revert d. induction other as [|[k0 v0] other IH]; intros d; simpl; auto.
  rewrite IH, get_app. destruct (Dict.get k (rev other)); auto. simpl.
  destruct (decide (k = k0)) as [->|Hne].
  - apply DictFacts.get_set_eq.
  - apply DictFacts.get_set_ne. auto.
Qed.

End DictUpdate.

Section IssueOutcomes.
Context {W : Type} `{Backend W}.

(** A call of [issueBatchJob] that raises has registered nothing: both maps
    are what they were and no pair was recorded, so the ids
    [getIssuedBatchJobIDs] lists afterwards are those of the local delegate
    followed by the remote ids held before the call; the settings are
    untouched. *)
Theorem issue_failure_registers_nothing (job_desc : JobDescription)
    (job_environment : option (list (string * string)))
    (s : state W) (e : exn) (s' : state W) :
  issueBatchJob job_desc job_environment s = (Raise e, s') ->
  bs_id_to_aws_id (self s') = bs_id_to_aws_id (self s) /\
  aws_id_to_bs_id (self s') = aws_id_to_bs_id (self s) /\
  getIssuedBatchJobIDs s' =
    getIssuedLocalJobIDs (world s') ++ Dict.keys (bs_id_to_aws_id (self s)) /\
  recorded (new_events s s') = [] /\
  settings (self s') = settings (self s).
Proof.
  intros Hrun. apply issueBatchJob_run in Hrun as (Hset & Hb & Ha & t & Ht & Hq).
  split; [exact Hb|]. split; [exact Ha|].
  split; [unfold getIssuedBatchJobIDs; now rewrite Hb|].
  split; [|exact Hset].
  unfold new_events. rewrite Ht, drop_app_length. now apply recorded_quiet.
Qed.

(** The id [issueBatchJob] returns for a job that goes to AWS Batch, in any
    state the calls of the scheduler reach: it is above every id held for a
    remote job so far, so if [getIssuedBatchJobIDs] listed it before the
    call it was the local delegate that held it; [getIssuedBatchJobIDs]
    lists it from then on, tied both ways to the handle the backend
    returned for the request; that request is the last one of
    the call, it carries the sanitized name, the queue, the executor
    command, the environment of the job, the rounded-up resources and the
    owner tag, and it names the job definition the instance holds. *)
Theorem issue_returns_fresh_id (cfg : Settings) (w : W) (calls : list api_call)
    (job_desc : JobDescription) (job_environment : option (list (string * string)))
    (id : Z) (s' : state W) :
  let s := run calls (init cfg w) in
  issueBatchJob job_desc job_environment s = (Ret id, s') ->
  fst (handleLocalJob job_desc (world s)) = inr None ->
  (forall id', In id' (Dict.keys (bs_id_to_aws_id (self s))) -> (id' < id)%Z) /\
  (In id (getIssuedBatchJobIDs s) -> In id (getIssuedLocalJobIDs (world s))) /\
  In id (getIssuedBatchJobIDs s') /\
  exists aws_id spec t,
    new_events s s' = t ++ [EvSubmit spec (inr aws_id); EvRecorded aws_id id] /\
    Forall quiet t /\
    Dict.get id (bs_id_to_aws_id (self s')) = Some aws_id /\
    Dict.get aws_id (aws_id_to_bs_id (self s')) = Some id /\
    payload_of (self s) job_desc job_environment spec /\
    job_definition (self s') = Some (jobDefinition spec).
Proof.
  intros s Hrun Hremote.
  assert (Hok : registry_ok s).
  { destruct (run_keeps_once calls (init cfg w)) as [Hk _]. apply Hk, registry_ok_init. }
  apply issueBatchJob_run in Hrun as (_ & [(Hlocal & _)|(_ & -> & Hissued)]).
  { rewrite Hremote in Hlocal. discriminate. }
  destruct Hissued as (aws_id & spec & t & Hb & Ha & Hi & Ht & Hq & Hpay & Hdef).
  assert (Hbelow : forall id', In id' (Dict.keys (bs_id_to_aws_id (self s))) ->
                               (id' < jobIndex (self s))%Z).
  { intros id' Hin.
    destruct (Dict.get id' (bs_id_to_aws_id (self s))) as [a|] eqn:Hg.
    - eapply (ok_bound _ Hok); eauto.
    - apply DictFacts.get_None_keys in Hg. contradiction. }
  split; [exact Hbelow|]. split.
  { unfold getIssuedBatchJobIDs. rewrite in_app_iff. intros [Hin|Hin]; auto.
    specialize (Hbelow _ Hin). lia. }
  split.
  { unfold getIssuedBatchJobIDs. rewrite in_app_iff, Hb. right.
    eapply DictFacts.get_Some_keys, DictFacts.get_set_eq. }
  exists aws_id, spec, t.
  split; [unfold new_events; now rewrite Ht, drop_app_length|].
  split; [exact Hq|].
  split; [rewrite Hb; apply DictFacts.get_set_eq|].
  split; [rewrite Ha; apply DictFacts.get_set_eq|].
  split; [exact Hpay|exact Hdef].
Qed.

(** The environment of a submitted job: a variable the job environment
    sets has the value given there, any other variable has the value of the
    batch system's environment, and that environment itself is not changed
    by the call. *)
Theorem job_environment_overrides (job_desc : JobDescription)
    (job_environment : list (string * string)) (s : state W) (id : Z) (s' : state W) :
  List.NoDup (Dict.keys job_environment) ->
  issueBatchJob job_desc (Some job_environment) s = (Ret id, s') ->
  fst (handleLocalJob job_desc (world s)) = inr None ->
  environment (settings (self s')) = environment (settings (self s)) /\
  exists spec aws_id,
    In (EvSubmit spec (inr aws_id)) (new_events s s') /\
    forall name,
      Dict.get name (co_environment spec) =
      match Dict.get name job_environment with
      | Some value => Some value
      | None => Dict.get name (environment (settings (self s)))
      end.
Proof.
  intros Hnd Hrun Hremote.
  apply issueBatchJob_run in Hrun as (Hset & [(Hlocal & _)|(_ & -> & Hissued)]).
  { rewrite Hremote in Hlocal. discriminate. }
  destruct Hissued as (aws_id & spec & t & _ & _ & _ & Ht & _ & Hpay & _).
  split; [now rewrite Hset|].
  exists spec, aws_id. split.
  - unfold new_events. rewrite Ht, drop_app_length, in_app_iff. right. now left.
  - intros name. destruct Hpay as (_ & _ & _ & -> & _).
    unfold job_environment_of. destruct job_environment as [|kv more]; [reflexivity|].
    now rewrite get_update, get_rev.
Qed.

End IssueOutcomes.

(** A submission the backend refuses: nothing is registered. *)
Lemma issue_failure_registers_nothing_witness :
  let w := {| Sim.clock := 0; Sim.jobs := []; Sim.handles := [];
              Sim.describe_cost_ms := 0; Sim.kill_delay := 0;
              Sim.terminate_errors := []; Sim.deregister_error := None |} in
  let s := init Sim.cfg w in
  let s' := snd (issueBatchJob (Sim.sleep_job "first") None s) in
  fst (issueBatchJob (Sim.sleep_job "first") None s) = Raise ClientError /\
  getIssuedBatchJobIDs s' = [] /\
  jobIndex (self s') = 1%Z.
Proof.
  intros w s s'.
  assert (Hrun : issueBatchJob (Sim.sleep_job "first") None s = (Raise ClientError, s')).
  { unfold s'. destruct (issueBatchJob (Sim.sleep_job "first") None s) as [o s1] eqn:Heq.
    assert (Ho : o = Raise ClientError)
      by (replace o with (fst (issueBatchJob (Sim.sleep_job "first") None s))
            by (now rewrite Heq); vm_compute; reflexivity).
    now rewrite Ho. }
  destruct (issue_failure_registers_nothing _ _ _ _ _ Hrun) as (_ & _ & Hissued & _).
  split; [vm_compute; reflexivity|]. split; [exact Hissued|].
  vm_compute. reflexivity.
Defined.

(** The second job issued on the simulated backend gets the id 1. *)
Lemma issue_returns_fresh_id_witness :
  let calls := [IssueBatchJob (Sim.sleep_job "first") None] in
  let s := run calls (init Sim.cfg Sim.two_running) in
  let s' := snd (issueBatchJob (Sim.sleep_job "second") None s) in
  fst (issueBatchJob (Sim.sleep_job "second") None s) = Ret 1%Z /\
  getIssuedBatchJobIDs s = [0%Z] /\
  ~ In 1%Z (getIssuedBatchJobIDs s) /\
  In 1%Z (getIssuedBatchJobIDs s').
Proof.
  intros calls s s'.
  assert (Hrun : issueBatchJob (Sim.sleep_job "second") None s = (Ret 1%Z, s')).
  { unfold s'. destruct (issueBatchJob (Sim.sleep_job "second") None s) as [o s1] eqn:Heq.
    assert (Ho : o = Ret 1%Z)
      by (replace o with (fst (issueBatchJob (Sim.sleep_job "second") None s))
            by (now rewrite Heq); vm_compute; reflexivity).
    now rewrite Ho. }
  destruct (issue_returns_fresh_id Sim.cfg Sim.two_running calls _ _ _ _ Hrun)
    as (_ & Hnew & Hin & _); [vm_compute; reflexivity|].
  split; [vm_compute; reflexivity|]. split; [vm_compute; reflexivity|].
  split; [|exact Hin].
  intros Hold. destruct (Hnew Hold).
Defined.

(** A job environment that sets FOO, over a batch system environment that
    sets FOO and BAR. *)
Lemma job_environment_overrides_witness :
  let cfg := {| queue := "queue"; job_role_arn := None; owner_tag := None;
                worker_work_dir := "/var/lib/toil";
                docker_image := "quay.io/ucsc_cgl/toil";
                defaultMemory := 2147483648; defaultCores := 1;
                environment := [("FOO", "old"); ("BAR", "kept")];
                user_script := None |} in
  let s := init cfg Sim.two_running in
  let s' := snd (issueBatchJob (Sim.sleep_job "first") (Some [("FOO", "bar")]) s) in
  exists spec aws_id,
    In (EvSubmit spec (inr aws_id)) (new_events s s') /\
    Dict.get "FOO" (co_environment spec) = Some "bar" /\
    Dict.get "BAR" (co_environment spec) = Some "kept".
Proof.
  intros cfg s s'.
  assert (Hrun : issueBatchJob (Sim.sleep_job "first") (Some [("FOO", "bar")]) s
                 = (Ret 0%Z, s')).
  { unfold s'.
    destruct (issueBatchJob (Sim.sleep_job "first") (Some [("FOO", "bar")]) s)
      as [o s1] eqn:Heq.
    assert (Ho : o = Ret 0%Z)
      by (replace o with
            (fst (issueBatchJob (Sim.sleep_job "first") (Some [("FOO", "bar")]) s))
            by (now rewrite Heq); vm_compute; reflexivity).
    now rewrite Ho. }
  destruct (job_environment_overrides (Sim.sleep_job "first") [("FOO", "bar")] s 0%Z s')
    as (_ & spec & aws_id & Hin & Hget).
  - repeat constructor. simpl. tauto.
  - exact Hrun.
  - vm_compute. reflexivity.
  - exists spec, aws_id. split; [exact Hin|]. split.
    + rewrite Hget. reflexivity.
    + rewrite Hget. reflexivity.
Defined.

(** ** What each method may add to the trace *)

Section Vocabulary.
Context {W : Type} `{Backend W}.
Context (P : event -> Prop).

Lemma adds_client_call {A} (f : W -> (exn + A) * W) (ev : exn + A -> event) :
  (forall r, P (ev r)) -> respects (@adds W P) (client_call f ev).
Proof.
  intros HP s. unfold client_call.
  destruct (f (world s)) as [[e|a] w]; simpl;
    (eexists; split; [reflexivity|]; repeat constructor; apply HP).
Qed.

Lemma adds_log (e : event) : P e -> respects (@adds W P) (log e).
Proof. intros HP s. eexists. simpl. split; [reflexivity|]. repeat constructor. exact HP. Qed.

Lemma adds_modify_self f : respects (@adds W P) (modify_self f).
Proof. apply adds_same_trace. reflexivity. Qed.

Lemma adds_put_self b : respects (@adds W P) (put_self b).
Proof. apply adds_same_trace. reflexivity. Qed.

Lemma adds_retry {A} (f : M W A) :
  (forall now d, P (EvSleep now d)) ->
  respects (@adds W P) f -> respects (@adds W P) (retry f).
Proof. intros Hs Hf. apply adds_retry_with; auto. Qed.

Lemma adds_try_terminate_only (aws_id : string) :
  (forall r, P (EvTerminate aws_id r)) ->
  (forall now d, P (EvSleep now d)) ->
  respects (@adds W P) (_try_terminate aws_id).
Proof.
  intros Ht Hs. unfold _try_terminate. apply adds_retry; auto.
  apply respects_bind; try apply _; [apply adds_modify_self|].
  intros _. now apply adds_client_call.
Qed.

Lemma adds_wait_loop_only (fuel : nat) (aws_id : string) :
  (forall r, P (EvDescribe [aws_id] r)) ->
  (forall now d, P (EvSleep now d)) ->
  respects (@adds W P) (wait_loop fuel aws_id).
Proof.
  intros Hd Hs. induction fuel as [|fuel IH]; simpl.
  - apply respects_out_of_fuel; apply _.
  - apply respects_bind; try apply _; [now apply adds_client_call|].
    intros [|job jobs]; [apply respects_ret; apply _|].
    destruct (truthy_str (status job) && status_in job ["SUCCEEDED"; "FAILED"]);
      [apply respects_ret; apply _|].
    apply respects_bind; try apply _; auto. apply adds_sleep. auto.
Qed.

Lemma adds_wait_until_stopped_only (fuel : nat) (aws_id : string) :
  (forall r, P (EvDescribe [aws_id] r)) ->
  (forall now d, P (EvSleep now d)) ->
  respects (@adds W P) (_wait_until_stopped fuel aws_id).
Proof.
  intros Hd Hs. unfold _wait_until_stopped. apply adds_retry; auto.
  now apply adds_wait_loop_only.
Qed.

Lemma adds_running_details_only (details : list JobDetail) :
  (forall bs jd, P (EvWarning bs jd)) ->
  forall acc, respects (@adds W P) (running_details details acc).
Proof.
  intros Hw. induction details as [|jd rest IH]; intros acc; cbn [running_details].
  - apply respects_ret; apply _.
  - destruct (bool_decide (status jd = Some "RUNNING")); auto.
    apply respects_bind; try apply _; [apply respects_get_world; apply _|intros now].
    apply respects_bind; try apply _; [apply respects_get_self; apply _|intros b].
    destruct (Dict.get (jobId jd) (aws_id_to_bs_id b)); [|apply respects_raise; apply _].
    destruct (_get_runtime now jd) as [r|].
    + destruct (truthy_float (Some r)); auto.
      apply respects_bind; try apply _; auto. now apply adds_log.
    + apply respects_bind; try apply _; auto. now apply adds_log.
Qed.

Lemma adds_running_batches_only (batches : list (list string)) :
  (forall cb r, In cb batches -> P (EvDescribe cb r)) ->
  (forall bs jd, P (EvWarning bs jd)) ->
  forall acc, respects (@adds W P) (running_batches batches acc).
Proof.
  intros Hd Hw. induction batches as [|cb rest IH]; intros acc; cbn [running_batches].
  - apply respects_ret; apply _.
  - apply respects_bind; try apply _.
    + apply adds_client_call. intros r. apply Hd. now left.
    + intros details. apply respects_bind; try apply _.
      * now apply adds_running_details_only.
      * intros acc'. apply IH. intros cb' r Hin. apply Hd. now right.
Qed.

Lemma adds_poll_batches_only (batches : list (list string)) :
  (forall cb r, In cb batches -> P (EvDescribe cb r)) ->
  forall acks (s : state W), adds P s (snd (poll_batches batches acks s)).
Proof.
  intros Hd. induction batches as [|cb rest IH]; intros acks s; cbn [poll_batches].
  - reflexivity.
  - pose proof (adds_client_call (client_describe_jobs cb) (EvDescribe cb)
                  (fun r => Hd cb r (or_introl eq_refl)) s) as Hstep.
    destruct (client_call (client_describe_jobs cb) (EvDescribe cb) s)
      as [[details|e|] s1]; simpl in Hstep; auto.
    destruct (reconcile (self s1) (unix_now_ms (world s1)) details acks)
      as [[[r|]|e|] acks1]; simpl; auto.
    etransitivity; [exact Hstep|]. apply IH. intros cb' r' Hin. apply Hd. now right.
Qed.

Lemma adds_poll_remote_only (s : state W) :
  (forall cb r, In cb (describe_batches (self s)) -> P (EvDescribe cb r)) ->
  (forall a b, P (EvDropped a b)) ->
  (forall a info, P (EvUpdated a info)) ->
  adds P s (snd (poll_remote s)).
Proof.
  intros Hd Hdr Hu. unfold poll_remote.
  pose proof (adds_poll_batches_only (describe_batches (self s)) Hd [] s) as H1.
  destruct (poll_batches (describe_batches (self s)) [] s) as [[o acks] s1].
  simpl in H1.
  pose proof (drop_acknowledged_adds P acks Hdr s1) as H2.
  destruct (drop_acknowledged acks s1) as [[[]|e|] s2]; simpl in *;
    try (etransitivity; eassumption).
  destruct o as [[[a info]|]|e|]; simpl; try (etransitivity; eassumption).
  etransitivity; [exact H1|]. etransitivity; [exact H2|].
  eexists. simpl. split; [reflexivity|]. repeat constructor. apply Hu.
Qed.

End Vocabulary.

(** ** The job definition over a run *)

Section Template.
Context {W : Type} `{Backend W}.

Lemma template_run_app (live : option string) (t1 t2 : list event) :
  template_run live (t1 ++ t2) =
  match template_run live t1 with
  | Some live' => template_run live' t2
  | None => None
  end.
Proof.
  revert live. induction t1 as [|e t1 IH]; intros live; simpl; auto.
  destruct e; auto.
  - destruct (bool_decide (live = Some (jobDefinition spec))); auto.
  - destruct live; auto.
  - destruct (bool_decide (live = Some arn)); auto.
Qed.

Lemma template_run_neutral (live : option string) (t : list event) :
  Forall template_neutral t -> template_run live t = Some live.
Proof.
  induction 1 as [|e t He Ht IH]; simpl; auto.
  destruct e; simpl in He; auto; contradiction.
Qed.

Global Instance templated_preorder : PreOrder (@templated W).
Proof.
  split.
  - intros s. exists []. rewrite app_nil_r. auto.
  - intros s1 s2 s3 (t1 & Ht1 & Hr1) (t2 & Ht2 & Hr2).
    exists (t1 ++ t2). split; [rewrite Ht2, Ht1, app_assoc; reflexivity|].
    now rewrite template_run_app, Hr1.
Qed.

Lemma templated_of_neutral (s s' : state W) :
  adds template_neutral s s' ->
  job_definition (self s') = job_definition (self s) ->
  templated s s'.
Proof.
  intros (t & Ht & Hn) Hdef. exists t. split; auto.
  rewrite Hdef. now apply template_run_neutral.
Qed.

Lemma templated_call {A} (f : W -> (exn + A) * W) : respects (@templated W) (call f).
Proof.
  intros s. apply templated_of_neutral; [apply adds_call|].
  unfold call. destruct (f (world s)) as [[e|a] w]; reflexivity.
Qed.

Lemma templated_client_call {A} (f : W -> (exn + A) * W) (ev : exn + A -> event) :
  (forall r, template_neutral (ev r)) -> respects (@templated W) (client_call f ev).
Proof.
  intros Hn s. apply templated_of_neutral; [now apply adds_client_call|].
  unfold client_call. destruct (f (world s)) as [[e|a] w]; reflexivity.
Qed.

Lemma templated_sleep d : respects (@templated W) (sleep d).
Proof.
  intros s. apply templated_of_neutral; [|reflexivity].
  apply adds_sleep. intros now. exact I.
Qed.

Lemma templated_log e : template_neutral e -> respects (@templated W) (log e).
Proof. intros Hn s. apply templated_of_neutral; [now apply adds_log|reflexivity]. Qed.

Lemma templated_modify_self f :
  (forall b, job_definition (f b) = job_definition b) ->
  respects (@templated W) (modify_self f).
Proof.
  intros Hf s. apply templated_of_neutral; [apply adds_modify_self|]. simpl. apply Hf.
Qed.

Ltac templated_step :=
  first
    [ apply respects_ret; apply _
    | apply respects_raise; apply _
    | apply respects_out_of_fuel; apply _
    | apply respects_get_self; apply _
    | apply respects_get_world; apply _
    | apply templated_sleep
    | apply templated_call
    | apply templated_client_call; intros; exact I
    | apply templated_log; exact I
    | apply templated_modify_self; intros; reflexivity ].

Lemma templated_try_terminate aws_id : respects (@templated W) (_try_terminate aws_id).
Proof.
  unfold _try_terminate. apply respects_retry; try apply _; [apply templated_sleep|].
  apply respects_bind; try apply _; [templated_step|intros _; templated_step].
Qed.

Lemma templated_wait_until_stopped fuel aws_id :
  respects (@templated W) (_wait_until_stopped fuel aws_id).
Proof.
  unfold _wait_until_stopped. apply respects_retry; try apply _; [apply templated_sleep|].
  induction fuel as [|fuel IH]; simpl; [templated_step|].
  apply respects_bind; try apply _; [templated_step|].
  intros [|job jobs]; [templated_step|].
  destruct (truthy_str (status job) && status_in job ["SUCCEEDED"; "FAILED"]);
    [templated_step|].
  apply respects_bind; try apply _; [templated_step|auto].
Qed.

Lemma templated_killBatchJobs fuel job_ids :
  respects (@templated W) (killBatchJobs fuel job_ids).
Proof.
  unfold killBatchJobs.
  apply respects_bind; try apply _; [templated_step|intros _].
  apply respects_bind; try apply _.
  - apply respects_for; try apply _. intros bs.
    apply respects_bind; try apply _; [templated_step|intros b].
    destruct (Dict.get bs (bs_id_to_aws_id b)); [apply templated_try_terminate|templated_step].
  - intros _. apply respects_for; try apply _. intros bs.
    apply respects_bind; try apply _; [templated_step|intros b].
    destruct (Dict.get bs (bs_id_to_aws_id b));
      [apply templated_wait_until_stopped|templated_step].
Qed.

Lemma templated_getRunningBatchJobIDs : respects (@templated W) getRunningBatchJobIDs.
Proof.
  intros s. apply templated_of_neutral.
  - unfold getRunningBatchJobIDs, bind, get_self.
    apply adds_running_batches_only; intros; exact I.
  - pose proof (frame_getRunningBatchJobIDs s) as Hf.
    pose proof (respects_bind (@keeps_definition W) get_self
                  (fun b => running_batches (describe_batches b) [])) as Hk.
    apply Hk; [apply respects_get_self; apply _|].
    intros b. generalize (@nil (Z * Q)).
    induction (describe_batches b) as [|cb rest IH]; intros acc; cbn [running_batches].
    + apply respects_ret; apply _.
    + apply respects_bind; try apply _.
      * intros s0. unfold client_call, keeps_definition.
        destruct (client_describe_jobs cb (world s0)) as [[e|a] w]; reflexivity.
      * intros details. apply respects_bind; try apply _; [|intros acc'; apply IH].
        clear. revert acc. induction details as [|jd rest IH]; intros acc;
          cbn [running_details]; [apply respects_ret; apply _|].
        destruct (bool_decide (status jd = Some "RUNNING")); auto.
        apply respects_bind; try apply _; [apply respects_get_world; apply _|intros now].
        apply respects_bind; try apply _; [apply respects_get_self; apply _|intros b].
        destruct (Dict.get (jobId jd) (aws_id_to_bs_id b)); [|apply respects_raise; apply _].
        destruct (_get_runtime now jd) as [r|].
        -- destruct (truthy_float (Some r)); auto.
           apply respects_bind; try apply _; auto. intros s0. reflexivity.
        -- apply respects_bind; try apply _; auto. intros s0. reflexivity.
Qed.

Lemma drop_acknowledged_keeps_definition acks :
  respects (@keeps_definition W) (drop_acknowledged acks).
Proof.
  induction acks as [|[a b] acks IH]; simpl.
  - apply respects_ret; apply _.
  - apply respects_bind_self; try apply _. intros s.
    destruct (Dict.del a (aws_id_to_bs_id (self s))) as [d|]; [|reflexivity].
    unfold bind at 1. unfold put_self at 1.
    set (s1 := {| world := world s; self := with_aws_id_to_bs_id d (self s);
                  trace := trace s |}).
    assert (H1 : keeps_definition s s1) by reflexivity.
    etransitivity; [exact H1|]. clearbody s1. clear H1 s d.
    unfold bind at 1. unfold get_self at 1.
    destruct (Dict.del b (bs_id_to_aws_id (self s1))) as [d|]; [|reflexivity].
    unfold bind at 1. unfold put_self at 1.
    set (s2 := {| world := world s1; self := with_bs_id_to_aws_id d (self s1);
                  trace := trace s1 |}).
    assert (H2 : keeps_definition s1 s2) by reflexivity.
    etransitivity; [exact H2|]. clearbody s2. clear H2 s1 d.
    unfold bind at 1. unfold get_self at 1.
    assert (Hrest : respects (@keeps_definition W)
                      (log (EvDropped a b) ;;; drop_acknowledged acks)).
    { apply respects_bind; try apply _; [intros s0; reflexivity|intros _; exact IH]. }
    destruct (bool_decide (a ∈ killed_job_aws_ids (self s2))).
    + unfold bind at 1. unfold put_self at 1.
      etransitivity; [|apply Hrest]. reflexivity.
    + unfold bind at 1. unfold ret at 1. apply Hrest.
Qed.

Lemma templated_poll_remote : respects (@templated W) poll_remote.
Proof.
  intros s. apply templated_of_neutral.
  - apply adds_poll_remote_only; intros; exact I.
  - unfold poll_remote.
    destruct (poll_batches (describe_batches (self s)) [] s) as [[o acks] s1] eqn:Hpb.
    apply poll_batches_spec in Hpb as (Hself & _).
    pose proof (drop_acknowledged_keeps_definition acks s1) as Hk.
    unfold keeps_definition in Hk. rewrite Hself in Hk.
    destruct (drop_acknowledged acks s1) as [[[]|e|] s2]; simpl in *; auto.
    destruct o as [[[a info]|]|e|]; simpl; auto.
Qed.

Lemma templated_getUpdatedBatchJob fuel maxWait :
  respects (@templated W) (getUpdatedBatchJob fuel maxWait).
Proof.
  unfold getUpdatedBatchJob.
  apply respects_bind; try apply _; [templated_step|intros entry].
  induction fuel as [|fuel IH]; simpl; [templated_step|].
  apply respects_bind; try apply _; [templated_step|intros now].
  destruct (Qlt_bool (now - entry) (inject_Z maxWait) || (maxWait =? 0)%Z);
    [|templated_step].
  apply respects_bind; try apply _; [templated_step|].
  intros [result|]; [templated_step|].
  apply respects_bind; try apply _; [apply templated_poll_remote|].
  intros [info|]; [templated_step|].
  destruct (negb (maxWait =? 0)%Z); [|templated_step].
  apply respects_bind; try apply _; [templated_step|auto].
Qed.

(** One attempt of the teardown, as a whole. *)
Lemma templated_destroy_job_definition :
  respects (@templated W) _destroy_job_definition.
Proof.
  unfold _destroy_job_definition.
  apply respects_retry; try apply _; [apply templated_sleep|].
  apply respects_bind_self; try apply _. intros s.
  destruct (job_definition (self s)) as [arn|] eqn:Hdef; [|reflexivity].
  unfold bind, client_call, modify_self.
  destruct (client_deregister_job_definition arn (world s)) as [[e|[]] w]; simpl.
  - exists [EvDeregister arn (inl e)]. simpl. rewrite Hdef.
    rewrite bool_decide_eq_true_2 by reflexivity. auto.
  - exists [EvDeregister arn (inr tt)]. simpl. rewrite Hdef.
    rewrite bool_decide_eq_true_2 by reflexivity. auto.
Qed.

(** One attempt of the lazy creation, as a whole. *)
Lemma templated_get_or_create_job_definition :
  respects (@templated W) _get_or_create_job_definition.
Proof.
  unfold _get_or_create_job_definition.
  apply respects_retry; try apply _; [apply templated_sleep|].
  apply respects_bind_self; try apply _. intros s.
  destruct (job_definition (self s)) as [arn|] eqn:Hdef; [reflexivity|].
  unfold bind at 1.
  pose proof (templated_call (fun w => let (u, w') := uuid4 w in (inr u, w')) s) as Hc.
  assert (Hd1 : job_definition
                  (self (snd (call (fun w => let (u, w') := uuid4 w in (inr u, w')) s)))
                = None).
  { unfold call. destruct (uuid4 (world s)) as [u w']. exact Hdef. }
  destruct (call _ s) as [[name|e|] s1]; simpl in Hc, Hd1; auto.
  etransitivity; [exact Hc|]. clear Hc.
  unfold bind, client_call, modify_self, ret.
  destruct (client_register_job_definition _ (world s1)) as [[e|arn] w]; simpl.
  - eexists. simpl. split; [reflexivity|]. rewrite Hd1. reflexivity.
  - eexists. simpl. split; [reflexivity|]. rewrite Hd1. reflexivity.
Qed.

Lemma templated_shutdown : respects (@templated W) shutdown.
Proof.
  unfold shutdown.
  apply respects_bind; try apply _; [templated_step|intros _].
  apply respects_bind; try apply _; [templated_step|intros b].
  apply respects_bind; try apply _.
  - apply respects_for; try apply _. intros a. apply templated_try_terminate.
  - intros _. apply templated_destroy_job_definition.
Qed.

Lemma templated_issueBatchJob job_desc job_environment :
  respects (@templated W) (issueBatchJob job_desc job_environment).
Proof.
  unfold issueBatchJob.
  apply respects_bind; try apply _; [templated_step|].
  intros [local_id|]; [templated_step|].
  apply respects_bind; try apply _; [templated_step|intros _].
  apply respects_bind; try apply _.
  { unfold getNextJobID. apply respects_bind_self; try apply _. intros s.
    apply templated_of_neutral; [|reflexivity]. exists []. now rewrite app_nil_r. }
  intros bs_id.
  apply respects_bind; try apply _; [templated_step|intros b].
  apply (respects_bind_ret (@templated W) _ _
           (fun definition s => job_definition (self s) = Some definition)).
  - apply templated_get_or_create_job_definition.
  - intros s definition s'. apply get_or_create_job_definition_returns.
  - intros definition s Hdef.
    unfold bind at 1. unfold client_call at 1.
    match goal with |- context [client_submit_job ?sp (world s)] => set (spec := sp) end.
    assert (Hsub : forall r, template_run (job_definition (self s)) [EvSubmit spec r]
                             = Some (job_definition (self s))).
    { intros r. simpl. rewrite Hdef. unfold spec. simpl.
      now rewrite bool_decide_eq_true_2 by reflexivity. }
    destruct (client_submit_job spec (world s)) as [[e|aws_id] w]; simpl.
    + eexists. split; [reflexivity|]. apply Hsub.
    + eexists. simpl. split; [rewrite <- app_assoc; reflexivity|].
      rewrite (template_run_app _ [EvSubmit spec (inr aws_id)]), Hsub. reflexivity.
Qed.

Lemma run_templated (calls : list api_call) (s : state W) : templated s (run calls s).
Proof.
  revert s. induction calls as [|c calls IH]; intros s; simpl.
  - reflexivity.
  - etransitivity; [|apply IH]. destruct c; simpl.
    + apply templated_issueBatchJob.
    + apply templated_getUpdatedBatchJob.
    + apply templated_getRunningBatchJobIDs.
    + apply templated_killBatchJobs.
    + apply templated_shutdown.
Qed.

(** Whatever the scheduler calls and whatever the backend answers, the job
    definition is used well: a definition is registered only while none is
    live, every submission names the live definition, only the live
    definition is deregistered, and the definition the instance records is
    the live one: the last one registered, if it was not deregistered
    since. *)
Theorem job_definition_is_the_live_one (cfg : Settings) (w : W) (calls : list api_call) :
  let s := run calls (init cfg w) in
  template_run None (trace s) = Some (job_definition (self s)).
Proof.
  intros s. destruct (run_templated calls (init cfg w)) as (t & Ht & Hrun).
  fold s in Ht, Hrun. simpl in Ht, Hrun. now rewrite Ht.
Qed.

End Template.

(** ** The requests over a run *)

Section Requests.
Context {W : Type} `{Backend W}.

Lemma asks_within_mono (known known' : string -> Prop) (e : event) :
  (forall a, known a -> known' a) -> asks_within known e -> asks_within known' e.
Proof.
  intros Hsub. destruct e; simpl; auto.
  intros [Hlen Hall]. split; auto.
Qed.

Lemma conducted_mono (t : list event) :
  forall known known' : list string,
    (forall a, In a known -> In a known') -> conducted known t -> conducted known' t.
Proof.
  induction t as [|e t IH]; intros known known' Hsub; simpl; auto.
  intros [He Ht]. split.
  - eapply asks_within_mono; [|exact He]. exact Hsub.
  - eapply IH; [|exact Ht]. intros a. rewrite !in_app_iff. intros [?|?]; auto.
Qed.

Lemma conducted_app (t1 : list event) :
  forall (known : list string) (t2 : list event),
    conducted known (t1 ++ t2) <->
    conducted known t1 /\ conducted (known ++ submitted_handles t1) t2.
Proof.
  induction t1 as [|e t1 IH]; intros known t2.
  - simpl. rewrite app_nil_r. tauto.
  - cbn [conducted app]. rewrite IH.
    replace (known ++ submitted_handles (e :: t1))
      with ((known ++ submitted_handles [e]) ++ submitted_handles t1).
    + tauto.
    + rewrite <- app_assoc. f_equal.
      change (e :: t1) with ([e] ++ t1). now rewrite submitted_handles_app.
Qed.

Lemma conducted_of_asks (known : list string) (t : list event) :
  Forall (asks_within (fun a => In a known)) t -> conducted known t.
Proof.
  intros Hall. revert known Hall. induction t as [|e t IH]; intros known Hall; simpl; auto.
  inversion Hall as [|e' t' He Ht]; subst. split; auto.
  apply IH. eapply List.Forall_impl; [|exact Ht].
  intros e'. apply asks_within_mono. intros a. rewrite in_app_iff. auto.
Qed.

Global Instance within_preorder known : PreOrder (@within W known).
Proof.
  split.
  - intros s Hreg. split; auto. reflexivity.
  - intros s1 s2 s3 H12 H23 Hreg.
    destruct (H12 Hreg) as [Hreg2 Ha12]. destruct (H23 Hreg2) as [Hreg3 Ha23].
    split; auto. etransitivity; eauto.
Qed.

Global Instance shrinks_preorder : PreOrder (@shrinks W).
Proof.
  split.
  - intros s a. auto.
  - intros s1 s2 s3 H12 H23 a Ha. auto.
Qed.

(** A step that leaves both maps alone. *)
Lemma within_same_maps known (s s' : state W) :
  bs_id_to_aws_id (self s') = bs_id_to_aws_id (self s) ->
  aws_id_to_bs_id (self s') = aws_id_to_bs_id (self s) ->
  adds (asks_within known) s s' ->
  within known s s'.
Proof.
  intros Hb Ha Hadds Hreg. split; auto.
  intros a. unfold registered_handle. rewrite Hb, Ha. apply Hreg.
Qed.

Lemma within_call known {A} (f : W -> (exn + A) * W) :
  respects (@within W known) (call f).
Proof.
  intros s. apply within_same_maps; [| |apply adds_call];
    unfold call; destruct (f (world s)) as [[e|a] w]; reflexivity.
Qed.

Lemma within_sleep known d : respects (@within W known) (sleep d).
Proof.
  intros s. apply within_same_maps; try reflexivity.
  apply adds_sleep. intros now. exact I.
Qed.

Lemma within_client_call known {A} (f : W -> (exn + A) * W) (ev : exn + A -> event) :
  (forall r, asks_within known (ev r)) ->
  respects (@within W known) (client_call f ev).
Proof.
  intros Hev s. apply within_same_maps; [| |now apply adds_client_call];
    unfold client_call; destruct (f (world s)) as [[e|a] w]; reflexivity.
Qed.

Lemma within_log known e : asks_within known e -> respects (@within W known) (log e).
Proof. intros He s. apply within_same_maps; try reflexivity. now apply adds_log. Qed.

Lemma within_modify_self known f :
  (forall b, bs_id_to_aws_id (f b) = bs_id_to_aws_id b /\
             aws_id_to_bs_id (f b) = aws_id_to_bs_id b) ->
  respects (@within W known) (modify_self f).
Proof.
  intros Hf s. destruct (Hf (self s)) as [Hb Ha].
  apply within_same_maps; auto. apply adds_modify_self.
Qed.

Lemma within_try_terminate known aws_id :
  known aws_id -> respects (@within W known) (_try_terminate aws_id).
Proof.
  intros Hk. unfold _try_terminate.
  apply respects_retry; try apply _; [apply within_sleep|].
  apply respects_bind; try apply _.
  - apply within_modify_self. intros b. split; reflexivity.
  - intros _. apply within_client_call. intros r. exact Hk.
Qed.

Lemma within_wait_until_stopped known fuel aws_id :
  known aws_id -> respects (@within W known) (_wait_until_stopped fuel aws_id).
Proof.
  intros Hk. unfold _wait_until_stopped.
  apply respects_retry; try apply _; [apply within_sleep|].
  induction fuel as [|fuel IH]; simpl; [apply respects_out_of_fuel; apply _|].
  apply respects_bind; try apply _.
  - apply within_client_call. intros r. simpl. unfold MAX_POLL_COUNT.
    split; [lia|]. intros a [<-|[]]. exact Hk.
  - intros [|job jobs]; [apply respects_ret; apply _|].
    destruct (truthy_str (status job) && status_in job ["SUCCEEDED"; "FAILED"]);
      [apply respects_ret; apply _|].
    apply respects_bind; try apply _; [apply within_sleep|auto].
Qed.

Lemma within_killBatchJobs known fuel job_ids :
  respects (@within W known) (killBatchJobs fuel job_ids).
Proof.
  unfold killBatchJobs.
  apply respects_bind; try apply _; [apply within_call|intros _].
  apply respects_bind; try apply _.
  - apply respects_for; try apply _. intros bs.
    apply respects_bind_self; try apply _. intros s Hreg.
    destruct (Dict.get bs (bs_id_to_aws_id (self s))) as [a|] eqn:Hg.
    + apply within_try_terminate; auto. apply Hreg. right. eauto.
    + split; auto. reflexivity.
  - intros _. apply respects_for; try apply _. intros bs.
    apply respects_bind_self; try apply _. intros s Hreg.
    destruct (Dict.get bs (bs_id_to_aws_id (self s))) as [a|] eqn:Hg.
    + apply within_wait_until_stopped; auto. apply Hreg. right. eauto.
    + split; auto. reflexivity.
Qed.

Lemma within_destroy_job_definition known :
  respects (@within W known) _destroy_job_definition.
Proof.
  unfold _destroy_job_definition.
  apply respects_retry; try apply _; [apply within_sleep|].
  apply respects_bind; try apply _; [apply respects_get_self; apply _|intros b].
  destruct (job_definition b); [|apply respects_ret; apply _].
  apply respects_bind; try apply _.
  - apply within_client_call. intros r. exact I.
  - intros _. apply within_modify_self. intros b'. split; reflexivity.
Qed.

Lemma within_shutdown known : respects (@within W known) shutdown.
Proof.
  unfold shutdown.
  apply respects_bind; try apply _; [apply within_call|intros _].
  apply respects_bind_self; try apply _. intros s Hreg.
  pose proof (respects_bind (within known)
                (for_ (Dict.keys (aws_id_to_bs_id (self s))) _try_terminate)
                (fun _ => _destroy_job_definition)) as Hbind.
  apply Hbind; auto.
  - apply respects_for_in; try apply _. intros a Hin.
    apply within_try_terminate. apply Hreg. now left.
  - intros _. apply within_destroy_job_definition.
Qed.

Lemma describe_batches_known known (b : AWSBatchBatchSystem) :
  (forall a, registered_handle b a -> known a) ->
  forall cb r, In cb (describe_batches b) -> asks_within known (EvDescribe cb r).
Proof.
  intros Hreg cb r Hin. unfold describe_batches in Hin.
  destruct (batches_of_cover _ (Dict.keys (aws_id_to_bs_id b)) (le_n _))
    as (Hcat & Hall & _).
  simpl. split.
  - rewrite List.Forall_forall in Hall. exact (Hall cb Hin).
  - intros a Ha. apply Hreg. left. rewrite <- Hcat.
    apply in_concat. exists cb. split; auto. now apply in_rev in Hin.
Qed.

Lemma within_getRunningBatchJobIDs known :
  respects (@within W known) getRunningBatchJobIDs.
Proof.
  intros s Hreg. split.
  - destruct (frame_getRunningBatchJobIDs s) as (Hb & Ha & _).
    intros a. unfold registered_handle. rewrite Hb, Ha. apply Hreg.
  - unfold getRunningBatchJobIDs, bind, get_self.
    apply adds_running_batches_only.
    + now apply describe_batches_known.
    + intros bs jd. exact I.
Qed.

Lemma drop_acknowledged_shrinks acks : respects (@shrinks W) (drop_acknowledged acks).
Proof.
  induction acks as [|[a b] acks IH]; simpl.
  - apply respects_ret; apply _.
  - apply respects_bind_self; try apply _. intros s.
    destruct (Dict.del a (aws_id_to_bs_id (self s))) as [d|] eqn:Hdel; [|reflexivity].
    apply DictFacts.del_Some in Hdel as [-> _].
    unfold bind at 1. unfold put_self at 1.
    set (s1 := {| world := world s;
                  self := with_aws_id_to_bs_id (Dict.remove a (aws_id_to_bs_id (self s)))
                                               (self s);
                  trace := trace s |}).
    assert (H1 : shrinks s s1).
    { intros x [Hin|Hex]; [left|right; exact Hex].
      simpl in Hin. eapply DictFacts.keys_remove_incl; eauto. }
    etransitivity; [exact H1|]. clearbody s1. clear H1 s.
    unfold bind at 1. unfold get_self at 1.
    destruct (Dict.del b (bs_id_to_aws_id (self s1))) as [d|] eqn:Hdel; [|reflexivity].
    apply DictFacts.del_Some in Hdel as [-> _].
    unfold bind at 1. unfold put_self at 1.
    set (s2 := {| world := world s1;
                  self := with_bs_id_to_aws_id (Dict.remove b (bs_id_to_aws_id (self s1)))
                                               (self s1);
                  trace := trace s1 |}).
    assert (H2 : shrinks s1 s2).
    { intros x [Hin|(bs & Hg)]; [left; exact Hin|right]. simpl in Hg.
      exists bs. destruct (decide (b = bs)) as [->|Hne].
      - rewrite DictFacts.get_remove_eq in Hg. discriminate.
      - now rewrite DictFacts.get_remove_ne in Hg. }
    etransitivity; [exact H2|]. clearbody s2. clear H2 s1.
    unfold bind at 1. unfold get_self at 1.
    assert (Hrest : respects (@shrinks W)
                      (log (EvDropped a b) ;;; drop_acknowledged acks)).
    { apply respects_bind; try apply _; [intros s0 x Hx; exact Hx|intros _; exact IH]. }
    destruct (bool_decide (a ∈ killed_job_aws_ids (self s2))).
    + unfold bind at 1. unfold put_self at 1.
      etransitivity; [|apply Hrest]. intros x Hx. exact Hx.
    + unfold bind at 1. unfold ret at 1. apply Hrest.
Qed.

Lemma poll_remote_shrinks : respects (@shrinks W) poll_remote.
Proof.
  intros s. unfold poll_remote.
  destruct (poll_batches (describe_batches (self s)) [] s) as [[o acks] s1] eqn:Hpb.
  apply poll_batches_spec in Hpb as (Hself & _).
  pose proof (drop_acknowledged_shrinks acks s1) as Hk.
  unfold shrinks in Hk. rewrite Hself in Hk.
  destruct (drop_acknowledged acks s1) as [[[]|e|] s2]; simpl in *; auto.
  destruct o as [[[a info]|]|e|]; simpl; auto.
Qed.

Lemma within_poll_remote known : respects (@within W known) poll_remote.
Proof.
  intros s Hreg. split.
  - intros a Ha. apply Hreg. now apply poll_remote_shrinks.
  - apply adds_poll_remote_only.
    + now apply describe_batches_known.
    + intros a b. exact I.
    + intros a info. exact I.
Qed.

Lemma within_getUpdatedBatchJob known fuel maxWait :
  respects (@within W known) (getUpdatedBatchJob fuel maxWait).
Proof.
  unfold getUpdatedBatchJob.
  apply respects_bind; try apply _; [apply respects_get_world; apply _|intros entry].
  induction fuel as [|fuel IH]; simpl; [apply respects_out_of_fuel; apply _|].
  apply respects_bind; try apply _; [apply respects_get_world; apply _|intros now].
  destruct (Qlt_bool (now - entry) (inject_Z maxWait) || (maxWait =? 0)%Z);
    [|apply respects_ret; apply _].
  apply respects_bind; try apply _; [apply within_call|].
  intros [result|]; [apply respects_ret; apply _|].
  apply respects_bind; try apply _; [apply within_poll_remote|].
  intros [info|]; [apply respects_ret; apply _|].
  destruct (negb (maxWait =? 0)%Z); [|apply respects_ret; apply _].
  apply respects_bind; try apply _; [apply within_sleep|auto].
Qed.

(** [issueBatchJob] describes and cancels nothing. *)
Lemma issueBatchJob_asks_nothing job_desc job_environment :
  respects (@adds W (asks_within (fun _ => False)))
           (issueBatchJob job_desc job_environment).
Proof.
  unfold issueBatchJob.
  apply respects_bind; try apply _; [apply adds_call|].
  intros [local_id|]; [apply respects_ret; apply _|].
  apply respects_bind; try apply _; [apply adds_call|intros _].
  apply respects_bind; try apply _.
  { apply adds_same_trace. reflexivity. }
  intros bs_id.
  apply respects_bind; try apply _; [apply respects_get_self; apply _|intros b].
  apply respects_bind; try apply _.
  { unfold _get_or_create_job_definition. apply adds_retry; [intros; exact I|].
    apply respects_bind; try apply _; [apply respects_get_self; apply _|intros b'].
    destruct (job_definition b'); [apply respects_ret; apply _|].
    apply respects_bind; try apply _; [apply adds_call|intros name].
    apply respects_bind; try apply _; [apply adds_client_call; intros; exact I|].
    intros arn. apply respects_bind; try apply _; [apply adds_modify_self|].
    intros _. apply respects_ret; apply _. }
  intros definition.
  apply respects_bind; try apply _; [apply adds_client_call; intros; exact I|].
  intros aws_id.
  apply respects_bind; try apply _; [apply adds_modify_self|intros _].
  apply respects_bind; try apply _; [apply adds_modify_self|intros _].
  apply respects_bind; try apply _; [apply adds_log; exact I|intros _].
  apply respects_ret; apply _.
Qed.

Lemma in_submitted_app (a : string) (t1 t2 : list event) :
  In a (submitted_handles t1) -> In a (submitted_handles (t1 ++ t2)).
Proof. rewrite submitted_handles_app, in_app_iff. auto. Qed.

Lemma conducted_step (s s' : state W) :
  (forall a, registered_handle (self s) a -> In a (submitted_handles (trace s))) ->
  conducted [] (trace s) ->
  within (fun a => In a (submitted_handles (trace s))) s s' ->
  (forall a, registered_handle (self s') a -> In a (submitted_handles (trace s'))) /\
  conducted [] (trace s').
Proof.
  intros Hreg Hcond Hwithin.
  destruct (Hwithin Hreg) as (Hreg' & t & Ht & Hall). rewrite Ht. split.
  - intros a Ha. apply in_submitted_app. auto.
  - apply conducted_app. split; auto. simpl. now apply conducted_of_asks.
Qed.

Lemma conducted_issue job_desc job_environment (s : state W) :
  (forall a, registered_handle (self s) a -> In a (submitted_handles (trace s))) ->
  conducted [] (trace s) ->
  let s' := snd (issueBatchJob job_desc job_environment s) in
  (forall a, registered_handle (self s') a -> In a (submitted_handles (trace s'))) /\
  conducted [] (trace s').
Proof.
  intros Hreg Hcond s'. split.
  - unfold s'. destruct (issueBatchJob job_desc job_environment s) as [o s1] eqn:Hrun.
    apply issueBatchJob_run in Hrun as (_ & Hcases). simpl.
    assert (Hsame : bs_id_to_aws_id (self s1) = bs_id_to_aws_id (self s) ->
                    aws_id_to_bs_id (self s1) = aws_id_to_bs_id (self s) ->
                    (exists t, trace s1 = trace s ++ t) ->
                    forall a, registered_handle (self s1) a ->
                              In a (submitted_handles (trace s1))).
    { intros Hb Ha (t & Ht) a. unfold registered_handle. rewrite Hb, Ha, Ht.
      intros Hr. apply in_submitted_app. now apply Hreg. }
    destruct o as [id|e|].
    + destruct Hcases as [(_ & Hself & Htrace)|(_ & -> & Hissued)].
      * rewrite Hself, Htrace. exact Hreg.
      * destruct Hissued as (aws_id & spec & t & Hb & Ha & _ & Ht & _).
        intros a. unfold registered_handle. rewrite Hb, Ha, Ht.
        rewrite !submitted_handles_app, !in_app_iff. simpl.
        intros [Hin|(bs & Hg)].
        -- apply keys_set_In in Hin as [->|Hin]; [auto|].
           left. apply Hreg. now left.
        -- destruct (decide (jobIndex (self s) = bs)) as [<-|Hne].
           ++ rewrite DictFacts.get_set_eq in Hg. injection Hg as <-. auto.
           ++ rewrite DictFacts.get_set_ne in Hg by auto.
              left. apply Hreg. right. eauto.
    + destruct Hcases as (Hb & Ha & t & Ht & _). apply Hsame; eauto.
    + destruct Hcases as (Hb & Ha & t & Ht & _). apply Hsame; eauto.
  - destruct (issueBatchJob_asks_nothing job_desc job_environment s) as (t & Ht & Hall).
    fold s' in Ht. rewrite Ht. apply conducted_app. split; auto.
    apply conducted_of_asks. eapply List.Forall_impl; [|exact Hall].
    intros e. apply asks_within_mono. intros a [].
Qed.

(** Whatever the scheduler calls and whatever the backend answers: every
    describe call asks about at least one and at most 100 jobs; every job a
    describe or a cancel call names is one a successful submission returned
    earlier; and every handle in the registry is one a successful submission
    returned. *)
Theorem requests_name_submitted_jobs (cfg : Settings) (w : W) (calls : list api_call) :
  let s := run calls (init cfg w) in
  conducted [] (trace s) /\
  forall a, registered_handle (self s) a -> In a (submitted_handles (trace s)).
Proof.
  intros s.
  assert (Hinv : forall calls (s0 : state W),
            (forall a, registered_handle (self s0) a ->
                       In a (submitted_handles (trace s0))) ->
            conducted [] (trace s0) ->
            (forall a, registered_handle (self (run calls s0)) a ->
                       In a (submitted_handles (trace (run calls s0)))) /\
            conducted [] (trace (run calls s0))).
  { clear. induction calls as [|c calls IH]; intros s0 Hreg Hcond; simpl; [auto|].
    assert (Hstep : (forall a, registered_handle (self (run_call c s0)) a ->
                               In a (submitted_handles (trace (run_call c s0)))) /\
                    conducted [] (trace (run_call c s0))).
    { destruct c; simpl.
      - now apply conducted_issue.
      - apply (conducted_step s0); auto. apply within_getUpdatedBatchJob.
      - apply (conducted_step s0); auto. apply within_getRunningBatchJobIDs.
      - apply (conducted_step s0); auto. apply within_killBatchJobs.
      - apply (conducted_step s0); auto. apply within_shutdown. }
    destruct Hstep as [Hreg' Hcond']. now apply IH. }
  destruct (Hinv calls (init cfg w)) as [Hreg Hcond].
  - intros a [[]|(bs & Hg)]. discriminate Hg.
  - exact I.
  - split; [exact Hcond|exact Hreg].
Qed.

End Requests.

(** ** Completed jobs are no longer issued *)

Section Gone.
Context {W : Type} `{Backend W}.

Global Instance keeps_gone_preorder : PreOrder (@keeps_gone W).
Proof.
  split.
  - intros s Hs. exact Hs.
  - intros s1 s2 s3 H12 H23 Hs. auto.
Qed.

Lemma frame_keeps_gone (s s' : state W) : frame s s' -> keeps_gone s s'.
Proof.
  intros Hf [Hok Hgone]. split; [eapply registry_ok_frame; eauto|].
  destruct Hf as (Hb & _ & _ & _ & t & Ht & Hq).
  intros b. rewrite Hb, Ht, updated_ids_app, (updated_ids_quiet t), app_nil_r.
  - apply Hgone.
  - now apply quiet_quiet_or_submit.
Qed.

Lemma respects_frame_keeps_gone {A} (m : M W A) :
  respects (@frame W) m -> respects (@keeps_gone W) m.
Proof. intros Hf s. apply frame_keeps_gone, Hf. Qed.

Lemma issueBatchJob_keeps_gone job_desc job_environment :
  respects (@keeps_gone W) (issueBatchJob job_desc job_environment).
Proof.
  intros s. apply issueBatchJob_cases.
  - apply frame_keeps_gone.
  - intros s' Hal [Hok Hgone]. split; [now apply (allocated_keeps_once s s' Hal)|].
    destruct Hal as (Hb & _ & _ & _ & t & Ht & Hq).
    intros b. rewrite Hb, Ht, updated_ids_app, (updated_ids_quiet t), app_nil_r; auto.
  - intros s' His [Hok Hgone]. split; [now apply (issued_keeps_once job_desc s s' His)|].
    destruct His as (a & spec & t & Hb & _ & _ & _ & Ht & Hq & _).
    intros b. rewrite Hb, Ht, !updated_ids_app, (updated_ids_quiet t).
    2: now apply quiet_quiet_or_submit.
    simpl. rewrite app_nil_r. intros Hin.
    rewrite DictFacts.get_set_ne; [now apply Hgone|].
    pose proof (ok_updated_bound _ Hok b Hin). lia.
Qed.

Lemma polled_keeps_gone (s s' : state W) r :
  polled s s' r -> keeps_gone s s'.
Proof.
  intros Hp [Hok Hgone]. split; [now apply (polled_keeps_once s s' r Hok Hp)|].
  destruct Hp as (s1 & s2 & done & Hframe & Hself & _ & Hdrop & _ & Hres).
  destruct (dropped_world_trace _ _ _ Hdrop) as (_ & Ht2 & _).
  destruct Hframe as (_ & _ & _ & _ & t1 & Ht1 & Hq1).
  assert (Hu2 : updated_ids (trace s2) = updated_ids (trace s)).
  { rewrite Ht2, Ht1, !updated_ids_app, updated_ids_dropped,
      (updated_ids_quiet t1), !app_nil_r; auto.
    now apply quiet_quiet_or_submit. }
  assert (Hold : forall b, In b (updated_ids (trace s)) ->
                           Dict.get b (bs_id_to_aws_id (self s2)) = None).
  { intros b Hin. destruct (dropped_bs s1 s2 done b Hdrop) as [Hgone2 Hkeep].
    destruct (in_dec Z.eq_dec b (map snd done)) as [Hd|Hd]; auto.
    rewrite Hkeep, Hself by auto. now apply Hgone. }
  destruct Hres as [(-> & _)|(a & info & pre & jd & w & _ & -> & -> & _)].
  - intros b. rewrite Hu2. apply Hold.
  - intros b. simpl. rewrite updated_ids_app, Hu2, in_app_iff. simpl.
    intros [Hin|[<-|[]]]; auto.
    destruct (dropped_bs s1 s2 (pre ++ [(a, jobID info)]) (jobID info) Hdrop)
      as [Hgone2 _].
    apply Hgone2. rewrite map_app, in_app_iff. right. now left.
Qed.

Lemma poll_remote_keeps_gone : respects (@keeps_gone W) poll_remote.
Proof.
  intros s [Hok Hgone]. eapply polled_keeps_gone; eauto. now apply poll_remote_polled.
Qed.

Lemma getUpdatedBatchJob_keeps_gone fuel maxWait :
  respects (@keeps_gone W) (getUpdatedBatchJob fuel maxWait).
Proof.
  unfold getUpdatedBatchJob.
  apply respects_bind; try apply _; [apply respects_get_world; apply _|intros entry].
  induction fuel as [|fuel IH]; simpl.
  - apply respects_out_of_fuel; apply _.
  - apply respects_bind; try apply _; [apply respects_get_world; apply _|intros now].
    destruct (Qlt_bool (now - entry) (inject_Z maxWait) || (maxWait =? 0)%Z);
      [|apply respects_ret; apply _].
    apply respects_bind; try apply _.
    { apply respects_frame_keeps_gone, frame_call. }
    intros [result|]; [apply respects_ret; apply _|].
    apply respects_bind; try apply _; [apply poll_remote_keeps_gone|].
    intros [info|]; [apply respects_ret; apply _|].
    destruct (negb (maxWait =? 0)%Z); [|apply respects_ret; apply _].
    apply respects_bind; try apply _; auto.
    apply respects_frame_keeps_gone, frame_sleep.
Qed.

Lemma run_keeps_gone (calls : list api_call) (s : state W) :
  keeps_gone s (run calls s).
Proof.
  revert s. induction calls as [|c calls IH]; intros s; simpl.
  - reflexivity.
  - etransitivity; [|apply IH]. destruct c; simpl.
    + apply issueBatchJob_keeps_gone.
    + apply getUpdatedBatchJob_keeps_gone.
    + apply frame_keeps_gone, frame_getRunningBatchJobIDs.
    + apply frame_keeps_gone, frame_killBatchJobs.
    + apply frame_keeps_gone, frame_shutdown.
Qed.

(** Whatever the scheduler calls and whatever the backend answers, a remote
    job whose completion [getUpdatedBatchJob] has returned is not issued any
    more: its id is in neither map, at that moment and ever after, and
    [getIssuedBatchJobIDs] does not list it unless the local delegate
    holds that id. *)
Theorem completed_jobs_are_not_issued (cfg : Settings) (w : W) (calls : list api_call)
    (bs_id : Z) :
  let s := run calls (init cfg w) in
  In bs_id (updated_ids (trace s)) ->
  Dict.get bs_id (bs_id_to_aws_id (self s)) = None /\
  (forall aws_id, Dict.get aws_id (aws_id_to_bs_id (self s)) <> Some bs_id) /\
  (~ In bs_id (getIssuedLocalJobIDs (world s)) -> ~ In bs_id (getIssuedBatchJobIDs s)).
Proof.
  intros s Hin.
  destruct (run_keeps_gone calls (init cfg w)) as [Hok Hgone].
  { split; [apply registry_ok_init|]. intros b []. }
  fold s in Hok, Hgone. split; [now apply Hgone|]. split.
  - intros a. now apply (ok_updated_gone _ Hok).
  - intros Hlocal. unfold getIssuedBatchJobIDs. rewrite in_app_iff.
    intros [Hl|Hr]; [contradiction|].
    apply DictFacts.get_None_keys in Hr; [exact Hr|now apply Hgone].
Qed.

End Gone.

(** A job is issued, reported SUCCEEDED and returned: it is not issued any
    more. *)
Lemma completed_jobs_are_not_issued_witness :
  let w := {| Sim.clock := 10;
              Sim.jobs := [{| Sim.sj_id := "job-1"; Sim.sj_status := "SUCCEEDED";
                              Sim.sj_started := Some 1000%Z;
                              Sim.sj_stopped := Some 3000%Z;
                              Sim.sj_exit := Some 0%Z; Sim.sj_stops_in := None |}];
              Sim.handles := ["job-1"];
              Sim.describe_cost_ms := 0; Sim.kill_delay := 0;
              Sim.terminate_errors := []; Sim.deregister_error := None |} in
  let s := run [IssueBatchJob (Sim.sleep_job "first") None; GetUpdatedBatchJob 3 0]
               (init Sim.cfg w) in
  updated_ids (trace s) = [0%Z] /\
  ~ In 0%Z (getIssuedBatchJobIDs s).
Proof.
  intros w s. split; [vm_compute; reflexivity|].
  apply (completed_jobs_are_not_issued Sim.cfg w
           [IssueBatchJob (Sim.sleep_job "first") None; GetUpdatedBatchJob 3 0] 0%Z).
  - vm_compute. now left.
  - intros [].
Defined.

(** ** Edge cases of killing, waiting and measuring *)

Section Edges.
Context {W : Type} `{Backend W}.

Lemma for_noop {A} (l : list A) (body : A -> M W unit) (s : state W) :
  (forall x, In x l -> body x s = (Ret tt, s)) -> for_ l body s = (Ret tt, s).
Proof.
  induction l as [|x l IH]; intros Hb; simpl; auto.
  unfold bind. rewrite Hb by now left. apply IH. intros y Hy. apply Hb. now right.
Qed.

(** [killBatchJobs] can handle jobs that do not exist: for ids that have no
    remote handle it is the kill of the local delegate and nothing else; no
    request goes to AWS Batch and there is nothing to wait for. *)
Theorem kill_unknown_ids_asks_nothing (fuel : nat) (job_ids : list Z) (s : state W) :
  (forall bs_id, In bs_id job_ids ->
                 ~ In bs_id (Dict.keys (bs_id_to_aws_id (self s)))) ->
  killBatchJobs fuel job_ids s = call (killLocalJobs job_ids) s.
Proof.
  intros Hunknown. unfold killBatchJobs. unfold bind at 1.
  assert (Hself : self (snd (call (killLocalJobs job_ids) s)) = self s).
  { unfold call. destruct (killLocalJobs job_ids (world s)) as [[e|[]] w]; reflexivity. }
  destruct (call (killLocalJobs job_ids) s) as [[[]|e|] s0]; auto. simpl in Hself.
  assert (Hnone : forall bs, In bs job_ids ->
                             Dict.get bs (bs_id_to_aws_id (self s0)) = None).
  { intros bs Hin. rewrite Hself. apply DictFacts.get_None_keys. now apply Hunknown. }
  unfold bind at 1. rewrite for_noop.
  - apply for_noop. intros bs Hin. unfold bind, get_self. now rewrite Hnone.
  - intros bs Hin. unfold bind, get_self. now rewrite Hnone.
Qed.

Lemma Qlt_bool_self_negative (now : Q) (maxWait : Z) :
  (maxWait < 0)%Z -> Qlt_bool (now - now) (inject_Z maxWait) = false.
Proof.
  intros Hneg. unfold Qlt_bool. apply negb_false_iff. apply Qle_bool_iff.
  assert (Hz : (now - now == 0)%Q) by ring. rewrite Hz.
  change 0%Q with (inject_Z 0). rewrite <- Zle_Qle. lia.
Qed.

Lemma Qlt_bool_self_positive (now : Q) (maxWait : Z) :
  (0 < maxWait)%Z -> Qlt_bool (now - now) (inject_Z maxWait) = true.
Proof.
  intros Hpos. unfold Qlt_bool. apply negb_true_iff.
  destruct (Qle_bool (inject_Z maxWait) (now - now)) eqn:Hle; auto.
  apply Qle_bool_iff in Hle.
  assert (Hz : (now - now == 0)%Q) by ring. rewrite Hz in Hle.
  change 0%Q with (inject_Z 0) in Hle. rewrite <- Zle_Qle in Hle. lia.
Qed.

(** The two ends of [getUpdatedBatchJob]: with a negative [maxWait] the loop
    is never entered, so nothing is polled, not even the local jobs, and the
    answer is [None]; otherwise a completion of a local job is returned
    before any request goes to AWS Batch. *)
Theorem getUpdatedBatchJob_local_first (fuel : nat) (maxWait : Z) (s : state W) :
  ((maxWait < 0)%Z -> getUpdatedBatchJob (S fuel) maxWait s = (Ret None, s)) /\
  ((0 <= maxWait)%Z ->
   forall result w',
     getUpdatedLocalJob 0 (world s) = (inr (Some result), w') ->
     getUpdatedBatchJob (S fuel) maxWait s =
       (Ret (Some result), {| world := w'; self := self s; trace := trace s |})).
Proof.
  split.
  - intros Hneg. unfold getUpdatedBatchJob. unfold bind at 1. unfold get_world at 1.
    cbn [getUpdatedBatchJob_loop]. unfold bind at 1. unfold get_world at 1.
    rewrite Qlt_bool_self_negative by exact Hneg.
    replace (maxWait =? 0)%Z with false by (symmetry; apply Z.eqb_neq; lia).
    reflexivity.
  - intros Hpos result w' Hlocal.
    unfold getUpdatedBatchJob. unfold bind at 1. unfold get_world at 1.
    cbn [getUpdatedBatchJob_loop]. unfold bind at 1. unfold get_world at 1.
    assert (Henter : Qlt_bool (datetime_now (world s) - datetime_now (world s))
                        (inject_Z maxWait) || (maxWait =? 0)%Z = true).
    { destruct (Z.eq_dec maxWait 0%Z) as [->|Hne]; [apply orb_true_r|].
      rewrite Qlt_bool_self_positive by lia. reflexivity. }
    rewrite Henter. unfold bind at 1. unfold call at 1. rewrite Hlocal. reflexivity.
Qed.

(** [_get_runtime] gives no time exactly when the status is missing or
    is none of STARTING, RUNNING, SUCCEEDED and FAILED, or when the job has
    no start time; the time it gives is never zero (for a positive floor of
    [slow_down]); and for a job that has stopped it does not depend on the
    current time. *)
Theorem get_runtime_never_zero (now_ms : Z) (jd : JobDetail) :
  (0 < epsilon)%Q ->
  (_get_runtime now_ms jd = None <->
   status_in jd ["STARTING"; "RUNNING"; "SUCCEEDED"; "FAILED"] = false \/
   startedAt jd = None) /\
  (forall r, _get_runtime now_ms jd = Some r -> (0 < r)%Q) /\
  (stoppedAt jd <> None ->
   forall now_ms', _get_runtime now_ms' jd = _get_runtime now_ms jd).
Proof.
  intros Hpos. split; [|split].
  - unfold _get_runtime.
    destruct (status_in jd ["STARTING"; "RUNNING"; "SUCCEEDED"; "FAILED"]); simpl.
    + destruct (startedAt jd); split; auto; try discriminate.
      intros [?|?]; discriminate.
    + split; auto.
  - intros r. now apply get_runtime_nonzero.
  - intros Hstopped now_ms'. unfold _get_runtime.
    destruct (negb _); auto. destruct (startedAt jd); auto.
    destruct (stoppedAt jd); [reflexivity|contradiction].
Qed.

End Edges.

(** On the simulated backend, killing ids that were never issued changes
    nothing. *)
Lemma kill_unknown_ids_asks_nothing_witness :
  let s := run [IssueBatchJob (Sim.sleep_job "first") None]
               (init Sim.cfg Sim.two_running) in
  killBatchJobs 0 [10%Z] s = (Ret tt, s).
Proof.
  intros s.
  rewrite (kill_unknown_ids_asks_nothing 0 [10%Z] s).
  - vm_compute. reflexivity.
  - intros bs [<-|[]]. vm_compute. intros [Heq|[]]. discriminate Heq.
Defined.

(** A job that ran from 1000 ms to 3500 ms, measured at any time. *)
Lemma get_runtime_never_zero_witness :
  let jd := {| jobId := "job-1"; status := Some "SUCCEEDED";
               startedAt := Some 1000%Z; stoppedAt := Some 3500%Z;
               container := None; statusReason := None |} in
  (0 < @epsilon Sim.t Sim.backend)%Q /\
  (forall r, @_get_runtime Sim.t Sim.backend 0 jd = Some r -> (0 < r)%Q) /\
  @_get_runtime Sim.t Sim.backend 99 jd = @_get_runtime Sim.t Sim.backend 0 jd.
Proof.
  intros jd.
  assert (Hpos : (0 < @epsilon Sim.t Sim.backend)%Q) by reflexivity.
  destruct (@get_runtime_never_zero Sim.t Sim.backend 0 jd Hpos) as (_ & Hnz & Hsame).
  split; [exact Hpos|]. split; [exact Hnz|].
  apply Hsame. discriminate.
Defined.

(** With a negative wait nothing is polled; with a local completion at hand
    it is returned and AWS Batch is not asked. *)
Lemma getUpdatedBatchJob_local_first_witness :
  let s := init Sim.cfg Sim.two_running in
  @getUpdatedBatchJob Sim.t Sim.backend 1 (-1) s = (Ret None, s) /\
  @getUpdatedBatchJob Sim.t Sim.with_local_job 1 5 s = (Ret (Some Sim.local_done), s).
Proof.
  intros s. split.
  - apply (proj1 (@getUpdatedBatchJob_local_first Sim.t Sim.backend 0 (-1)%Z s)). lia.
  - apply (proj2 (@getUpdatedBatchJob_local_first Sim.t Sim.with_local_job 0 5%Z s));
      [lia|reflexivity].
Defined.

(** ** Snapshots: what [getRunningBatchJobIDs] asks and what it leaves *)

Section Snapshot.
Context {W : Type} `{Backend W}.

Lemma describe_requests_app t1 t2 :
  describe_requests (t1 ++ t2) = describe_requests t1 ++ describe_requests t2.
Proof. unfold describe_requests. apply flat_map_app. Qed.

Lemma describe_requests_warnings t : Forall is_warning t -> describe_requests t = [].
Proof.
  induction 1 as [|e t He Ht IH]; auto.
  unfold describe_requests in *. simpl. rewrite IH. destruct e; simpl in *; tauto.
Qed.

Lemma described_warnings t : Forall is_warning t -> described t = [].
Proof.
  induction 1 as [|e t He Ht IH]; auto.
  unfold described in *. simpl. rewrite IH. destruct e; simpl in *; tauto.
Qed.

Lemma running_details_run (details : list JobDetail) :
  forall acc (s : state W) o s',
    running_details details acc s = (o, s') ->
    self s' = self s /\
    exists t,
      trace s' = trace s ++ t /\
      Forall is_warning t /\
      (forall d, o = Ret d ->
         forall jd, In jd details -> status jd = Some "RUNNING" ->
                    Dict.get (jobId jd) (aws_id_to_bs_id (self s)) <> None).
Proof.
  induction details as [|jd rest IH]; intros acc s o s'; cbn [running_details].
  - intros [= <- <-]. split; [reflexivity|]. exists []. rewrite app_nil_r.
    split; [reflexivity|]. split; [constructor|]. intros d _ jd [].
  - destruct (bool_decide (status jd = Some "RUNNING")) eqn:Hrun.
    + unfold bind at 1. unfold get_world at 1. unfold bind at 1. unfold get_self at 1.
      destruct (Dict.get (jobId jd) (aws_id_to_bs_id (self s))) as [bs|] eqn:Hg.
      2: { intros [= <- <-]. split; [reflexivity|]. exists []. rewrite app_nil_r.
           split; [reflexivity|]. split; [constructor|]. discriminate. }
      assert (Hcons : forall s1 acc1 (t0 : list event),
                self s1 = self s -> trace s1 = trace s ++ t0 -> Forall is_warning t0 ->
                running_details rest acc1 s1 = (o, s') ->
                self s' = self s /\
                exists t,
                  trace s' = trace s ++ t /\
                  Forall is_warning t /\
                  (forall d, o = Ret d ->
                     forall jd', In jd' (jd :: rest) -> status jd' = Some "RUNNING" ->
                       Dict.get (jobId jd') (aws_id_to_bs_id (self s)) <> None)).
      { intros s1 acc1 t0 Hs1 Ht0 Hw0 Hrest.
        destruct (IH acc1 s1 o s' Hrest) as (Hself & t & Ht & Hw & Hreg).
        split; [congruence|]. exists (t0 ++ t).
        split; [rewrite Ht, Ht0, app_assoc; reflexivity|].
        split; [apply Forall_app; auto|].
        intros d Hd jd' [<-|Hin] Hr; [congruence|].
        rewrite <- Hs1. eapply Hreg; eauto. }
      destruct (_get_runtime (unix_now_ms (world s)) jd) as [r|].
      * destruct (truthy_float (Some r)).
        -- apply (Hcons s _ []); auto. now rewrite app_nil_r.
        -- unfold bind at 1. unfold log at 1.
           apply (Hcons _ _ [EvWarning bs jd]); auto. repeat constructor.
      * unfold bind at 1. unfold log at 1.
        apply (Hcons _ _ [EvWarning bs jd]); auto. repeat constructor.
    + apply bool_decide_eq_false in Hrun. intros Hrest.
      destruct (IH acc s o s' Hrest) as (Hself & t & Ht & Hw & Hreg).
      split; auto. exists t. split; auto. split; auto.
      intros d Hd jd' [<-|Hin] Hr; [contradiction|]. eapply Hreg; eauto.
Qed.

Lemma running_batches_run (batches : list (list string)) :
  forall acc (s : state W) o s',
    running_batches batches acc s = (o, s') ->
    self s' = self s /\
    exists t,
      trace s' = trace s ++ t /\
      Forall (fun e => is_describe e \/ is_warning e) t /\
      (exists n, describe_requests t = firstn n batches) /\
      (forall d, o = Ret d ->
         describe_requests t = batches /\
         forall jd, In jd (described t) -> status jd = Some "RUNNING" ->
                    Dict.get (jobId jd) (aws_id_to_bs_id (self s)) <> None).
Proof.
  induction batches as [|cb rest IH]; intros acc s o s'; cbn [running_batches].
  - intros [= <- <-]. split; [reflexivity|]. exists []. rewrite app_nil_r.
    split; [reflexivity|]. split; [constructor|].
    split; [exists 0%nat; reflexivity|]. intros d _. split; [reflexivity|]. intros jd [].
  - unfold bind at 1. unfold client_call at 1.
    destruct (client_describe_jobs cb (world s)) as [[e|details] w].
    { intros [= <- <-]. simpl. split; [reflexivity|]. exists [EvDescribe cb (inl e)].
      split; [reflexivity|].
      split; [repeat constructor; now left|].
      split; [exists 1%nat; reflexivity|]. discriminate. }
    set (s1 := {| world := w; self := self s;
                  trace := trace s ++ [EvDescribe cb (inr details)] |}).
    unfold bind at 1.
    destruct (running_details details acc s1) as [o1 s2] eqn:Hdet.
    destruct (running_details_run details acc s1 o1 s2 Hdet)
      as (Hself1 & t1 & Ht1 & Hw1 & Hreg1).
    assert (Hdr1 : describe_requests ([EvDescribe cb (inr details)] ++ t1) = [cb]).
    { rewrite describe_requests_app, (describe_requests_warnings t1) by auto. reflexivity. }
    assert (Hds1 : described ([EvDescribe cb (inr details)] ++ t1) = details).
    { rewrite described_app, (described_warnings t1) by auto. simpl.
      now rewrite !app_nil_r. }
    assert (Hall1 : Forall (fun e => is_describe e \/ is_warning e)
                      ([EvDescribe cb (inr details)] ++ t1)).
    { apply Forall_app. split; [repeat constructor; now left|].
      eapply List.Forall_impl; [|exact Hw1]. intros e0 He0. now right. }
    simpl in Hself1, Ht1.
    destruct o1 as [acc1|e|].
    + intros Hrest.
      destruct (IH acc1 s2 o s' Hrest) as (Hself & t & Ht & Hall & (n & Hn) & Hret).
      split; [congruence|].
      exists (([EvDescribe cb (inr details)] ++ t1) ++ t).
      split; [rewrite Ht, Ht1, <- !app_assoc; reflexivity|].
      split; [apply Forall_app; auto|].
      rewrite describe_requests_app, Hdr1.
      split; [exists (S n); simpl; now rewrite Hn|].
      intros d Hd. destruct (Hret d Hd) as [Hreq Hreg]. split; [simpl; now rewrite Hreq|].
      intros jd. rewrite described_app, Hds1, in_app_iff. intros [Hin|Hin] Hr.
      * eapply (Hreg1 acc1); eauto.
      * rewrite <- Hself1. eapply Hreg; eauto.
    + intros [= <- <-]. split; auto. exists ([EvDescribe cb (inr details)] ++ t1).
      split; [rewrite Ht1, <- app_assoc; reflexivity|]. split; auto.
      rewrite Hdr1. split; [exists 1%nat; reflexivity|]. discriminate.
    + intros [= <- <-]. split; auto. exists ([EvDescribe cb (inr details)] ++ t1).
      split; [rewrite Ht1, <- app_assoc; reflexivity|]. split; auto.
      rewrite Hdr1. split; [exists 1%nat; reflexivity|]. discriminate.
Qed.

(** [getRunningBatchJobIDs] only reads: whatever its outcome it leaves the
    instance as it was; it adds nothing but describe calls and warnings; its
    describe calls ask for the batches of [_describe_jobs_in_batches] in
    order and stop at the first that fails; when it returns it has asked for
    every batch, one call each, and each job the backend reported RUNNING
    was a registered one (for another, the lookup raises). *)
Theorem running_snapshot_only_reads (s : state W) :
  let s' := snd (getRunningBatchJobIDs s) in
  let t := new_events s s' in
  self s' = self s /\
  Forall (fun e => is_describe e \/ is_warning e) t /\
  (exists n, describe_requests t = firstn n (describe_batches (self s))) /\
  (forall snapshot, fst (getRunningBatchJobIDs s) = Ret snapshot ->
     describe_requests t = describe_batches (self s) /\
     length (describe_requests t) = ((length (aws_id_to_bs_id (self s)) + 99) / 100)%nat /\
     forall jd, In jd (described t) -> status jd = Some "RUNNING" ->
                Dict.get (jobId jd) (aws_id_to_bs_id (self s)) <> None).
Proof.
  intros s' t. unfold t, s'. clear s' t.
  unfold getRunningBatchJobIDs, bind, get_self.
  destruct (running_batches (describe_batches (self s)) [] s) as [o s'] eqn:Hrun.
  destruct (running_batches_run (describe_batches (self s)) [] s o s' Hrun)
    as (Hself & t & Ht & Hall & Hn & Hret).
  simpl. unfold new_events. rewrite Ht, drop_app_length.
  split; [exact Hself|]. split; [exact Hall|]. split; [exact Hn|].
  intros snapshot Hsnap. destruct (Hret snapshot Hsnap) as [Hreq Hreg].
  split; [exact Hreq|]. split; [|exact Hreg].
  rewrite Hreq. unfold describe_batches.
  destruct (batches_of_cover _ (Dict.keys (aws_id_to_bs_id (self s))) (le_n _))
    as (_ & _ & Hcount).
  rewrite Hcount. unfold Dict.keys. now rewrite length_map.
Qed.

End Snapshot.

(** ** Completions are for jobs that were issued *)

Section Accounts.
Context {W : Type} `{Backend W}.

Lemma accounts_for_mono (known known' : list (string * Z)) (e : event) :
  (forall p, In p known -> In p known') -> accounts_for known e -> accounts_for known' e.
Proof. intros Hsub. destruct e; simpl; auto. Qed.

Lemma accounted_app (t1 : list event) :
  forall (known : list (string * Z)) (t2 : list event),
    accounted known (t1 ++ t2) <->
    accounted known t1 /\ accounted (known ++ recorded t1) t2.
Proof.
  induction t1 as [|e t1 IH]; intros known t2.
  - simpl. rewrite app_nil_r. tauto.
  - cbn [accounted app]. rewrite IH.
    replace (known ++ recorded (e :: t1)) with ((known ++ recorded [e]) ++ recorded t1).
    + tauto.
    + rewrite <- app_assoc. f_equal.
      change (e :: t1) with ([e] ++ t1). now rewrite recorded_app.
Qed.

Lemma accounted_of_each (known : list (string * Z)) (t : list event) :
  Forall (accounts_for known) t -> accounted known t.
Proof.
  intros Hall. revert known Hall. induction t as [|e t IH]; intros known Hall; simpl; auto.
  inversion Hall as [|e' t' He Ht]; subst. split; auto.
  apply IH. eapply List.Forall_impl; [|exact Ht].
  intros e'. apply accounts_for_mono. intros p. rewrite in_app_iff. auto.
Qed.

Lemma accounts_for_quiet known (t : list event) :
  Forall quiet_or_submit t -> Forall (accounts_for known) t.
Proof.
  intros Hq. eapply List.Forall_impl; [|exact Hq].
  intros e He. destruct e; simpl in *; auto; contradiction.
Qed.

Global Instance keeps_accounts_preorder : PreOrder (@keeps_accounts W).
Proof.
  split.
  - intros s Hs. exact Hs.
  - intros s1 s2 s3 H12 H23 Hs. auto.
Qed.

(** A step that leaves the aws map alone and adds nothing to account
    for. *)
Lemma quiet_keeps_accounts (s s' : state W) (t : list event) :
  registry_ok s' ->
  aws_id_to_bs_id (self s') = aws_id_to_bs_id (self s) ->
  trace s' = trace s ++ t ->
  Forall quiet_or_submit t ->
  accounts_inv s -> accounts_inv s'.
Proof.
  intros Hok' Ha Ht Hq (Hok & Hrec & Hacc). split; [exact Hok'|]. split.
  - intros a b. rewrite Ha, Ht, recorded_app, in_app_iff. auto.
  - rewrite Ht. apply accounted_app. split; auto.
    apply accounted_of_each. now apply accounts_for_quiet.
Qed.

Lemma frame_keeps_accounts (s s' : state W) : frame s s' -> keeps_accounts s s'.
Proof.
  intros Hf Hinv. pose proof Hinv as (Hok & _).
  pose proof (registry_ok_frame _ _ Hf Hok) as Hok'.
  destruct Hf as (_ & Ha & _ & _ & t & Ht & Hq).
  eapply quiet_keeps_accounts; eauto. now apply quiet_quiet_or_submit.
Qed.

Lemma respects_frame_keeps_accounts {A} (m : M W A) :
  respects (@frame W) m -> respects (@keeps_accounts W) m.
Proof. intros Hf s. apply frame_keeps_accounts, Hf. Qed.

Lemma issueBatchJob_keeps_accounts job_desc job_environment :
  respects (@keeps_accounts W) (issueBatchJob job_desc job_environment).
Proof.
  intros s. apply issueBatchJob_cases.
  - apply frame_keeps_accounts.
  - intros s' Hal Hinv. pose proof Hinv as (Hok & _).
    pose proof (proj1 (allocated_keeps_once s s' Hal) Hok) as Hok'.
    destruct Hal as (_ & Ha & _ & _ & t & Ht & Hq).
    eapply quiet_keeps_accounts; eauto.
  - intros s' His (Hok & Hrec & Hacc).
    pose proof (proj1 (issued_keeps_once job_desc s s' His) Hok) as Hok'.
    destruct His as (a & spec & t & _ & Ha & _ & _ & Ht & Hq & _).
    split; [exact Hok'|]. split.
    + intros a' b'. rewrite Ha, Ht, !recorded_app, !in_app_iff. simpl.
      destruct (decide (a = a')) as [<-|Hne].
      * rewrite DictFacts.get_set_eq. intros [= <-]. auto.
      * rewrite DictFacts.get_set_ne by auto. auto.
    + rewrite Ht. apply accounted_app. split; auto.
      apply accounted_app. split.
      * apply accounted_of_each, accounts_for_quiet. now apply quiet_quiet_or_submit.
      * simpl. auto.
Qed.

Lemma polled_keeps_accounts (s s' : state W) r :
  polled s s' r -> keeps_accounts s s'.
Proof.
  intros Hp (Hok & Hrec & Hacc).
  pose proof (proj1 (polled_keeps_once s s' r Hok Hp) Hok) as Hok'.
  split; [exact Hok'|].
  destruct Hp as (s1 & s2 & done & Hframe & Hself & _ & Hdrop & _ & Hres).
  destruct (dropped_world_trace _ _ _ Hdrop) as (_ & Ht2 & _).
  destruct Hframe as (_ & _ & _ & _ & t1 & Ht1 & Hq1).
  assert (Hknown : forall a b, In (a, b) done -> In (a, b) (recorded (trace s))).
  { intros a b Hin. apply Hrec. rewrite <- Hself. eapply dropped_registered; eauto. }
  assert (Hrec2 : forall a b, Dict.get a (aws_id_to_bs_id (self s2)) = Some b ->
                              In (a, b) (recorded (trace s))).
  { intros a b Hg. destruct (dropped_aws s1 s2 done a Hdrop) as [Hgone Hkeep].
    destruct (in_dec string_dec a (map fst done)) as [Hd|Hd].
    - rewrite Hgone in Hg by auto. discriminate.
    - rewrite Hkeep, Hself in Hg by auto. auto. }
  assert (Hacc2 : accounted [] (trace s2)).
  { rewrite Ht2, Ht1. apply accounted_app. split.
    - apply accounted_app. split; auto.
      apply accounted_of_each, accounts_for_quiet. now apply quiet_quiet_or_submit.
    - apply accounted_of_each. apply List.Forall_forall. intros e Hin.
      apply in_map_iff in Hin as ([a b] & <- & Hin). simpl.
      rewrite recorded_app, in_app_iff. left. auto. }
  assert (Hsub2 : forall p, In p (recorded (trace s)) -> In p (recorded (trace s2))).
  { intros p Hin. rewrite Ht2, Ht1, !recorded_app, !in_app_iff. auto. }
  destruct Hres as [(-> & _)|(a & info & pre & jd & w & _ & -> & Hdone & _)].
  - split; [|exact Hacc2]. intros a b Hg. auto.
  - simpl. split.
    + intros a' b' Hg. rewrite recorded_app, in_app_iff. left. auto.
    + apply accounted_app. split; [exact Hacc2|]. simpl. split; auto.
      apply Hsub2, Hknown. rewrite Hdone. apply in_app_iff. right. now left.
Qed.

Lemma poll_remote_keeps_accounts : respects (@keeps_accounts W) poll_remote.
Proof.
  intros s Hinv. pose proof Hinv as (Hok & _).
  eapply polled_keeps_accounts; eauto. now apply poll_remote_polled.
Qed.

Lemma getUpdatedBatchJob_keeps_accounts fuel maxWait :
  respects (@keeps_accounts W) (getUpdatedBatchJob fuel maxWait).
Proof.
  unfold getUpdatedBatchJob.
  apply respects_bind; try apply _; [apply respects_get_world; apply _|intros entry].
  induction fuel as [|fuel IH]; simpl.
  - apply respects_out_of_fuel; apply _.
  - apply respects_bind; try apply _; [apply respects_get_world; apply _|intros now].
    destruct (Qlt_bool (now - entry) (inject_Z maxWait) || (maxWait =? 0)%Z);
      [|apply respects_ret; apply _].
    apply respects_bind; try apply _.
    { apply respects_frame_keeps_accounts, frame_call. }
    intros [result|]; [apply respects_ret; apply _|].
    apply respects_bind; try apply _; [apply poll_remote_keeps_accounts|].
    intros [info|]; [apply respects_ret; apply _|].
    destruct (negb (maxWait =? 0)%Z); [|apply respects_ret; apply _].
    apply respects_bind; try apply _; auto.
    apply respects_frame_keeps_accounts, frame_sleep.
Qed.

Lemma run_keeps_accounts (calls : list api_call) (s : state W) :
  keeps_accounts s (run calls s).
Proof.
  revert s. induction calls as [|c calls IH]; intros s; simpl.
  - reflexivity.
  - etransitivity; [|apply IH]. destruct c; simpl.
    + apply issueBatchJob_keeps_accounts.
    + apply getUpdatedBatchJob_keeps_accounts.
    + apply frame_keeps_accounts, frame_getRunningBatchJobIDs.
    + apply frame_keeps_accounts, frame_killBatchJobs.
    + apply frame_keeps_accounts, frame_shutdown.
Qed.

(** Whatever the scheduler calls and whatever the backend answers, no
    completion is made up: every completion [getUpdatedBatchJob] returns,
    and every dropping of records, is for a handle and an id that
    [issueBatchJob] tied together earlier; and the registry holds only
    pairs that were tied together by [issueBatchJob]. *)
Theorem completions_are_for_issued_jobs (cfg : Settings) (w : W) (calls : list api_call) :
  let s := run calls (init cfg w) in
  accounted [] (trace s) /\
  forall a b, Dict.get a (aws_id_to_bs_id (self s)) = Some b ->
              In (EvRecorded a b) (trace s).
Proof.
  intros s.
  destruct (run_keeps_accounts calls (init cfg w)) as (_ & Hrec & Hacc).
  { split; [apply registry_ok_init|]. split; [discriminate|exact I]. }
  fold s in Hrec, Hacc. split; [exact Hacc|].
  intros a b Hg. specialize (Hrec a b Hg).
  unfold recorded in Hrec. apply in_flat_map in Hrec as (e & Hin & He).
  destruct e; simpl in He; try contradiction.
  destruct He as [[= -> ->]|[]]. exact Hin.
Qed.

End Accounts.

(** ** What each call may add to the trace *)

Section MayAdd.
Context {W : Type} `{Backend W}.

Lemma adds_issueBatchJob_only (P : event -> Prop) job_desc job_environment :
  (forall spec r, P (EvRegister spec r)) ->
  (forall spec r, P (EvSubmit spec r)) ->
  (forall now d, P (EvSleep now d)) ->
  (forall a b, P (EvRecorded a b)) ->
  respects (@adds W P) (issueBatchJob job_desc job_environment).
Proof.
  intros Hreg Hsub Hsl Hrec. unfold issueBatchJob.
  apply respects_bind; try apply _; [apply adds_call|].
  intros [local_id|]; [apply respects_ret; apply _|].
  apply respects_bind; try apply _; [apply adds_call|intros _].
  apply respects_bind; try apply _.
  { apply adds_same_trace. reflexivity. }
  intros bs_id.
  apply respects_bind; try apply _; [apply respects_get_self; apply _|intros b].
  apply respects_bind; try apply _.
  { unfold _get_or_create_job_definition. apply adds_retry; [exact Hsl|].
    apply respects_bind; try apply _; [apply respects_get_self; apply _|intros b'].
    destruct (job_definition b'); [apply respects_ret; apply _|].
    apply respects_bind; try apply _; [apply adds_call|intros name].
    apply respects_bind; try apply _; [apply adds_client_call; intros; apply Hreg|].
    intros arn. apply respects_bind; try apply _; [apply adds_modify_self|].
    intros _. apply respects_ret; apply _. }
  intros definition.
  apply respects_bind; try apply _; [apply adds_client_call; intros; apply Hsub|].
  intros aws_id.
  apply respects_bind; try apply _; [apply adds_modify_self|intros _].
  apply respects_bind; try apply _; [apply adds_modify_self|intros _].
  apply respects_bind; try apply _; [apply adds_log; apply Hrec|intros _].
  apply respects_ret; apply _.
Qed.

Lemma adds_getUpdatedBatchJob_only (P : event -> Prop) fuel maxWait :
  (forall ids r, P (EvDescribe ids r)) ->
  (forall now d, P (EvSleep now d)) ->
  (forall a b, P (EvDropped a b)) ->
  (forall a info, P (EvUpdated a info)) ->
  respects (@adds W P) (getUpdatedBatchJob fuel maxWait).
Proof.
  intros Hd Hs Hdr Hu. unfold getUpdatedBatchJob.
  apply respects_bind; try apply _; [apply respects_get_world; apply _|intros entry].
  induction fuel as [|fuel IH]; simpl; [apply respects_out_of_fuel; apply _|].
  apply respects_bind; try apply _; [apply respects_get_world; apply _|intros now].
  destruct (Qlt_bool (now - entry) (inject_Z maxWait) || (maxWait =? 0)%Z);
    [|apply respects_ret; apply _].
  apply respects_bind; try apply _; [apply adds_call|].
  intros [result|]; [apply respects_ret; apply _|].
  apply respects_bind; try apply _; [now apply poll_remote_adds|].
  intros [info|]; [apply respects_ret; apply _|].
  destruct (negb (maxWait =? 0)%Z); [|apply respects_ret; apply _].
  apply respects_bind; try apply _; [apply adds_sleep; auto|auto].
Qed.

Lemma adds_killBatchJobs_only (P : event -> Prop) fuel job_ids :
  (forall a r, P (EvTerminate a r)) ->
  (forall ids r, P (EvDescribe ids r)) ->
  (forall now d, P (EvSleep now d)) ->
  respects (@adds W P) (killBatchJobs fuel job_ids).
Proof.
  intros Ht Hd Hs. unfold killBatchJobs.
  apply respects_bind; try apply _; [apply adds_call|intros _].
  apply respects_bind; try apply _.
  - apply respects_for; try apply _. intros bs.
    apply respects_bind; try apply _; [apply respects_get_self; apply _|intros b].
    destruct (Dict.get bs (bs_id_to_aws_id b));
      [now apply adds_try_terminate_only|apply respects_ret; apply _].
  - intros _. apply respects_for; try apply _. intros bs.
    apply respects_bind; try apply _; [apply respects_get_self; apply _|intros b].
    destruct (Dict.get bs (bs_id_to_aws_id b));
      [now apply adds_wait_until_stopped_only|apply respects_ret; apply _].
Qed.

Lemma adds_shutdown_only (P : event -> Prop) :
  (forall a r, P (EvTerminate a r)) ->
  (forall arn r, P (EvDeregister arn r)) ->
  (forall now d, P (EvSleep now d)) ->
  respects (@adds W P) shutdown.
Proof.
  intros Ht Hd Hs. unfold shutdown.
  apply respects_bind; try apply _; [apply adds_call|intros _].
  apply respects_bind; try apply _; [apply respects_get_self; apply _|intros b].
  apply respects_bind; try apply _.
  - apply respects_for; try apply _. intros a. now apply adds_try_terminate_only.
  - intros _. unfold _destroy_job_definition. apply adds_retry; [exact Hs|].
    apply respects_bind; try apply _; [apply respects_get_self; apply _|intros b'].
    destruct (job_definition b'); [|apply respects_ret; apply _].
    apply respects_bind; try apply _; [apply adds_client_call; intros; apply Hd|].
    intros _. apply adds_modify_self.
Qed.

(** What a call never does: [issueBatchJob] only registers a job
    definition, submits and waits between retried attempts, it never
    describes, cancels or deregisters; [getUpdatedBatchJob] only describes
    and sleeps, besides dropping records and returning a completion, it
    never submits, cancels, registers or deregisters; the requests of
    [getRunningBatchJobIDs] are describe calls only; [killBatchJobs] only
    cancels, describes and sleeps; [shutdown] only cancels, deregisters and
    sleeps. *)
Theorem calls_keep_to_their_requests (c : api_call) (s : state W) :
  exists t, trace (run_call c s) = trace s ++ t /\ Forall (may_add c) t.
Proof.
  destruct c as [job_desc job_environment|fuel maxWait| |fuel job_ids|]; simpl.
  - apply (adds_issueBatchJob_only (may_add (IssueBatchJob job_desc job_environment)));
      intros; exact I.
  - apply (adds_getUpdatedBatchJob_only (may_add (GetUpdatedBatchJob fuel maxWait)));
      intros; exact I.
  - unfold getRunningBatchJobIDs, bind, get_self.
    apply (adds_running_batches_only (may_add GetRunningBatchJobIDs)); intros; exact I.
  - apply (adds_killBatchJobs_only (may_add (KillBatchJobs fuel job_ids)));
      intros; exact I.
  - apply (adds_shutdown_only (may_add Shutdown)); intros; exact I.
Qed.

End MayAdd.

(** ** Records are dropped only for returned or cancelled jobs *)

Section Drops.
Context {W : Type} `{Backend W}.

Global Instance calm_preorder : PreOrder (@calm W).
Proof.
  split.
  - intros s. exists []. rewrite app_nil_r. split; auto.
  - intros s1 s2 s3 (t1 & Ht1 & Hn1 & Hk1) (t2 & Ht2 & Hn2 & Hk2).
    exists (t1 ++ t2). split; [rewrite Ht2, Ht1, app_assoc; reflexivity|].
    split; [apply Forall_app; auto|].
    intros a Ha. destruct (Hk2 a Ha) as [Ha2|(r & Hr)].
    + destruct (Hk1 a Ha2) as [Ha1|(r & Hr)]; auto.
      right. exists r. apply in_app_iff. auto.
    + right. exists r. apply in_app_iff. auto.
Qed.

Global Instance keeps_drops_preorder : PreOrder (@keeps_drops W).
Proof.
  split.
  - intros s Hs. exact Hs.
  - intros s1 s2 s3 H12 H23 Hs. auto.
Qed.

(** A step that leaves the killed flags alone and drops nothing. *)
Lemma calm_same_flags (s s' : state W) (t : list event) :
  trace s' = trace s ++ t ->
  Forall (fun e => ~ is_dropped e) t ->
  killed_job_aws_ids (self s') = killed_job_aws_ids (self s) ->
  calm s s'.
Proof.
  intros Ht Hn Hk. exists t. split; auto. split; auto.
  intros a. rewrite Hk. auto.
Qed.

Lemma calm_call {A} (f : W -> (exn + A) * W) : respects (@calm W) (call f).
Proof.
  intros s. apply (calm_same_flags _ _ []); [rewrite app_nil_r| |];
    try (unfold call; destruct (f (world s)) as [[e|a] w]; reflexivity). constructor.
Qed.

Lemma calm_client_call {A} (f : W -> (exn + A) * W) (ev : exn + A -> event) :
  (forall r, ~ is_dropped (ev r)) -> respects (@calm W) (client_call f ev).
Proof.
  intros Hev s. unfold client_call.
  destruct (f (world s)) as [[e|a] w]; simpl;
    (eapply calm_same_flags; [reflexivity|repeat constructor; apply Hev|reflexivity]).
Qed.

Lemma calm_sleep d : respects (@calm W) (sleep d).
Proof.
  intros s. eapply calm_same_flags; [reflexivity| |reflexivity].
  repeat constructor. simpl. tauto.
Qed.

Lemma calm_log e : ~ is_dropped e -> respects (@calm W) (log e).
Proof.
  intros He s. eapply calm_same_flags; [reflexivity| |reflexivity].
  repeat constructor. exact He.
Qed.

Lemma calm_modify_self f :
  (forall b, killed_job_aws_ids (f b) = killed_job_aws_ids b) ->
  respects (@calm W) (modify_self f).
Proof.
  intros Hf s. apply (calm_same_flags _ _ []); [simpl; now rewrite app_nil_r|constructor|].
  simpl. apply Hf.
Qed.

(** One attempt of a cancel, as a whole: the flag and the call. *)
Lemma calm_try_terminate aws_id : respects (@calm W) (_try_terminate aws_id).
Proof.
  unfold _try_terminate. apply respects_retry; try apply _; [apply calm_sleep|].
  intros s. unfold bind, modify_self, client_call. simpl.
  destruct (client_terminate_job aws_id "Killed by Toil" (world s)) as [[e|[]] w]; simpl.
  - exists [EvTerminate aws_id (inl e)]. split; [reflexivity|].
    split; [repeat constructor; simpl; tauto|].
    intros a. simpl. rewrite elem_of_union, elem_of_singleton.
    intros [Ha| ->]; [now left|right; eexists; now left].
  - exists [EvTerminate aws_id (inr tt)]. split; [reflexivity|].
    split; [repeat constructor; simpl; tauto|].
    intros a. simpl. rewrite elem_of_union, elem_of_singleton.
    intros [Ha| ->]; [now left|right; eexists; now left].
Qed.

Ltac calm_step :=
  first
    [ apply respects_ret; apply _
    | apply respects_raise; apply _
    | apply respects_out_of_fuel; apply _
    | apply respects_get_self; apply _
    | apply respects_get_world; apply _
    | apply calm_sleep
    | apply calm_call
    | apply calm_client_call; intros; simpl; tauto
    | apply calm_log; simpl; tauto
    | apply calm_modify_self; intros; reflexivity ].

Lemma calm_wait_until_stopped fuel aws_id :
  respects (@calm W) (_wait_until_stopped fuel aws_id).
Proof.
  unfold _wait_until_stopped. apply respects_retry; try apply _; [apply calm_sleep|].
  induction fuel as [|fuel IH]; simpl; [calm_step|].
  apply respects_bind; try apply _; [calm_step|].
  intros [|job jobs]; [calm_step|].
  destruct (truthy_str (status job) && status_in job ["SUCCEEDED"; "FAILED"]);
    [calm_step|].
  apply respects_bind; try apply _; [calm_step|auto].
Qed.

Lemma calm_killBatchJobs fuel job_ids : respects (@calm W) (killBatchJobs fuel job_ids).
Proof.
  unfold killBatchJobs.
  apply respects_bind; try apply _; [calm_step|intros _].
  apply respects_bind; try apply _.
  - apply respects_for; try apply _. intros bs.
    apply respects_bind; try apply _; [calm_step|intros b].
    destruct (Dict.get bs (bs_id_to_aws_id b)); [apply calm_try_terminate|calm_step].
  - intros _. apply respects_for; try apply _. intros bs.
    apply respects_bind; try apply _; [calm_step|intros b].
    destruct (Dict.get bs (bs_id_to_aws_id b)); [apply calm_wait_until_stopped|calm_step].
Qed.

Lemma calm_shutdown : respects (@calm W) shutdown.
Proof.
  unfold shutdown.
  apply respects_bind; try apply _; [calm_step|intros _].
  apply respects_bind; try apply _; [calm_step|intros b].
  apply respects_bind; try apply _.
  - apply respects_for; try apply _. intros a. apply calm_try_terminate.
  - intros _. unfold _destroy_job_definition.
    apply respects_retry; try apply _; [apply calm_sleep|].
    apply respects_bind; try apply _; [calm_step|intros b'].
    destruct (job_definition b'); [|calm_step].
    apply respects_bind; try apply _; [calm_step|intros _; calm_step].
Qed.

Lemma calm_getRunningBatchJobIDs : respects (@calm W) getRunningBatchJobIDs.
Proof.
  intros s. unfold getRunningBatchJobIDs, bind, get_self.
  destruct (running_batches (describe_batches (self s)) [] s) as [o s'] eqn:Hrun.
  destruct (running_batches_run _ _ _ _ _ Hrun) as (Hself & t & Ht & Hall & _).
  simpl. eapply calm_same_flags; [exact Ht| |now rewrite Hself].
  eapply List.Forall_impl; [|exact Hall].
  intros e [He|He]; destruct e; simpl in *; tauto.
Qed.

Lemma calm_issueBatchJob job_desc job_environment :
  respects (@calm W) (issueBatchJob job_desc job_environment).
Proof.
  unfold issueBatchJob.
  apply respects_bind; try apply _; [calm_step|].
  intros [local_id|]; [calm_step|].
  apply respects_bind; try apply _; [calm_step|intros _].
  apply respects_bind; try apply _.
  { unfold getNextJobID. apply respects_bind_self; try apply _. intros s.
    apply (calm_same_flags _ _ []); [simpl; now rewrite app_nil_r|constructor|reflexivity]. }
  intros bs_id.
  apply respects_bind; try apply _; [calm_step|intros b].
  apply respects_bind; try apply _.
  { unfold _get_or_create_job_definition.
    apply respects_retry; try apply _; [apply calm_sleep|].
    apply respects_bind; try apply _; [calm_step|intros b'].
    destruct (job_definition b'); [calm_step|].
    apply respects_bind; try apply _; [calm_step|intros name].
    apply respects_bind; try apply _; [calm_step|intros arn].
    apply respects_bind; try apply _; [calm_step|intros _; calm_step]. }
  intros definition.
  apply respects_bind; try apply _; [calm_step|intros aws_id].
  apply respects_bind; try apply _; [calm_step|intros _].
  apply respects_bind; try apply _; [calm_step|intros _].
  apply respects_bind; try apply _; [calm_step|intros _; calm_step].
Qed.

Lemma cancel_requests_app (t1 t2 : list event) :
  cancel_requests (t1 ++ t2) = cancel_requests t1 ++ cancel_requests t2.
Proof.
  induction t1 as [|e t1 IH]; simpl; auto.
  destruct e; simpl; auto. now rewrite IH.
Qed.

Lemma in_cancel_requests (t : list event) (a : string) :
  In a (cancel_requests t) <-> exists r, In (EvTerminate a r) t.
Proof.
  induction t as [|e t IH]; simpl.
  - split; [intros []|intros (r & [])].
  - destruct e; simpl; rewrite ?IH;
      try (split; [intros (r0 & Hr); exists r0; auto
                  |intros (r0 & [Hr|Hr]); [discriminate Hr|exists r0; auto]]).
    split.
    + intros [->|(r0 & Hr)]; [eexists; left; reflexivity|exists r0; auto].
    + intros (r0 & [[= -> _]|Hr]); [now left|right; eauto].
Qed.

Lemma explained_app (t1 : list event) :
  forall (cancelled : list string) (t2 : list event),
    explained cancelled t1 -> explained (cancelled ++ cancel_requests t1) t2 ->
    explained cancelled (t1 ++ t2).
Proof.
  induction t1 as [|e t1 IH]; intros cancelled t2 H1 H2.
  - simpl in *. now rewrite app_nil_r in H2.
  - cbn [explained app] in *. destruct H1 as [He H1]. split.
    + destruct e; auto. destruct He as [He|(info & Hin & Hb)]; auto.
      right. exists info. split; auto. apply in_app_iff. auto.
    + apply IH; auto.
      replace ((cancelled ++ cancel_requests [e]) ++ cancel_requests t1)
        with (cancelled ++ cancel_requests (e :: t1)); auto.
      rewrite <- app_assoc. f_equal.
      change (e :: t1) with ([e] ++ t1). now rewrite cancel_requests_app.
Qed.

Lemma explained_mono (t : list event) :
  forall (c c' : list string),
    (forall a, In a c -> In a c') -> explained c t -> explained c' t.
Proof.
  induction t as [|e t IH]; intros c c' Hsub; simpl; auto.
  intros [He Ht]. split.
  - destruct e; auto. destruct He; auto.
  - apply (IH (c ++ cancel_requests [e])); auto.
    intros a. rewrite !in_app_iff. intros [Ha|Ha]; auto.
Qed.

Lemma explained_no_drops (t : list event) :
  forall cancelled, Forall (fun e => ~ is_dropped e) t -> explained cancelled t.
Proof.
  induction t as [|e t IH]; intros cancelled Hall; simpl; auto.
  inversion Hall as [|e' t' He Ht]; subst. split; auto.
  destruct e; auto. destruct He. exact I.
Qed.

(** Records dropped for jobs that were cancelled. *)
Lemma explained_drops_of_cancelled (done : list (string * Z)) :
  forall (cancelled : list string) (t : list event),
    (forall a b, In (a, b) done -> In a cancelled) ->
    explained cancelled t ->
    explained cancelled (map (fun p => EvDropped (fst p) (snd p)) done ++ t).
Proof.
  induction done as [|[a b] done IH]; intros cancelled t Hdone Ht; simpl; auto.
  split; [left; apply (Hdone a b); now left|].
  rewrite app_nil_r. apply IH; auto. intros a' b' Hin. apply (Hdone a' b'). now right.
Qed.

Lemma calm_keeps_drops (s s' : state W) :
  calm s s' -> (registry_ok s -> registry_ok s') -> keeps_drops s s'.
Proof.
  intros (t & Ht & Hn & Hk) Hok' (Hok & Hflags & Hdrops).
  split; [auto|]. split.
  - intros a Ha. rewrite Ht, cancel_requests_app, in_app_iff.
    destruct (Hk a Ha) as [Ha0|Hr]; [left; auto|].
    right. now apply in_cancel_requests.
  - rewrite Ht. apply explained_app; auto. now apply explained_no_drops.
Qed.

Lemma polled_keeps_drops (s s' : state W) r : polled s s' r -> keeps_drops s s'.
Proof.
  intros Hp (Hok & Hflags & Hdrops).
  pose proof (proj1 (polled_keeps_once s s' r Hok Hp) Hok) as Hok'.
  split; [exact Hok'|].
  destruct Hp as (s1 & s2 & done & Hframe & Hself & Hdescr & Hdrop & _ & Hres).
  destruct (dropped_world_trace _ _ _ Hdrop) as (_ & Ht2 & _).
  destruct Hframe as (_ & _ & _ & _ & t1 & Ht1 & Hq1).
  assert (Hk2 : forall a, a ∈ killed_job_aws_ids (self s2) ->
                          In a (cancel_requests (trace s))).
  { intros a Ha. apply (dropped_killed s1 s2 done a Hdrop) in Ha as [Ha _].
    rewrite Hself in Ha. auto. }
  assert (H1 : explained [] (trace s1)).
  { rewrite Ht1. apply explained_app; auto. apply explained_no_drops.
    eapply List.Forall_impl; [|exact Hq1]. intros e He Hd. destruct e; auto. }
  assert (Hsub : forall a, In a (cancel_requests (trace s)) ->
                           In a ([] ++ cancel_requests (trace s1))).
  { intros a Ha. simpl. rewrite Ht1, cancel_requests_app, in_app_iff. auto. }
  destruct Hres as [(-> & _ & Hkilled)|(a & info & pre & jd & w & _ & -> & -> & Hpre & _)].
  - split.
    + intros a Ha. rewrite Ht2, Ht1, !cancel_requests_app, !in_app_iff. auto.
    + rewrite Ht2. apply explained_app; auto.
      rewrite <- (app_nil_r (map _ done)).
      apply explained_drops_of_cancelled; [|exact I].
      intros a b Hin. apply Hsub, Hflags, (Hkilled a b Hin).
  - simpl. split.
    + intros a' Ha. rewrite Ht2, Ht1, !cancel_requests_app, !in_app_iff. auto.
    + rewrite Ht2, <- app_assoc. apply explained_app; auto.
      rewrite map_app, <- app_assoc.
      apply explained_drops_of_cancelled.
      * intros a' b' Hin. apply Hsub, Hflags, (Hpre a' b' Hin).
      * simpl. split; [|split; exact I].
        right. exists info. split; [now left|reflexivity].
Qed.

Lemma poll_remote_keeps_drops : respects (@keeps_drops W) poll_remote.
Proof.
  intros s Hinv. pose proof Hinv as (Hok & _).
  eapply polled_keeps_drops; eauto. now apply poll_remote_polled.
Qed.

Lemma respects_calm_keeps_drops {A} (m : M W A) :
  respects (@calm W) m -> respects (@frame W) m -> respects (@keeps_drops W) m.
Proof.
  intros Hc Hf s. apply calm_keeps_drops; [apply Hc|].
  intros Hok. eapply registry_ok_frame; eauto.
Qed.

Lemma getUpdatedBatchJob_keeps_drops fuel maxWait :
  respects (@keeps_drops W) (getUpdatedBatchJob fuel maxWait).
Proof.
  unfold getUpdatedBatchJob.
  apply respects_bind; try apply _; [apply respects_get_world; apply _|intros entry].
  induction fuel as [|fuel IH]; simpl.
  - apply respects_out_of_fuel; apply _.
  - apply respects_bind; try apply _; [apply respects_get_world; apply _|intros now].
    destruct (Qlt_bool (now - entry) (inject_Z maxWait) || (maxWait =? 0)%Z);
      [|apply respects_ret; apply _].
    apply respects_bind; try apply _.
    { apply respects_calm_keeps_drops; [apply calm_call|apply frame_call]. }
    intros [result|]; [apply respects_ret; apply _|].
    apply respects_bind; try apply _; [apply poll_remote_keeps_drops|].
    intros [info|]; [apply respects_ret; apply _|].
    destruct (negb (maxWait =? 0)%Z); [|apply respects_ret; apply _].
    apply respects_bind; try apply _; auto.
    apply respects_calm_keeps_drops; [apply calm_sleep|apply frame_sleep].
Qed.

Lemma run_keeps_drops (calls : list api_call) (s : state W) :
  keeps_drops s (run calls s).
Proof.
  revert s. induction calls as [|c calls IH]; intros s; simpl.
  - reflexivity.
  - etransitivity; [|apply IH]. destruct c; simpl.
    + apply calm_keeps_drops; [apply calm_issueBatchJob|].
      apply (run_call_keeps_once (IssueBatchJob job_desc job_environment) s).
    + apply getUpdatedBatchJob_keeps_drops.
    + apply respects_calm_keeps_drops;
        [apply calm_getRunningBatchJobIDs|apply frame_getRunningBatchJobIDs].
    + apply respects_calm_keeps_drops; [apply calm_killBatchJobs|apply frame_killBatchJobs].
    + apply respects_calm_keeps_drops; [apply calm_shutdown|apply frame_shutdown].
Qed.

(** Whatever the scheduler calls and whatever the backend answers, no
    completion is lost: whenever the records of a job are dropped, a cancel
    call had been made for that job, or the completion of that job is
    returned afterwards; and a job is flagged as killed only with a cancel
    call for it. *)
Theorem records_dropped_for_a_reason (cfg : Settings) (w : W) (calls : list api_call) :
  let s := run calls (init cfg w) in
  explained [] (trace s) /\
  forall a, a ∈ killed_job_aws_ids (self s) -> exists r, In (EvTerminate a r) (trace s).
Proof.
  intros s.
  destruct (run_keeps_drops calls (init cfg w)) as (_ & Hflags & Hdrops).
  { split; [apply registry_ok_init|]. split.
    - intros a Ha. simpl in Ha. set_solver.
    - exact I. }
  split; [exact Hdrops|].
  intros a Ha. now apply in_cancel_requests, Hflags.
Qed.

End Drops.

(** ** Killing jobs: the snapshot after the kill *)

Section KillConfirmation.
Context {W : Type} `{Backend W}.




End KillConfirmation.

Section KillTheorem.
Context {W : Type} `{Backend W}.


End KillTheorem.

(** The lifecycle backend satisfies the assumption of kill confirmation,
    although it knows nothing of a job before its submission. *)
Module LifecycleFacts.




End LifecycleFacts.


(** ** A pass of remote polling, by its result *)

Section PassExact.
Context {W : Type} `{Backend W}.

Lemma acknowledged_as_killed_mono b details new new' :
  (forall p, In p new -> In p new') ->
  acknowledged_as_killed b details new -> acknowledged_as_killed b details new'.
Proof.
  intros Hsub Hall jd Hin Hterm. destruct (Hall jd Hin Hterm) as (Hk & bs & Hg & Hn).
  split; auto. exists bs. split; auto.
Qed.

Lemma acknowledged_as_killed_app b d1 d2 new :
  acknowledged_as_killed b d1 new -> acknowledged_as_killed b d2 new ->
  acknowledged_as_killed b (d1 ++ d2) new.
Proof.
  intros H1 H2 jd Hin. apply in_app_iff in Hin as [Hin|Hin]; auto.
Qed.

Lemma reconcile_exact (b : AWSBatchBatchSystem) (now_ms : Z) (details : list JobDetail) :
  forall acks o acks',
    reconcile b now_ms details acks = (o, acks') ->
    exists new,
      acks' = acks ++ new /\
      match o with
      | Ret None => acknowledged_as_killed b details new
      | Ret (Some (a, info)) =>
          exists d1 jd d2,
            details = d1 ++ jd :: d2 /\
            jobId jd = a /\ terminal jd /\
            (a ∉ killed_job_aws_ids b) /\
            Dict.get a (aws_id_to_bs_id b) = Some (jobID info) /\
            composed now_ms (jobID info) jd info /\
            acknowledged_as_killed b d1 new
      | _ => True
      end.
Proof.
  induction details as [|jd rest IH]; intros acks o acks'; cbn [reconcile].
  - intros [= <- <-]. exists []. rewrite app_nil_r. split; [reflexivity|].
    intros jd [].
  - destruct (status_in jd ["SUCCEEDED"; "FAILED"]) eqn:Hst.
    + apply status_in_terminal in Hst.
      destruct (Dict.get (jobId jd) (aws_id_to_bs_id b)) as [bs_id|] eqn:Hget.
      * destruct (bool_decide (jobId jd ∈ killed_job_aws_ids b)) eqn:Hk.
        -- apply bool_decide_eq_true in Hk. intros Hrec.
           apply IH in Hrec as (new & -> & Ho).
           exists ((jobId jd, bs_id) :: new). rewrite <- app_assoc. simpl.
           split; [reflexivity|].
           assert (Hhere : acknowledged_as_killed b [jd] ((jobId jd, bs_id) :: new)).
           { intros jd' [<-|[]] _. split; auto. exists bs_id. split; auto. now left. }
           destruct o as [[[a info]|]|e|]; auto.
           ++ destruct Ho as (d1 & jd' & d2 & -> & Hid & Hterm & Hnk & Hg & Hc & Hall).
              exists (jd :: d1), jd', d2. split; [reflexivity|].
              repeat (split; [assumption|]).
              apply (acknowledged_as_killed_app b [jd] d1); auto.
              eapply acknowledged_as_killed_mono; [|exact Hall].
              intros p Hp. now right.
           ++ apply (acknowledged_as_killed_app b [jd] rest); auto.
              eapply acknowledged_as_killed_mono; [|exact Ho].
              intros p Hp. now right.
        -- apply bool_decide_eq_false in Hk.
           destruct (terminal_exit_reason jd Hst) as [r Hr]. rewrite Hr.
           intros [= <- <-].
           exists [(jobId jd, bs_id)]. split; [reflexivity|].
           exists [], jd, rest. simpl. split; [reflexivity|].
           split; [reflexivity|]. split; [exact Hst|]. split; [exact Hk|].
           split; [exact Hget|]. split; [repeat split; auto|].
           intros jd' [].
      * intros [= <- <-]. exists []. rewrite app_nil_r. split; [reflexivity|exact I].
    + intros Hrec. apply IH in Hrec as (new & -> & Ho).
      exists new. split; [reflexivity|].
      assert (Hhere : acknowledged_as_killed b [jd] new).
      { intros jd' [<-|[]] Hterm. apply status_in_terminal in Hterm. congruence. }
      destruct o as [[[a info]|]|e|]; auto.
      * destruct Ho as (d1 & jd' & d2 & -> & Hid & Hterm & Hnk & Hg & Hc & Hall).
        exists (jd :: d1), jd', d2. split; [reflexivity|].
        repeat (split; [assumption|]).
        apply (acknowledged_as_killed_app b [jd] d1); auto.
      * apply (acknowledged_as_killed_app b [jd] rest); auto.
Qed.

Lemma describe_requests_cons_describe ids r (t : list event) :
  describe_requests (EvDescribe ids r :: t) = ids :: describe_requests t.
Proof. reflexivity. Qed.

Lemma described_cons_describe ids details (t : list event) :
  described (EvDescribe ids (inr details) :: t) = details ++ described t.
Proof. reflexivity. Qed.

Lemma poll_batches_exact (batches : list (list string)) :
  forall acks (s : state W) o acks' s',
    poll_batches batches acks s = ((o, acks'), s') ->
    exists t new,
      trace s' = trace s ++ t /\
      acks' = acks ++ new /\
      match o with
      | Ret None =>
          describe_requests t = batches /\
          acknowledged_as_killed (self s) (described t) new
      | Ret (Some (a, info)) =>
          exists d1 jd d2,
            described t = d1 ++ jd :: d2 /\
            jobId jd = a /\ terminal jd /\
            (a ∉ killed_job_aws_ids (self s)) /\
            Dict.get a (aws_id_to_bs_id (self s)) = Some (jobID info) /\
            composed (unix_now_ms (world s')) (jobID info) jd info /\
            acknowledged_as_killed (self s) d1 new
      | _ => True
      end.
Proof.
  induction batches as [|cb rest IH]; intros acks s o acks' s'; cbn [poll_batches].
  - intros [= <- <- <-]. exists [], []. rewrite !app_nil_r.
    split; [reflexivity|]. split; [reflexivity|]. split; [reflexivity|].
    intros jd [].
  - unfold client_call.
    destruct (client_describe_jobs cb (world s)) as [[e|details] w] eqn:Hd.
    + intros [= <- <- <-]. simpl. exists [EvDescribe cb (inl e)], []. rewrite app_nil_r.
      split; [reflexivity|]. split; [reflexivity|exact I].
    + cbn [self world trace].
      destruct (reconcile (self s) (unix_now_ms w) details acks) as [o1 acks1] eqn:Hrec.
      apply reconcile_exact in Hrec as (new1 & -> & Ho1).
      destruct o1 as [[[a info]|]|e|].
      * intros [= <- <- <-]. simpl.
        exists [EvDescribe cb (inr details)], new1.
        split; [reflexivity|]. split; [reflexivity|].
        destruct Ho1 as (d1 & jd & d2 & -> & Ho1).
        exists d1, jd, d2. split; [|exact Ho1].
        rewrite described_cons_describe. apply app_nil_r.
      * intros Hrest. apply IH in Hrest as (t & new & Ht & -> & Ho).
        simpl in Ht, Ho.
        exists (EvDescribe cb (inr details) :: t), (new1 ++ new).
        split; [rewrite Ht, <- app_assoc; reflexivity|].
        split; [now rewrite app_assoc|].
        assert (H1 : acknowledged_as_killed (self s) details (new1 ++ new)).
        { eapply acknowledged_as_killed_mono; [|exact Ho1].
          intros p Hp. apply in_app_iff. auto. }
        destruct o as [[[a info]|]|e|]; auto.
        -- destruct Ho as (d1 & jd & d2 & Hdesc & Hid & Hterm & Hnk & Hg & Hc & Hall).
           exists (details ++ d1), jd, d2.
           split; [rewrite described_cons_describe, Hdesc, <- app_assoc; reflexivity|].
           repeat (split; [assumption|]).
           apply acknowledged_as_killed_app; auto.
           eapply acknowledged_as_killed_mono; [|exact Hall].
           intros p Hp. apply in_app_iff. auto.
        -- destruct Ho as [Hreq Hall]. split.
           ++ rewrite describe_requests_cons_describe. now rewrite Hreq.
           ++ rewrite described_cons_describe. apply acknowledged_as_killed_app; auto.
              eapply acknowledged_as_killed_mono; [|exact Hall].
              intros p Hp. apply in_app_iff. auto.
      * intros [= <- <- <-]. simpl.
        exists [EvDescribe cb (inr details)], new1.
        split; [reflexivity|]. split; [reflexivity|exact I].
      * intros [= <- <- <-]. simpl.
        exists [EvDescribe cb (inr details)], new1.
        split; [reflexivity|]. split; [reflexivity|exact I].
Qed.

Lemma describe_requests_dropped (done : list (string * Z)) :
  describe_requests (map (fun p => EvDropped (fst p) (snd p)) done) = [].
Proof. induction done; simpl; auto. Qed.

Lemma described_dropped (done : list (string * Z)) :
  described (map (fun p => EvDropped (fst p) (snd p)) done) = [].
Proof. induction done; simpl; auto. Qed.

Lemma in_dropped_events (done : list (string * Z)) a b :
  In (a, b) done -> In (EvDropped a b) (map (fun p => EvDropped (fst p) (snd p)) done).
Proof. intros Hin. apply in_map_iff. exists (a, b). auto. Qed.

Lemma no_update_in_pass (t : list event) (done : list (string * Z)) a info :
  Forall is_describe t ->
  ~ In (EvUpdated a info) (t ++ map (fun p => EvDropped (fst p) (snd p)) done).
Proof.
  intros Hdesc Hin. apply in_app_iff in Hin as [Hin|Hin].
  - rewrite List.Forall_forall in Hdesc. apply Hdesc in Hin. destruct Hin.
  - apply in_map_iff in Hin as (p & Hp & _). discriminate.
Qed.

(** What a pass of remote polling that returns has done. *)
Lemma poll_remote_exact (s : state W) (r : option UpdatedBatchJobInfo) (s' : state W) :
  registry_ok s ->
  poll_remote s = (Ret r, s') ->
  pass_outcome s s' r.
Proof.
  intros Hok. unfold poll_remote.
  destruct (poll_batches (describe_batches (self s)) [] s) as [[o acks] s1] eqn:Hpb.
  pose proof Hpb as Hpb'.
  apply poll_batches_spec in Hpb as (Hself & t & Ht & Hdesc & new & Hacks & Hnew & Ho).
  apply poll_batches_exact in Hpb' as (t' & new' & Ht' & Hacks' & Hex).
  simpl in Hacks, Hacks'. subst acks. subst new'.
  assert (t' = t) as -> by (rewrite Ht in Ht'; now apply app_inv_head in Ht').
  clear Ht'.
  assert (Hframe : frame s s1).
  { unfold frame. rewrite Hself. repeat split; auto.
    exists t. split; auto. now apply is_describe_quiet. }
  assert (Hok1 : registry_ok s1) by (eapply registry_ok_frame; eauto).
  destruct (drop_acknowledged_spec new s1 Hok1) as (done & rest & Hsplit & Hdrop & Hout).
  { intros a bs Hin. right. rewrite Hself. apply Hnew. auto. }
  destruct (drop_acknowledged new s1) as [od s2]. simpl in Hdrop, Hout.
  destruct Hout as [[-> ->]|[-> _]]; [|discriminate].
  rewrite app_nil_r in Hsplit. subst done.
  destruct (dropped_world_trace _ _ _ Hdrop) as (Hw2 & Ht2 & _).
  assert (Hgone : forall a b, In (a, b) new ->
            Dict.get a (aws_id_to_bs_id (self s2)) = None /\
            Dict.get b (bs_id_to_aws_id (self s2)) = None /\
            a ∉ killed_job_aws_ids (self s2)).
  { intros a b Hin.
    assert (In a (map fst new)) by (change a with (fst (a, b)); now apply in_map).
    assert (In b (map snd new)) by (change b with (snd (a, b)); now apply in_map).
    split; [now apply (dropped_aws s1 s2 new a Hdrop)|].
    split; [now apply (dropped_bs s1 s2 new b Hdrop)|].
    rewrite (dropped_killed s1 s2 new a Hdrop). tauto. }
  set (drops := map (fun p => EvDropped (fst p) (snd p)) new) in *.
  assert (Hsupp : forall (s3 : state W) (t3 : list event) details,
            self s3 = self s2 ->
            new_events s s3 = (t ++ drops) ++ t3 ->
            (forall jd info, In jd details -> jobId jd ∈ killed_job_aws_ids (self s) ->
                             ~ In (EvUpdated (jobId jd) info) t3) ->
            acknowledged_as_killed (self s) details new ->
            forall jd, In jd details -> terminal jd -> report_suppressed s s3 jd).
  { intros s3 t3 details Hself3 Hnew3 Hno3 Hall jd Hin Hterm.
    destruct (Hall jd Hin Hterm) as (Hk & bs & Hg & Hn).
    split; [exact Hk|]. exists bs. split; [exact Hg|].
    rewrite Hnew3, Hself3. split.
    { apply in_app_iff. left. apply in_app_iff. right. now apply in_dropped_events. }
    split.
    { intros info Hu. apply in_app_iff in Hu as [Hu|Hu].
      - now apply (no_update_in_pass t new (jobId jd) info Hdesc).
      - now apply (Hno3 jd info Hin Hk). }
    now apply Hgone. }
  destruct o as [[[a info]|]|e|]; try discriminate.
  - unfold bind, log, ret. intros [= <- <-].
    destruct Hex as (d1 & jd & d2 & Hdescribed & Hid & Hterm & Hnk & Hg & Hc & Hall).
    destruct Ho as (pre & _ & _ & Hpre & _).
    assert (Hin_new : In (a, jobID info) new).
    { rewrite Hpre. apply in_app_iff. right. now left. }
    assert (Hev : new_events s {| world := world s2; self := self s2;
                                  trace := trace s2 ++ [EvUpdated a info] |}
                  = (t ++ drops) ++ [EvUpdated a info]).
    { unfold new_events. simpl. rewrite Ht2, Ht, <- !app_assoc. apply drop_app_length. }
    unfold pass_outcome. rewrite Hev. subst a.
    exists d1, jd, d2, (t ++ drops). simpl.
    split.
    { rewrite !described_app. unfold drops. rewrite described_dropped.
      simpl. now rewrite !app_nil_r. }
    split; [reflexivity|].
    split.
    { rewrite updated_ids_app, (updated_ids_describes t Hdesc). unfold drops.
      now rewrite updated_ids_dropped. }
    split; [exact Hterm|]. split; [exact Hnk|]. split; [exact Hg|].
    split; [rewrite Hw2; exact Hc|].
    split.
    { apply in_app_iff. right. now apply in_dropped_events. }
    destruct (Hgone _ _ Hin_new) as (Ha & Hb & _).
    split; [exact Ha|]. split; [exact Hb|].
    apply (Hsupp _ [EvUpdated (jobId jd) info] d1); auto.
    intros jd' info' Hin' Hk' [[= Heq _]|[]]. rewrite <- Heq in Hk'. contradiction.
  - intros [= <- <-].
    assert (Hev : new_events s s2 = (t ++ drops) ++ []).
    { unfold new_events. rewrite Ht2, Ht, <- !app_assoc, app_nil_r. apply drop_app_length. }
    destruct Hex as [Hreq Hall].
    unfold pass_outcome. rewrite Hev, app_nil_r. split.
    { rewrite describe_requests_app. unfold drops.
      now rewrite describe_requests_dropped, app_nil_r. }
    split.
    { rewrite updated_ids_app, (updated_ids_describes t Hdesc). unfold drops.
      now rewrite updated_ids_dropped. }
    rewrite described_app. unfold drops at 1. rewrite described_dropped, app_nil_r.
    apply (Hsupp s2 [] (described t)); auto.
Qed.

End PassExact.

(** ** The completion returned for a terminal job detail *)

Section CompletionReturned.
Context {W : Type} `{Backend W}.

Lemma composed_specified (now_ms bs_id : Z) (jd : JobDetail) (info : UpdatedBatchJobInfo) :
  terminal jd -> composed now_ms bs_id jd info -> specified_completion now_ms jd info.
Proof.
  intros Hterm (_ & Hexit & Hwall & Hreason).
  split; [rewrite Hwall; now apply get_runtime_terminal|].
  split.
  { rewrite Hexit. unfold _get_exit_code.
    destruct (container jd) as [[[code|]]|]; reflexivity. }
  split; intros Hst; rewrite Hst in Hreason; simpl in Hreason; congruence.
Qed.

Lemma reconcile_skip (b : AWSBatchBatchSystem) (now_ms : Z) (d1 rest : list JobDetail) :
  (forall jd, In jd d1 -> ~ terminal jd) ->
  forall acks, reconcile b now_ms (d1 ++ rest) acks = reconcile b now_ms rest acks.
Proof.
  induction d1 as [|jd d1 IH]; intros Hnone acks; [reflexivity|].
  cbn [app reconcile].
  destruct (status_in jd ["SUCCEEDED"; "FAILED"]) eqn:Hst.
  - apply status_in_terminal in Hst. destruct (Hnone jd); auto. now left.
  - apply IH. intros jd' Hin. apply Hnone. now right.
Qed.

Lemma reconcile_none (b : AWSBatchBatchSystem) (now_ms : Z) (details : list JobDetail) :
  (forall jd, In jd details -> ~ terminal jd) ->
  forall acks, reconcile b now_ms details acks = (Ret None, acks).
Proof.
  intros Hnone acks. rewrite <- (app_nil_r details).
  now rewrite reconcile_skip.
Qed.

Lemma reconcile_completes (b : AWSBatchBatchSystem) (now_ms : Z)
    (jd : JobDetail) (rest : list JobDetail) (acks : list (string * Z)) (bs_id : Z) :
  terminal jd ->
  Dict.get (jobId jd) (aws_id_to_bs_id b) = Some bs_id ->
  jobId jd ∉ killed_job_aws_ids b ->
  exists info,
    reconcile b now_ms (jd :: rest) acks
      = (Ret (Some (jobId jd, info)), acks ++ [(jobId jd, bs_id)]) /\
    composed now_ms bs_id jd info.
Proof.
  intros Hterm Hget Hnk.
  destruct (terminal_exit_reason jd Hterm) as [reason Hreason].
  eexists. cbn [reconcile].
  rewrite (proj2 (status_in_terminal jd) Hterm), Hget.
  rewrite bool_decide_eq_false_2 by exact Hnk. rewrite Hreason.
  split; [reflexivity|]. repeat split; auto.
Qed.

Lemma reconcile_suppresses (b : AWSBatchBatchSystem) (now_ms : Z)
    (jd : JobDetail) (rest : list JobDetail) (acks : list (string * Z)) (bs_id : Z) :
  terminal jd ->
  Dict.get (jobId jd) (aws_id_to_bs_id b) = Some bs_id ->
  jobId jd ∈ killed_job_aws_ids b ->
  reconcile b now_ms (jd :: rest) acks
    = reconcile b now_ms rest (acks ++ [(jobId jd, bs_id)]).
Proof.
  intros Hterm Hget Hk. cbn [reconcile].
  rewrite (proj2 (status_in_terminal jd) Hterm), Hget.
  now rewrite bool_decide_eq_true_2 by exact Hk.
Qed.

(** One round of the [finally] block, for a registered pair. *)
Lemma drop_acknowledged_pair (a : string) (bs : Z) (acks : list (string * Z))
    (s : state W) :
  Dict.get a (aws_id_to_bs_id (self s)) = Some bs ->
  Dict.get bs (bs_id_to_aws_id (self s)) = Some a ->
  drop_acknowledged ((a, bs) :: acks) s = drop_acknowledged acks (drop_pair (a, bs) s).
Proof.
  intros Hsome Hb.
  simpl. unfold bind, get_self, put_self, Dict.del, Dict.mem, log, ret. simpl.
  rewrite Hsome. simpl. rewrite Hb. simpl.
  destruct (bool_decide (a ∈ killed_job_aws_ids (self s))) eqn:Hk; simpl.
  - reflexivity.
  - apply bool_decide_eq_false in Hk.
    assert (Heq : killed_job_aws_ids (self s) ∖ {[a]} = killed_job_aws_ids (self s)).
    { apply set_eq. intros x. rewrite elem_of_difference, elem_of_singleton.
      split; [tauto|]. intros Hx. split; auto. intros ->. contradiction. }
    unfold drop_pair. simpl. rewrite Heq.
    destruct s as [w [cfg jd m1 m2 k idx] t]; reflexivity.
Qed.

(** A pass over one batch whose answer holds, before any other terminal
    detail, a terminal detail of a registered job without the killed
    flag. *)
Lemma poll_remote_completes (s : state W) (batch : list string)
    (d1 : list JobDetail) (jd : JobDetail) (d2 : list JobDetail) (w2 : W) (bs_id : Z) :
  registry_ok s ->
  describe_batches (self s) = [batch] ->
  client_describe_jobs batch (world s) = (inr (d1 ++ jd :: d2), w2) ->
  (forall jd', In jd' d1 -> ~ terminal jd') ->
  terminal jd ->
  Dict.get (jobId jd) (aws_id_to_bs_id (self s)) = Some bs_id ->
  jobId jd ∉ killed_job_aws_ids (self s) ->
  exists info,
    composed (unix_now_ms w2) bs_id jd info /\
    poll_remote s =
      (Ret (Some info),
       {| world := w2;
          self := self (drop_pair (jobId jd, bs_id) s);
          trace := trace s ++ [EvDescribe batch (inr (d1 ++ jd :: d2));
                               EvDropped (jobId jd) bs_id;
                               EvUpdated (jobId jd) info] |}).
Proof.
  intros Hok Hbatch Hd Hnone Hterm Hget Hnk.
  destruct (reconcile_completes (self s) (unix_now_ms w2) jd d2 [] bs_id Hterm Hget Hnk)
    as (info & Hrec & Hc).
  exists info. split; [exact Hc|].
  unfold poll_remote. rewrite Hbatch. cbn [poll_batches].
  unfold client_call. rewrite Hd. cbn [self world trace].
  rewrite reconcile_skip by exact Hnone. rewrite Hrec. simpl app.
  rewrite drop_acknowledged_pair; simpl; auto.
  2: { now apply (ok_backed _ Hok). }
  unfold bind, log, ret. simpl. rewrite <- !app_assoc. reflexivity.
Qed.

(** The same pass when the only terminal detail of the answer is of a
    registered job that carries the killed flag. *)
Lemma poll_remote_suppresses_report (s : state W) (batch : list string)
    (d1 : list JobDetail) (jd : JobDetail) (d2 : list JobDetail) (w2 : W) (bs_id : Z) :
  registry_ok s ->
  describe_batches (self s) = [batch] ->
  client_describe_jobs batch (world s) = (inr (d1 ++ jd :: d2), w2) ->
  (forall jd', In jd' (d1 ++ d2) -> ~ terminal jd') ->
  terminal jd ->
  Dict.get (jobId jd) (aws_id_to_bs_id (self s)) = Some bs_id ->
  jobId jd ∈ killed_job_aws_ids (self s) ->
  poll_remote s =
    (Ret None,
     {| world := w2;
        self := self (drop_pair (jobId jd, bs_id) s);
        trace := trace s ++ [EvDescribe batch (inr (d1 ++ jd :: d2));
                             EvDropped (jobId jd) bs_id] |}).
Proof.
  intros Hok Hbatch Hd Hnone Hterm Hget Hk.
  unfold poll_remote. rewrite Hbatch. cbn [poll_batches].
  unfold client_call. rewrite Hd. cbn [self world trace].
  rewrite reconcile_skip by (intros jd' Hin; apply Hnone, in_app_iff; auto).
  rewrite (reconcile_suppresses _ _ _ _ _ bs_id) by auto.
  rewrite reconcile_none by (intros jd' Hin; apply Hnone, in_app_iff; auto).
  simpl app.
  rewrite drop_acknowledged_pair; simpl; auto.
  2: { now apply (ok_backed _ Hok). }
  unfold drop_pair. simpl. rewrite <- !app_assoc. reflexivity.
Qed.

(** The first pass of [getUpdatedBatchJob] when the local delegate has
    nothing. *)
Lemma getUpdatedBatchJob_first_pass (fuel : nat) (maxWait : Z) (s : state W) (w1 : W) :
  (0 <= maxWait)%Z ->
  getUpdatedLocalJob 0 (world s) = (inr None, w1) ->
  let s1 := {| world := w1; self := self s; trace := trace s |} in
  (forall info s', poll_remote s1 = (Ret (Some info), s') ->
                   getUpdatedBatchJob (S fuel) maxWait s = (Ret (Some info), s')) /\
  (forall s', maxWait = 0%Z -> poll_remote s1 = (Ret None, s') ->
              getUpdatedBatchJob (S fuel) maxWait s = (Ret None, s')).
Proof.
  intros Hpos Hlocal s1.
  assert (Henter : Qlt_bool (datetime_now (world s) - datetime_now (world s))
                      (inject_Z maxWait) || (maxWait =? 0)%Z = true).
  { destruct (Z.eq_dec maxWait 0%Z) as [->|Hne]; [apply orb_true_r|].
    rewrite Qlt_bool_self_positive by lia. reflexivity. }
  assert (Hstart : forall k : option UpdatedBatchJobInfo -> M W (option UpdatedBatchJobInfo),
            getUpdatedBatchJob (S fuel) maxWait s =
            match poll_remote s1 with
            | (Ret (Some info), s2) => (Ret (Some info), s2)
            | (Ret None, s2) =>
                (if negb (maxWait =? 0)%Z
                 then sleep (Qmin (inject_Z maxWait / 2) 1) ;;;
                      getUpdatedBatchJob_loop fuel maxWait (datetime_now (world s))
                 else ret None) s2
            | (Raise e, s2) => (Raise e, s2)
            | (OutOfFuel, s2) => (OutOfFuel, s2)
            end).
  { intros _. unfold getUpdatedBatchJob. unfold bind at 1. unfold get_world at 1.
    cbn [getUpdatedBatchJob_loop]. unfold bind at 1. unfold get_world at 1.
    rewrite Henter. unfold bind at 1. unfold call at 1. rewrite Hlocal.
    fold s1. unfold bind at 1.
    destruct (poll_remote s1) as [[[info|]|e|] s2]; reflexivity. }
  split.
  - intros info s' Hpoll. rewrite (Hstart (fun _ => ret None)), Hpoll. reflexivity.
  - intros s' -> Hpoll. rewrite (Hstart (fun _ => ret None)), Hpoll. reflexivity.
Qed.

(** Where a completion returned by the loop of [getUpdatedBatchJob] comes
    from: the local delegate, or a polling pass of the call. *)
Lemma getUpdatedBatchJob_loop_some (maxWait : Z) (entry : Q) (fuel : nat) :
  forall (s : state W) info s',
    registry_ok s ->
    getUpdatedBatchJob_loop fuel maxWait entry s = (Ret (Some info), s') ->
    (exists w0, getUpdatedLocalJob 0 w0 = (inr (Some info), world s')) \/
    (exists sp, registry_ok sp /\ extends s sp /\
                poll_remote sp = (Ret (Some info), s')).
Proof.
  induction fuel as [|fuel IH]; intros s info s' Hok; cbn [getUpdatedBatchJob_loop];
    [discriminate|].
  unfold bind at 1. unfold get_world at 1.
  destruct (Qlt_bool _ _ || _); [|discriminate].
  unfold bind at 1. unfold call at 1.
  destruct (getUpdatedLocalJob 0 (world s)) as [[e|[r|]] w1] eqn:Hlocal; try discriminate.
  - intros [= <- <-]. left. exists (world s). exact Hlocal.
  - set (s1 := {| world := w1; self := self s; trace := trace s |}).
    assert (Hok1 : registry_ok s1).
    { destruct Hok as [Hinj Hback Hbound Hub Hgone Honce]. split; auto. }
    unfold bind at 1.
    pose proof (poll_remote_keeps_once s1) as [Hk1 _].
    pose proof (poll_remote_adds (fun _ => True) (fun _ _ => I) (fun _ _ => I)
                  (fun _ _ => I) s1) as Hadd.
    destruct (poll_remote s1) as [[[info1|]|e|] s2] eqn:Hpoll; try discriminate.
    + intros [= <- <-]. right. exists s1. split; [exact Hok1|].
      split; [exists []; now rewrite app_nil_r|exact Hpoll].
    + simpl in Hk1, Hadd. destruct (negb (maxWait =? 0)%Z); [|discriminate].
      unfold bind at 1. unfold sleep at 1. intros Hrest.
      apply IH in Hrest as [Hloc|(sp & Hokp & Hext & Hp)].
      * left. exact Hloc.
      * right. exists sp. split; [exact Hokp|]. split; [|exact Hp].
        destruct Hext as (tp & Htp). simpl in Htp.
        destruct Hadd as (t2 & Ht2 & _). simpl in Ht2.
        exists (t2 ++ [EvSleep (datetime_now (world s2))
                               (Qmin (inject_Z maxWait / 2) 1)] ++ tp).
        rewrite Htp, Ht2, <- !app_assoc. reflexivity.
      * destruct (Hk1 Hok1) as [Hinj Hback Hbound Hub Hgone Honce]. split; simpl; auto.
        -- intros b. rewrite updated_ids_app. simpl. rewrite app_nil_r. apply Hub.
        -- intros b a. rewrite updated_ids_app. simpl. rewrite app_nil_r. apply Hgone.
        -- rewrite updated_ids_app. simpl. now rewrite app_nil_r.
Qed.

End CompletionReturned.

(** C5.  In any state the calls of the scheduler reach, a completion that
    [getUpdatedBatchJob] returns is the local delegate's, or it is the
    result of a polling pass of that call and is composed from a job detail
    [jd] the backend reported in that pass: [jd] is in a terminal state, its
    job is registered under the id of the completion and does not carry the
    killed flag; the wall time is absent when [jd] has no start timestamp
    and otherwise the stop timestamp (the time read after the answer when
    there is none) minus the start timestamp, in seconds, floored at
    epsilon, hence never zero for a positive epsilon; the exit code is the
    one of the container, or [EXIT_STATUS_UNAVAILABLE_VALUE] when [jd]
    reports none; the reason is FINISHED for SUCCEEDED and FAILED for
    FAILED.  And such a detail is turned into a completion: when the local
    delegate has nothing and the answer to the one batch of registered
    handles holds, before any other terminal detail, a terminal detail of a
    registered job without the killed flag, the call returns the completion
    composed from it, having dropped the records of the job. *)
Theorem completion_from_terminal_detail
    {W : Type} `{Backend W} (cfg : Settings) (w : W) (before : list api_call)
    (fuel : nat) (maxWait : Z) :
  let s := run before (init cfg w) in
  (forall info s',
     getUpdatedBatchJob fuel maxWait s = (Ret (Some info), s') ->
     (exists w0, getUpdatedLocalJob 0 w0 = (inr (Some info), world s')) \/
     (exists sp jd,
        extends s sp /\
        poll_remote sp = (Ret (Some info), s') /\
        In jd (described (new_events sp s')) /\
        In (EvUpdated (jobId jd) info) (new_events sp s') /\
        terminal jd /\
        (jobId jd ∉ killed_job_aws_ids (self sp)) /\
        Dict.get (jobId jd) (aws_id_to_bs_id (self sp)) = Some (jobID info) /\
        specified_completion (unix_now_ms (world s')) jd info /\
        ((0 < epsilon)%Q -> forall r, wallTime info = Some r -> (0 < r)%Q))) /\
  (forall batch d1 jd d2 w1 w2 bs_id,
     (0 <= maxWait)%Z ->
     getUpdatedLocalJob 0 (world s) = (inr None, w1) ->
     describe_batches (self s) = [batch] ->
     client_describe_jobs batch w1 = (inr (d1 ++ jd :: d2), w2) ->
     (forall jd', In jd' d1 -> ~ terminal jd') ->
     terminal jd ->
     Dict.get (jobId jd) (aws_id_to_bs_id (self s)) = Some bs_id ->
     jobId jd ∉ killed_job_aws_ids (self s) ->
     exists info s',
       getUpdatedBatchJob (S fuel) maxWait s = (Ret (Some info), s') /\
       jobID info = bs_id /\
       specified_completion (unix_now_ms w2) jd info /\
       world s' = w2 /\
       trace s' = trace s ++ [EvDescribe batch (inr (d1 ++ jd :: d2));
                              EvDropped (jobId jd) bs_id;
                              EvUpdated (jobId jd) info] /\
       Dict.get (jobId jd) (aws_id_to_bs_id (self s')) = None /\
       Dict.get bs_id (bs_id_to_aws_id (self s')) = None).
Proof.
  intros s.
  assert (Hok : registry_ok s).
  { destruct (run_keeps_once before (init cfg w)) as [Hk _]. apply Hk, registry_ok_init. }
  split.
  - intros info s' Hrun. unfold getUpdatedBatchJob, bind, get_world in Hrun.
    apply getUpdatedBatchJob_loop_some in Hrun as [Hlocal|(sp & Hokp & Hext & Hpoll)];
      [now left| |exact Hok].
    right. pose proof (poll_remote_exact sp (Some info) s' Hokp Hpoll) as Hout.
    destruct Hout as (d1 & jd & d2 & t0 & Hdesc & Ht & _ & Hterm & Hnk & Hget & Hc & _).
    exists sp, jd. split; [exact Hext|]. split; [exact Hpoll|].
    split; [rewrite Hdesc; apply in_app_iff; right; now left|].
    split; [rewrite Ht; apply in_app_iff; right; now left|].
    split; [exact Hterm|]. split; [exact Hnk|]. split; [exact Hget|].
    split; [eapply composed_specified; eauto|].
    intros Hpos r Hr. destruct Hc as (_ & _ & Hwall & _). rewrite Hwall in Hr.
    eapply get_runtime_nonzero; eauto.
  - intros batch d1 jd d2 w1 w2 bs_id Hpos Hlocal Hbatch Hd Hnone Hterm Hget Hnk.
    set (s1 := {| world := w1; self := self s; trace := trace s |}).
    assert (Hok1 : registry_ok s1).
    { destruct Hok as [Hinj Hback Hbound Hub Hgone Honce]. split; auto. }
    destruct (poll_remote_completes s1 batch d1 jd d2 w2 bs_id Hok1 Hbatch Hd
                Hnone Hterm Hget Hnk) as (info & Hc & Hpoll).
    eexists info, _. split.
    { apply (proj1 (getUpdatedBatchJob_first_pass fuel maxWait s w1 Hpos Hlocal)).
      exact Hpoll. }
    split; [apply Hc|]. split; [eapply composed_specified; eauto|].
    split; [reflexivity|]. split; [reflexivity|]. simpl.
    split; [apply DictFacts.get_remove_eq|apply DictFacts.get_remove_eq].
Qed.

(** C5 at work: a job is issued; the backend reports it SUCCEEDED, without
    a start timestamp and without an exit code, and the next poll returns
    its completion. *)
Lemma completion_from_terminal_detail_witness :
  let w := {| Sim.clock := 10;
              Sim.jobs := [{| Sim.sj_id := "job-1"; Sim.sj_status := "SUCCEEDED";
                              Sim.sj_started := None; Sim.sj_stopped := None;
                              Sim.sj_exit := None; Sim.sj_stops_in := None |}];
              Sim.handles := ["job-1"];
              Sim.describe_cost_ms := 0; Sim.kill_delay := 0;
              Sim.terminate_errors := []; Sim.deregister_error := None |} in
  let s := run [IssueBatchJob (Sim.sleep_job "first") None] (init Sim.cfg w) in
  exists info s',
    getUpdatedBatchJob 1 0 s = (Ret (Some info), s') /\
    jobID info = 0%Z /\
    wallTime info = None /\
    exitStatus info = 255%Z /\
    exitReason info = FINISHED /\
    getIssuedBatchJobIDs s = [0%Z] /\
    getIssuedBatchJobIDs s' = [].
Proof.
  intros w s.
  set (jd := {| jobId := "job-1"; status := Some "SUCCEEDED"; startedAt := None;
                stoppedAt := None; container := Some {| exitCode := None |};
                statusReason := None |}).
  destruct (proj2 (@completion_from_terminal_detail Sim.t Sim.backend Sim.cfg w
                     [IssueBatchJob (Sim.sleep_job "first") None] 0 0%Z)
              ["job-1"] [] jd [] (world s)
              (snd (client_describe_jobs ["job-1"] (world s))) 0%Z)
    as (info & s' & Hrun & Hid & (Hwall & Hexit & Hfin & _) & _ & _ & Hgone & Hgone').
  - lia.
  - reflexivity.
  - vm_compute. reflexivity.
  - vm_compute. reflexivity.
  - intros jd' [].
  - left. reflexivity.
  - vm_compute. reflexivity.
  - vm_compute. set_solver.
  - exists info, s'. split; [exact Hrun|]. split; [exact Hid|].
    split; [exact Hwall|]. split; [exact Hexit|]. split; [now apply Hfin|].
    split; [vm_compute; reflexivity|].
    assert (Hs' : snd (getUpdatedBatchJob 1 0 s) = s') by exact (f_equal snd Hrun).
    rewrite <- Hs'. vm_compute. reflexivity.
Defined.

(** ** No completion after a kill *)

Section NeverAfterKill.
Context {W : Type} `{Backend W}.

Lemma kill_pending_app (t1 : list event) :
  forall c t2, kill_pending c (t1 ++ t2) = kill_pending (kill_pending c t1) t2.
Proof.
  induction t1 as [|e t1 IH]; intros c t2; [reflexivity|].
  destruct e; simpl; apply IH.
Qed.

Lemma never_after_kill_app (t1 : list event) :
  forall c t2,
    never_after_kill c (t1 ++ t2) <->
    never_after_kill c t1 /\ never_after_kill (kill_pending c t1) t2.
Proof.
  induction t1 as [|e t1 IH]; intros c t2; [simpl; tauto|].
  destruct e; simpl; rewrite ?IH; tauto.
Qed.

(** Events that are no completion and record no pair. *)
Lemma never_after_kill_quiet (t : list event) :
  Forall quiet_or_submit t -> forall c, never_after_kill c t.
Proof.
  induction 1 as [|e t He Ht IH]; intros c; [exact I|].
  destruct e; simpl in *; auto; contradiction.
Qed.

Lemma kill_pending_quiet (t : list event) :
  Forall quiet_or_submit t ->
  forall c a, In a (kill_pending c t) -> In a c \/ exists r, In (EvTerminate a r) t.
Proof.
  induction 1 as [|e t He Ht IH]; intros c a; [simpl; auto|].
  destruct e; simpl in *; try contradiction;
    try (intros Hin; destruct (IH c a Hin) as [Hc|(r0 & Hr)];
         [now left|right; exists r0; now right]).
  intros Hin. destruct (IH _ a Hin) as [[->|Hc]|(r0 & Hr)].
  - right. eexists. left. reflexivity.
  - now left.
  - right. exists r0. now right.
Qed.

Lemma kill_pending_dropped (done : list (string * Z)) c :
  kill_pending c (map (fun p => EvDropped (fst p) (snd p)) done) = c.
Proof. induction done; simpl; auto. Qed.

Lemma never_after_kill_dropped (done : list (string * Z)) c :
  never_after_kill c (map (fun p => EvDropped (fst p) (snd p)) done).
Proof. induction done; simpl; auto. Qed.

Lemma kill_pending_describes (t : list event) c :
  Forall is_describe t -> kill_pending c t = c.
Proof.
  induction 1 as [|e t He Ht IH]; [reflexivity|].
  destruct e; simpl in *; try contradiction. exact IH.
Qed.

Global Instance keeps_kill_preorder : PreOrder (@keeps_kill W).
Proof.
  split.
  - intros s Hs. exact Hs.
  - intros s1 s2 s3 H12 H23 Hs. auto.
Qed.

Global Instance kills_preorder : PreOrder (@kills W).
Proof.
  split.
  - intros s. split; [reflexivity|]. intros a r. unfold new_events.
    rewrite drop_all. intros [].
  - intros s1 s2 s3 [F12 K12] [F23 K23]. split; [etransitivity; eauto|].
    intros a r. rewrite (new_events_app s1 s2 s3) by now apply frame_extends.
    rewrite in_app_iff. intros [Hin|Hin]; [|now apply (K23 a r)].
    destruct F23 as (_ & _ & _ & Hk & _). apply Hk. now apply (K12 a r).
Qed.

(** A step that cancels nothing. *)
Lemma frame_kills (s s' : state W) :
  frame s s' -> adds (fun e => forall a r, e <> EvTerminate a r) s s' -> kills s s'.
Proof.
  intros Hf Hadd. split; [exact Hf|]. intros a r Hin.
  apply adds_new_events in Hadd. rewrite List.Forall_forall in Hadd.
  destruct (Hadd _ Hin a r). reflexivity.
Qed.

Lemma respects_frame_kills {A} (m : M W A) :
  respects (@frame W) m ->
  respects (@adds W (fun e => forall a r, e <> EvTerminate a r)) m ->
  respects (@kills W) m.
Proof. intros Hf Ha s. apply frame_kills; [apply Hf|apply Ha]. Qed.

Lemma kills_sleep d : respects (@kills W) (sleep d).
Proof.
  apply respects_frame_kills; [apply frame_sleep|].
  apply adds_sleep. intros now0 d0 a r. discriminate.
Qed.

(** The one attempt of [_try_terminate]: the flag, then the cancel call. *)
Lemma kills_try_terminate aws_id : respects (@kills W) (_try_terminate aws_id).
Proof.
  unfold _try_terminate. apply respects_retry; try apply _; [apply kills_sleep|].
  intros s. split.
  - apply (respects_bind (@frame W) (modify_self _) (fun _ => client_call _ _)).
    + apply frame_modify_self. intros b; simpl. repeat split; auto. set_solver.
    + intros _. apply frame_client_call. intros r; exact I.
  - unfold bind, modify_self, client_call, new_events. simpl.
    destruct (client_terminate_job aws_id "Killed by Toil" (world s)) as [[e|[]] w];
      simpl; rewrite drop_app_length; intros a r [[= <- _]|[]]; set_solver.
Qed.

Lemma kills_killBatchJobs fuel job_ids : respects (@kills W) (killBatchJobs fuel job_ids).
Proof.
  unfold killBatchJobs.
  apply respects_bind; try apply _.
  { apply respects_frame_kills; [apply frame_call|apply adds_call]. }
  intros _. apply respects_bind; try apply _.
  - apply respects_for; try apply _. intros bs.
    apply respects_bind; try apply _; [apply respects_get_self; apply _|intros b].
    destruct (Dict.get bs (bs_id_to_aws_id b));
      [apply kills_try_terminate|apply respects_ret; apply _].
  - intros _. apply respects_for; try apply _. intros bs.
    apply respects_bind; try apply _; [apply respects_get_self; apply _|intros b].
    destruct (Dict.get bs (bs_id_to_aws_id b)); [|apply respects_ret; apply _].
    apply respects_frame_kills; [apply frame_wait_until_stopped|].
    apply adds_wait_until_stopped_only; intros; discriminate.
Qed.

Lemma kills_shutdown : respects (@kills W) shutdown.
Proof.
  unfold shutdown.
  apply respects_bind; try apply _.
  { apply respects_frame_kills; [apply frame_call|apply adds_call]. }
  intros _. apply respects_bind; try apply _; [apply respects_get_self; apply _|intros b].
  apply respects_bind; try apply _.
  - apply respects_for; try apply _. intros a. apply kills_try_terminate.
  - intros _. apply respects_frame_kills; [apply frame_destroy_job_definition|].
    unfold _destroy_job_definition. apply adds_retry; [intros; discriminate|].
    apply respects_bind; try apply _; [apply respects_get_self; apply _|intros b'].
    destruct (job_definition b'); [|apply respects_ret; apply _].
    apply respects_bind; try apply _; [apply adds_client_call; intros; discriminate|].
    intros _. apply adds_modify_self.
Qed.

Lemma kills_getRunningBatchJobIDs : respects (@kills W) getRunningBatchJobIDs.
Proof.
  apply respects_frame_kills; [apply frame_getRunningBatchJobIDs|].
  intros s. unfold getRunningBatchJobIDs, bind, get_self.
  apply (adds_running_batches_only _ (describe_batches (self s))); intros; discriminate.
Qed.

(** A step that records and completes nothing and whose cancel calls leave
    the flag set keeps the invariant. *)
Lemma kill_inv_step (s s' : state W) (t : list event) :
  registry_ok s' ->
  trace s' = trace s ++ t ->
  Forall quiet_or_submit t ->
  (forall a r, In (EvTerminate a r) t -> a ∈ killed_job_aws_ids (self s')) ->
  killed_job_aws_ids (self s) ⊆ killed_job_aws_ids (self s') ->
  aws_id_to_bs_id (self s') = aws_id_to_bs_id (self s) ->
  kill_inv s -> kill_inv s'.
Proof.
  intros Hok' Ht Hq Hflag Hsub Hmap (Hok & Hnever & Hpend).
  split; [exact Hok'|]. rewrite Ht. split.
  - apply never_after_kill_app. split; [exact Hnever|].
    now apply never_after_kill_quiet.
  - intros a. rewrite kill_pending_app. intros Hin.
    apply (kill_pending_quiet t Hq) in Hin as [Hin|(r & Hr)].
    + destruct (Hpend a Hin) as [Hk|Hnone]; [left; now apply Hsub|right].
      now rewrite Hmap.
    + left. now apply (Hflag a r).
Qed.

Lemma kills_keeps_kill (s s' : state W) : kills s s' -> keeps_kill s s'.
Proof.
  intros [Hf Hk] Hinv. pose proof Hinv as (Hok & _).
  pose proof (registry_ok_frame _ _ Hf Hok) as Hok'.
  destruct Hf as (_ & Ha & _ & Hsub & t & Ht & Hq).
  apply (kill_inv_step s s' t); auto.
  - now apply quiet_quiet_or_submit.
  - intros a r Hin. apply (Hk a r). unfold new_events. now rewrite Ht, drop_app_length.
Qed.

Lemma respects_kills_keeps_kill {A} (m : M W A) :
  respects (@kills W) m -> respects (@keeps_kill W) m.
Proof. intros Hm s. apply kills_keeps_kill, Hm. Qed.

Lemma filter_other_in (a x : string) (c : list string) :
  In x (List.filter (fun y => negb (bool_decide (y = a))) c) <-> In x c /\ x <> a.
Proof.
  rewrite filter_In. split; intros [Hin Hne]; split; auto.
  - intros ->. rewrite bool_decide_eq_true_2 in Hne by reflexivity. discriminate.
  - now rewrite bool_decide_eq_false_2.
Qed.

Lemma issueBatchJob_keeps_kill job_desc job_environment :
  respects (@keeps_kill W) (issueBatchJob job_desc job_environment).
Proof.
  intros s Hinv. pose proof Hinv as (Hok & Hnever & Hpend).
  pose proof (issueBatchJob_keeps_once job_desc job_environment s) as [Hok' _].
  specialize (Hok' Hok).
  pose proof (adds_issueBatchJob_only
                (fun e => forall a r, e <> EvTerminate a r) job_desc job_environment
                ltac:(intros; discriminate) ltac:(intros; discriminate)
                ltac:(intros; discriminate) ltac:(intros; discriminate) s) as Hvoc.
  apply adds_new_events in Hvoc. rewrite List.Forall_forall in Hvoc.
  revert Hok' Hvoc. apply issueBatchJob_cases.
  - intros s' Hf Hok' Hvoc. apply (kills_keeps_kill s s'); [|exact Hinv]. split; auto.
    intros a r Hin. destruct (Hvoc _ Hin a r). reflexivity.
  - intros s' (Hb & Ha & Hi & Hsub & t & Ht & Hq) Hok' Hvoc.
    apply (kill_inv_step s s' t); auto.
    intros a r Hin. exfalso. apply (Hvoc (EvTerminate a r)) with (a := a) (r := r);
      [|reflexivity].
    unfold new_events. now rewrite Ht, drop_app_length.
  - intros s' (aws_id & spec & t & Hb & Ha & Hi & Hsub & Ht & Hq & _) Hok' Hvoc.
    assert (Hnew : new_events s s'
                   = t ++ [EvSubmit spec (inr aws_id); EvRecorded aws_id (jobIndex (self s))]).
    { unfold new_events. rewrite Ht. apply drop_app_length. }
    assert (Hpt : forall a, In a (kill_pending (kill_pending [] (trace s)) t) ->
                            In a (kill_pending [] (trace s))).
    { intros a Hin.
      apply (kill_pending_quiet t (quiet_quiet_or_submit t Hq)) in Hin as [Hin|(r & Hr)];
        auto.
      exfalso. apply (Hvoc (EvTerminate a r)) with (a := a) (r := r); [|reflexivity].
      rewrite Hnew. apply in_app_iff. now left. }
    split; [exact Hok'|]. rewrite Ht. split.
    + apply never_after_kill_app. split; [exact Hnever|].
      apply never_after_kill_app. split.
      * apply never_after_kill_quiet. now apply quiet_quiet_or_submit.
      * simpl. exact I.
    + intros a. rewrite !kill_pending_app. simpl.
      rewrite filter_other_in. intros [Hin Hne].
      destruct (Hpend a (Hpt a Hin)) as [Hk|Hnone]; [left; now apply Hsub|right].
      rewrite Ha. now rewrite DictFacts.get_set_ne by auto.
Qed.

Lemma polled_keeps_kill (s s' : state W) r : polled s s' r -> keeps_kill s s'.
Proof.
  intros Hp (Hok & Hnever & Hpend).
  pose proof (proj1 (polled_keeps_once s s' r Hok Hp) Hok) as Hok'.
  split; [exact Hok'|].
  destruct Hp as (s1 & s2 & done & Hframe & Hself & Hdescr & Hdrop & _ & Hres).
  destruct (dropped_world_trace _ _ _ Hdrop) as (_ & Ht2 & _).
  destruct Hframe as (_ & _ & _ & _ & t1 & Ht1 & Hq1).
  rewrite Ht1, drop_app_length in Hdescr.
  assert (Hd1 : Forall is_describe t1) by now apply List.Forall_forall.
  set (drops := map (fun p => EvDropped (fst p) (snd p)) done) in *.
  assert (Hpend2 : kill_pending [] (trace s2) = kill_pending [] (trace s)).
  { rewrite Ht2, Ht1, !kill_pending_app. unfold drops.
    now rewrite kill_pending_dropped, kill_pending_describes. }
  assert (Hnever2 : never_after_kill [] (trace s2)).
  { rewrite Ht2, Ht1. apply never_after_kill_app. split.
    - apply never_after_kill_app. split; [exact Hnever|].
      apply never_after_kill_quiet. now apply quiet_quiet_or_submit.
    - apply never_after_kill_dropped. }
  assert (Hstate2 : forall a, In a (kill_pending [] (trace s)) ->
            a ∈ killed_job_aws_ids (self s2) \/
            Dict.get a (aws_id_to_bs_id (self s2)) = None).
  { intros a Hin.
    destruct (in_dec string_dec a (map fst done)) as [Hd|Hnd].
    - right. now apply (dropped_aws s1 s2 done a Hdrop).
    - destruct (Hpend a Hin) as [Hk|Hnone].
      + left. rewrite (dropped_killed s1 s2 done a Hdrop), Hself. auto.
      + right. destruct (dropped_aws s1 s2 done a Hdrop) as [_ Hkeep].
        rewrite Hkeep, Hself; auto. }
  destruct Hres as [(-> & _ & _)|(a & info & pre & jd & w & _ & -> & Hdone & _ & Hnk & _)].
  - split; [exact Hnever2|]. now rewrite Hpend2.
  - simpl. split.
    + apply never_after_kill_app. split; [exact Hnever2|].
      simpl. split; [|exact I]. rewrite Hpend2. intros Hin.
      destruct (Hpend a Hin) as [Hk|Hnone]; [contradiction|].
      assert (Hreg : Dict.get a (aws_id_to_bs_id (self s1)) = Some (jobID info)).
      { apply (dropped_registered s1 s2 done a (jobID info) Hdrop).
        rewrite Hdone. apply in_app_iff. right. now left. }
      rewrite Hself in Hreg. congruence.
    + rewrite kill_pending_app. simpl. now rewrite Hpend2.
Qed.

Lemma poll_remote_keeps_kill : respects (@keeps_kill W) poll_remote.
Proof.
  intros s Hinv. pose proof Hinv as (Hok & _).
  eapply polled_keeps_kill; eauto. now apply poll_remote_polled.
Qed.

Lemma getUpdatedBatchJob_keeps_kill fuel maxWait :
  respects (@keeps_kill W) (getUpdatedBatchJob fuel maxWait).
Proof.
  unfold getUpdatedBatchJob.
  apply respects_bind; try apply _; [apply respects_get_world; apply _|intros entry].
  induction fuel as [|fuel IH]; simpl.
  - apply respects_out_of_fuel; apply _.
  - apply respects_bind; try apply _; [apply respects_get_world; apply _|intros now].
    destruct (Qlt_bool (now - entry) (inject_Z maxWait) || (maxWait =? 0)%Z);
      [|apply respects_ret; apply _].
    apply respects_bind; try apply _.
    { apply respects_kills_keeps_kill, respects_frame_kills;
        [apply frame_call|apply adds_call]. }
    intros [result|]; [apply respects_ret; apply _|].
    apply respects_bind; try apply _; [apply poll_remote_keeps_kill|].
    intros [info|]; [apply respects_ret; apply _|].
    destruct (negb (maxWait =? 0)%Z); [|apply respects_ret; apply _].
    apply respects_bind; try apply _; auto.
    apply respects_kills_keeps_kill, kills_sleep.
Qed.

Lemma run_keeps_kill (calls : list api_call) (s : state W) :
  keeps_kill s (run calls s).
Proof.
  revert s. induction calls as [|c calls IH]; intros s; simpl.
  - reflexivity.
  - etransitivity; [|apply IH]. destruct c; simpl.
    + apply issueBatchJob_keeps_kill.
    + apply getUpdatedBatchJob_keeps_kill.
    + apply kills_keeps_kill, kills_getRunningBatchJobIDs.
    + apply kills_keeps_kill, kills_killBatchJobs.
    + apply kills_keeps_kill, kills_shutdown.
Qed.

(** The cancel call of [_try_terminate] is made with the flag set: when
    it fails with an error that is not retried, the flag stays. *)
Lemma try_terminate_raises aws_id (s : state W) (e : exn) (w' : W) :
  client_terminate_job aws_id "Killed by Toil" (world s) = (inl e, w') ->
  e <> BotoServerError ->
  _try_terminate aws_id s =
    (Raise e,
     {| world := w';
        self := with_killed_job_aws_ids
                  (killed_job_aws_ids (self s) ∪ {[aws_id]}) (self s);
        trace := trace s ++ [EvTerminate aws_id (inl e)] |}).
Proof.
  intros Hcall Hne. unfold _try_terminate, retry.
  destruct retry_intervals as [|d rest]; simpl;
    unfold bind, modify_self, client_call; simpl; rewrite Hcall;
    destruct e; try reflexivity; contradiction.
Qed.

End NeverAfterKill.

(** C1.  Over any sequence of calls of the scheduler, against any backend.
    The completions returned for remote jobs carry pairwise distinct job
    ids, so at most one is emitted per job.  No completion is returned for
    a handle after a cancel call has named it (unless the backend hands the
    same handle out again for a new job).  The killed flag is set before
    the cancel call is issued: [_try_terminate] leaves the flag set whatever
    the outcome of the call, also when the call raises at once; and after
    any call of the scheduler every handle one of its cancel calls named
    carries the flag.  A job whose handle carries the flag gets no
    completion in any continuation of the run.  A polling pass that returns
    has suppressed every terminal report it was given before the one it
    returns a completion for: each belongs to a flagged job, no completion
    is returned for it, and its records, both registry entries and the
    flag, are removed.  And a terminal report of a flagged job is treated
    so: when it is the only terminal report in the answer about the one
    batch of registered handles, a single poll returns nothing and leaves
    the state with the records and the flag of that job removed. *)
Theorem completion_at_most_once_never_after_kill
    {W : Type} `{Backend W} (cfg : Settings) (w : W)
    (before after : list api_call) :
  let s1 := run before (init cfg w) in
  let s2 := run after s1 in
  List.NoDup (updated_ids (trace s2)) /\
  never_after_kill [] (trace s2) /\
  (forall (s : state W) (aws_id : string),
     aws_id ∈ killed_job_aws_ids (self (snd (_try_terminate aws_id s))) /\
     forall e w',
       client_terminate_job aws_id "Killed by Toil" (world s) = (inl e, w') ->
       e <> BotoServerError ->
       _try_terminate aws_id s =
         (Raise e,
          {| world := w';
             self := with_killed_job_aws_ids
                       (killed_job_aws_ids (self s) ∪ {[aws_id]}) (self s);
             trace := trace s ++ [EvTerminate aws_id (inl e)] |})) /\
  (forall (c : api_call) (aws_id : string) r,
     In (EvTerminate aws_id r) (new_events s1 (run_call c s1)) ->
     aws_id ∈ killed_job_aws_ids (self (run_call c s1))) /\
  (forall (bs_id : Z) (aws_id : string),
     Dict.get bs_id (bs_id_to_aws_id (self s1)) = Some aws_id ->
     aws_id ∈ killed_job_aws_ids (self s1) ->
     exists t, trace s2 = trace s1 ++ t /\ ~ In bs_id (updated_ids t)) /\
  (forall r s3, poll_remote s1 = (Ret r, s3) -> pass_outcome s1 s3 r) /\
  (forall fuel batch d1 jd d2 w1 w2 bs_id,
     getUpdatedLocalJob 0 (world s1) = (inr None, w1) ->
     describe_batches (self s1) = [batch] ->
     client_describe_jobs batch w1 = (inr (d1 ++ jd :: d2), w2) ->
     (forall jd', In jd' (d1 ++ d2) -> ~ terminal jd') ->
     terminal jd ->
     Dict.get (jobId jd) (aws_id_to_bs_id (self s1)) = Some bs_id ->
     jobId jd ∈ killed_job_aws_ids (self s1) ->
     getUpdatedBatchJob (S fuel) 0 s1 =
       (Ret None,
        {| world := w2;
           self := self (drop_pair (jobId jd, bs_id) s1);
           trace := trace s1 ++ [EvDescribe batch (inr (d1 ++ jd :: d2));
                                 EvDropped (jobId jd) bs_id] |})).
Proof.
  intros s1 s2.
  assert (Hok1 : registry_ok s1).
  { apply (run_keeps_once before (init cfg w)), registry_ok_init. }
  assert (Hok2 : registry_ok s2).
  { apply (run_keeps_once after s1), Hok1. }
  split; [apply (ok_updated_once _ Hok2)|].
  split.
  { destruct (run_keeps_kill (before ++ after) (init cfg w)) as (_ & Hnever & _).
    - split; [apply registry_ok_init|]. split; [exact I|]. intros a [].
    - unfold run in Hnever. rewrite fold_left_app in Hnever. exact Hnever. }
  split.
  { intros s aws_id. split; [apply try_terminate_flag_set|].
    intros e w' Hcall Hne. now apply try_terminate_raises. }
  split.
  { intros c a r. destruct c; simpl.
    - intros Hin. exfalso.
      pose proof (adds_issueBatchJob_only
                    (fun e => forall a r, e <> EvTerminate a r) job_desc job_environment
                    ltac:(intros; discriminate) ltac:(intros; discriminate)
                    ltac:(intros; discriminate) ltac:(intros; discriminate) s1) as Hvoc.
      apply adds_new_events in Hvoc. rewrite List.Forall_forall in Hvoc.
      now apply (Hvoc _ Hin a r).
    - intros Hin. exfalso.
      pose proof (adds_getUpdatedBatchJob_only
                    (fun e => forall a r, e <> EvTerminate a r) fuel maxWait
                    ltac:(intros; discriminate) ltac:(intros; discriminate)
                    ltac:(intros; discriminate) ltac:(intros; discriminate) s1) as Hvoc.
      apply adds_new_events in Hvoc. rewrite List.Forall_forall in Hvoc.
      now apply (Hvoc _ Hin a r).
    - apply (proj2 (kills_getRunningBatchJobIDs s1)).
    - apply (proj2 (kills_killBatchJobs fuel job_ids s1)).
    - apply (proj2 (kills_shutdown s1)). }
  split.
  { intros bs_id aws_id Hget Hk.
    apply (run_keeps_once after s1); auto.
    split; [eapply ok_bound; eauto|].
    intros a Ha. apply (ok_backed _ Hok1) in Ha. congruence. }
  split.
  { intros r s3 Hpoll. now apply poll_remote_exact. }
  intros fuel batch d1 jd d2 w1 w2 bs_id Hlocal Hbatch Hd Hnone Hterm Hget Hk.
  set (s0 := {| world := w1; self := self s1; trace := trace s1 |}).
  assert (Hok0 : registry_ok s0).
  { destruct Hok1 as [Hinj Hback Hbound Hub Hgone Honce]. split; auto. }
  apply (proj2 (getUpdatedBatchJob_first_pass fuel 0 s1 w1 (Z.le_refl 0) Hlocal));
    [reflexivity|].
  apply (poll_remote_suppresses_report s0 batch d1 jd d2 w2 bs_id); auto.
Qed.

(** C1 at work: two jobs are issued and the first is killed; the backend then
    reports it FAILED, and further polling neither completes it nor keeps
    its records. *)
Lemma completion_at_most_once_never_after_kill_witness :
  let before := [IssueBatchJob (Sim.sleep_job "first") None;
                 IssueBatchJob (Sim.sleep_job "second") None;
                 KillBatchJobs 5 [0%Z]] in
  let after := [GetUpdatedBatchJob 5 0; GetUpdatedBatchJob 5 0] in
  let s1 := run before (init Sim.cfg Sim.two_running) in
  let s2 := run after s1 in
  Dict.get 0%Z (bs_id_to_aws_id (self s1)) = Some "job-1" /\
  "job-1" ∈ killed_job_aws_ids (self s1) /\
  (exists t, trace s2 = trace s1 ++ t /\ ~ In 0%Z (updated_ids t)) /\
  In (EvDropped "job-1" 0%Z) (new_events s1 s2) /\
  never_after_kill [] (trace s2) /\
  Dict.get 0%Z (bs_id_to_aws_id (self s2)) = None /\
  "job-1" ∉ killed_job_aws_ids (self s2).
Proof.
  intros before after s1 s2.
  assert (Hget : Dict.get 0%Z (bs_id_to_aws_id (self s1)) = Some "job-1")
    by (vm_compute; reflexivity).
  assert (Hk : "job-1" ∈ killed_job_aws_ids (self s1))
    by (apply (bool_decide_eq_true_1 ("job-1" ∈ killed_job_aws_ids (self s1)));
        vm_compute; reflexivity).
  destruct (completion_at_most_once_never_after_kill Sim.cfg Sim.two_running before after)
    as (_ & Hnever & _ & _ & Hflagged & _).
  split; [exact Hget|]. split; [exact Hk|]. split; [exact (Hflagged 0%Z "job-1" Hget Hk)|].
  split; [vm_compute; tauto|]. split; [exact Hnever|].
  split; [vm_compute; reflexivity|].
  apply (bool_decide_eq_false_1 ("job-1" ∈ killed_job_aws_ids (self s2))).
  vm_compute. reflexivity.
Defined.
